(** * A shallow embedding of the kernel core (timer, I/O endpoints, pipe,
      VirtIO block driver, physical page pool, page-fault handler, KTFS)

    Every definition below is a transcription of one C function of the
    kernel sources; the name of the function and of the file it lives in
    is given with each definition.  Machine integers are [Z] with the
    wrap-around written out, linked lists are Rocq lists in link order,
    and code that can trap or run off a buffer returns [option] or a
    dedicated result type. *)

From Stdlib Require Import ZArith List String Bool Lia.
From stdpp Require Import base option list gmap.
Import ListNotations.
Local Open Scope Z_scope.

(** ** Machine integers *)

Definition UINT64_MAX : Z := 2 ^ 64 - 1.
Definition ULLONG_MAX : Z := 2 ^ 64 - 1.

(** Conversion to [unsigned long long] / [uint64_t]. *)
Definition wrap64 (z : Z) : Z := z mod 2 ^ 64.
(** Conversion to [uint32_t]. *)
Definition wrap32 (z : Z) : Z := z mod 2 ^ 32.
(** Conversion to [int]: two's complement, 32 bits. *)
Definition to_int (z : Z) : Z := (z + 2 ^ 31) mod 2 ^ 32 - 2 ^ 31.
(** Conversion to [long]: two's complement, 64 bits. *)
Definition to_long (z : Z) : Z := (z + 2 ^ 63) mod 2 ^ 64 - 2 ^ 63.

(** Error numbers (error.h is not among the sources; only their being
    distinct positive integers matters, the values follow the kernel's
    error.h numbering). *)
Definition EINVAL : Z := 1.
Definition EBUSY : Z := 2.
Definition ENOTSUP : Z := 3.
Definition ENODEV : Z := 4.
Definition EIO : Z := 5.
Definition EBADFMT : Z := 6.
Definition ENOENT : Z := 7.
Definition EACCESS : Z := 8.
Definition EBADFD : Z := 9.
Definition EMFILE : Z := 10.
Definition EMPROC : Z := 11.
Definition EMTHR : Z := 12.
Definition ECHILD : Z := 13.
Definition ENOMEM : Z := 14.
Definition ENODATABLKS : Z := 15.
Definition ENOINODEBLKS : Z := 16.
Definition EPIPE : Z := 17.

(** ** timer.c *)

Module Timer.

(** [struct alarm]: [aid] is the address of the alarm (it also names the
    condition embedded in it), [cond_name] is [al->cond.name], [twake]
    the wake time.  The [next] link is the position in the list. *)
Record alarm := mkAlarm { aid : Z; cond_name : string; twake : Z }.

Inductive event :=
| CondWait (a : Z)        (* condition_wait(&al->cond) *)
| CondBroadcast (a : Z).  (* condition_broadcast(&al->cond) *)

(** The globals of timer.c and the CSR state they drive.  [nreads]
    counts the executions of [rdtime()] so far. *)
Record timer := mkTimer {
  sleep_list : list alarm;
  stcmp : Z;
  stie : bool;
  intr_en : bool;
  nreads : nat;
  trace : list event
}.

Definition set_twake (al : alarm) (t : Z) : alarm :=
  mkAlarm (aid al) (cond_name al) t.

Definition is_interrupter (al : alarm) : bool :=
  String.eqb (cond_name al) "interrupter".

Section WithClock.

(** [mtime n] is the value of the time CSR at the [n]-th read.
    [TIMER_FREQ] comes from conf.h, which is not among the sources. *)
Variable mtime : nat -> Z.
Variable TIMER_FREQ : Z.

Definition rdtime (st : timer) : Z * timer :=
  (mtime (nreads st),
   mkTimer (sleep_list st) (stcmp st) (stie st) (intr_en st)
           (S (nreads st)) (trace st)).

(** The scan of [alarm_sleep] behind the head:
    [while (curr != NULL && curr->twake < al->twake)]. *)
Fixpoint insert_behind (al : alarm) (l : list alarm) : list alarm :=
  match l with
  | [] => [al]
  | curr :: rest =>
      if twake curr <? twake al then curr :: insert_behind al rest
      else al :: curr :: rest
  end.

(** The three cases of the insertion in [alarm_sleep]. *)
Definition sleep_insert (al : alarm) (l : list alarm) : list alarm :=
  match l with
  | [] => [al]
  | h :: rest =>
      if twake al <? twake h then al :: h :: rest
      else h :: insert_behind al rest
  end.

Definition head_twake (l : list alarm) (dflt : Z) : Z :=
  match l with
  | h :: _ => twake h
  | [] => dflt
  end.

(** [alarm_sleep(al, tcnt)].  The alarm is passed by value and returned,
    since [al->twake] is updated in place.  The function is followed up
    to the point where the caller is suspended in [condition_wait]. *)
Definition alarm_sleep (al : alarm) (tcnt : Z) (st : timer) : alarm * timer :=
  let '(now, st) := rdtime st in
  let al :=
    if UINT64_MAX - twake al <? tcnt then set_twake al UINT64_MAX
    else set_twake al (twake al + tcnt) in
  if twake al <? now then (al, st)
  else
    let pie := intr_en st in                       (* disable_interrupts *)
    let l := sleep_insert al (sleep_list st) in
    let tr :=
      if negb (is_interrupter al) then trace st ++ [CondWait (aid al)]
      else trace st in
    (al, mkTimer l (head_twake l (stcmp st))       (* set_stcmp *)
                 true                              (* csrs_sie(STIE) *)
                 pie                               (* restore_interrupts *)
                 (nreads st) tr).

Definition alarm_sleep_ms (al : alarm) (ms : Z) (st : timer) : alarm * timer :=
  alarm_sleep al (wrap64 (ms * (TIMER_FREQ / 1000))) st.

(** The loop of [handle_timer_interrupt].  In the branch of the
    preemption alarm the code re-arms [&interruptAlrm]; [timer_init]
    gives the name "interrupter" to that alarm only, so the alarm re-armed
    is the head that was just reset and unlinked. *)
Fixpoint isr_loop (fuel : nat) (now : Z) (st : timer) : option timer :=
  match sleep_list st with
  | [] => Some st
  | h :: rest =>
      if twake h <? now then
        match fuel with
        | O => None
        | S fuel' =>
            if is_interrupter h then
              let '(t, st1) := rdtime st in        (* alarm_reset *)
              let h' := set_twake h t in
              let st2 := mkTimer rest (stcmp st1) (stie st1) (intr_en st1)
                                 (nreads st1) (trace st1) in
              isr_loop fuel' now (snd (alarm_sleep_ms h' 20 st2))
            else
              isr_loop fuel' now
                (mkTimer rest (stcmp st) (stie st) (intr_en st) (nreads st)
                         (trace st ++ [CondBroadcast (aid h)]))
        end
      else Some st
  end.

(** [handle_timer_interrupt()].  One unit of fuel per alarm on the list
    is enough when the clock does not run backwards (see
    [isr_loop_terminates]). *)
Definition handle_timer_interrupt (st : timer) : option timer :=
  let '(now, st) := rdtime st in
  let pie := intr_en st in
  let st := mkTimer (sleep_list st) (stcmp st) (stie st) false
                    (nreads st) (trace st) in
  match isr_loop (length (sleep_list st)) now st with
  | None => None
  | Some st =>
      let st := mkTimer (sleep_list st) (stcmp st) (stie st) pie
                        (nreads st) (trace st) in
      match sleep_list st with
      | h :: _ =>
          Some (mkTimer (sleep_list st) (twake h) (stie st) (intr_en st)
                        (nreads st) (trace st))
      | [] =>
          Some (mkTimer (sleep_list st) (stcmp st) false (intr_en st)
                        (nreads st) (trace st))
      end
  end.

End WithClock.

End Timer.

(** ** io.c: endpoints and their reference counts *)

Module Io.

(** What a call can end in: a result, a failed [assert], the use of a
    pointer that names no endpoint, or a cut-off of the model's
    recursion (never reached with enough fuel). *)
Inductive outcome (A : Type) :=
| Done (a : A)
| AssertFailed
| BadPointer
| OutOfFuel.
Arguments Done {A} a.
Arguments AssertFailed {A}.
Arguments BadPointer {A}.
Arguments OutOfFuel {A}.

(** The [close] entry of an endpoint's operation table. *)
Inductive close_entry :=
| CloseNull                  (* no close entry *)
| CloseLeaf                  (* a close that touches no other endpoint *)
| CloseSeekio (bkgio : Z).   (* seekio_close; [bkgio] is [sio->bkgio] *)

(** [struct io].  [acquired] and [released] are ghost counters: the
    number of [ioinit1]/[ioaddref] calls and of [ioclose] calls made on
    the endpoint.  The code never reads them. *)
Record io := mkIo {
  intf_close : close_entry;
  refcnt : Z;
  acquired : Z;
  released : Z
}.

(** The endpoints in memory by address, and the log of the calls of an
    operation table's [close], oldest first. *)
Record iostate := mkIoState {
  heap : gmap Z io;
  close_calls : list Z
}.

Definition ioinit0 (p : Z) (c : close_entry) (st : iostate) : iostate :=
  mkIoState (<[p := mkIo c 0 0 0]> (heap st)) (close_calls st).

Definition ioinit1 (p : Z) (c : close_entry) (st : iostate) : iostate :=
  mkIoState (<[p := mkIo c 1 1 0]> (heap st)) (close_calls st).

Definition iorefcnt (p : Z) (st : iostate) : outcome Z :=
  match heap st !! p with
  | None => BadPointer
  | Some e => Done (refcnt e)
  end.

Definition ioaddref (p : Z) (st : iostate) : outcome iostate :=
  match heap st !! p with
  | None => BadPointer
  | Some e =>
      Done (mkIoState
              (<[p := mkIo (intf_close e) (wrap64 (refcnt e + 1))
                           (acquired e + 1) (released e)]> (heap st))
              (close_calls st))
  end.

(** [ioclose], with [seekio_close] inlined at the place where the
    operation table's close is called: the adapter decrements the
    backing endpoint's count itself, then calls [ioclose] on it, then
    frees the adapter.  [fuel] bounds the nesting of adapters. *)
Fixpoint ioclose (fuel : nat) (p : Z) (st : iostate) : outcome iostate :=
  match fuel with
  | O => OutOfFuel
  | S fuel' =>
      match heap st !! p with
      | None => BadPointer
      | Some e =>
          if refcnt e =? 0 then AssertFailed          (* assert(io->refcnt != 0) *)
          else
            let e' := mkIo (intf_close e) (refcnt e - 1)
                           (acquired e) (released e + 1) in
            let st1 := mkIoState (<[p := e']> (heap st)) (close_calls st) in
            if refcnt e' =? 0 then
              match intf_close e with
              | CloseNull => Done st1
              | CloseLeaf =>
                  Done (mkIoState (heap st1) (close_calls st1 ++ [p]))
              | CloseSeekio b =>
                  let st2 := mkIoState (heap st1) (close_calls st1 ++ [p]) in
                  match heap st2 !! b with
                  | None => BadPointer
                  | Some eb =>
                      (* sio->bkgio->refcnt--; *)
                      let eb' := mkIo (intf_close eb) (wrap64 (refcnt eb - 1))
                                      (acquired eb) (released eb) in
                      let st3 := mkIoState (<[b := eb']> (heap st2))
                                           (close_calls st2) in
                      (* ioclose(sio->bkgio); *)
                      match ioclose fuel' b st3 with
                      | Done st4 =>
                          (* kfree(sio); *)
                          Done (mkIoState (delete p (heap st4))
                                          (close_calls st4))
                      | r => r
                      end
                  end
              end
            else Done st1
      end
  end.

(** [create_seekable_io(io)]: [blksz] and [result] are the answers of
    the backing endpoint to [ioblksz(io)] and to
    [ioctl(io, IOCTL_GETEND, &end)]; [sio] is the address [kcalloc]
    returns. *)
Definition create_seekable_io (blksz result : Z) (sio : Z) (io : Z)
    (st : iostate) : outcome iostate :=
  if negb (0 <? blksz) then AssertFailed
  else if negb (Z.land blksz (blksz - 1) =? 0) then AssertFailed
  else if negb (result =? 0) then AssertFailed
  else
    match ioaddref io st with
    | Done st1 => Done (ioinit1 sio (CloseSeekio io) st1)
    | r => r
    end.

(** ** io.c: the seekable adapter's stream operations *)

Inductive ioctl_cmd :=
| IOCTL_GETBLKSZ | IOCTL_GETEND | IOCTL_SETEND | IOCTL_GETPOS | IOCTL_SETPOS
| IOCTL_OTHER (n : Z).

(** The operation table of a backing endpoint whose state is a [B].  An
    absent entry is [None].  [bk_readat b pos bufsz] gives the result,
    the bytes stored in the caller's buffer and the new state;
    [bk_writeat b pos buf len] the result and the new state;
    [bk_cntl b cmd arg] the result, the value left in [*arg] and the
    new state. *)
Class Backing (B : Type) := {
  bk_readat : option (B -> Z -> Z -> Z * list Z * B);
  bk_writeat : option (B -> Z -> list Z -> Z -> Z * B);
  bk_cntl : option (B -> ioctl_cmd -> Z -> Z * Z * B)
}.

(** [struct seekio] without its embedded [struct io]. *)
Record seekio := mkSeekio { pos : Z; end_ : Z; blksz : Z }.

Section Seekio.
Context {B : Type} `{Backing B}.

Definition ioreadat (b : B) (pos bufsz : Z) : Z * list Z * B :=
  match bk_readat with
  | None => (- ENOTSUP, [], b)
  | Some readat =>
      if bufsz <? 0 then (- EINVAL, [], b) else readat b pos bufsz
  end.

Definition iowriteat (b : B) (pos : Z) (buf : list Z) (len : Z) : Z * B :=
  match bk_writeat with
  | None => (- ENOTSUP, b)
  | Some writeat =>
      if len <? 0 then (- EINVAL, b) else writeat b pos buf len
  end.

Definition ioctl (b : B) (cmd : ioctl_cmd) (arg : Z) : Z * Z * B :=
  match bk_cntl with
  | Some cntl => cntl b cmd arg
  | None =>
      match cmd with
      | IOCTL_GETBLKSZ => (1, arg, b)
      | _ => (- ENOTSUP, arg, b)
      end
  end.

(** [bufsz &= ~(sio->blksz - 1)]: a [long] and-ed with the sign-extended
    complement of an [int]. *)
Definition truncate_to_blksz (n blksz : Z) : Z :=
  Z.land n (Z.lnot (blksz - 1)).

(** [seekio_read(io, buf, bufsz)]: result, bytes stored in [buf], the
    adapter and the backing endpoint afterwards. *)
Definition seekio_read (sio : seekio) (bufsz : Z) (b : B)
    : Z * list Z * seekio * B :=
  let p := pos sio in
  let e := end_ sio in
  let bufsz :=
    if wrap64 (e - p) <? wrap64 bufsz then to_long (wrap64 (e - p))
    else bufsz in
  if bufsz =? 0 then (0, [], sio, b)
  else if bufsz <? blksz sio then (- EINVAL, [], sio, b)
  else
    let bufsz := truncate_to_blksz bufsz (blksz sio) in
    let '(rcnt, data, b') := ioreadat b p bufsz in
    (rcnt, data,
     mkSeekio (wrap64 (p + (if rcnt <? 0 then 0 else rcnt))) e (blksz sio),
     b').

(** The last three lines of [seekio_write]: the write itself. *)
Definition seekio_write_through (p : Z) (sio : seekio) (buf : list Z)
    (len : Z) (b : B) : Z * seekio * B :=
  let '(wcnt, b') := iowriteat b (pos sio) buf len in
  (wcnt,
   mkSeekio (wrap64 (p + (if wcnt <? 0 then 0 else wcnt)))
            (end_ sio) (blksz sio),
   b').

(** [seekio_write(io, buf, len)]: result, the adapter and the backing
    endpoint afterwards. *)
Definition seekio_write (sio : seekio) (buf : list Z) (len : Z) (b : B)
    : Z * seekio * B :=
  let p := pos sio in
  let e := end_ sio in
  if len =? 0 then (0, sio, b)
  else if len <? blksz sio then (- EINVAL, sio, b)
  else
    let len := truncate_to_blksz len (blksz sio) in
    if wrap64 (e - p) <? wrap64 len then
      if ULLONG_MAX - p <? wrap64 len then (- EINVAL, sio, b)
      else
        let '(result, e', b1) := ioctl b IOCTL_SETEND (wrap64 (p + len)) in
        if negb (result =? 0) then (result, sio, b1)
        else seekio_write_through p (mkSeekio p e' (blksz sio)) buf len b1
    else seekio_write_through p sio buf len b.

End Seekio.

End Io.

(** ** io.c: the pipe *)

(** The page size and order of Sv39 (memory.h is not among the
    sources). *)
Definition PAGE_ORDER : Z := 12.
Definition PAGE_SIZE : Z := 4096.

Module Pipe.

(** [struct pipe] without its locks and conditions: the bytes of the
    page [buf] points to, the two positions, the byte count and the
    reference counts of the two embedded endpoints. *)
Record pipe := mkPipe {
  buf : list Z;
  headpos : Z;
  tailpos : Z;
  data : Z;
  readio_refcnt : Z;
  writeio_refcnt : Z
}.

(** Which operation table [io->intf] points to. *)
Inductive pipe_end := ReadEnd | WriteEnd.

(** How a call of [pipe_read] goes on: it suspends the caller in
    [condition_wait(&p->notempty)] (on wake-up the test of the loop is
    made again, on the pipe as it is then), or it returns [ret] with
    the bytes [out] stored in the caller's buffer; [notfull] tells
    whether [condition_broadcast(&p->notfull)] was called. *)
Inductive read_result :=
| ReadWaits
| ReadReturns (ret : Z) (out : list Z) (p : pipe) (notfull : bool).

Section Ring.

(** The width of [uint_fast16_t], which the C library fixes (32 with
    newlib, 64 with glibc on RV64). *)
Variable FAST16_BITS : Z.

Definition to_fast16 (z : Z) : Z := z mod 2 ^ FAST16_BITS.

Definition rbuf_empty (p : pipe) : bool := headpos p =? tailpos p.

Definition rbuf_full (p : pipe) : bool :=
  (tailpos p - headpos p) mod 2 ^ 16 =? PAGE_SIZE.

Definition rbuf_getc (p : pipe) : Z * pipe :=
  let hpos := to_fast16 (headpos p) in
  let c := nth (Z.to_nat (hpos mod PAGE_SIZE)) (buf p) 0 in
  (c, mkPipe (buf p) (hpos + 1) (tailpos p) (data p)
             (readio_refcnt p) (writeio_refcnt p)).

(** The [for] loop of [pipe_read], [n] rounds to go, [i] bytes done. *)
Fixpoint drain (n : nat) (i : Z) (out : list Z) (p : pipe)
    : Z * list Z * pipe :=
  match n with
  | O => (i, out, p)
  | S n' =>
      if negb (rbuf_empty p) then
        let '(c, p1) := rbuf_getc p in
        let p2 := mkPipe (buf p1) (headpos p1) (tailpos p1)
                         (wrap64 (data p1 - 1))
                         (readio_refcnt p1) (writeio_refcnt p1) in
        drain n' (i + 1) (out ++ [c]) p2
      else (i, out, p)
  end.

(** [pipe_read(io, buf, bufsz)]: [io] is [None] for a null pointer,
    [buf_ok] tells whether [buf] is non-null. *)
Definition pipe_read (io : option pipe_end) (buf_ok : bool) (bufsz : Z)
    (p : pipe) : read_result :=
  match io with
  | None => ReadReturns (- EINVAL) [] p false
  | Some e =>
      if negb buf_ok then ReadReturns (- EINVAL) [] p false
      else if bufsz =? 0 then ReadReturns 0 [] p false
      else if bufsz <? 0 then ReadReturns (- EINVAL) [] p false
      else
        match e with
        | WriteEnd => ReadReturns (- EINVAL) [] p false
        | ReadEnd =>
            if rbuf_empty p && (0 <? writeio_refcnt p) then ReadWaits
            else if rbuf_empty p && (writeio_refcnt p =? 0) then
              ReadReturns 0 [] p false
            else
              let '(n, out, p') := drain (Z.to_nat bufsz) 0 [] p in
              ReadReturns n out p' true
        end
  end.

End Ring.

End Pipe.

(** ** dev/vioblk.c *)

Module Vioblk.

Definition VIRTIO_BLK_S_IOERR : Z := 1.
Definition VIRTIO_BLK_S_UNSUPP : Z := 2.

(** [regs->config.blk]: block size ([uint32_t]) and capacity in blocks
    ([uint64_t]). *)
Record blk_config := mkConfig { blk_size : Z; capacity : Z }.

(** One [memcpy(buf + off, vioblk->data, blkSize)] into the caller's
    buffer. *)
Record copy := mkCopy { dst_off : Z; bytes : list Z }.

Section Device.

(** The device's answer to a read request for a sector, as the driver
    finds it once [avail.idx == used.idx]: the status byte and the
    contents of [vioblk->data]. *)
Variable device_read : Z -> Z * list Z.

(** The [for] loop of [vioblk_readat], [n] rounds to go from [i] on.
    The result is the error the loop returns with, if any, and the
    copies made. *)
Fixpoint read_blocks (n : nat) (i : Z) (pos blkSize : Z) (done : list copy)
    : option Z * list copy :=
  match n with
  | O => (None, done)
  | S n' =>
      let sector := wrap64 (pos / blkSize + i) in
      let '(status, data) := device_read sector in
      if negb (Z.land status VIRTIO_BLK_S_IOERR =? 0) then (Some (- EIO), done)
      else if negb (Z.land status VIRTIO_BLK_S_UNSUPP =? 0) then
        (Some (- ENOTSUP), done)
      else
        read_blocks n' (i + 1) pos blkSize
          (done ++ [mkCopy (wrap32 (i * blkSize))
                           (firstn (Z.to_nat blkSize) data)])
  end.

(** [vioblk_readat(io, pos, buf, bufsz)]; [buf_null] tells whether [buf]
    is null.  The result is the value returned and the copies made into
    [buf]. *)
Definition vioblk_readat (cfg : blk_config) (pos : Z) (buf_null : bool)
    (bufsz : Z) : Z * list copy :=
  let blkSize := blk_size cfg in
  let end_ := wrap64 (capacity cfg * blk_size cfg) in
  if pos =? end_ then (0, [])
  else if buf_null then (- EINVAL, [])
  else if end_ <? pos then (- EINVAL, [])
  else if bufsz <? 0 then (- EINVAL, [])
  else if bufsz =? 0 then (0, [])
  else
    let byteread :=
      if end_ <? wrap64 (pos + bufsz) then wrap64 (end_ - pos)
      else wrap64 bufsz in
    let numBlocks := to_int (byteread / blkSize) in
    match read_blocks (Z.to_nat numBlocks) 0 pos blkSize [] with
    | (Some err, done) => (err, done)
    | (None, done) => (to_long byteread, done)
    end.

End Device.

End Vioblk.

(** ** memory.c *)

Module Memory.

(** The flag bits of a page-table entry (riscv.h is not among the
    sources; the values are those of the RISC-V privileged
    architecture). *)
Definition PTE_V : Z := 1.
Definition PTE_R : Z := 2.
Definition PTE_W : Z := 4.
Definition PTE_X : Z := 8.
Definition PTE_U : Z := 16.
Definition PTE_G : Z := 32.
Definition PTE_A : Z := 64.
Definition PTE_D : Z := 128.

Definition PTE_CNT : Z := 512.

(** A call returns, or it reads through a null pointer. *)
Inductive result (A : Type) :=
| Ret (a : A)
| NullDeref.
Arguments Ret {A} a.
Arguments NullDeref {A}.

(** *** The physical page pool *)

(** [struct page_chunk] at address [addr].  The free chunks are linked
    through [next] from [free_chunk_list]; the model keeps them as the
    list of the chunks in link order.  The chunk headers live in the
    free pages themselves and are kept nowhere else. *)
Record page_chunk := mkChunk { addr : Z; pagecnt : Z }.

(** The first loop of [alloc_phys_pages]: the first chunk of exactly
    [cnt] pages is unlinked and returned. *)
Fixpoint take_exact (cnt : Z) (l : list page_chunk)
    : option (Z * list page_chunk) :=
  match l with
  | [] => None
  | c :: r =>
      if pagecnt c =? cnt then Some (addr c, r)
      else
        match take_exact cnt r with
        | Some (p, r') => Some (p, c :: r')
        | None => None
        end
  end.

(** The second loop: [target] is the first among the smallest chunks of
    more than [cnt] pages; it is returned with its place in the list. *)
Fixpoint find_target (cnt : Z) (l : list page_chunk) (idx : nat)
    (target : option (nat * page_chunk)) : option (nat * page_chunk) :=
  match l with
  | [] => target
  | c :: r =>
      let target' :=
        if cnt <? pagecnt c then
          match target with
          | None => Some (idx, c)
          | Some (_, t) =>
              if pagecnt c <? pagecnt t then Some (idx, c) else target
          end
        else target in
      find_target cnt r (S idx) target'
  end.

(** [alloc_phys_pages(cnt)] on the free list: the address returned and
    the list afterwards.  When no chunk has [cnt] pages or more,
    [target] is still null where the code reads [target->pagecnt]. *)
Definition alloc_phys_pages (cnt : Z) (fl : list page_chunk)
    : result (Z * list page_chunk) :=
  match take_exact cnt fl with
  | Some r => Ret r
  | None =>
      match find_target cnt fl 0 None with
      | None => NullDeref
      | Some (i, target) =>
          let chunk := mkChunk (wrap64 (addr target + cnt * PAGE_SIZE))
                               (wrap64 (pagecnt target - cnt)) in
          Ret (addr target, <[i := chunk]> fl)
      end
  end.

(** The scan of [free_phys_pages] behind the head:
    [while (curr != NULL && curr < chunk)]. *)
Fixpoint link_behind (chunk : page_chunk) (l : list page_chunk)
    : list page_chunk :=
  match l with
  | [] => [chunk]
  | curr :: r =>
      if addr curr <? addr chunk then curr :: link_behind chunk r
      else chunk :: curr :: r
  end.

(** [free_phys_pages(pp, cnt)] on the free list. *)
Definition free_phys_pages_list (pp cnt : Z) (fl : list page_chunk)
    : list page_chunk :=
  let chunk := mkChunk pp cnt in
  match fl with
  | [] => [chunk]
  | h :: r =>
      if pp <? addr h then chunk :: h :: r
      else h :: link_behind chunk r
  end.

(** *** Page tables *)

(** [struct pte]: the fields the code sets.  [rsw], [reserved], [pbmt]
    and [n] are zero in every entry the functions below build. *)
Record pte := mkPte { flags : Z; ppn : Z }.

Definition null_pte : pte := mkPte 0 0.

Definition PTE_VALID (e : pte) : bool := negb (Z.land (flags e) PTE_V =? 0).

Definition pageptr (n : Z) : Z := wrap64 (Z.shiftl n PAGE_ORDER).
Definition pagenum (p : Z) : Z := Z.shiftr p PAGE_ORDER.

Definition leaf_pte (pp : Z) (rwxug_flags : Z) : pte :=
  mkPte (Z.lor (Z.lor (Z.lor rwxug_flags PTE_A) PTE_D) PTE_V mod 2 ^ 8)
        (pagenum pp mod 2 ^ 44).

Definition ptab_pte (pt : Z) (g_flag : Z) : pte :=
  mkPte (Z.lor g_flag PTE_V mod 2 ^ 8) (pagenum pt mod 2 ^ 44).

(** The memory manager's state: the free list, the [satp] register and
    the page-table entries in memory, by the address of the entry (a
    multiple of 8); an address that is not in the map holds zeros. *)
Record mstate := mkMstate {
  free_chunk_list : list page_chunk;
  satp : Z;
  mem : gmap Z pte
}.

Definition load_pte (st : mstate) (a : Z) : pte :=
  default null_pte (mem st !! a).

Definition mtag_to_ptab (mtag : Z) : Z :=
  Z.shiftr (wrap64 (Z.shiftl mtag 20)) 8.

Definition active_space_ptab (st : mstate) : Z := mtag_to_ptab (satp st).

Definition wellformed (vma : Z) : bool :=
  let bits := Z.shiftr (to_long vma) 38 in
  (bits =? 0) || (bits + 1 =? 0).

Definition ROUND_DOWN (n k : Z) : Z := n / k * k.

Definition VPN (vma : Z) : Z := vma / PAGE_SIZE.
Definition VPN2 (vma : Z) : Z := Z.shiftr (VPN vma) 18 mod PTE_CNT.
Definition VPN1 (vma : Z) : Z := Z.shiftr (VPN vma) 9 mod PTE_CNT.
Definition VPN0 (vma : Z) : Z := Z.shiftr (VPN vma) 0 mod PTE_CNT.

(** [pt[idx]] for a table at address [pt]: entries are 8 bytes. *)
Definition entry (pt idx : Z) : Z := pt + 8 * idx.

Definition store_pte (a : Z) (e : pte) (st : mstate) : mstate :=
  mkMstate (free_chunk_list st) (satp st) (<[a := e]> (mem st)).

Fixpoint clear_entries (n : nat) (a : Z) (m : gmap Z pte) : gmap Z pte :=
  match n with
  | O => m
  | S n' => clear_entries n' (a + 8) (delete a m)
  end.

(** [memset(pp, 0, PAGE_SIZE)] on a page: its 512 entries are zeroed. *)
Definition memset_page (pp : Z) (st : mstate) : mstate :=
  mkMstate (free_chunk_list st) (satp st)
           (clear_entries (Z.to_nat PTE_CNT) pp (mem st)).

Definition alloc_phys_page (st : mstate) : result (Z * mstate) :=
  match alloc_phys_pages 1 (free_chunk_list st) with
  | NullDeref => NullDeref
  | Ret (pp, fl) => Ret (pp, mkMstate fl (satp st) (mem st))
  end.

(** [free_phys_pages(pp, cnt)]. *)
Definition free_phys_pages (pp cnt : Z) (st : mstate) : mstate :=
  if pp =? 0 then st
  else if cnt =? 0 then st
  else
    let st1 := memset_page pp st in
    mkMstate (free_phys_pages_list pp cnt (free_chunk_list st1))
             (satp st1) (mem st1).

Definition free_phys_page (pp : Z) (st : mstate) : mstate :=
  free_phys_pages pp 1 st.

(** One level of the walk in [map_page] (the code has it twice, for
    level 2 and for level 1): the subtable the entry [pt[idx]] points
    to, after a fresh zeroed page has been put there when the entry was
    not valid. *)
Definition subtable (pt idx : Z) (st : mstate) : result (Z * mstate) :=
  if PTE_VALID (load_pte st (entry pt idx)) then
    Ret (pageptr (ppn (load_pte st (entry pt idx))), st)
  else
    match alloc_phys_page st with
    | NullDeref => NullDeref
    | Ret (pp1, st1) =>
        let st2 := memset_page pp1 st1 in
        let st3 := store_pte (entry pt idx) (ptab_pte pp1 0) st2 in
        Ret (pageptr (ppn (load_pte st3 (entry pt idx))), st3)
    end.

(** The walk of [map_page] down to the level-0 table of [vma] ([vma] is
    rounded already). *)
Definition map_page_tables (vma : Z) (st : mstate) : result (Z * mstate) :=
  match subtable (active_space_ptab st) (VPN2 vma) st with
  | NullDeref => NullDeref
  | Ret (pt1, st1) => subtable pt1 (VPN1 vma) st1
  end.

(** [map_page(vma, pp, rwxug_flags)]: the pointer returned and the
    state afterwards. *)
Definition map_page (vma pp rwxug_flags : Z) (st : mstate)
    : result (Z * mstate) :=
  if negb (wellformed vma) then Ret (0, st)
  else
    let vma := ROUND_DOWN vma PAGE_SIZE in
    match map_page_tables vma st with
    | NullDeref => NullDeref
    | Ret (pt0, st1) =>
        if PTE_VALID (load_pte st1 (entry pt0 (VPN0 vma))) then Ret (vma, st1)
        else
          Ret (vma,
               store_pte (entry pt0 (VPN0 vma)) (leaf_pte pp rwxug_flags) st1)
    end.

Section UserRange.

(** The bounds of user memory (conf.h is not among the sources). *)
Variable UMEM_START_VMA : Z.
Variable UMEM_END_VMA : Z.

(** [handle_umode_page_fault(tfr, vma)]. *)
Definition handle_umode_page_fault (vma : Z) (st : mstate)
    : result (Z * mstate) :=
  if (UMEM_START_VMA <=? vma) && (vma <? UMEM_END_VMA) then
    match alloc_phys_page st with
    | NullDeref => NullDeref
    | Ret (pp, st1) =>
        if pp =? 0 then Ret (0, st1)
        else
          match map_page vma pp (Z.lor (Z.lor PTE_R PTE_W) PTE_U) st1 with
          | NullDeref => NullDeref
          | Ret (map, st2) =>
              if map =? 0 then Ret (0, free_phys_page pp st2)
              else Ret (1, st2)
          end
    end
  else Ret (0, st).

End UserRange.

End Memory.

(** ** ktfs.c *)

Module Ktfs.

(** Modelled from the spec: ktfs.h is not among the sources.  The spec
    (sections 4.9 and 6) gives blocks of 512 bytes, inodes of 32 bytes
    (a size, 4 direct, 1 indirect and 2 double-indirect block numbers
    of 32 bits) and directory entries of 32 bytes (a name of 14 bytes,
    an inode number of 2 bytes, 16 bytes of padding). *)
Definition KTFS_BLKSZ : Z := 512.
Definition KTFS_INOSZ : Z := 32.
Definition KTFS_DENSZ : Z := 32.
Definition KTFS_NUM_DIRECT_DATA_BLOCKS : Z := 4.
Definition KTFS_NUM_DINDIRECT_BLOCKS : Z := 2.
Definition KTFS_BLKS_PER_INDIRECT : Z := 128.
Definition KTFS_BLKS_PER_DINDIRECT : Z := 128 * 128.

(** The constants ktfs.c defines itself. *)
Definition FILENAME_SIZE : Z := 14.
Definition DIR_SIZE : Z := KTFS_BLKSZ / KTFS_DENSZ.
Definition INODES_PER_BLK : Z := KTFS_BLKSZ / KTFS_INOSZ.
Definition BYTE_SIZE : Z := 8.

(** A call returns, or it reads or writes outside the object a pointer
    points into (a cache block, an array of the inode), or the model's
    loop bound is used up (never with the bound [ktfs_cntl] passes). *)
Inductive result (A : Type) :=
| Ok (a : A)
| OutOfBounds
| OutOfFuel.
Arguments Ok {A} a.
Arguments OutOfBounds {A}.
Arguments OutOfFuel {A}.

Definition bind {A B : Type} (r : result A) (k : A -> result B) : result B :=
  match r with
  | Ok a => k a
  | OutOfBounds => OutOfBounds
  | OutOfFuel => OutOfFuel
  end.

Notation "x <- r ;; k" := (bind r (fun x => k))
  (at level 100, r at next level, right associativity).

(** *** The disk as the file system sees it

    Every access of ktfs.c goes through [cache_get_block] and
    [cache_release_block]; cache.c writes a block released dirty through
    to the device and serves later requests for it from the same
    buffer, so the model keeps one store: the bytes of the device by
    byte address, zero where the map has no entry. *)
Definition rd8 (d : gmap Z Z) (a : Z) : Z := default 0 (d !! a).

Definition wr8 (d : gmap Z Z) (a v : Z) : gmap Z Z := <[a := v mod 256]> d.

Definition rd16 (d : gmap Z Z) (a : Z) : Z :=
  rd8 d a + 2 ^ 8 * rd8 d (a + 1).

Definition rd32 (d : gmap Z Z) (a : Z) : Z :=
  rd8 d a + 2 ^ 8 * rd8 d (a + 1) + 2 ^ 16 * rd8 d (a + 2)
  + 2 ^ 24 * rd8 d (a + 3).

Definition wr32 (d : gmap Z Z) (a v : Z) : gmap Z Z :=
  wr8 (wr8 (wr8 (wr8 d a v) (a + 1) (v / 2 ^ 8)) (a + 2) (v / 2 ^ 16))
      (a + 3) (v / 2 ^ 24).

Fixpoint read_bytes (d : gmap Z Z) (a : Z) (n : nat) : list Z :=
  match n with
  | O => []
  | S n' => rd8 d a :: read_bytes d (a + 1) n'
  end.

Fixpoint write_bytes (d : gmap Z Z) (a : Z) (l : list Z) : gmap Z Z :=
  match l with
  | [] => d
  | v :: l' => write_bytes (wr8 d a v) (a + 1) l'
  end.

(** The bytes of a 32-bit number, little-endian. *)
Definition le32 (v : Z) : list Z :=
  [v mod 256; v / 2 ^ 8 mod 256; v / 2 ^ 16 mod 256; v / 2 ^ 24 mod 256].

Definition of_le32 (l : list Z) : Z :=
  nth 0 l 0 + 2 ^ 8 * nth 1 l 0 + 2 ^ 16 * nth 2 l 0 + 2 ^ 24 * nth 3 l 0.

(** Entry [idx] of a block of 128 block numbers that starts at [pos]. *)
Definition get_u32 (d : gmap Z Z) (pos idx : Z) : result Z :=
  if (0 <=? idx) && (idx <? KTFS_BLKS_PER_INDIRECT) then
    Ok (rd32 d (pos + 4 * idx))
  else OutOfBounds.

Definition set_u32 (d : gmap Z Z) (pos idx v : Z) : result (gmap Z Z) :=
  if (0 <=? idx) && (idx <? KTFS_BLKS_PER_INDIRECT) then
    Ok (wr32 d (pos + 4 * idx) v)
  else OutOfBounds.

(** *** The structures of ktfs.h and ktfs.c *)

Record ktfs_superblock := mkSuper {
  bitmap_block_count : Z;
  inode_block_count : Z;
  root_directory_inode : Z
}.

Record ktfs_inode := mkInode {
  size : Z;
  block : list Z;
  indirect : Z;
  dindirect : list Z
}.

Definition inode_bytes (ino : ktfs_inode) : list Z :=
  le32 (size ino) ++ flat_map le32 (block ino) ++ le32 (indirect ino)
  ++ flat_map le32 (dindirect ino).

Definition inode_of_bytes (l : list Z) : ktfs_inode :=
  mkInode (of_le32 l)
          [of_le32 (skipn 4 l); of_le32 (skipn 8 l); of_le32 (skipn 12 l);
           of_le32 (skipn 16 l)]
          (of_le32 (skipn 20 l))
          [of_le32 (skipn 24 l); of_le32 (skipn 28 l)].

Definition set_size (ino : ktfs_inode) (s : Z) : ktfs_inode :=
  mkInode s (block ino) (indirect ino) (dindirect ino).

Definition set_block (ino : ktfs_inode) (i : nat) (v : Z) : ktfs_inode :=
  mkInode (size ino) (<[i := wrap32 v]> (block ino)) (indirect ino)
          (dindirect ino).

Definition set_indirect (ino : ktfs_inode) (v : Z) : ktfs_inode :=
  mkInode (size ino) (block ino) (wrap32 v) (dindirect ino).

Definition set_dindirect (ino : ktfs_inode) (i : nat) (v : Z) : ktfs_inode :=
  mkInode (size ino) (block ino) (indirect ino)
          (<[i := wrap32 v]> (dindirect ino)).

(** [struct ktfs_file]: the inode number of its directory entry and its
    copy of the inode. *)
Record ktfs_file := mkFile { dentry_inode : Z; file_inode : ktfs_inode }.

(** The global [filesetup], taken while no file is open
    ([cur_file_count] is 0 and the table of open names plays no part). *)
Record file_setup := mkSetup {
  super_blk : ktfs_superblock;
  root_dir_inode : ktfs_inode;
  disk : gmap Z Z;
  inode_bitmap : gmap Z Z;
  inodecount : Z
}.

Definition set_disk (fs : file_setup) (d : gmap Z Z) : file_setup :=
  mkSetup (super_blk fs) (root_dir_inode fs) d (inode_bitmap fs)
          (inodecount fs).

Definition global_datablock_0 (fs : file_setup) : Z :=
  1 + bitmap_block_count (super_blk fs) + inode_block_count (super_blk fs).

(** The byte address of inode [ino] in the inode table. *)
Definition inode_addr (fs : file_setup) (ino : Z) : Z :=
  (1 + bitmap_block_count (super_blk fs) + ino / INODES_PER_BLK) * KTFS_BLKSZ
  + ino mod INODES_PER_BLK * KTFS_INOSZ.

(** *** Block allocation *)

(** [for (bit = 7; bit >= 0; bit--)] from bit [n - 1] down: the first
    bit of [v] that is clear. *)
Fixpoint first_clear_bit (v : Z) (n : nat) : option Z :=
  match n with
  | O => None
  | S n' =>
      if Z.land v (Z.shiftl 1 (Z.of_nat n')) =? 0 then Some (Z.of_nat n')
      else first_clear_bit v n'
  end.

(** [for (byte = ...; byte < KTFS_BLKSZ; byte++)] over the bitmap block
    at [base], [n] bytes to go. *)
Fixpoint scan_bytes (d : gmap Z Z) (base : Z) (n : nat) (byte : Z)
    : option (Z * Z) :=
  match n with
  | O => None
  | S n' =>
      match first_clear_bit (rd8 d (base + byte)) 8 with
      | Some bit => Some (byte, bit)
      | None => scan_bytes d base n' (byte + 1)
      end
  end.

(** [for (block = ...; block < bitmap_block_count; block++)]. *)
Fixpoint scan_blocks (d : gmap Z Z) (n : nat) (blk : Z)
    : option (Z * Z * Z) :=
  match n with
  | O => None
  | S n' =>
      match scan_bytes d ((1 + blk) * KTFS_BLKSZ) (Z.to_nat KTFS_BLKSZ) 0 with
      | Some (byte, bit) => Some (blk, byte, bit)
      | None => scan_blocks d n' (blk + 1)
      end
  end.

(** The value [allocate_open_block] returns for [-ENODATABLKS]. *)
Definition NO_BLOCK : Z := wrap64 (- ENODATABLKS).

(** [allocate_open_block()]. *)
Definition allocate_open_block (fs : file_setup) : Z * file_setup :=
  match scan_blocks (disk fs)
          (Z.to_nat (bitmap_block_count (super_blk fs))) 0 with
  | Some (blk, byte, bit) =>
      let a := (1 + blk) * KTFS_BLKSZ + byte in
      (wrap64 (to_int (blk * KTFS_BLKSZ * BYTE_SIZE + (byte * BYTE_SIZE + bit))),
       set_disk fs
         (wr8 (disk fs) a (Z.lor (rd8 (disk fs) a) (Z.shiftl 1 bit))))
  | None => (NO_BLOCK, fs)
  end.

(** [free_block(block_num)]; [/] and [%] on [int] round toward zero. *)
Definition free_block (block_num : Z) (fs : file_setup) : file_setup :=
  let bitmap_block_idx :=
    wrap32 (1 + Z.quot block_num (KTFS_BLKSZ * BYTE_SIZE)) in
  let bit_offset := wrap32 (Z.rem block_num (KTFS_BLKSZ * BYTE_SIZE)) in
  let a := bitmap_block_idx * KTFS_BLKSZ + bit_offset / BYTE_SIZE in
  set_disk fs
    (wr8 (disk fs) a
         (Z.land (rd8 (disk fs) a)
                 (Z.lnot (Z.shiftl 1 (bit_offset mod BYTE_SIZE))))).

(** [write_inode_to_disk(fio)]. *)
Definition write_inode_to_disk (fio : ktfs_file) (fs : file_setup)
    : file_setup :=
  set_disk fs
    (write_bytes (disk fs) (inode_addr fs (dentry_inode fio))
                 (inode_bytes (file_inode fio))).

(** *** Growing a file *)

(** The pattern
    [alloc_block = allocate_open_block();
     if (alloc_block == -ENODATABLKS) return -ENODATABLKS;]
    followed by the rest [k] of the function. *)
Definition with_block (fio : ktfs_file) (fs : file_setup)
    (k : Z -> file_setup -> result (Z * ktfs_file * file_setup))
    : result (Z * ktfs_file * file_setup) :=
  let '(alloc_block, fs1) := allocate_open_block fs in
  if alloc_block =? NO_BLOCK then Ok (- ENODATABLKS, fio, fs1)
  else k alloc_block fs1.

Definition set_file_inode (fio : ktfs_file) (ino : ktfs_inode) : ktfs_file :=
  mkFile (dentry_inode fio) ino.

(** The end of the indirect branch of [add_new_inode_datablk]: the new
    data block is entered in the indirect block. *)
Definition enter_indirect (new_idx : Z) (fio : ktfs_file) (fs : file_setup)
    : result (Z * ktfs_file * file_setup) :=
  let indirectpos :=
    wrap64 ((indirect (file_inode fio) + global_datablock_0 fs) * KTFS_BLKSZ) in
  with_block fio fs (fun alloc_block fs1 =>
    Ok (1, fio,
        set_disk fs1
          (wr32 (disk fs1)
                (indirectpos + 4 * (new_idx - KTFS_NUM_DIRECT_DATA_BLOCKS))
                alloc_block))).

(** The end of the double-indirect branch, from [int dind_blk_idx] on. *)
Definition enter_dindirect (new_zero_offset : Z) (fio : ktfs_file)
    (fs : file_setup) : result (Z * ktfs_file * file_setup) :=
  let dind_blk_idx :=
    if new_zero_offset <? KTFS_BLKS_PER_DINDIRECT then 0%nat else 1%nat in
  let new_zero_offset :=
    if new_zero_offset <? KTFS_BLKS_PER_DINDIRECT then new_zero_offset
    else wrap64 (new_zero_offset - KTFS_BLKS_PER_DINDIRECT) in
  let indirectidx := to_int (new_zero_offset / KTFS_BLKS_PER_INDIRECT) in
  let indirectoffset := to_int (new_zero_offset mod KTFS_BLKS_PER_INDIRECT) in
  let dpos :=
    wrap64 ((nth dind_blk_idx (dindirect (file_inode fio)) 0
             + global_datablock_0 fs) * KTFS_BLKSZ) in
  let rest (fs : file_setup) : result (Z * ktfs_file * file_setup) :=
    indirectnum <- get_u32 (disk fs) dpos indirectidx ;;
    let indirectpos :=
      wrap64 ((indirectnum + global_datablock_0 fs) * KTFS_BLKSZ) in
    with_block fio fs (fun alloc_block fs1 =>
      Ok (1, fio,
          set_disk fs1
            (wr32 (disk fs1) (indirectpos + 4 * indirectoffset) alloc_block)))
  in
  if indirectoffset =? 0 then
    with_block fio fs (fun alloc_block fs1 =>
      d' <- set_u32 (disk fs1) dpos indirectidx alloc_block ;;
      rest (set_disk fs1 d'))
  else rest fs.

(** [add_new_inode_datablk(fio, old_idx)]: the value returned, the file
    and the file system afterwards. *)
Definition add_new_inode_datablk (fio : ktfs_file) (old_idx : Z)
    (fs : file_setup) : result (Z * ktfs_file * file_setup) :=
  let inode := file_inode fio in
  let new_idx := wrap64 (old_idx + 1) in
  if new_idx <? KTFS_NUM_DIRECT_DATA_BLOCKS then
    with_block fio fs (fun alloc_block fs1 =>
      let fio1 :=
        set_file_inode fio (set_block inode (Z.to_nat new_idx) alloc_block) in
      Ok (1, fio1, write_inode_to_disk fio1 fs1))
  else if new_idx <? KTFS_BLKS_PER_INDIRECT + KTFS_NUM_DIRECT_DATA_BLOCKS then
    if old_idx <? KTFS_NUM_DIRECT_DATA_BLOCKS then
      with_block fio fs (fun alloc_block fs1 =>
        let fio1 := set_file_inode fio (set_indirect inode alloc_block) in
        enter_indirect new_idx fio1 (write_inode_to_disk fio1 fs1))
    else enter_indirect new_idx fio fs
  else
    let new_zero_offset :=
      wrap64 (new_idx - KTFS_NUM_DIRECT_DATA_BLOCKS - KTFS_BLKS_PER_INDIRECT) in
    if new_zero_offset =? 0 then
      with_block fio fs (fun alloc_block fs1 =>
        let fio1 := set_file_inode fio (set_dindirect inode 0 alloc_block) in
        enter_dindirect new_zero_offset fio1 (write_inode_to_disk fio1 fs1))
    else if new_zero_offset =? KTFS_BLKS_PER_DINDIRECT then
      with_block fio fs (fun alloc_block fs1 =>
        let fio1 := set_file_inode fio (set_dindirect inode 1 alloc_block) in
        enter_dindirect new_zero_offset fio1 (write_inode_to_disk fio1 fs1))
    else enter_dindirect new_zero_offset fio fs.

(** The size rounded up to the next block boundary, in [uint32_t]. *)
Definition round_up_size (s : Z) : Z :=
  wrap32 (wrap32 (wrap32 (s + KTFS_BLKSZ) - 1) / KTFS_BLKSZ * KTFS_BLKSZ).

(** [fio->file_inode->size = end] followed by the write of the inode to
    its place in the inode table. *)
Definition set_end_and_write (fio : ktfs_file) (e : Z) (fs : file_setup)
    : ktfs_file * file_setup :=
  let fio1 := set_file_inode fio (set_size (file_inode fio) (wrap32 e)) in
  (fio1, write_inode_to_disk fio1 fs).

(** The [while] loop of the grow branch of [ktfs_cntl] and the code
    behind it.  [junk] is the value of the local [ret], which the code
    tests without having set it in the round that allocates block 0. *)
Fixpoint grow (fuel : nat) (junk : Z) (e : Z) (fio : ktfs_file)
    (fs : file_setup) : result (Z * ktfs_file * file_setup) :=
  if size (file_inode fio) <? e then
    match fuel with
    | O => OutOfFuel
    | S fuel' =>
        let fio1 :=
          set_file_inode fio
            (set_size (file_inode fio) (round_up_size (size (file_inode fio)))) in
        if e <? size (file_inode fio1) then
          let '(fio2, fs2) := set_end_and_write fio1 e fs in
          Ok (0, fio2, fs2)
        else
          r <- (if size (file_inode fio1) =? 0 then
                  with_block fio1 fs (fun alloc_block fs1 =>
                    let fio2 :=
                      set_file_inode fio1
                        (set_block (file_inode fio1) 0 alloc_block) in
                    Ok (junk, fio2, write_inode_to_disk fio2 fs1))
                else
                  add_new_inode_datablk fio1
                    (wrap32 (size (file_inode fio1) - 1) / KTFS_BLKSZ) fs) ;;
          let '(ret, fio2, fs2) := r in
          if ret =? - ENODATABLKS then Ok (- ENODATABLKS, fio2, fs2)
          else
            let fio3 :=
              set_file_inode fio2
                (set_size (file_inode fio2)
                   (wrap32 ((size (file_inode fio2) / KTFS_BLKSZ + 1)
                            * KTFS_BLKSZ))) in
            grow fuel' junk e fio3 fs2
    end
  else if e <=? size (file_inode fio) then
    let '(fio2, fs2) := set_end_and_write fio e fs in
    Ok (0, fio2, fs2)
  else Ok (- EINVAL, fio, fs).

(** [ktfs_cntl(io, cmd, arg)]: [arg] is [None] for a null pointer and
    [Some v] for a pointer to [v]; the result is the value returned,
    what [arg] points to afterwards, the file and the file system. *)
Definition ktfs_cntl (junk : Z) (fio : ktfs_file) (cmd : Io.ioctl_cmd)
    (arg : option Z) (fs : file_setup)
    : result (Z * option Z * ktfs_file * file_setup) :=
  match cmd with
  | Io.IOCTL_GETBLKSZ => Ok (1, arg, fio, fs)
  | Io.IOCTL_GETEND =>
      match arg with
      | None => Ok (- EINVAL, arg, fio, fs)
      | Some _ => Ok (0, Some (size (file_inode fio)), fio, fs)
      end
  | Io.IOCTL_SETEND =>
      match arg with
      | None => Ok (- EINVAL, arg, fio, fs)
      | Some e =>
          if e =? size (file_inode fio) then Ok (0, arg, fio, fs)
          else if size (file_inode fio) <? e then
            r <- grow (Z.to_nat (e / KTFS_BLKSZ) + 2) junk e fio fs ;;
            let '(ret, fio', fs') := r in
            Ok (ret, arg, fio', fs')
          else Ok (- EINVAL, arg, fio, fs)
      end
  | _ => Ok (- ENOTSUP, arg, fio, fs)
  end.

(** *** Deleting a file *)

(** [struct ktfs_dir_entry] at byte address [a]: the name field and the
    inode number. *)
Definition dentry_name (d : gmap Z Z) (a : Z) : list Z :=
  read_bytes d a (Z.to_nat FILENAME_SIZE).

Definition dentry_inode_at (d : gmap Z Z) (a : Z) : Z :=
  rd16 d (a + FILENAME_SIZE).

(** [strncmp(a, b, n) == 0] on two strings given by their bytes; a
    string that is used up reads as its terminating zero. *)
Fixpoint strncmp_eq (n : nat) (a b : list Z) : bool :=
  match n with
  | O => true
  | S n' =>
      let ca := hd 0 a in
      let cb := hd 0 b in
      if ca =? cb then
        if ca =? 0 then true else strncmp_eq n' (tl a) (tl b)
      else false
  end.

(** The byte address of the directory block [root_dir_inode.block[i]]. *)
Definition dir_block_pos (fs : file_setup) (i : Z) : result Z :=
  if (0 <=? i) && (i <? KTFS_NUM_DIRECT_DATA_BLOCKS) then
    Ok (wrap64 ((nth (Z.to_nat i) (block (root_dir_inode fs)) 0
                 + global_datablock_0 fs) * KTFS_BLKSZ))
  else OutOfBounds.

(** The inner loop of the search in [ktfs_delete]: the first [j] from
    [j] on whose name matches, [n] entries to go. *)
Fixpoint find_in_block (d : gmap Z Z) (name : list Z) (pos : Z) (n : nat)
    (j : Z) : option Z :=
  match n with
  | O => None
  | S n' =>
      if strncmp_eq (Z.to_nat FILENAME_SIZE) name
                    (dentry_name d (pos + j * KTFS_DENSZ))
      then Some j
      else find_in_block d name pos n' (j + 1)
  end.

(** The outer loop: every direct block of the root directory is
    searched, and a later match replaces an earlier one.  The result is
    [flag] with [blkidx], [dentryidx] and the address of [entry]. *)
Fixpoint find_entry (fs : file_setup) (name : list Z) (n : nat) (i : Z)
    (found : option (Z * Z * Z)) : result (option (Z * Z * Z)) :=
  match n with
  | O => Ok found
  | S n' =>
      pos <- dir_block_pos fs i ;;
      match find_in_block (disk fs) name pos (Z.to_nat DIR_SIZE) 0 with
      | Some j => find_entry fs name n' (i + 1) (Some (i, j, pos + j * KTFS_DENSZ))
      | None => find_entry fs name n' (i + 1) found
      end
  end.

(** [inodeidxblocknum(inode, idx, global_datablock_0)]. *)
Definition inodeidxblocknum (fs : file_setup) (inode : ktfs_inode) (idx : Z)
    : result Z :=
  let gdb0 := global_datablock_0 fs in
  if idx <? KTFS_NUM_DIRECT_DATA_BLOCKS then
    Ok (to_int (nth (Z.to_nat idx) (block inode) 0 + gdb0))
  else if idx <? KTFS_BLKS_PER_INDIRECT + KTFS_NUM_DIRECT_DATA_BLOCKS then
    let indirectpos := wrap64 ((indirect inode + gdb0) * KTFS_BLKSZ) in
    blknum <- get_u32 (disk fs) indirectpos (idx - KTFS_NUM_DIRECT_DATA_BLOCKS) ;;
    Ok (to_int (to_int blknum + gdb0))
  else
    let newidx :=
      wrap64 (idx - KTFS_NUM_DIRECT_DATA_BLOCKS - KTFS_BLKS_PER_INDIRECT) in
    let dindirect_block_idx :=
      if newidx <? KTFS_BLKS_PER_DINDIRECT then 0%nat else 1%nat in
    let newidx :=
      if newidx <? KTFS_BLKS_PER_DINDIRECT then newidx
      else wrap64 (newidx - KTFS_BLKS_PER_DINDIRECT) in
    let indirectidx := to_int (newidx / KTFS_BLKS_PER_INDIRECT) in
    let indirectoffset := to_int (newidx mod KTFS_BLKS_PER_INDIRECT) in
    let dpos :=
      wrap64 ((nth dindirect_block_idx (dindirect inode) 0 + gdb0)
              * KTFS_BLKSZ) in
    indirectnum <- get_u32 (disk fs) dpos indirectidx ;;
    let indirectpos := wrap64 ((indirectnum + gdb0) * KTFS_BLKSZ) in
    blknum <- get_u32 (disk fs) indirectpos indirectoffset ;;
    Ok (to_int (to_int blknum + gdb0)).

(** The loop that frees the data blocks of the file, [n] rounds to go. *)
Fixpoint free_data_blocks (inode : ktfs_inode) (n : nat) (i : Z)
    (fs : file_setup) : result file_setup :=
  match n with
  | O => Ok fs
  | S n' =>
      physical_block <- inodeidxblocknum fs inode i ;;
      free_data_blocks inode n' (i + 1)
        (free_block (to_int (physical_block - global_datablock_0 fs)) fs)
  end.

(** The loop over the entries of one double-indirect block. *)
Fixpoint free_indirect_blocks (dpos : Z) (n : nat) (j : Z) (fs : file_setup)
    : file_setup :=
  match n with
  | O => fs
  | S n' =>
      let v := rd32 (disk fs) (dpos + 4 * j) in
      free_indirect_blocks dpos n' (j + 1)
        (if v =? 0 then fs else free_block (to_int v) fs)
  end.

(** The loop over [inode.dindirect]. *)
Fixpoint free_dindirect (inode : ktfs_inode) (n : nat) (i : nat)
    (fs : file_setup) : file_setup :=
  match n with
  | O => fs
  | S n' =>
      let v := nth i (dindirect inode) 0 in
      free_dindirect inode n' (S i)
        (if v =? 0 then fs
         else
           let dpos := wrap64 ((v + global_datablock_0 fs) * KTFS_BLKSZ) in
           free_block (to_int v)
             (free_indirect_blocks dpos (Z.to_nat KTFS_BLKS_PER_INDIRECT) 0 fs))
  end.

(** The part of [ktfs_delete] headed "swap delete the dentry", for the
    entry found in slot [dentryidx] of directory block [blkidx]: the
    last entry is copied over it, and the last entry's slot is zeroed
    when [blkidx != last_blk_idx]. *)
Definition swap_delete (blkidx dentryidx : Z) (fs : file_setup)
    : result file_setup :=
  let num_files := size (root_dir_inode fs) / KTFS_DENSZ in
  let last_blk_idx := wrap64 (num_files - 1) / DIR_SIZE in
  let last_entry_idx := wrap64 (num_files - 1) mod DIR_SIZE in
  lpos <- dir_block_pos fs last_blk_idx ;;
  let last :=
    read_bytes (disk fs) (lpos + last_entry_idx * KTFS_DENSZ)
               (Z.to_nat KTFS_DENSZ) in
  pos <- dir_block_pos fs blkidx ;;
  let dir := read_bytes (disk fs) pos (Z.to_nat KTFS_BLKSZ) in
  let dir' :=
    firstn (Z.to_nat (dentryidx * KTFS_DENSZ)) dir ++ last
    ++ skipn (Z.to_nat ((dentryidx + 1) * KTFS_DENSZ)) dir in
  let fs1 := set_disk fs (write_bytes (disk fs) pos dir') in
  if negb (blkidx =? last_blk_idx) then
    Ok (set_disk fs1
          (write_bytes (disk fs1) (lpos + last_entry_idx * KTFS_DENSZ)
                       (repeat 0 (Z.to_nat KTFS_DENSZ))))
  else Ok fs1.

(** [ktfs_delete(name)]; [name] is [None] for a null pointer. *)
Definition ktfs_delete (name : option (list Z)) (fs : file_setup)
    : result (Z * file_setup) :=
  match name with
  | None => Ok (- EINVAL, fs)
  | Some name =>
      found <- find_entry fs name (Z.to_nat KTFS_NUM_DIRECT_DATA_BLOCKS) 0 None ;;
      match found with
      | None => Ok (- ENOENT, fs)
      | Some (blkidx, dentryidx, entry) =>
          let inodeidx := dentry_inode_at (disk fs) entry in
          let inode :=
            inode_of_bytes
              (read_bytes (disk fs) (inode_addr fs inodeidx)
                          (Z.to_nat KTFS_INOSZ)) in
          let filesizeinblocks :=
            to_int (wrap32 (wrap32 (size inode + KTFS_BLKSZ) - 1) / KTFS_BLKSZ) in
          fs1 <- free_data_blocks inode (Z.to_nat filesizeinblocks) 0 fs ;;
          let fs2 :=
            if (KTFS_NUM_DIRECT_DATA_BLOCKS <? filesizeinblocks)
               && negb (indirect inode =? 0)
            then free_block (to_int (indirect inode)) fs1 else fs1 in
          let fs3 :=
            if KTFS_NUM_DIRECT_DATA_BLOCKS + KTFS_BLKS_PER_INDIRECT
               <? filesizeinblocks
            then free_dindirect inode (Z.to_nat KTFS_NUM_DINDIRECT_BLOCKS) 0 fs2
            else fs2 in
          fs4 <- swap_delete blkidx dentryidx fs3 ;;
          let fs5 :=
            mkSetup (super_blk fs4) (root_dir_inode fs4) (disk fs4)
                    (<[inodeidx := 0]> (inode_bitmap fs4)) (inodecount fs4) in
          (* memset(data + inodeidx * KTFS_INOSZ, 0, sizeof(struct ktfs_inode))
             in the block of the inode *)
          if KTFS_BLKSZ <? inodeidx * KTFS_INOSZ + KTFS_INOSZ then OutOfBounds
          else
            let iblk :=
              (1 + bitmap_block_count (super_blk fs5)
               + inodeidx / INODES_PER_BLK) * KTFS_BLKSZ in
            let fs6 :=
              set_disk fs5
                (write_bytes (disk fs5) (iblk + inodeidx * KTFS_INOSZ)
                             (repeat 0 (Z.to_nat KTFS_INOSZ))) in
            let root :=
              set_size (root_dir_inode fs6)
                       (wrap32 (size (root_dir_inode fs6) - KTFS_DENSZ)) in
            let fs7 :=
              mkSetup (super_blk fs6) root (disk fs6) (inode_bitmap fs6)
                      (inodecount fs6) in
            Ok (0,
                set_disk fs7
                  (write_bytes (disk fs7)
                     (inode_addr fs7 (root_directory_inode (super_blk fs7)))
                     (inode_bytes root)))
      end
  end.

End Ktfs.

(** ** io.c: the memory endpoint *)

Module Memio.

(** A call returns, or [memcpy] is handed a range that leaves the memory
    block or the caller's buffer. *)
Inductive result (A : Type) :=
| Ok (a : A)
| OutOfBounds.
Arguments Ok {A} a.
Arguments OutOfBounds {A}.

(** [struct memio] without its embedded [struct io]: the bytes of the
    block of memory [buf] points to, and [size]. *)
Record memio := mkMemio { mbuf : list Z; msize : Z }.

(** [create_memory_io(buf, size)]. *)
Definition create_memory_io (buf : list Z) (size : Z) : memio :=
  mkMemio buf size.

(** The count both [memio_readat] and [memio_writeat] compute,
    [pos + n > mio->size ? mio->size - pos : n], stored in an [int]. *)
Definition clamp (m : memio) (pos n : Z) : Z :=
  to_int (if msize m <? wrap64 (pos + n) then wrap64 (msize m - pos)
          else wrap64 n).

(** [memio_readat(io, pos, buf, bufsz)]: the value returned and the
    bytes stored in [buf]. *)
Definition memio_readat (m : memio) (pos bufsz : Z) : result (Z * list Z) :=
  if msize m <? pos then Ok (- EINVAL, [])
  else
    let read_size := clamp m pos bufsz in
    if (read_size <? 0) || (Z.of_nat (length (mbuf m)) <? pos + read_size)
    then OutOfBounds
    else
      Ok (read_size,
          firstn (Z.to_nat read_size) (skipn (Z.to_nat pos) (mbuf m))).

(** [memio_writeat(io, pos, buf, len)]: the value returned and the
    endpoint afterwards; [buf] holds the caller's bytes. *)
Definition memio_writeat (m : memio) (pos : Z) (buf : list Z) (len : Z)
    : result (Z * memio) :=
  if msize m <? pos then Ok (- EINVAL, m)
  else
    let write_size := clamp m pos len in
    if (write_size <? 0) || (Z.of_nat (length (mbuf m)) <? pos + write_size)
       || (Z.of_nat (length buf) <? write_size)
    then OutOfBounds
    else
      Ok (write_size,
          mkMemio (firstn (Z.to_nat pos) (mbuf m)
                   ++ firstn (Z.to_nat write_size) buf
                   ++ skipn (Z.to_nat (pos + write_size)) (mbuf m))
                  (msize m)).

(** [memio_cntl(io, cmd, arg)]: [arg] is [None] for a null pointer; the
    result is the value returned, what [arg] points to afterwards and
    the endpoint. *)
Definition memio_cntl (m : memio) (cmd : Io.ioctl_cmd) (arg : option Z)
    : Z * option Z * memio :=
  match arg with
  | None => (- EINVAL, None, m)
  | Some v =>
      match cmd with
      | Io.IOCTL_GETBLKSZ => (1, arg, m)
      | Io.IOCTL_GETEND => (0, Some (msize m), m)
      | Io.IOCTL_SETEND =>
          if v <? msize m then (0, arg, mkMemio (mbuf m) v)
          else (- EINVAL, arg, m)
      | _ => (- ENOTSUP, arg, m)
      end
  end.

(** [ioblksz(io)] on a memory endpoint: [ioctl(io, IOCTL_GETBLKSZ, NULL)]
    through the endpoint's [cntl] entry. *)
Definition ioblksz (m : memio) : Z :=
  fst (fst (memio_cntl m Io.IOCTL_GETBLKSZ None)).

End Memio.

(** ** io.c: the control operation of the seekable adapter *)

Module SeekioCntl.
Import Io.

Section Cntl.
Context {B : Type} `{Backing B}.

(** [seekio_cntl(io, cmd, arg)] for an [arg] that points to an
    [unsigned long long] holding [arg] (IOCTL_GETBLKSZ does not look at
    it): the value returned, what [arg] points to afterwards, the
    adapter and the backing endpoint. *)
Definition seekio_cntl (sio : seekio) (cmd : ioctl_cmd) (arg : Z) (b : B)
    : Z * Z * seekio * B :=
  match cmd with
  | IOCTL_GETBLKSZ => (blksz sio, arg, sio, b)
  | IOCTL_GETPOS => (0, pos sio, sio, b)
  | IOCTL_SETPOS =>
      if negb (Z.land arg (wrap64 (blksz sio - 1)) =? 0) then
        (- EINVAL, arg, sio, b)
      else if end_ sio <? arg then (- EINVAL, arg, sio, b)
      else (0, arg, mkSeekio arg (end_ sio) (blksz sio), b)
  | IOCTL_GETEND => (0, end_ sio, sio, b)
  | IOCTL_SETEND =>
      let '(result, arg', b') := ioctl b IOCTL_SETEND arg in
      if result =? 0 then
        (result, arg', mkSeekio (pos sio) arg' (blksz sio), b')
      else (result, arg', sio, b')
  | _ =>
      let '(result, arg', b') := ioctl b cmd arg in
      (result, arg', sio, b')
  end.

(** [ioseek(io, pos)] on the adapter. *)
Definition ioseek (sio : seekio) (p : Z) (b : B) : Z * seekio * B :=
  let '(result, _, sio', b') := seekio_cntl sio IOCTL_SETPOS p b in
  (result, sio', b').

End Cntl.

End SeekioCntl.

(** ** io.c: writing to a pipe, closing it *)

Module PipeWrite.
Import Pipe.

(** How a call of [pipe_write] goes on: it returns [ret], or it suspends
    the caller in [condition_wait(&p->notfull)] with [bytes_written]
    bytes in the ring (on wake-up the loop goes on from there), or it
    uses the pointer [p] that was never set (the endpoint is not the
    write end).  [notempty] counts the calls of
    [condition_broadcast(&p->notempty)]. *)
Inductive write_result :=
| WriteReturns (ret : Z) (p : pipe) (notempty : nat)
| WriteWaits (bytes_written : Z) (p : pipe) (notempty : nat)
| WriteBadPointer.

Section Ring.
Variable FAST16_BITS : Z.

Definition rbuf_putc (p : pipe) (c : Z) : pipe :=
  let tpos := to_fast16 FAST16_BITS (tailpos p) in
  mkPipe (<[Z.to_nat (tpos mod PAGE_SIZE) := c]> (buf p)) (headpos p)
         (tpos + 1) (data p) (readio_refcnt p) (writeio_refcnt p).

(** The [for] loop of [pipe_write], [n] rounds to go, [bytes_written]
    bytes done. *)
Fixpoint fill (n : nat) (bytes_written : Z) (src : list Z) (p : pipe)
    (notempty : nat) : write_result :=
  match n with
  | O => WriteReturns bytes_written p (S notempty)
  | S n' =>
      if rbuf_full p then WriteWaits bytes_written p notempty
      else if readio_refcnt p =? 0 then
        if 0 <? bytes_written then
          WriteReturns bytes_written p (S notempty)
        else WriteReturns (- EPIPE) p notempty
      else
        let p1 := rbuf_putc p (nth (Z.to_nat bytes_written) src 0) in
        let p2 := mkPipe (buf p1) (headpos p1) (tailpos p1)
                         (wrap64 (data p1 + 1))
                         (readio_refcnt p1) (writeio_refcnt p1) in
        fill n' (bytes_written + 1) src p2
             (if Z.rem bytes_written PAGE_SIZE =? 0 then S notempty
              else notempty)
  end.

(** [pipe_write(io, buf, len)]: [io] is [None] for a null pointer,
    [src] is [None] for a null [buf] and the caller's bytes otherwise. *)
Definition pipe_write (io : option pipe_end) (src : option (list Z))
    (len : Z) (p : pipe) : write_result :=
  match io, src with
  | None, _ => WriteReturns (- EINVAL) p 0
  | Some _, None => WriteReturns (- EINVAL) p 0
  | Some e, Some bytes =>
      if len =? 0 then WriteReturns 0 p 0
      else if len <? 0 then WriteReturns (- EINVAL) p 0
      else
        match e with
        | ReadEnd => WriteBadPointer
        | WriteEnd =>
            if readio_refcnt p =? 0 then WriteReturns (- EPIPE) p 0
            else fill (Z.to_nat len) 0 bytes p 0
        end
  end.

End Ring.


(** [create_pipe]: the page [alloc_phys_page] has handed out holds the
    bytes [page]. *)
Definition create_pipe (page : list Z) : pipe := mkPipe page 0 0 0 1 1.

(** [ioclose] on one end of a pipe followed into [pipe_close]: the
    result is [None] when [assert(io->refcnt != 0)] fails, and otherwise
    the pipe and whether [free_phys_page(p->buf)] was called. *)
Definition ioclose_end (e : pipe_end) (p : pipe) : option (pipe * bool) :=
  let cnt := match e with
             | ReadEnd => readio_refcnt p
             | WriteEnd => writeio_refcnt p
             end in
  if cnt =? 0 then None
  else
    let p' := match e with
              | ReadEnd =>
                  mkPipe (buf p) (headpos p) (tailpos p) (data p)
                         (readio_refcnt p - 1) (writeio_refcnt p)
              | WriteEnd =>
                  mkPipe (buf p) (headpos p) (tailpos p) (data p)
                         (readio_refcnt p) (writeio_refcnt p - 1)
              end in
    if cnt - 1 =? 0 then
      Some (p', (readio_refcnt p' =? 0) && (writeio_refcnt p' =? 0))
    else Some (p', false).

End PipeWrite.

(** ** memory.c: the count of free pages, memory tags, table walks *)

Module Mspace.
Import Memory.

(** [free_phys_page_count()]: the sum is kept in an [int] and returned
    as an [unsigned long]. *)
Definition free_phys_page_count (fl : list page_chunk) : Z :=
  wrap64 (fold_left (fun count c => to_int (count + pagecnt c)) fl 0).

(** [RISCV_SATP_MODE_Sv39] (riscv.h is not among the sources; the value
    is that of the RISC-V privileged architecture). *)
Definition PAGING_MODE : Z := 8.

(** [ptab_to_mtag(ptab, asid)]; [asid] is an [unsigned int]. *)
Definition ptab_to_mtag (ptab asid : Z) : Z :=
  Z.lor (Z.lor (wrap64 (Z.shiftl PAGING_MODE 60))
               (wrap64 (Z.shiftl (wrap32 asid) 44)))
        (pagenum ptab).

(** What a walk of the page tables ends in: a pointer ([0] is null), or
    the use of the local [pt1] that was never set (the level-2 entry is
    not valid). *)
Inductive walk :=
| Walked (p : Z)
| Unset.

(** [find_physical_page(vma)]: the level-0 table of [vma]. *)
Definition find_physical_page (vma : Z) (st : mstate) : walk :=
  let vma := ROUND_DOWN vma PAGE_SIZE in
  if negb (wellformed vma) then Walked 0
  else
    let l2 := load_pte st (entry (active_space_ptab st) (VPN2 vma)) in
    if PTE_VALID l2 then
      let l1 := load_pte st (entry (pageptr (ppn l2)) (VPN1 vma)) in
      if PTE_VALID l1 then Walked (pageptr (ppn l1)) else Walked 0
    else Unset.

(** [set_pte_flags(vma, rwxug_flags)]: [None] when the walk uses the
    unset pointer. *)
Definition set_pte_flags (vma rwxug_flags : Z) (st : mstate)
    : option mstate :=
  match find_physical_page vma st with
  | Unset => None
  | Walked pt0 =>
      if pt0 =? 0 then Some st
      else
        let a := entry pt0 (VPN0 vma) in
        let e := load_pte st a in
        let cleared :=
          Z.land (flags e)
            (Z.lnot (Z.lor (Z.lor (Z.lor (Z.lor PTE_R PTE_W) PTE_X) PTE_U)
                           PTE_G)) mod 2 ^ 8 in
        Some (store_pte a (mkPte (Z.lor cleared rwxug_flags mod 2 ^ 8) (ppn e))
                        st)
  end.

End Mspace.

(** ** ktfs.c: reading and writing a file *)

Module KtfsFile.
Import Ktfs.

(** [blocknum(fio, idx)]: the body is that of [inodeidxblocknum], line
    by line, on [fio->file_inode] and with [global_datablock_0]
    computed from the superblock. *)
Definition blocknum (fio : ktfs_file) (idx : Z) (fs : file_setup) : result Z :=
  inodeidxblocknum fs (file_inode fio) idx.

(** The number of bytes the loops of [ktfs_readat] and [ktfs_writeat]
    take in one round: [int bytesleft = KTFS_BLKSZ - block_offset],
    cut down to [end - curr] in the last block. *)
Definition round_bytes (curr end_ : Z) : Z :=
  let bytesleft := to_int (KTFS_BLKSZ - curr mod KTFS_BLKSZ) in
  if end_ <=? wrap64 (curr + bytesleft) then to_int (end_ - curr)
  else bytesleft.

(** The position [blknum * KTFS_BLKSZ] handed to [cache_get_block]: an
    [int] product converted to [unsigned long long]. *)
Definition block_pos (blknum : Z) : Z := wrap64 (to_int (blknum * KTFS_BLKSZ)).

(** The [while (curr < end)] loop of [ktfs_readat]: the value returned
    and the bytes stored in [buf] so far, in the order of their
    addresses. *)
Fixpoint read_loop (fuel : nat) (fio : ktfs_file) (fs : file_setup)
    (curr end_ bytesread : Z) (buf : list Z) : result (Z * list Z) :=
  if curr <? end_ then
    match fuel with
    | O => OutOfFuel
    | S fuel' =>
        blknum <- blocknum fio (curr / KTFS_BLKSZ) fs ;;
        if blknum =? -1 then Ok (- ENODATABLKS, buf)
        else
          let bytesleft := round_bytes curr end_ in
          let data :=
            read_bytes (disk fs) (block_pos blknum + curr mod KTFS_BLKSZ)
                       (Z.to_nat bytesleft) in
          read_loop fuel' fio fs (wrap64 (curr + bytesleft)) end_
                    (to_long (bytesread + bytesleft)) (buf ++ data)
    end
  else Ok (bytesread, buf).

(** [ktfs_readat(io, pos, buf, len)] for a non-null [io]: [opened] is
    [fio->open], [buf_null] tells whether [buf] is null; the result is
    the value returned and the bytes stored in [buf]. *)
Definition ktfs_readat (opened : bool) (fio : ktfs_file) (pos : Z)
    (buf_null : bool) (len : Z) (fs : file_setup) : result (Z * list Z) :=
  if buf_null then Ok (- EINVAL, [])
  else if negb opened then Ok (- EIO, [])
  else if len <? 0 then Ok (- EINVAL, [])
  else if len =? 0 then Ok (0, [])
  else if size (file_inode fio) =? 0 then Ok (0, [])
  else
    let file_size := size (file_inode fio) in
    if file_size <=? pos then Ok (- EINVAL, [])
    else
      let len :=
        if file_size <? wrap64 (pos + len) then to_long (file_size - pos)
        else len in
      let end_ := wrap64 (pos + len) in
      read_loop (Z.to_nat (len / KTFS_BLKSZ) + 2) fio fs pos end_ 0 [].

(** The [while (curr < end)] loop of [ktfs_writeat]; [buf] is what the
    caller's buffer holds. *)
Fixpoint write_loop (fuel : nat) (fio : ktfs_file) (buf : list Z)
    (curr end_ byteswritten : Z) (fs : file_setup)
    : result (Z * file_setup) :=
  if curr <? end_ then
    match fuel with
    | O => OutOfFuel
    | S fuel' =>
        blknum <- blocknum fio (curr / KTFS_BLKSZ) fs ;;
        if blknum =? -1 then Ok (- ENODATABLKS, fs)
        else
          let bytesleft := round_bytes curr end_ in
          let src :=
            firstn (Z.to_nat bytesleft) (skipn (Z.to_nat byteswritten) buf) in
          if (length src <? Z.to_nat bytesleft)%nat then OutOfBounds
          else
            write_loop fuel' fio buf (wrap64 (curr + bytesleft)) end_
              (to_long (byteswritten + bytesleft))
              (set_disk fs
                 (write_bytes (disk fs)
                    (block_pos blknum + curr mod KTFS_BLKSZ) src))
    end
  else Ok (byteswritten, fs).

(** [ktfs_writeat(io, pos, buf, len)] for a non-null [io]; [buf] is
    [None] for a null pointer and the bytes of the caller's buffer
    otherwise.  A buffer of fewer bytes than the loop copies is read
    past its end. *)
Definition ktfs_writeat (opened : bool) (fio : ktfs_file) (pos : Z)
    (buf : option (list Z)) (len : Z) (fs : file_setup)
    : result (Z * file_setup) :=
  match buf with
  | None => Ok (- EINVAL, fs)
  | Some buf =>
      if negb opened then Ok (- EIO, fs)
      else if len <? 0 then Ok (- EINVAL, fs)
      else if len =? 0 then Ok (0, fs)
      else
        let file_size := size (file_inode fio) in
        if file_size <=? pos then Ok (- EINVAL, fs)
        else
          let len :=
            if file_size <? wrap64 (pos + len) then to_long (file_size - pos)
            else len in
          let end_ := wrap64 (pos + len) in
          write_loop (Z.to_nat (len / KTFS_BLKSZ) + 2) fio buf pos end_ 0 fs
  end.

End KtfsFile.

(** ** cache.c *)

Module Cache.
Import Io.

(** [CACHE_BLKSZ] (cache.h is not among the sources; the file system
    uses the cache with its blocks of 512 bytes) and the number of
    slots. *)
Definition CACHE_BLKSZ : Z := 512.
Definition CACHE_BLOCK_AMMOUNT : nat := 64.

(** One element of [cache_blocks]. *)
Record slot := mkSlot { block_id : Z; sdata : list Z; assign_num : Z }.

(** [struct cache] without [bkgio]: the slots, [lock_owner], and of
    [cache_lock] whether the running thread owns it and its [count].
    No other thread runs, so [lock_acquire] never waits. *)
Record cache := mkCache {
  cache_blocks : list slot;
  lock_owner : Z;
  lock_held : bool;
  lock_count : Z
}.

(** [lock_acquire] and [lock_release] of thread.c for the running
    thread. *)
Definition lock_acquire (c : cache) : cache :=
  if lock_held c then
    mkCache (cache_blocks c) (lock_owner c) true (to_int (lock_count c + 1))
  else mkCache (cache_blocks c) (lock_owner c) true (lock_count c).

Definition lock_release (c : cache) : cache :=
  if lock_count c =? 0 then
    mkCache (cache_blocks c) (lock_owner c) false (lock_count c)
  else mkCache (cache_blocks c) (lock_owner c) (lock_held c)
               (to_int (lock_count c - 1)).

(** The static cache after [create_cache]: the buffers are those of a
    zero-initialised global. *)
Definition create_cache : cache :=
  mkCache (repeat (mkSlot (-1) (repeat 0 (Z.to_nat CACHE_BLKSZ)) 0)
                  CACHE_BLOCK_AMMOUNT)
          (-1) false 0.

(** [for (i = 0; i < CACHE_BLOCK_AMMOUNT; i++) if (test) ...]: the first
    slot that passes the test, counted from [i]. *)
Fixpoint first_slot (test : slot -> bool) (l : list slot) (i : nat)
    : option nat :=
  match l with
  | [] => None
  | s :: r => if test s then Some i else first_slot test r (S i)
  end.

(** The loop that computes [min]. *)
Definition min_assign (l : list slot) : Z :=
  fold_left (fun m s => if assign_num s <? m then assign_num s else m) l
            (assign_num (nth 0 l (mkSlot 0 [] 0))).

Definition with_owner (i : nat) (c : cache) : cache :=
  mkCache (cache_blocks c) (Z.of_nat i) (lock_held c) (lock_count c).

Section Backed.
Context {B : Type} `{Backing B}.

(** The miss path for slot [i]: the block is read into the slot's
    buffer (the result of [ioreadat] is not looked at; [ioreadat]
    stores the bytes it returns at the start of the buffer) and the
    slot is given the block's number, an [int]. *)
Definition fill_slot (i : nat) (pos : Z) (c : cache) (b : B)
    : Z * option nat * cache * B :=
  let '(_, bytes, b') := ioreadat b pos CACHE_BLKSZ in
  let blocks :=
    match cache_blocks c !! i with
    | Some s =>
        <[i := mkSlot (to_int (pos / CACHE_BLKSZ))
                      (bytes ++ skipn (length bytes) (sdata s))
                      (assign_num s)]> (cache_blocks c)
    | None => cache_blocks c
    end in
  (0, Some i,
   with_owner i
     (lock_acquire
        (mkCache blocks (lock_owner c) (lock_held c) (lock_count c))),
   b').

(** [cache_get_block(cache, pos, pptr)] for a non-null [cache]: the
    value returned, the slot whose buffer [*pptr] points to, the cache
    and the backing endpoint afterwards. *)
Definition cache_get_block (c : cache) (pos : Z) (b : B)
    : Z * option nat * cache * B :=
  if negb (pos mod CACHE_BLKSZ =? 0) then (- EINVAL, None, c, b)
  else
    match first_slot (fun s => wrap64 (block_id s) =? pos / CACHE_BLKSZ)
                     (cache_blocks c) 0 with
    | Some i => (0, Some i, with_owner i (lock_acquire c), b)
    | None =>
        match first_slot (fun s => block_id s =? -1) (cache_blocks c) 0 with
        | Some i => fill_slot i pos c b
        | None =>
            let m := min_assign (cache_blocks c) in
            match first_slot (fun s => assign_num s =? m)
                             (cache_blocks c) 0 with
            | Some i => fill_slot i pos c b
            | None => (- EIO, None, c, b)
            end
        end
    end.

(** The renumbering of [cache_release_block] for the slot [i] just
    released. *)
Definition renumber (i : nat) (l : list slot) : list slot :=
  let mine := assign_num (nth i l (mkSlot 0 [] 0)) in
  let num_released_blocks :=
    fold_left (fun n s => if assign_num s =? 0 then n else to_int (n + 1)) l
              (if mine =? 0 then 1 else 0) in
  let set_mine (l : list slot) :=
    match l !! i with
    | Some s => <[i := mkSlot (block_id s) (sdata s) num_released_blocks]> l
    | None => l
    end in
  if mine =? num_released_blocks then l
  else if mine =? 0 then set_mine l
  else
    set_mine
      (map (fun s =>
              if 1 <? assign_num s then
                mkSlot (block_id s) (sdata s) (to_int (assign_num s - 1))
              else s) l).

(** [cache_release_block(cache, pblk, dirty)]: [pblk] is the buffer of
    slot [i], or [None] for a pointer that is no slot's buffer, when
    the code goes on to read [cache_blocks[-1]]; [dirty] tells whether
    [dirty == CACHE_DIRTY].  The result of [iowriteat] is not looked
    at. *)
Definition cache_release_block (c : cache) (pblk : option nat) (dirty : bool)
    (b : B) : option (cache * B) :=
  match pblk with
  | None => None
  | Some i =>
      match cache_blocks c !! i with
      | None => None
      | Some s =>
          let b' :=
            if dirty then
              snd (iowriteat b (wrap64 (to_int (block_id s * CACHE_BLKSZ)))
                             (sdata s) CACHE_BLKSZ)
            else b in
          let c1 :=
            mkCache (renumber i (cache_blocks c)) (lock_owner c)
                    (lock_held c) (lock_count c) in
          let c2 := lock_release c1 in
          Some (mkCache (cache_blocks c2) (-1) (lock_held c2) (lock_count c2),
                b')
      end
  end.

(** [cache_flush(cache)] for a non-null [cache]. *)
Definition cache_flush (c : cache) (b : B) : option (Z * cache * B) :=
  if lock_owner c =? -1 then Some (0, c, b)
  else
    match cache_release_block c
            (if (0 <=? lock_owner c)
                && (lock_owner c <? Z.of_nat CACHE_BLOCK_AMMOUNT)
             then Some (Z.to_nat (lock_owner c)) else None)
            true b with
    | Some (c', b') => Some (0, c', b')
    | None => None
    end.

End Backed.

End Cache.

(* ===================================================================== *)
(** * Properties                                                          *)
(* ===================================================================== *)

(** ** timer.c *)

Module TimerSpec.
Import Timer.

(** The wake time after [alarm_sleep] has advanced it by [tcnt] ticks,
    saturating at [UINT64_MAX]. *)
Definition advanced (t tcnt : Z) : Z :=
  if UINT64_MAX - t <? tcnt then UINT64_MAX else t + tcnt.

Lemma alarm_sleep_twake mtime al tcnt st :
  twake (fst (alarm_sleep mtime al tcnt st)) = advanced (twake al) tcnt.
Proof.
  unfold alarm_sleep, advanced, rdtime.
  destruct (UINT64_MAX - twake al <? tcnt); cbn;
    match goal with |- context [if ?c then _ else _] => destruct c end;
    reflexivity.
Qed.

(** C10.  When the advanced wake time lies strictly before the current
    machine time, [alarm_sleep] returns at once: the sleep list, the
    compare register and the interrupt-enable bits are as before and no
    [condition_wait] is recorded (the caller is not suspended); only the
    alarm's own wake time and the clock read have happened. *)
Theorem alarm_sleep_past_returns mtime al tcnt st :
  advanced (twake al) tcnt < mtime (nreads st) ->
  let r := alarm_sleep mtime al tcnt st in
  sleep_list (snd r) = sleep_list st /\
  stcmp (snd r) = stcmp st /\
  stie (snd r) = stie st /\
  intr_en (snd r) = intr_en st /\
  trace (snd r) = trace st /\
  fst r = set_twake al (advanced (twake al) tcnt).
Proof.
  intros Hpast. unfold alarm_sleep, advanced in *. cbn.
  destruct (UINT64_MAX - twake al <? tcnt); cbn in *;
    match goal with
    | |- context [?a <? ?b] => destruct (Z.ltb_spec0 a b) as [_ | Hge]
    end; cbn; solve [auto 10 | lia].
Qed.

Definition sample_clock : nat -> Z := fun _ => 1000.

Definition sample_timer : timer :=
  mkTimer [mkAlarm 64 "sleep" 2000] 2000 true true 0 [].

Lemma alarm_sleep_past_returns_witness :
  let r := alarm_sleep sample_clock (mkAlarm 128 "sleep" 100) 50 sample_timer in
  sleep_list (snd r) = sleep_list sample_timer /\
  stcmp (snd r) = stcmp sample_timer /\
  stie (snd r) = stie sample_timer /\
  intr_en (snd r) = intr_en sample_timer /\
  trace (snd r) = trace sample_timer /\
  fst r = set_twake (mkAlarm 128 "sleep" 100) (advanced 100 50).
Proof.
  apply (alarm_sleep_past_returns sample_clock (mkAlarm 128 "sleep" 100) 50
           sample_timer).
  vm_compute. reflexivity.
Defined.

(** *** The timer interrupt *)

(** An alarm is due when its wake time is strictly before [now]: this is
    the test of the loop in [handle_timer_interrupt]. *)
Definition due (now : Z) (a : alarm) : bool := twake a <? now.

(** The alarms at the head of the list that are due, and the rest. *)
Fixpoint due_prefix (now : Z) (l : list alarm) : list alarm :=
  match l with
  | [] => []
  | a :: r => if due now a then a :: due_prefix now r else []
  end.

Fixpoint due_rest (now : Z) (l : list alarm) : list alarm :=
  match l with
  | [] => []
  | a :: r => if due now a then due_rest now r else a :: r
  end.

(** The conditions broadcast for a run of due alarms: one per alarm that
    is not the preemption alarm, in list order. *)
Definition broadcasts (pre : list alarm) : list event :=
  map (fun a => CondBroadcast (aid a))
      (List.filter (fun a => negb (is_interrupter a)) pre).

Section Rearm.
Variable mtime : nat -> Z.
Variable TIMER_FREQ : Z.

(** 20 ms in ticks, as [alarm_sleep_ms] computes it. *)
Definition ticks_20ms : Z := wrap64 (20 * (TIMER_FREQ / 1000)).

(** The preemption alarms of a run of due alarms after their re-arm:
    each is reset to the time read by [alarm_reset] (read number [n]),
    advanced by 20 ms, and put back on the list unless that wake time is
    already behind the time read by [alarm_sleep] (read number [n+1]). *)
Fixpoint rearmed (n : nat) (pre : list alarm) : list alarm :=
  match pre with
  | [] => []
  | a :: r =>
      if is_interrupter a then
        let a' := set_twake a (advanced (mtime n) ticks_20ms) in
        (if twake a' <? mtime (S n) then [] else [a'])
          ++ rearmed (S (S n)) r
      else rearmed n r
  end.
End Rearm.

Lemma due_prefix_length now l : (length (due_prefix now l) <= length l)%nat.
Proof.
  induction l as [|a r IH]; cbn; [lia|].
  destruct (due now a); cbn; lia.
Qed.

Lemma insert_behind_split a l :
  exists l1 l2, l = l1 ++ l2 /\ insert_behind a l = l1 ++ a :: l2.
Proof.
  induction l as [|c r (l1 & l2 & Hl & Hi)]; cbn.
  - exists [], []. auto.
  - destruct (twake c <? twake a).
    + exists (c :: l1), l2. cbn. rewrite Hi, Hl at 1. auto.
    + exists [], (c :: r). auto.
Qed.

Lemma insert_behind_not_due now a l :
  due now a = false ->
  due_prefix now (insert_behind a l) = due_prefix now l /\
  exists l1 l2, due_rest now l = l1 ++ l2 /\
                due_rest now (insert_behind a l) = l1 ++ a :: l2.
Proof.
  intros Ha. induction l as [|c r [IHp (l1 & l2 & IH1 & IH2)]]; cbn.
  - rewrite Ha. split; [reflexivity|]. exists [], []. auto.
  - destruct (Z.ltb_spec0 (twake c) (twake a)) as [Hlt | Hge]; cbn.
    + destruct (due now c) eqn:Hc.
      * rewrite IHp. split; [reflexivity|]. exists l1, l2. auto.
      * split; [reflexivity|].
        destruct (insert_behind_split a r) as (k1 & k2 & Hr & Hi).
        exists (c :: k1), k2. cbn. rewrite Hi, Hr at 1. auto.
    + rewrite Ha.
      assert (Hc : due now c = false).
      { unfold due in *. apply Z.ltb_ge. apply Z.ltb_ge in Ha. lia. }
      rewrite Hc. split; [reflexivity|]. exists [], (c :: r). auto.
Qed.

Lemma sleep_insert_not_due now a l :
  due now a = false ->
  due_prefix now (sleep_insert a l) = due_prefix now l /\
  exists l1 l2, due_rest now l = l1 ++ l2 /\
                due_rest now (sleep_insert a l) = l1 ++ a :: l2.
Proof.
  intros Ha. destruct l as [|h r]; cbn.
  - rewrite Ha. split; [reflexivity|]. exists [], []. auto.
  - destruct (Z.ltb_spec0 (twake a) (twake h)) as [Hlt | Hge]; cbn.
    + rewrite Ha.
      assert (Hh : due now h = false).
      { unfold due in *. apply Z.ltb_ge. apply Z.ltb_ge in Ha. lia. }
      rewrite Hh. split; [reflexivity|]. exists [], (h :: r). auto.
    + destruct (insert_behind_not_due now a r Ha) as [Hp (l1 & l2 & H1 & H2)].
      destruct (due now h) eqn:Hh.
      * rewrite Hp. split; [reflexivity|]. exists l1, l2. auto.
      * split; [reflexivity|].
        destruct (insert_behind_split a r) as (k1 & k2 & Hr & Hi).
        exists (h :: k1), k2. cbn. rewrite Hi, Hr at 1. auto.
Qed.

Lemma due_rest_head now l h t :
  due_rest now l = h :: t -> now <= twake h.
Proof.
  induction l as [|a r IH]; cbn; [discriminate|].
  destruct (due now a) eqn:Ha; [exact IH|].
  intros [= -> _]. unfold due in Ha. apply Z.ltb_ge in Ha. exact Ha.
Qed.

(** What re-arming the preemption alarm does to the timer state. *)
Lemma rearm_step mtime FREQ h t st :
  is_interrupter h = true ->
  let al := set_twake h (advanced t (ticks_20ms FREQ)) in
  snd (alarm_sleep_ms mtime FREQ (set_twake h t) 20 st) =
    if twake al <? mtime (nreads st) then
      mkTimer (sleep_list st) (stcmp st) (stie st) (intr_en st)
              (S (nreads st)) (trace st)
    else
      mkTimer (sleep_insert al (sleep_list st))
              (head_twake (sleep_insert al (sleep_list st)) (stcmp st))
              true (intr_en st) (S (nreads st)) (trace st).
Proof.
  intros Hi. unfold alarm_sleep_ms, alarm_sleep, rdtime, advanced, ticks_20ms.
  cbn.
  destruct (UINT64_MAX - t <? wrap64 (20 * (FREQ / 1000))); cbn;
    match goal with
    | |- context [?a <? ?b] => destruct (a <? b)
    end; cbn; try reflexivity;
    unfold is_interrupter in *; cbn; rewrite Hi; reflexivity.
Qed.

Local Opaque alarm_sleep_ms.

Lemma isr_loop_spec mtime FREQ now fuel :
  forall st,
    (length (due_prefix now (sleep_list st)) <= fuel)%nat ->
    (forall k, (nreads st <= k)%nat -> now <= mtime k) ->
    exists st',
      isr_loop mtime FREQ fuel now st = Some st' /\
      trace st' = trace st ++ broadcasts (due_prefix now (sleep_list st)) /\
      Permutation (sleep_list st')
        (rearmed mtime FREQ (nreads st) (due_prefix now (sleep_list st))
           ++ due_rest now (sleep_list st)) /\
      due_rest now (sleep_list st) `sublist_of` sleep_list st' /\
      (forall h t, sleep_list st' = h :: t -> now <= twake h) /\
      intr_en st' = intr_en st.
Proof.
  induction fuel as [|fuel IH]; intros st Hfuel Hclock.
  - (* no due alarm at the head *)
    destruct st as [l c e i n tr]; cbn in *.
    destruct l as [|h rest]; cbn in *.
    + eexists; repeat split; rewrite ?app_nil_r; cbn; auto; discriminate.
    + change (twake h <? now) with (due now h).
      destruct (due now h) eqn:Hh; cbn in *; [lia|].
      eexists; repeat split; rewrite ?app_nil_r; cbn; auto.
      intros h' t' [= -> _]. unfold due in Hh.
      apply Z.ltb_ge in Hh. exact Hh.
  - destruct st as [l c e i n tr]; cbn in *.
    destruct l as [|h rest]; cbn in *.
    + eexists; repeat split; rewrite ?app_nil_r; cbn; auto; discriminate.
    + change (twake h <? now) with (due now h).
      destruct (due now h) eqn:Hh; cbn in *.
      2:{ eexists; repeat split; rewrite ?app_nil_r; cbn; auto.
          intros h' t' [= -> _]. unfold due in Hh.
          apply Z.ltb_ge in Hh. exact Hh. }
      destruct (is_interrupter h) eqn:Hi; cbn.
      * (* the preemption alarm: reset, unlink, re-arm *)
        rewrite rearm_step by exact Hi. cbn.
        set (al := set_twake h (advanced (mtime n) (ticks_20ms FREQ))).
        destruct (Z.ltb_spec0 (advanced (mtime n) (ticks_20ms FREQ)) (mtime (S n)))
          as [Hpast | Hfut].
        -- edestruct (IH (mkTimer rest c e i (S (S n)) tr))
             as (st' & Hrun & Htr & Hperm & Hsub & Hhead & Hint);
             [cbn; lia | cbn; intros; apply Hclock; lia |].
           cbn in *. exists st'. repeat split; auto.
        -- assert (Hal : due now al = false).
           { unfold due. apply Z.ltb_ge.
             change (now <= advanced (mtime n) (ticks_20ms FREQ)).
             specialize (Hclock (S n) ltac:(lia)). lia. }
           destruct (sleep_insert_not_due now al rest Hal)
             as [Hp (l1 & l2 & H1 & H2)].
           edestruct (IH (mkTimer (sleep_insert al rest)
                            (head_twake (sleep_insert al rest) c)
                            true i (S (S n)) tr))
             as (st' & Hrun & Htr & Hperm & Hsub & Hhead & Hint);
             [cbn; rewrite Hp; lia | cbn; intros; apply Hclock; lia |].
           cbn in *. rewrite Hp, H2 in *. rewrite H1.
           exists st'. repeat split; auto.
           ++ rewrite Hperm. cbn.
              rewrite !app_assoc. symmetry. apply Permutation_middle.
           ++ etrans; [|exact Hsub].
              apply sublist_app; [reflexivity|]. by apply sublist_cons.
      * (* an ordinary alarm: broadcast and unlink *)
        edestruct (IH (mkTimer rest c e i n (tr ++ [CondBroadcast (aid h)])))
          as (st' & Hrun & Htr & Hperm & Hsub & Hhead & Hint);
          [cbn; lia | cbn; intros; apply Hclock; lia |].
        cbn in *. exists st'. repeat split; auto.
        rewrite Htr, <- app_assoc. reflexivity.
Qed.

Local Transparent alarm_sleep_ms.

(** C6, as the code has it.  With a clock that does not run backwards,
    [handle_timer_interrupt] returns, and with [now] the time it read
    first: the alarms at the head of the sleep list whose wake time is
    STRICTLY before [now] are unlinked; for each of them that is not the
    preemption alarm the condition is broadcast, in list order; the
    preemption alarms among them are reset and put back 20 ms out
    ([rearmed]); the alarms behind that run stay, in their order (so an
    alarm whose wake time equals [now] stays on the list); afterwards no
    alarm at the head is due, the compare register holds the wake time
    of the new head, and the timer interrupt is disabled when the list
    is empty. *)
Theorem handle_timer_interrupt_strict mtime FREQ st :
  (forall n m, (n <= m)%nat -> mtime n <= mtime m) ->
  let now := mtime (nreads st) in
  let pre := due_prefix now (sleep_list st) in
  let post := due_rest now (sleep_list st) in
  exists st',
    handle_timer_interrupt mtime FREQ st = Some st' /\
    trace st' = trace st ++ broadcasts pre /\
    Permutation (sleep_list st')
                (rearmed mtime FREQ (S (nreads st)) pre ++ post) /\
    post `sublist_of` sleep_list st' /\
    (forall h t, sleep_list st' = h :: t ->
                 now <= twake h /\ stcmp st' = twake h) /\
    (sleep_list st' = [] -> stie st' = false) /\
    intr_en st' = intr_en st.
Proof.
  intros Hmono. cbv zeta. unfold handle_timer_interrupt, rdtime.
  destruct (isr_loop_spec mtime FREQ (mtime (nreads st))
              (length (sleep_list st))
              (mkTimer (sleep_list st) (stcmp st) (stie st) false
                       (S (nreads st)) (trace st)))
    as (st1 & Hrun & Htr & Hperm & Hsub & Hhead & Hint).
  - cbn. apply due_prefix_length.
  - cbn. intros k Hk. apply Hmono. lia.
  - cbn in *. rewrite Hrun.
    destruct (sleep_list st1) as [|h t] eqn:Hl; cbn;
      eexists; (split; [reflexivity|]); cbn; rewrite ?Hl;
      (split; [exact Htr|]); (split; [exact Hperm|]);
      (split; [exact Hsub|]).
    + split; [intros ? ? [=] | split; reflexivity].
    + split; [|split; [intros [=] | reflexivity]].
      intros h' t' [= -> _]. split; [|reflexivity].
      eapply Hhead. reflexivity.
Qed.

Definition ticking_clock : nat -> Z := fun n => 1000 + Z.of_nat n.

Definition busy_timer : timer :=
  mkTimer [mkAlarm 64 "sleep" 900; mkAlarm 32 "interrupter" 950;
           mkAlarm 96 "sleep" 1000; mkAlarm 128 "sleep" 5000]
          900 true true 0 [].

Lemma handle_timer_interrupt_strict_witness :
  exists st',
    handle_timer_interrupt ticking_clock 10000000 busy_timer = Some st' /\
    trace st' = trace busy_timer ++
                broadcasts (due_prefix 1000 (sleep_list busy_timer)) /\
    Permutation (sleep_list st')
      (rearmed ticking_clock 10000000 1
               (due_prefix 1000 (sleep_list busy_timer))
         ++ due_rest 1000 (sleep_list busy_timer)) /\
    due_rest 1000 (sleep_list busy_timer) `sublist_of` sleep_list st' /\
    (forall h t, sleep_list st' = h :: t ->
                 1000 <= twake h /\ stcmp st' = twake h) /\
    (sleep_list st' = [] -> stie st' = false) /\
    intr_en st' = intr_en busy_timer.
Proof.
  apply (handle_timer_interrupt_strict ticking_clock 10000000 busy_timer).
  intros n m Hnm. unfold ticking_clock. lia.
Defined.

(** What the interrupt does to [busy_timer]: the sleeper due at 900 is
    woken, the preemption alarm moves to 1001 + 200000, the sleeper due
    at 1000 = [now] stays at the head. *)
Example handle_timer_interrupt_busy :
  handle_timer_interrupt ticking_clock 10000000 busy_timer =
  Some (mkTimer [mkAlarm 96 "sleep" 1000; mkAlarm 128 "sleep" 5000;
                 mkAlarm 32 "interrupter" 201001]
                1000 true true 3 [CondBroadcast 64]).
Proof. vm_compute. reflexivity. Qed.

(** C6 as stated fails for an alarm whose wake time EQUALS the current
    time: it is at the head, its wake time is <= now, and the interrupt
    neither unlinks it nor broadcasts its condition. *)
Lemma handle_timer_interrupt_keeps_alarm_due_now :
  let a := mkAlarm 64 "sleep" 1000 in
  let st := mkTimer [a] 1000 true true 0 [] in
  let now := sample_clock (nreads st) in
  twake a <= now /\
  exists st', handle_timer_interrupt sample_clock 10000000 st = Some st' /\
              sleep_list st' = [a] /\ trace st' = [].
Proof.
  cbn. split; [vm_compute; discriminate|].
  eexists. split; [vm_compute; reflexivity|]. split; reflexivity.
Qed.

End TimerSpec.

(** ** io.c: reference counts *)

Module IoSpec.
Import Io.

(** The reference-count discipline: the count equals the references
    taken ([ioinit1], [ioaddref]) minus the [ioclose] calls. *)
Definition balanced (e : io) : Prop :=
  refcnt e = acquired e - released e.

(** An endpoint whose close entry is not [seekio_close] keeps the
    discipline under [ioclose], and the entry is called exactly when
    the count has come down to zero. *)
Lemma ioclose_leaf fuel p st e :
  heap st !! p = Some e ->
  intf_close e <> CloseNull ->
  (forall b, intf_close e <> CloseSeekio b) ->
  balanced e -> 0 < refcnt e ->
  exists st' e',
    ioclose (S fuel) p st = Done st' /\
    heap st' !! p = Some e' /\ balanced e' /\
    refcnt e' = refcnt e - 1 /\
    close_calls st' =
      close_calls st ++ (if refcnt e' =? 0 then [p] else []).
Proof.
  intros Hp Hnull Hsk Hbal Hpos. cbn. rewrite Hp.
  destruct (Z.eqb_spec (refcnt e) 0) as [Hz | _]; [lia|]. cbn.
  destruct (Z.eqb_spec (refcnt e - 1) 0) as [Hz | Hnz].
  - destruct (intf_close e) eqn:Hc; [congruence | | exfalso; eapply Hsk; eauto].
    eexists _, _. split; [reflexivity|]. cbn.
    rewrite lookup_insert_eq. split; [reflexivity|].
    unfold balanced in *. cbn. rewrite Hz. repeat split; try lia.
  - eexists _, _. split; [reflexivity|]. cbn.
    rewrite lookup_insert_eq. split; [reflexivity|].
    unfold balanced in *. cbn.
    destruct (Z.eqb_spec (refcnt e - 1) 0); [lia|].
    rewrite app_nil_r. repeat split; lia.
Qed.

(** A file endpoint as [ktfs_open] sets it up: [ioinit1] on the file,
    then [create_seekable_io] on it. *)
Definition file_addr : Z := 4096.
Definition adapter_addr : Z := 8192.

Definition opened : outcome iostate :=
  create_seekable_io 1 0 adapter_addr file_addr
    (ioinit1 file_addr CloseLeaf (mkIoState ∅ [])).

(** C2 at the failing input.  After [ioinit1] and the adapter's
    [ioaddref] the backing endpoint holds two references.  One
    [ioclose] of the adapter takes both away: the backing endpoint's
    count is 0 after a single [ioclose] on it (acquired 2, released 1),
    and its [close] has run although one reference was never closed. *)
Theorem seekio_close_drops_two_references :
  exists st1 st2,
    opened = Done st1 /\
    heap st1 !! file_addr = Some (mkIo CloseLeaf 2 2 0) /\
    heap st1 !! adapter_addr = Some (mkIo (CloseSeekio file_addr) 1 1 0) /\
    ioclose 2 adapter_addr st1 = Done st2 /\
    heap st2 !! file_addr = Some (mkIo CloseLeaf 0 2 1) /\
    ~ balanced (mkIo CloseLeaf 0 2 1) /\
    close_calls st2 = [adapter_addr; file_addr].
Proof.
  eexists _, _. split; [vm_compute; reflexivity|].
  repeat split; try (vm_compute; reflexivity).
  unfold balanced; cbn. lia.
Qed.

(** The same adapter when its creator has given up its own reference
    first (the count of the backing endpoint is then 1, the adapter's):
    closing the adapter brings the count to 0 by hand and then runs into
    [assert(io->refcnt != 0)] of [ioclose]. *)
Lemma seekio_close_asserts_on_single_reference :
  exists st1 st2,
    opened = Done st1 /\
    ioclose 1 file_addr st1 = Done st2 /\
    heap st2 !! file_addr = Some (mkIo CloseLeaf 1 2 1) /\
    ioclose 2 adapter_addr st2 = AssertFailed.
Proof.
  eexists _, _. split; [vm_compute; reflexivity|].
  repeat split; vm_compute; reflexivity.
Qed.

End IoSpec.

(** ** io.c: stream reads and writes through the seekable adapter *)

Module SeekioSpec.
Import Io.

(** For a block size that is a power of two, the mask of
    [seekio_read]/[seekio_write] rounds a length down to whole blocks. *)
Lemma truncate_to_blksz_pow2 n k :
  0 <= k -> truncate_to_blksz n (2 ^ k) = 2 ^ k * (n / 2 ^ k).
Proof.
  intros Hk. unfold truncate_to_blksz.
  rewrite <- Z.ldiff_land.
  replace (2 ^ k - 1) with (Z.ones k) by (rewrite Z.ones_equiv; lia).
  rewrite Z.ldiff_ones_r by lia.
  rewrite Z.shiftr_div_pow2, Z.shiftl_mul_pow2 by lia. lia.
Qed.

Lemma pow2_pos k : 0 <= k -> 0 < 2 ^ k.
Proof. intros. apply Z.pow_pos_nonneg; lia. Qed.

Lemma wrap64_small z : 0 <= z < 2 ^ 64 -> wrap64 z = z.
Proof. intros. unfold wrap64. apply Z.mod_small. lia. Qed.

Lemma to_long_small z : 0 <= z < 2 ^ 63 -> to_long z = z.
Proof. intros. unfold to_long. rewrite Z.mod_small; lia. Qed.

Section Stream.
Context {B : Type} `{Backing B}.

(** The amount a stream read may cover: the request, cut at the end. *)
Definition within_end (sio : seekio) (bufsz : Z) : Z :=
  Z.min bufsz (end_ sio - pos sio).

Lemma seekio_read_cases sio k bufsz (b : B) :
  0 <= k -> blksz sio = 2 ^ k ->
  0 <= pos sio <= end_ sio -> end_ sio < 2 ^ 64 ->
  0 <= bufsz < 2 ^ 63 ->
  let n := within_end sio bufsz in
  (n = 0 -> seekio_read sio bufsz b = (0, [], sio, b)) /\
  (0 < n < blksz sio -> seekio_read sio bufsz b = (- EINVAL, [], sio, b)) /\
  (blksz sio <= n ->
     seekio_read sio bufsz b =
       let '(rcnt, data, b') :=
         ioreadat b (pos sio) (blksz sio * (n / blksz sio)) in
       (rcnt, data,
        mkSeekio (wrap64 (pos sio + (if rcnt <? 0 then 0 else rcnt)))
                 (end_ sio) (blksz sio),
        b')).
Proof.
  intros Hk Hblk Hpos Hend Hsz n. subst n. unfold within_end, seekio_read.
  assert (Hb := pow2_pos k Hk). rewrite <- Hblk in Hb.
  rewrite (wrap64_small (end_ sio - pos sio)) by lia.
  rewrite (wrap64_small bufsz) by lia.
  destruct (Z.ltb_spec (end_ sio - pos sio) bufsz) as [Hcut | Hfit].
  - rewrite to_long_small by lia. rewrite Z.min_r by lia.
    repeat split; intros Hn.
    + rewrite Hn. reflexivity.
    + destruct (Z.eqb_spec (end_ sio - pos sio) 0); [lia|].
      destruct (Z.ltb_spec (end_ sio - pos sio) (blksz sio)); [reflexivity|lia].
    + destruct (Z.eqb_spec (end_ sio - pos sio) 0); [lia|].
      destruct (Z.ltb_spec (end_ sio - pos sio) (blksz sio)); [lia|].
      rewrite Hblk, truncate_to_blksz_pow2 by lia. reflexivity.
  - rewrite Z.min_l by lia.
    repeat split; intros Hn.
    + rewrite Hn. reflexivity.
    + destruct (Z.eqb_spec bufsz 0); [lia|].
      destruct (Z.ltb_spec bufsz (blksz sio)); [reflexivity|lia].
    + destruct (Z.eqb_spec bufsz 0); [lia|].
      destruct (Z.ltb_spec bufsz (blksz sio)); [lia|].
      rewrite Hblk, truncate_to_blksz_pow2 by lia. reflexivity.
Qed.

Lemma seekio_write_cases sio k buf len (b : B) :
  0 <= k -> blksz sio = 2 ^ k ->
  0 <= pos sio <= end_ sio -> end_ sio < 2 ^ 64 ->
  0 <= len < 2 ^ 63 ->
  let n := blksz sio * (len / blksz sio) in
  (len = 0 -> seekio_write sio buf len b = (0, sio, b)) /\
  (0 < len < blksz sio -> seekio_write sio buf len b = (- EINVAL, sio, b)) /\
  (blksz sio <= len -> n <= end_ sio - pos sio ->
     seekio_write sio buf len b =
       seekio_write_through (pos sio) sio buf n b) /\
  (blksz sio <= len -> end_ sio - pos sio < n -> ULLONG_MAX < pos sio + n ->
     seekio_write sio buf len b = (- EINVAL, sio, b)) /\
  (blksz sio <= len -> end_ sio - pos sio < n -> pos sio + n <= ULLONG_MAX ->
     seekio_write sio buf len b =
       let '(result, e', b1) := ioctl b IOCTL_SETEND (pos sio + n) in
       if negb (result =? 0) then (result, sio, b1)
       else seekio_write_through (pos sio)
              (mkSeekio (pos sio) e' (blksz sio)) buf n b1).
Proof.
  intros Hk Hblk Hpos Hend Hsz n. subst n. unfold seekio_write.
  assert (Hb := pow2_pos k Hk). rewrite <- Hblk in Hb.
  assert (Hn : 0 <= blksz sio * (len / blksz sio) <= len).
  { split; [apply Z.mul_nonneg_nonneg; [lia | apply Z.div_pos; lia]
           | apply Z.mul_div_le; lia]. }
  rewrite (wrap64_small (end_ sio - pos sio)) by lia.
  repeat split.
  - intros ->. reflexivity.
  - intros Hl. destruct (Z.eqb_spec len 0); [lia|].
    destruct (Z.ltb_spec len (blksz sio)); [reflexivity|lia].
  - intros Hl Hin. destruct (Z.eqb_spec len 0); [lia|].
    destruct (Z.ltb_spec len (blksz sio)); [lia|].
    rewrite Hblk, truncate_to_blksz_pow2 by lia. rewrite <- Hblk.
    rewrite wrap64_small by lia.
    destruct (Z.ltb_spec (end_ sio - pos sio) (blksz sio * (len / blksz sio)));
      [lia | reflexivity].
  - intros Hl Hout Hov. destruct (Z.eqb_spec len 0); [lia|].
    destruct (Z.ltb_spec len (blksz sio)); [lia|].
    rewrite Hblk, truncate_to_blksz_pow2 by lia. rewrite <- Hblk.
    rewrite wrap64_small by lia.
    destruct (Z.ltb_spec (end_ sio - pos sio) (blksz sio * (len / blksz sio)));
      [|lia].
    destruct (Z.ltb_spec (ULLONG_MAX - pos sio) (blksz sio * (len / blksz sio)));
      [reflexivity | lia].
  - intros Hl Hout Hov. destruct (Z.eqb_spec len 0); [lia|].
    destruct (Z.ltb_spec len (blksz sio)); [lia|].
    rewrite Hblk, truncate_to_blksz_pow2 by lia. rewrite <- Hblk.
    rewrite (wrap64_small (blksz sio * (len / blksz sio))) by lia.
    destruct (Z.ltb_spec (end_ sio - pos sio) (blksz sio * (len / blksz sio)));
      [|lia].
    destruct (Z.ltb_spec (ULLONG_MAX - pos sio) (blksz sio * (len / blksz sio)));
      [lia|].
    rewrite wrap64_small by (unfold ULLONG_MAX in *; lia). reflexivity.
Qed.

(** C8, as the code has it.  With a block size that is a power of two:
    a stream read is first cut at the stored end; a request (so cut) of
    zero bytes returns 0; a request of fewer bytes than one block fails
    with invalid-argument and does not reach the backing endpoint; every
    other request is ROUNDED DOWN to whole blocks and passed to the
    backing endpoint's positional read or write (a write that reaches
    past the stored end sets the end on the backing endpoint first).  A
    request that is a positive multiple of the block size is thus passed
    on unchanged. *)
Theorem seekio_stream_whole_blocks sio k buf size (b : B) :
  0 <= k -> blksz sio = 2 ^ k ->
  0 <= pos sio <= end_ sio -> end_ sio < 2 ^ 64 ->
  0 <= size < 2 ^ 63 ->
  let r := within_end sio size in
  let w := blksz sio * (size / blksz sio) in
  (* read *)
  (r = 0 -> seekio_read sio size b = (0, [], sio, b)) /\
  (0 < r < blksz sio -> seekio_read sio size b = (- EINVAL, [], sio, b)) /\
  (blksz sio <= r ->
     seekio_read sio size b =
       let '(rcnt, data, b') :=
         ioreadat b (pos sio) (blksz sio * (r / blksz sio)) in
       (rcnt, data,
        mkSeekio (wrap64 (pos sio + (if rcnt <? 0 then 0 else rcnt)))
                 (end_ sio) (blksz sio),
        b')) /\
  (* write *)
  (size = 0 -> seekio_write sio buf size b = (0, sio, b)) /\
  (0 < size < blksz sio ->
     seekio_write sio buf size b = (- EINVAL, sio, b)) /\
  (blksz sio <= size -> w <= end_ sio - pos sio ->
     seekio_write sio buf size b =
       seekio_write_through (pos sio) sio buf w b) /\
  (blksz sio <= size -> end_ sio - pos sio < w -> ULLONG_MAX < pos sio + w ->
     seekio_write sio buf size b = (- EINVAL, sio, b)) /\
  (blksz sio <= size -> end_ sio - pos sio < w -> pos sio + w <= ULLONG_MAX ->
     seekio_write sio buf size b =
       let '(result, e', b1) := ioctl b IOCTL_SETEND (pos sio + w) in
       if negb (result =? 0) then (result, sio, b1)
       else seekio_write_through (pos sio)
              (mkSeekio (pos sio) e' (blksz sio)) buf w b1).
Proof.
  intros Hk Hblk Hpos Hend Hsz.
  destruct (seekio_read_cases sio k size b Hk Hblk Hpos Hend Hsz)
    as (R0 & R1 & R2).
  destruct (seekio_write_cases sio k buf size b Hk Hblk Hpos Hend Hsz)
    as (W0 & W1 & W2 & W3 & W4).
  cbv zeta. auto 10.
Qed.

End Stream.

(** A backing endpoint that reads zeros, accepts every write in full and
    accepts every control call. *)
#[local] Instance zero_disk : Backing unit := {|
  bk_readat := Some (fun _ _ n => (n, repeat 0 (Z.to_nat n), tt));
  bk_writeat := Some (fun _ _ _ n => (n, tt));
  bk_cntl := Some (fun _ _ arg => (0, arg, tt))
|}.

Definition sample_sio : seekio := mkSeekio 0 4096 512.

Lemma seekio_stream_whole_blocks_witness :
  let sio := sample_sio in
  let size := 768 in
  let buf := repeat 7 768 in
  let r := within_end sio size in
  let w := blksz sio * (size / blksz sio) in
  (r = 0 -> seekio_read sio size tt = (0, [], sio, tt)) /\
  (0 < r < blksz sio -> seekio_read sio size tt = (- EINVAL, [], sio, tt)) /\
  (blksz sio <= r ->
     seekio_read sio size tt =
       let '(rcnt, data, b') :=
         ioreadat tt (pos sio) (blksz sio * (r / blksz sio)) in
       (rcnt, data,
        mkSeekio (wrap64 (pos sio + (if rcnt <? 0 then 0 else rcnt)))
                 (end_ sio) (blksz sio),
        b')) /\
  (size = 0 -> seekio_write sio buf size tt = (0, sio, tt)) /\
  (0 < size < blksz sio ->
     seekio_write sio buf size tt = (- EINVAL, sio, tt)) /\
  (blksz sio <= size -> w <= end_ sio - pos sio ->
     seekio_write sio buf size tt =
       seekio_write_through (pos sio) sio buf w tt) /\
  (blksz sio <= size -> end_ sio - pos sio < w -> ULLONG_MAX < pos sio + w ->
     seekio_write sio buf size tt = (- EINVAL, sio, tt)) /\
  (blksz sio <= size -> end_ sio - pos sio < w -> pos sio + w <= ULLONG_MAX ->
     seekio_write sio buf size tt =
       let '(result, e', b1) := ioctl tt IOCTL_SETEND (pos sio + w) in
       if negb (result =? 0) then (result, sio, b1)
       else seekio_write_through (pos sio)
              (mkSeekio (pos sio) e' (blksz sio)) buf w b1).
Proof.
  apply (seekio_stream_whole_blocks sample_sio 9 (repeat 7 768) 768 tt);
    cbn; lia.
Defined.

(** C8 as stated fails: a request of one block and a half is not a
    multiple of the block size, and neither the stream read nor the
    stream write rejects it; each passes one block to the backing
    endpoint and returns its answer, 512. *)
Lemma seekio_partial_block_is_rounded :
  768 mod blksz sample_sio <> 0 /\
  fst (fst (fst (seekio_read sample_sio 768 tt))) = 512 /\
  fst (fst (seekio_write sample_sio (repeat 7 768) 768 tt)) = 512.
Proof. repeat split; vm_compute; congruence. Qed.

End SeekioSpec.

(** ** io.c: reading from a pipe *)

Module PipeSpec.
Import Pipe.






Definition sample_pipe : pipe :=
  mkPipe (104 :: 105 :: 33 :: repeat 0 4093) 0 3 3 1 0.



(** The three cases on small pipes. *)
Example pipe_read_drains :
  pipe_read 32 (Some ReadEnd) true 2 sample_pipe =
  ReadReturns 2 [104; 105]
    (mkPipe (104 :: 105 :: 33 :: repeat 0 4093) 2 3 1 1 0) true.
Proof. vm_compute. reflexivity. Qed.

Example pipe_read_waits :
  pipe_read 32 (Some ReadEnd) true 2 (mkPipe (repeat 0 4096) 5 5 0 1 1) =
  ReadWaits.
Proof. vm_compute. reflexivity. Qed.

Example pipe_read_eof :
  pipe_read 32 (Some ReadEnd) true 2 (mkPipe (repeat 0 4096) 5 5 0 1 0) =
  ReadReturns 0 [] (mkPipe (repeat 0 4096) 5 5 0 1 0) false.
Proof. vm_compute. reflexivity. Qed.

End PipeSpec.

(** ** dev/vioblk.c: reads at and across the end of the device *)

Module VioblkSpec.
Import Vioblk.

(** The number of bytes stored in the caller's buffer. *)
Definition bytes_copied (cs : list copy) : Z :=
  fold_right (fun c acc => Z.of_nat (length (bytes c)) + acc) 0 cs.

Section Device.
Variable device_read : Z -> Z * list Z.

(** The device completes the request for sector [s] without error and
    leaves a whole block in [vioblk->data]. *)
Definition healthy (blk s : Z) : Prop :=
  Z.land (fst (device_read s)) VIRTIO_BLK_S_IOERR = 0 /\
  Z.land (fst (device_read s)) VIRTIO_BLK_S_UNSUPP = 0 /\
  (Z.to_nat blk <= length (snd (device_read s)))%nat.

(** The copies of [n] whole blocks from block index [i] on. *)
Fixpoint block_copies (pos blk : Z) (n : nat) (i : Z) : list copy :=
  match n with
  | O => []
  | S n' =>
      mkCopy (wrap32 (i * blk))
             (firstn (Z.to_nat blk)
                     (snd (device_read (wrap64 (pos / blk + i)))))
        :: block_copies pos blk n' (i + 1)
  end.

Lemma read_blocks_healthy pos blk n :
  forall i done,
    (forall s, healthy blk s) ->
    read_blocks device_read n i pos blk done =
      (None, done ++ block_copies pos blk n i).
Proof.
  induction n as [|n IH]; intros i done Hok; cbn.
  - rewrite app_nil_r. reflexivity.
  - destruct (Hok (wrap64 (pos / blk + i))) as (H1 & H2 & _).
    destruct (device_read (wrap64 (pos / blk + i))) as [status data].
    cbn in *. rewrite H1, H2. cbn.
    rewrite IH by exact Hok. rewrite <- app_assoc. reflexivity.
Qed.

Lemma bytes_copied_blocks pos blk n :
  forall i, 0 <= blk -> (forall s, healthy blk s) ->
    bytes_copied (block_copies pos blk n i) = blk * Z.of_nat n.
Proof.
  induction n as [|n IH]; intros i Hblk Hok; cbn [block_copies].
  - cbn. lia.
  - unfold bytes_copied in *. cbn [fold_right bytes].
    rewrite IH by assumption.
    destruct (Hok (wrap64 (pos / blk + i))) as (_ & _ & Hlen).
    rewrite length_firstn, Nat.min_l by exact Hlen. lia.
Qed.

(** C3, as the code has it.  A read at the very end of the device
    returns 0; a read past the end returns invalid-argument; a read into
    a non-null buffer that starts inside the device and crosses its end
    returns the clamped count, end minus position, and stores WHOLE
    BLOCKS only: (end - pos) / blksz blocks, which are end - pos bytes
    when the position is a multiple of the block size. *)
Theorem vioblk_readat_at_end cfg pos buf_null bufsz :
  0 < blk_size cfg -> 0 <= capacity cfg ->
  capacity cfg * blk_size cfg < 2 ^ 63 ->
  0 <= pos ->
  let e := capacity cfg * blk_size cfg in
  let blk := blk_size cfg in
  (pos = e ->
     vioblk_readat device_read cfg pos buf_null bufsz = (0, [])) /\
  (e < pos ->
     vioblk_readat device_read cfg pos buf_null bufsz = (- EINVAL, [])) /\
  (buf_null = false -> pos < e -> 0 < bufsz -> e < pos + bufsz < 2 ^ 64 ->
   (e - pos) / blk < 2 ^ 31 -> (forall s, healthy blk s) ->
     let r := vioblk_readat device_read cfg pos buf_null bufsz in
     fst r = e - pos /\
     snd r = block_copies pos blk (Z.to_nat ((e - pos) / blk)) 0 /\
     bytes_copied (snd r) = blk * ((e - pos) / blk) /\
     (pos mod blk = 0 -> bytes_copied (snd r) = e - pos)).
Proof.
  intros Hblk Hcap Hend Hpos. cbv zeta. unfold vioblk_readat.
  assert (He : 0 <= capacity cfg * blk_size cfg) by nia.
  rewrite (SeekioSpec.wrap64_small (capacity cfg * blk_size cfg)) by lia.
  split; [|split].
  - intros ->. rewrite Z.eqb_refl. reflexivity.
  - intros Hpast.
    destruct (Z.eqb_spec pos (capacity cfg * blk_size cfg)); [lia|].
    destruct buf_null; [reflexivity|].
    destruct (Z.ltb_spec (capacity cfg * blk_size cfg) pos); [reflexivity|lia].
  - intros -> Hin Hsz Hcross Hint Hok.
    destruct (Z.eqb_spec pos (capacity cfg * blk_size cfg)); [lia|].
    destruct (Z.ltb_spec (capacity cfg * blk_size cfg) pos); [lia|].
    destruct (Z.ltb_spec bufsz 0); [lia|].
    destruct (Z.eqb_spec bufsz 0); [lia|].
    rewrite (SeekioSpec.wrap64_small (pos + bufsz)) by lia.
    destruct (Z.ltb_spec (capacity cfg * blk_size cfg) (pos + bufsz)); [|lia].
    rewrite (SeekioSpec.wrap64_small (capacity cfg * blk_size cfg - pos)) by lia.
    assert (Hn : 0 <= (capacity cfg * blk_size cfg - pos) / blk_size cfg)
      by (apply Z.div_pos; lia).
    assert (Hi : to_int ((capacity cfg * blk_size cfg - pos) / blk_size cfg)
                 = (capacity cfg * blk_size cfg - pos) / blk_size cfg).
    { unfold to_int. rewrite Z.mod_small; lia. }
    rewrite Hi, read_blocks_healthy by exact Hok. cbn [fst snd app].
    rewrite SeekioSpec.to_long_small by lia.
    rewrite bytes_copied_blocks by (lia || exact Hok).
    rewrite Z2Nat.id by lia.
    repeat split.
    intros Hal.
    assert (Hd : (blk_size cfg | capacity cfg * blk_size cfg - pos)).
    { apply Z.divide_sub_r; [apply Z.divide_factor_r|].
      apply Z.mod_divide; lia. }
    destruct Hd as [q Hq]. rewrite Hq, Z.div_mul by lia. lia.
Qed.

End Device.

(** A device of four blocks of 512 bytes; block [s] holds bytes [s]. *)
Definition sample_config : blk_config := mkConfig 512 4.
Definition sample_device : Z -> Z * list Z := fun s => (0, repeat s 512).

Lemma sample_device_healthy s : healthy sample_device 512 s.
Proof.
  unfold healthy, sample_device. cbn [fst snd].
  rewrite repeat_length. repeat split; lia.
Qed.

Lemma vioblk_readat_at_end_witness :
  let r := vioblk_readat sample_device sample_config 1024 false 4096 in
  vioblk_readat sample_device sample_config 2048 false 4096 = (0, []) /\
  fst r = 1024 /\ bytes_copied (snd r) = 1024.
Proof.
  split.
  - apply (vioblk_readat_at_end sample_device sample_config 2048 false 4096);
      cbn; lia.
  - destruct (vioblk_readat_at_end sample_device sample_config 1024 false 4096)
      as (_ & _ & Hcross); [cbn; lia ..|].
    destruct Hcross as (Hret & _ & _ & Hbytes);
      [reflexivity | vm_compute; repeat split; congruence ..
       | exact sample_device_healthy |].
    split; [exact Hret | apply Hbytes; reflexivity].
Defined.

(** The three cases on the sample device: at the end, one byte past the
    end, and two blocks asked for with one block left. *)
Example vioblk_readat_sample :
  vioblk_readat sample_device sample_config 2048 false 512 = (0, []) /\
  vioblk_readat sample_device sample_config 2049 false 512 = (- EINVAL, []) /\
  vioblk_readat sample_device sample_config 1536 false 1024 =
    (512, [mkCopy 0 (repeat 3 512)]).
Proof. repeat split; vm_compute; reflexivity. Qed.

(** C3 as stated fails when the read does not start on a block
    boundary: 24 bytes before the end of the device a read of 512 bytes
    returns the clamped count 24 = capacity - position, yet no byte is
    stored in the buffer. *)
Lemma vioblk_readat_unaligned_returns_more_than_copied :
  let r := vioblk_readat sample_device sample_config 2024 false 512 in
  let e := capacity sample_config * blk_size sample_config in
  fst r = e - 2024 /\ fst r = 24 /\ bytes_copied (snd r) = 0.
Proof. repeat split; vm_compute; reflexivity. Qed.

End VioblkSpec.

(** ** memory.c: the physical page pool *)

Module MemorySpec.
Import Memory.

Lemma take_exact_none cnt fl :
  (forall c, In c fl -> pagecnt c <> cnt) -> take_exact cnt fl = None.
Proof.
  induction fl as [|c r IH]; intros Hall; cbn; [reflexivity|].
  destruct (Z.eqb_spec (pagecnt c) cnt) as [He | _].
  - exfalso. apply (Hall c); [left; reflexivity | exact He].
  - rewrite IH; [reflexivity|]. intros c' Hin. apply Hall. right. exact Hin.
Qed.

Lemma find_target_none cnt fl :
  forall idx,
    (forall c, In c fl -> pagecnt c <= cnt) ->
    find_target cnt fl idx None = None.
Proof.
  induction fl as [|c r IH]; intros idx Hall; cbn; [reflexivity|].
  destruct (Z.ltb_spec cnt (pagecnt c)) as [Hgt | _].
  - specialize (Hall c (or_introl eq_refl)). lia.
  - apply IH. intros c' Hin. apply Hall. right. exact Hin.
Qed.

Lemma find_target_some cnt fl :
  forall idx t, t <> None -> find_target cnt fl idx t <> None.
Proof.
  induction fl as [|c r IH]; intros idx t Ht; cbn; [exact Ht|].
  apply IH. destruct (cnt <? pagecnt c); [|exact Ht].
  destruct t as [[i t]|]; [|discriminate].
  destruct (pagecnt c <? pagecnt t); discriminate.
Qed.

Lemma find_target_larger cnt fl :
  forall idx t,
    (exists c, In c fl /\ cnt < pagecnt c) ->
    find_target cnt fl idx t <> None.
Proof.
  induction fl as [|c r IH]; intros idx t (c' & Hin & Hgt); cbn.
  - destruct Hin.
  - destruct Hin as [-> | Hin].
    + apply find_target_some.
      destruct (Z.ltb_spec cnt (pagecnt c')); [|lia].
      destruct t as [[i t]|]; [|discriminate].
      destruct (pagecnt c' <? pagecnt t); discriminate.
    + apply IH. exists c'. auto.
Qed.

(** When a chunk of at least [cnt] pages is on the list, the allocator
    returns an address. *)
Lemma alloc_phys_pages_available cnt fl :
  (exists c, In c fl /\ cnt <= pagecnt c) ->
  exists pp fl', alloc_phys_pages cnt fl = Ret (pp, fl').
Proof.
  intros (c & Hin & Hge). unfold alloc_phys_pages.
  destruct (take_exact cnt fl) as [[pp fl']|] eqn:Hex; [eauto|].
  assert (Hgt : exists c, In c fl /\ cnt < pagecnt c).
  { exists c. split; [exact Hin|].
    destruct (Z.eq_dec (pagecnt c) cnt) as [He | Hne]; [|lia].
    exfalso. clear Hge. induction fl as [|d r IH]; [destruct Hin|].
    cbn in Hex. destruct (Z.eqb_spec (pagecnt d) cnt); [discriminate|].
    destruct (take_exact cnt r) as [[? ?]|] eqn:Hr; [discriminate|].
    destruct Hin as [-> | Hin]; [congruence | auto]. }
  pose proof (find_target_larger cnt fl 0 None Hgt) as Hsome.
  destruct (find_target cnt fl 0 None) as [[i t]|]; [eauto | congruence].
Qed.

(** C5 on the code: when every chunk on the free list has fewer than
    [cnt] pages, [alloc_phys_pages] returns neither null nor an address;
    it reads [target->pagecnt] through the null pointer [target].  The
    free list is not handed back unchanged. *)
Theorem alloc_phys_pages_exhausted cnt fl :
  (forall c, In c fl -> pagecnt c < cnt) ->
  alloc_phys_pages cnt fl = NullDeref.
Proof.
  intros Hall. unfold alloc_phys_pages.
  rewrite take_exact_none by (intros c Hin; specialize (Hall c Hin); lia).
  rewrite find_target_none by (intros c Hin; specialize (Hall c Hin); lia).
  reflexivity.
Qed.

Definition scattered_pages : list page_chunk :=
  [mkChunk 2148532224 1; mkChunk 2148540416 1; mkChunk 2148548608 1].

Lemma alloc_phys_pages_exhausted_witness :
  alloc_phys_pages 2 scattered_pages = NullDeref /\
  alloc_phys_pages 1 [] = NullDeref.
Proof.
  split; apply alloc_phys_pages_exhausted; cbn.
  - intros c [<- | [<- | [<- | []]]]; cbn; lia.
  - intros c [].
Defined.

(** The same list serves a request it can meet. *)
Example alloc_phys_pages_one :
  alloc_phys_pages 1 scattered_pages =
  Ret (2148532224, [mkChunk 2148540416 1; mkChunk 2148548608 1]).
Proof. vm_compute. reflexivity. Qed.

Example alloc_phys_pages_split :
  alloc_phys_pages 2 [mkChunk 2148532224 8; mkChunk 2149580800 5] =
  Ret (2149580800, [mkChunk 2148532224 8; mkChunk 2149588992 3]).
Proof. vm_compute. reflexivity. Qed.

(** *** The user page-fault handler *)

Lemma wellformed_low vma : 0 <= vma < 2 ^ 38 -> wellformed vma = true.
Proof.
  intros Hv. unfold wellformed.
  rewrite SeekioSpec.to_long_small by lia.
  rewrite Z.shiftr_div_pow2 by lia.
  rewrite Z.div_small by lia. reflexivity.
Qed.

Lemma round_down_page_pos vma :
  PAGE_SIZE <= vma -> 0 < ROUND_DOWN vma PAGE_SIZE.
Proof.
  unfold ROUND_DOWN, PAGE_SIZE. intros Hv.
  assert (1 <= vma / 4096) by (apply Z.div_le_lower_bound; lia). lia.
Qed.

(** The permissions the handler asks for. *)
Definition RWU : Z := Z.lor (Z.lor PTE_R PTE_W) PTE_U.

(** The state [map_page] leaves once the level-0 table [pt0] is found:
    a valid entry is kept, an entry that is not valid receives the
    leaf. *)
Definition leaf_installed (pt0 vma pp : Z) (st : mstate) : mstate :=
  if PTE_VALID (load_pte st (entry pt0 (VPN0 vma))) then st
  else store_pte (entry pt0 (VPN0 vma)) (leaf_pte pp RWU) st.

Section UserRange.
Variable UMEM_START_VMA : Z.
Variable UMEM_END_VMA : Z.
Hypothesis start_above_null : PAGE_SIZE <= UMEM_START_VMA.
Hypothesis end_in_low_half : UMEM_END_VMA <= 2 ^ 38.

Let in_range (vma : Z) : Prop := UMEM_START_VMA <= vma < UMEM_END_VMA.

(** C4, as the code has it.  Outside the user range the handler returns
    0 and leaves the state alone.  It returns 1 exactly when the address
    is in the user range, the allocator has returned a frame, and
    [map_page] has reached the level-0 table of the page; the state is
    then the one [map_page] leaves, and when the entry of the page was
    not valid before, it now holds the frame with the valid, read,
    write, user, accessed and dirty bits. *)
Theorem handle_umode_page_fault_retry vma st :
  (~ in_range vma ->
     handle_umode_page_fault UMEM_START_VMA UMEM_END_VMA vma st = Ret (0, st)) /\
  (forall st',
     handle_umode_page_fault UMEM_START_VMA UMEM_END_VMA vma st = Ret (1, st')
     <->
     in_range vma /\
     exists pp st1 pt0 st2,
       alloc_phys_page st = Ret (pp, st1) /\ pp <> 0 /\
       map_page_tables (ROUND_DOWN vma PAGE_SIZE) st1 = Ret (pt0, st2) /\
       st' = leaf_installed pt0 (ROUND_DOWN vma PAGE_SIZE) pp st2) /\
  (forall pt0 pp st2,
     PTE_VALID (load_pte st2 (entry pt0 (VPN0 (ROUND_DOWN vma PAGE_SIZE)))) = false ->
     let e := load_pte (leaf_installed pt0 (ROUND_DOWN vma PAGE_SIZE) pp st2)
                       (entry pt0 (VPN0 (ROUND_DOWN vma PAGE_SIZE))) in
     e = leaf_pte pp RWU /\ PTE_VALID e = true /\
     flags e = Z.lor RWU (Z.lor PTE_V (Z.lor PTE_A PTE_D)) /\
     ppn e = pagenum pp mod 2 ^ 44).
Proof using start_above_null end_in_low_half.
  unfold handle_umode_page_fault. split; [|split].
  - intros Hout. subst in_range. cbn in Hout.
    destruct (Z.leb_spec UMEM_START_VMA vma); cbn; [|reflexivity].
    destruct (Z.ltb_spec vma UMEM_END_VMA); [lia | reflexivity].
  - intros st'. subst in_range. cbn.
    destruct (Z.leb_spec UMEM_START_VMA vma) as [Hlo | Hlo]; cbn.
    2:{ split; [intros [= ]|]. intros [? _]. lia. }
    destruct (Z.ltb_spec vma UMEM_END_VMA) as [Hhi | Hhi].
    2:{ split; [intros [= ]|]. intros [? _]. lia. }
    assert (Hwf : wellformed vma = true)
      by (apply wellformed_low; unfold PAGE_SIZE in *; lia).
    assert (Hrd := round_down_page_pos vma ltac:(lia)).
    destruct (alloc_phys_page st) as [[pp st1]|] eqn:Halloc.
    2:{ split; [intros [= ]|]. intros (_ & ? & ? & ? & ? & [= ] & _). }
    destruct (Z.eqb_spec pp 0) as [Hnull | Hpp].
    { split; [intros [= ]|].
      intros (_ & ? & ? & ? & ? & [= <- <-] & ? & _). congruence. }
    unfold map_page. rewrite Hwf. cbn [negb].
    destruct (map_page_tables (ROUND_DOWN vma PAGE_SIZE) st1)
      as [[pt0 st2]|] eqn:Htab.
    2:{ split; [intros [= ]|].
        intros (_ & pp' & st1' & pt0' & st2' & Ha & _ & Ht & _).
        injection Ha as <- <-. rewrite Htab in Ht. discriminate. }
    fold RWU. fold (leaf_installed pt0 (ROUND_DOWN vma PAGE_SIZE) pp st2).
    assert (Hst :
      (if PTE_VALID (load_pte st2 (entry pt0 (VPN0 (ROUND_DOWN vma PAGE_SIZE))))
       then Ret (ROUND_DOWN vma PAGE_SIZE, st2)
       else Ret (ROUND_DOWN vma PAGE_SIZE,
                 store_pte (entry pt0 (VPN0 (ROUND_DOWN vma PAGE_SIZE)))
                           (leaf_pte pp RWU) st2)) =
      Ret (ROUND_DOWN vma PAGE_SIZE,
           leaf_installed pt0 (ROUND_DOWN vma PAGE_SIZE) pp st2)).
    { unfold leaf_installed.
      destruct (PTE_VALID (load_pte st2 (entry pt0 (VPN0 (ROUND_DOWN vma PAGE_SIZE)))));
        reflexivity. }
    rewrite Hst.
    destruct (Z.eqb_spec (ROUND_DOWN vma PAGE_SIZE) 0); [lia|].
    split.
    + intros [= <-]. split; [lia|]. exists pp, st1, pt0, st2. auto.
    + intros (_ & pp' & st1' & pt0' & st2' & [= <- <-] & _ & Ht & ->).
      rewrite Htab in Ht. injection Ht as <- <-. reflexivity.
  - intros pt0 pp st2 Hinv. unfold leaf_installed. rewrite Hinv.
    unfold load_pte, store_pte. cbn [mem]. rewrite lookup_insert_eq.
    cbn. repeat split.
Qed.

End UserRange.

(** A user range of 1 GiB below 4 GiB, a root table at 0x80200000 and a
    pool of sixteen free pages at 0x80300000. *)
Definition umem_start : Z := 3221225472.
Definition umem_end : Z := 4294967296.
Definition root_table : Z := 2149580800.
Definition sample_satp : Z := 8 * 2 ^ 60 + 524800.
Definition sample_pool : list page_chunk := [mkChunk 2150629376 16].

(** No user page is mapped. *)
Definition fresh_space : mstate :=
  mkMstate sample_pool sample_satp ∅.

Lemma handle_umode_page_fault_retry_witness :
  let vma := 3221230132 in
  let slot := entry 2150637568 (VPN0 (ROUND_DOWN vma PAGE_SIZE)) in
  exists st',
    handle_umode_page_fault umem_start umem_end vma fresh_space = Ret (1, st') /\
    load_pte st' slot = leaf_pte 2150629376 RWU /\
    handle_umode_page_fault umem_start umem_end 4096 fresh_space =
      Ret (0, fresh_space).
Proof.
  assert (Hs : PAGE_SIZE <= umem_start) by (vm_compute; congruence).
  assert (He : umem_end <= 2 ^ 38) by (vm_compute; congruence).
  destruct (handle_umode_page_fault_retry umem_start umem_end Hs He
              3221230132 fresh_space) as (_ & Hiff & Hleaf).
  destruct (handle_umode_page_fault_retry umem_start umem_end Hs He
              4096 fresh_space) as (Hout & _ & _).
  eexists. split; [|split].
  - apply Hiff. split; [vm_compute; split; congruence|].
    eexists _, _, _, _. split; [vm_compute; reflexivity|].
    split; [discriminate|]. split; [vm_compute; reflexivity | reflexivity].
  - apply Hleaf. vm_compute. reflexivity.
  - apply Hout. vm_compute. intros [H _]. apply H. reflexivity.
Defined.

(** An address space in which the first user page is mapped already,
    read and execute only, to the frame at 0x80400000. *)
Definition text_leaf : pte :=
  leaf_pte 2151677952 (Z.lor (Z.lor PTE_R PTE_X) PTE_U).

Definition mapped_space : mstate :=
  mkMstate sample_pool sample_satp
    (<[entry root_table 3 := ptab_pte 2149584896 0]>
       (<[entry 2149584896 0 := ptab_pte 2149588992 0]>
          (<[entry 2149588992 0 := text_leaf]> ∅))).

(** C4 as stated fails on a fault at a page that has a valid entry (a
    store to the read-only page above): the handler takes a frame from
    the pool and returns 1, yet the frame is installed nowhere; the
    page-table memory is as before and the page still maps the old
    frame without write permission. *)
Lemma handle_umode_page_fault_mapped_page :
  exists pp st1 st',
    alloc_phys_page mapped_space = Ret (pp, st1) /\
    handle_umode_page_fault umem_start umem_end umem_start mapped_space =
      Ret (1, st') /\
    mem st' = mem mapped_space /\
    load_pte st' (entry 2149588992 0) = text_leaf /\
    text_leaf <> leaf_pte pp RWU.
Proof.
  eexists _, _, _. split; [vm_compute; reflexivity|].
  split; [vm_compute; reflexivity|].
  split; [vm_compute; reflexivity|]. split; [vm_compute; reflexivity|].
  vm_compute. discriminate.
Qed.

End MemorySpec.

(** ** ktfs.c: deleting a directory entry *)

Module KtfsDeleteSpec.
Import Ktfs.

(** A directory entry as 32 bytes: the name padded with zeros to 14
    bytes, the inode number, 16 bytes of padding. *)
Definition dentry_bytes (name : list Z) (ino : Z) : list Z :=
  name ++ repeat 0 (14 - length name) ++ [ino mod 256; ino / 256 mod 256]
  ++ repeat 0 16.

Definition name_a : list Z := [97].
Definition name_b : list Z := [98].

(** A file system with one bitmap block and one inode block (data block
    0 is block 3 of the device).  The root directory is inode 0 and has
    its entries in data block 7, the block [allocate_open_block] hands
    out first on an empty bitmap. *)
Definition small_super : ktfs_superblock := mkSuper 1 1 0.

Definition dir_pos : Z := (7 + 3) * 512.

(** One file, "a", inode 1, empty. *)
Definition root_one : ktfs_inode := mkInode 32 [7; 0; 0; 0] 0 [0; 0].

Definition disk_one : gmap Z Z :=
  write_bytes
    (write_bytes (wr8 ∅ 512 128) 1024 (inode_bytes root_one))
    dir_pos (dentry_bytes name_a 1).

Definition fs_one : file_setup :=
  mkSetup small_super root_one disk_one (<[0 := 1]> (<[1 := 1]> ∅)) 1.

(** Two files, "a" (inode 1) and "b" (inode 2), both empty. *)
Definition root_two : ktfs_inode := mkInode 64 [7; 0; 0; 0] 0 [0; 0].

Definition disk_two : gmap Z Z :=
  write_bytes
    (write_bytes
       (write_bytes (wr8 ∅ 512 128) 1024 (inode_bytes root_two))
       dir_pos (dentry_bytes name_a 1))
    (dir_pos + 32) (dentry_bytes name_b 2).

Definition fs_two : file_setup :=
  mkSetup small_super root_two disk_two
          (<[0 := 1]> (<[1 := 1]> (<[2 := 1]> ∅))) 2.

(** The 32 bytes of directory slot [j] of the directory block. *)
Definition slot (fs : file_setup) (j : Z) : list Z :=
  read_bytes (disk fs) (dir_pos + j * 32) 32.

(** C7 at the failing input.  "a" is deleted from the directory that
    holds "a" and "b" in one block: the call returns 0, the size of the
    root directory goes from 64 to 32 and slot 0 now holds the entry of
    "b"; but slot 1, the slot of the last entry, is not zeroed: it still
    holds the entry of "b".  With "a" the only file, its entry stays in
    slot 0 after the delete and a search for "a" still finds it. *)
Theorem ktfs_delete_same_block_keeps_last_slot :
  match ktfs_delete (Some name_a) fs_two with
  | Ok (r, fs') =>
      r = 0 /\
      size (root_dir_inode fs') = 32 /\
      slot fs' 0 = dentry_bytes name_b 2 /\
      slot fs' 1 = dentry_bytes name_b 2 /\
      slot fs' 1 <> repeat 0 32
  | _ => False
  end /\
  match ktfs_delete (Some name_a) fs_one with
  | Ok (r, fs') =>
      r = 0 /\
      size (root_dir_inode fs') = 0 /\
      slot fs' 0 = dentry_bytes name_a 1 /\
      find_entry fs' name_a 4 0 None = Ok (Some (0, 0, dir_pos))
  | _ => False
  end.
Proof.
  vm_compute. repeat split; discriminate.
Qed.

(** The other path of the same code.  Seventeen entries, sixteen in data
    block 7 and the last one, "b", alone in data block 6: deleting "a"
    from slot 0 of the first block copies "b" there and zeroes the slot
    "b" had in the second block. *)
Definition root_two_blocks : ktfs_inode :=
  mkInode (17 * 32) [7; 6; 0; 0] 0 [0; 0].

Definition disk_two_blocks : gmap Z Z :=
  write_bytes
    (write_bytes
       (write_bytes (wr8 ∅ 512 192) 1024 (inode_bytes root_two_blocks))
       dir_pos (dentry_bytes name_a 1))
    ((6 + 3) * 512) (dentry_bytes name_b 2).

Definition fs_two_blocks : file_setup :=
  mkSetup small_super root_two_blocks disk_two_blocks
          (<[0 := 1]> (<[1 := 1]> (<[2 := 1]> ∅))) 2.

Lemma ktfs_delete_other_block_zeroes_last_slot :
  match ktfs_delete (Some name_a) fs_two_blocks with
  | Ok (r, fs') =>
      r = 0 /\
      size (root_dir_inode fs') = 16 * 32 /\
      slot fs' 0 = dentry_bytes name_b 2 /\
      read_bytes (disk fs') ((6 + 3) * 512) 32 = repeat 0 32
  | _ => False
  end.
Proof.
  vm_compute. repeat split.
Qed.

End KtfsDeleteSpec.

(** ** ktfs.c: the control operation of a file *)

Module KtfsCntlSpec.
Import Ktfs.

(** *** Bytes *)

Lemma rd8_wr8_eq d a v : rd8 (wr8 d a v) a = v mod 256.
Proof. unfold rd8, wr8. rewrite lookup_insert_eq. reflexivity. Qed.

Lemma rd8_wr8_ne d a b v : a <> b -> rd8 (wr8 d a v) b = rd8 d b.
Proof. intros. unfold rd8, wr8. rewrite lookup_insert_ne by assumption. reflexivity. Qed.

(** Every byte of the disk is a byte. *)
Definition bytes_ok (d : gmap Z Z) : Prop := forall a, 0 <= rd8 d a < 256.

Lemma bytes_ok_wr8 d a v : bytes_ok d -> bytes_ok (wr8 d a v).
Proof.
  intros Hd b. destruct (Z.eq_dec a b) as [-> | Hne].
  - rewrite rd8_wr8_eq. apply Z.mod_pos_bound. lia.
  - rewrite rd8_wr8_ne by assumption. apply Hd.
Qed.

Lemma bytes_ok_wr32 d a v : bytes_ok d -> bytes_ok (wr32 d a v).
Proof. intros. unfold wr32. auto using bytes_ok_wr8. Qed.

Lemma bytes_ok_write_bytes l : forall d a,
  bytes_ok d -> bytes_ok (write_bytes d a l).
Proof. induction l; cbn; auto using bytes_ok_wr8. Qed.

Lemma rd8_wr32_out d a v b :
  b < a \/ a + 3 < b -> rd8 (wr32 d a v) b = rd8 d b.
Proof. intros. unfold wr32. rewrite !rd8_wr8_ne by lia. reflexivity. Qed.

Lemma rd8_write_bytes_out l : forall d a b,
  b < a \/ a + Z.of_nat (length l) <= b ->
  rd8 (write_bytes d a l) b = rd8 d b.
Proof.
  induction l as [|v l IH]; intros d a b Hb; cbn in *; [reflexivity|].
  rewrite IH by lia. apply rd8_wr8_ne. lia.
Qed.

Lemma read_bytes_write_bytes l : forall d a,
  Forall (fun v => 0 <= v < 256) l ->
  read_bytes (write_bytes d a l) a (length l) = l.
Proof.
  induction l as [|v l IH]; intros d a Hl; cbn; [reflexivity|].
  inversion Hl as [|? ? Hv Hl']; subst.
  rewrite rd8_write_bytes_out by lia.
  rewrite rd8_wr8_eq, Z.mod_small by lia. f_equal. apply IH. exact Hl'.
Qed.

Lemma rd32_range d a : bytes_ok d -> 0 <= rd32 d a < 2 ^ 32.
Proof.
  intros Hd. unfold rd32.
  pose proof (Hd a). pose proof (Hd (a + 1)). pose proof (Hd (a + 2)).
  pose proof (Hd (a + 3)). lia.
Qed.

Lemma le32_bytes v : Forall (fun b => 0 <= b < 256) (le32 v).
Proof.
  unfold le32. repeat constructor; apply Z.mod_pos_bound; lia.
Qed.

Lemma flat_map_le32_bytes l : Forall (fun b => 0 <= b < 256) (flat_map le32 l).
Proof.
  induction l; cbn [flat_map]; [constructor|].
  apply Forall_app. auto using le32_bytes.
Qed.

Lemma inode_bytes_ok ino : Forall (fun b => 0 <= b < 256) (inode_bytes ino).
Proof.
  unfold inode_bytes. rewrite !Forall_app.
  auto using le32_bytes, flat_map_le32_bytes.
Qed.

Lemma flat_map_le32_length l : length (flat_map le32 l) = (4 * length l)%nat.
Proof.
  induction l; cbn [flat_map]; [reflexivity|].
  rewrite length_app, IHl. cbn. lia.
Qed.

Lemma inode_bytes_length ino :
  length (block ino) = 4%nat -> length (dindirect ino) = 2%nat ->
  length (inode_bytes ino) = 32%nat.
Proof.
  intros Hb Hd. unfold inode_bytes.
  rewrite !length_app, !flat_map_le32_length, Hb, Hd. reflexivity.
Qed.

(** *** The bitmap *)

Definition bit_clear (v b : Z) : bool := Z.land v (Z.shiftl 1 b) =? 0.

Lemma bit_clear_testbit v b : 0 <= b -> bit_clear v b = negb (Z.testbit v b).
Proof.
  intros Hb. unfold bit_clear. rewrite Z.shiftl_1_l.
  destruct (Z.testbit v b) eqn:Ht; cbn.
  - apply Z.eqb_neq. intros H0.
    assert (Hbit : Z.testbit (Z.land v (2 ^ b)) b = true).
    { rewrite Z.land_spec, Ht, Z.pow2_bits_true by lia. reflexivity. }
    rewrite H0, Z.bits_0 in Hbit. discriminate.
  - apply Z.eqb_eq. apply Z.bits_inj'. intros n Hn.
    rewrite Z.land_spec, Z.bits_0, Z.pow2_bits_eqb by lia.
    destruct (Z.eqb_spec b n) as [-> | _]; [rewrite Ht|];
      rewrite ?andb_false_r; reflexivity.
Qed.

(** The number of clear bits among bits [0 .. n-1] of [v]. *)
Fixpoint clear_bits (v : Z) (n : nat) : Z :=
  match n with
  | O => 0
  | S n' => (if bit_clear v (Z.of_nat n') then 1 else 0) + clear_bits v n'
  end.

Lemma clear_bits_nonneg v n : 0 <= clear_bits v n.
Proof. induction n; cbn; [lia|]. destruct (bit_clear _ _); lia. Qed.

Lemma first_clear_bit_none v n :
  first_clear_bit v n = None -> clear_bits v n = 0.
Proof.
  induction n as [|n IH]; cbn; [reflexivity|].
  fold (bit_clear v (Z.of_nat n)).
  destruct (bit_clear v (Z.of_nat n)); [discriminate|]. intros H. rewrite IH; auto.
Qed.

Lemma first_clear_bit_some v n b :
  first_clear_bit v n = Some b ->
  0 <= b < Z.of_nat n /\ bit_clear v b = true.
Proof.
  induction n as [|n IH]; cbn; [discriminate|].
  fold (bit_clear v (Z.of_nat n)).
  destruct (bit_clear v (Z.of_nat n)) eqn:Hc.
  - intros [= <-]. split; [lia | exact Hc].
  - intros H. destruct (IH H). split; [lia | assumption].
Qed.

Lemma first_clear_bit_free v n :
  0 < clear_bits v n -> first_clear_bit v n <> None.
Proof.
  intros Hpos Hnone. apply first_clear_bit_none in Hnone. lia.
Qed.

(** Setting a clear bit of a byte takes one clear bit away. *)
Lemma clear_bits_set v b n :
  0 <= b < Z.of_nat n -> (n <= 8)%nat -> bit_clear v b = true ->
  clear_bits (Z.lor v (Z.shiftl 1 b) mod 256) n = clear_bits v n - 1.
Proof.
  intros Hb Hn Hc.
  assert (Hbit : forall k, 0 <= k < 8 ->
            bit_clear (Z.lor v (Z.shiftl 1 b) mod 256) k =
            if k =? b then false else bit_clear v k).
  { intros k Hk. rewrite !bit_clear_testbit by lia.
    change 256 with (2 ^ 8). rewrite Z.mod_pow2_bits_low by lia.
    rewrite Z.lor_spec, Z.shiftl_1_l, Z.pow2_bits_eqb by lia.
    rewrite (Z.eqb_sym b k).
    destruct (k =? b); [rewrite orb_true_r|rewrite orb_false_r]; reflexivity. }
  induction n as [|n IH]; [lia|]. cbn [clear_bits].
  rewrite Hbit by lia.
  destruct (Z.eqb_spec (Z.of_nat n) b) as [He | Hne].
  - rewrite He, Hc.
    assert (Hlow : forall m, (Z.of_nat m <= b)%Z -> (m <= 8)%nat ->
              clear_bits (Z.lor v (Z.shiftl 1 b) mod 256) m = clear_bits v m).
    { induction m as [|m IHm]; intros Hm Hm8; cbn [clear_bits]; [reflexivity|].
      rewrite Hbit by lia. destruct (Z.eqb_spec (Z.of_nat m) b); [lia|].
      rewrite IHm by lia. reflexivity. }
    rewrite Hlow by lia. lia.
  - rewrite IH by lia. lia.
Qed.

(** The clear bits of the [n] bytes from address [a] on. *)
Fixpoint free_in (d : gmap Z Z) (a : Z) (n : nat) : Z :=
  match n with
  | O => 0
  | S n' => clear_bits (rd8 d a) 8 + free_in d (a + 1) n'
  end.

(** The clear bits of [n] bitmap blocks from bitmap block [blk] on. *)
Fixpoint free_in_blocks (d : gmap Z Z) (n : nat) (blk : Z) : Z :=
  match n with
  | O => 0
  | S n' =>
      free_in d ((1 + blk) * KTFS_BLKSZ) (Z.to_nat KTFS_BLKSZ)
      + free_in_blocks d n' (blk + 1)
  end.

(** The number of free blocks the bitmap shows. *)
Definition free_blocks (fs : file_setup) : Z :=
  free_in_blocks (disk fs) (Z.to_nat (bitmap_block_count (super_blk fs))) 0.

Lemma free_in_nonneg d n : forall a, 0 <= free_in d a n.
Proof.
  induction n; intros a; cbn [free_in]; [lia|].
  pose proof (clear_bits_nonneg (rd8 d a) 8). pose proof (IHn (a + 1)). lia.
Qed.

Lemma free_in_blocks_nonneg d n : forall blk, 0 <= free_in_blocks d n blk.
Proof.
  induction n; intros blk; cbn [free_in_blocks]; [lia|].
  pose proof (free_in_nonneg d (Z.to_nat KTFS_BLKSZ) ((1 + blk) * KTFS_BLKSZ)).
  pose proof (IHn (blk + 1)). lia.
Qed.

Lemma free_in_ext d d' n : forall a,
  (forall x, a <= x < a + Z.of_nat n -> rd8 d' x = rd8 d x) ->
  free_in d' a n = free_in d a n.
Proof.
  induction n as [|n IH]; intros a Hx; cbn [free_in]; [reflexivity|].
  rewrite Hx by lia. rewrite IH; [reflexivity|]. intros; apply Hx; lia.
Qed.

Lemma blksz_nat : Z.of_nat (Z.to_nat KTFS_BLKSZ) = 512.
Proof. reflexivity. Qed.

Ltac blk_lia :=
  unfold KTFS_BLKSZ in *; change (Z.of_nat (Z.to_nat 512)) with 512 in *; lia.

Lemma free_in_blocks_ext d d' n : forall blk,
  (forall x, (1 + blk) * KTFS_BLKSZ <= x
             < (1 + blk + Z.of_nat n) * KTFS_BLKSZ -> rd8 d' x = rd8 d x) ->
  free_in_blocks d' n blk = free_in_blocks d n blk.
Proof.
  induction n as [|n IH]; intros blk Hx; cbn [free_in_blocks]; [reflexivity|].
  rewrite (free_in_ext d d') by (intros; apply Hx; blk_lia).
  rewrite IH; [reflexivity|]. intros; apply Hx; blk_lia.
Qed.

(** Setting a clear bit in byte [x] of a run of bytes. *)
Lemma free_in_set d n : forall a x b,
  a <= x < a + Z.of_nat n -> 0 <= b < 8 -> bit_clear (rd8 d x) b = true ->
  free_in (wr8 d x (Z.lor (rd8 d x) (Z.shiftl 1 b))) a n = free_in d a n - 1.
Proof.
  induction n as [|n IH]; intros a x b Hx Hb Hc; cbn [free_in]; [lia|].
  destruct (Z.eq_dec a x) as [-> | Hne].
  - rewrite rd8_wr8_eq, clear_bits_set by (assumption || lia).
    rewrite (free_in_ext d) by (intros; apply rd8_wr8_ne; lia). lia.
  - rewrite rd8_wr8_ne by lia. rewrite IH by (assumption || lia). lia.
Qed.

Lemma scan_bytes_none d base n : forall byte,
  scan_bytes d base n byte = None -> free_in d (base + byte) n = 0.
Proof.
  induction n as [|n IH]; intros byte; cbn [scan_bytes free_in]; [reflexivity|].
  destruct (first_clear_bit (rd8 d (base + byte)) 8) eqn:Hf; [discriminate|].
  intros H. rewrite (first_clear_bit_none _ _ Hf).
  replace (base + byte + 1) with (base + (byte + 1)) by lia.
  rewrite IH by assumption. reflexivity.
Qed.

Lemma scan_bytes_some d base n : forall byte y bit,
  scan_bytes d base n byte = Some (y, bit) ->
  byte <= y < byte + Z.of_nat n /\ 0 <= bit < 8 /\
  bit_clear (rd8 d (base + y)) bit = true.
Proof.
  induction n as [|n IH]; intros byte y bit; cbn [scan_bytes]; [discriminate|].
  destruct (first_clear_bit (rd8 d (base + byte)) 8) eqn:Hf.
  - intros [= <- <-]. apply first_clear_bit_some in Hf. cbn in Hf.
    split; [lia|]. split; [lia | apply Hf].
  - intros H. apply IH in H. destruct H as (Hy & Hb & Hc).
    split; [lia|]. split; assumption.
Qed.

Lemma scan_blocks_none d n : forall blk,
  scan_blocks d n blk = None -> free_in_blocks d n blk = 0.
Proof.
  induction n as [|n IH]; intros blk; cbn [scan_blocks free_in_blocks];
    [reflexivity|].
  destruct (scan_bytes d ((1 + blk) * KTFS_BLKSZ) (Z.to_nat KTFS_BLKSZ) 0)
    as [[y bit]|] eqn:Hs; [discriminate|].
  intros H. apply scan_bytes_none in Hs. rewrite Z.add_0_r in Hs.
  rewrite Hs, IH by assumption. reflexivity.
Qed.

Lemma scan_blocks_some d n : forall blk k y bit,
  scan_blocks d n blk = Some (k, y, bit) ->
  blk <= k < blk + Z.of_nat n /\ 0 <= y < KTFS_BLKSZ /\ 0 <= bit < 8 /\
  bit_clear (rd8 d ((1 + k) * KTFS_BLKSZ + y)) bit = true.
Proof.
  induction n as [|n IH]; intros blk k y bit; cbn [scan_blocks]; [discriminate|].
  destruct (scan_bytes d ((1 + blk) * KTFS_BLKSZ) (Z.to_nat KTFS_BLKSZ) 0)
    as [[y' bit']|] eqn:Hs.
  - intros [= <- <- <-]. apply scan_bytes_some in Hs.
    split; [lia|]. split; [blk_lia|]. apply Hs.
  - intros H. apply IH in H. destruct H as (Hk & Hy & Hb & Hc).
    split; [lia|]. repeat split; assumption || lia.
Qed.

(** Setting a clear bit in the bitmap takes one free block away. *)
Lemma free_in_blocks_set d n : forall blk k y bit,
  blk <= k < blk + Z.of_nat n -> 0 <= y < KTFS_BLKSZ -> 0 <= bit < 8 ->
  let x := (1 + k) * KTFS_BLKSZ + y in
  bit_clear (rd8 d x) bit = true ->
  free_in_blocks (wr8 d x (Z.lor (rd8 d x) (Z.shiftl 1 bit))) n blk
  = free_in_blocks d n blk - 1.
Proof.
  induction n as [|n IH]; intros blk k y bit Hk Hy Hb x Hc;
    cbn [free_in_blocks]; [lia|].
  destruct (Z.eq_dec blk k) as [-> | Hne].
  - subst x. rewrite free_in_set by (assumption || blk_lia).
    rewrite (free_in_blocks_ext d) by (intros; apply rd8_wr8_ne; blk_lia).
    lia.
  - rewrite (free_in_ext d) by (intros; apply rd8_wr8_ne; subst x; blk_lia).
    subst x. rewrite IH by (assumption || lia). lia.
Qed.

(** *** The file system and the file between two calls *)

(** The superblock's counts fit the arithmetic of the code and every
    byte of the disk is a byte. *)
Definition wf_fs (fs : file_setup) : Prop :=
  0 <= bitmap_block_count (super_blk fs) < 2 ^ 19 /\
  0 <= inode_block_count (super_blk fs) < 2 ^ 32 /\
  bytes_ok (disk fs).

Definition u32 (v : Z) : Prop := 0 <= v < 2 ^ 32.

(** The inode of an open file: its arrays have the lengths of the
    structure and its fields are 32-bit numbers. *)
Definition wf_file (fio : ktfs_file) : Prop :=
  0 <= dentry_inode fio /\
  u32 (size (file_inode fio)) /\
  length (block (file_inode fio)) = 4%nat /\
  u32 (indirect (file_inode fio)) /\
  length (dindirect (file_inode fio)) = 2%nat /\
  Forall u32 (dindirect (file_inode fio)).

(** [fs'] is [fs] with [k] more blocks taken in the bitmap. *)
Definition evolves (k : Z) (fs fs' : file_setup) : Prop :=
  super_blk fs' = super_blk fs /\ wf_fs fs' /\
  free_blocks fs' = free_blocks fs - k.

Lemma evolves_refl fs : wf_fs fs -> evolves 0 fs fs.
Proof. intros H. split; [reflexivity|]. split; [exact H | lia]. Qed.

Lemma evolves_trans a b fs fs1 fs2 :
  evolves a fs fs1 -> evolves b fs1 fs2 -> evolves (a + b) fs fs2.
Proof.
  intros (Hs1 & Hw1 & Hf1) (Hs2 & Hw2 & Hf2).
  split; [congruence|]. split; [assumption | lia].
Qed.

Lemma evolves_wf k fs fs' : evolves k fs fs' -> wf_fs fs'.
Proof. intros H; apply H. Qed.

Lemma evolves_gdb k fs fs' :
  evolves k fs fs' -> global_datablock_0 fs' = global_datablock_0 fs.
Proof. intros (Hs & _). unfold global_datablock_0. rewrite Hs. reflexivity. Qed.

Lemma evolves_inode_addr k fs fs' ino :
  evolves k fs fs' -> inode_addr fs' ino = inode_addr fs ino.
Proof. intros (Hs & _). unfold inode_addr. rewrite Hs. reflexivity. Qed.

(** A write that leaves the bitmap alone takes no block. *)
Lemma evolves_set_disk fs d' :
  wf_fs fs -> bytes_ok d' ->
  (forall x, x < (1 + bitmap_block_count (super_blk fs)) * KTFS_BLKSZ ->
             rd8 d' x = rd8 (disk fs) x) ->
  evolves 0 fs (set_disk fs d').
Proof.
  intros (HB & HI & Hd) Hd' Hsame. split; [reflexivity|]. split.
  - split; [exact HB|]. split; [exact HI | exact Hd'].
  - unfold free_blocks. cbn [set_disk disk super_blk].
    rewrite (free_in_blocks_ext (disk fs) d'); [lia|].
    intros x Hx. apply Hsame. rewrite Z2Nat.id in Hx by lia. blk_lia.
Qed.

Lemma evolves_wr32 fs a v :
  wf_fs fs -> (1 + bitmap_block_count (super_blk fs)) * KTFS_BLKSZ <= a ->
  evolves 0 fs (set_disk fs (wr32 (disk fs) a v)).
Proof.
  intros Hw Ha. apply evolves_set_disk; [assumption | |].
  - apply bytes_ok_wr32, Hw.
  - intros x Hx. apply rd8_wr32_out. lia.
Qed.

Lemma inode_addr_above fs ino :
  0 <= ino ->
  (1 + bitmap_block_count (super_blk fs)) * KTFS_BLKSZ <= inode_addr fs ino.
Proof.
  intros Hi. unfold inode_addr, INODES_PER_BLK, KTFS_INOSZ, KTFS_BLKSZ.
  change (512 / 32) with 16.
  pose proof (Z.div_pos ino 16 Hi ltac:(lia)).
  pose proof (Z.mod_pos_bound ino 16 ltac:(lia)). nia.
Qed.

Lemma evolves_write_inode fs fio :
  wf_fs fs -> 0 <= dentry_inode fio ->
  evolves 0 fs (write_inode_to_disk fio fs).
Proof.
  intros Hw Hi. apply evolves_set_disk; [assumption | |].
  - apply bytes_ok_write_bytes, Hw.
  - intros x Hx. apply rd8_write_bytes_out.
    pose proof (inode_addr_above fs (dentry_inode fio) Hi). lia.
Qed.

(** *** Allocation *)

Lemma allocate_open_block_ok fs :
  wf_fs fs -> 0 < free_blocks fs ->
  exists n fs1, allocate_open_block fs = (n, fs1) /\
    0 <= n < 2 ^ 31 /\ evolves 1 fs fs1.
Proof.
  intros (HB & HI & Hd) Hfree. unfold allocate_open_block.
  destruct (scan_blocks (disk fs)
              (Z.to_nat (bitmap_block_count (super_blk fs))) 0)
    as [[[blk byte] bit]|] eqn:Hs.
  - apply scan_blocks_some in Hs. rewrite Z2Nat.id in Hs by lia.
    destruct Hs as (Hblk & Hbyte & Hbit & Hc).
    eexists _, _. split; [reflexivity|].
    assert (Hn : 0 <= blk * KTFS_BLKSZ * BYTE_SIZE + (byte * BYTE_SIZE + bit)
                 < 2 ^ 31).
    { unfold KTFS_BLKSZ, BYTE_SIZE in *. lia. }
    split.
    + unfold to_int, wrap64. rewrite (Z.mod_small (_ + 2 ^ 31)) by lia.
      rewrite Z.mod_small by lia. lia.
    + split; [reflexivity|]. split.
      * split; [exact HB|]. split; [exact HI|]. apply bytes_ok_wr8, Hd.
      * unfold free_blocks. cbn [set_disk disk super_blk].
        apply free_in_blocks_set; try assumption.
        rewrite Z2Nat.id by lia. lia.
  - apply scan_blocks_none in Hs. unfold free_blocks in Hfree. lia.
Qed.

Lemma with_block_ok fio fs k :
  wf_fs fs -> 0 < free_blocks fs ->
  exists n fs1, with_block fio fs k = k n fs1 /\
    0 <= n < 2 ^ 31 /\ evolves 1 fs fs1.
Proof.
  intros Hw Hfree.
  destruct (allocate_open_block_ok fs Hw Hfree) as (n & fs1 & Ha & Hn & He).
  exists n, fs1. split; [|split; assumption].
  unfold with_block. rewrite Ha.
  destruct (Z.eqb_spec n NO_BLOCK) as [Heq | _]; [|reflexivity].
  exfalso. assert (Hno : NO_BLOCK = 2 ^ 64 - 15) by reflexivity. lia.
Qed.

(** *** One more data block *)

Lemma wrap64_id v : 0 <= v < 2 ^ 64 -> wrap64 v = v.
Proof. intros. unfold wrap64. apply Z.mod_small. assumption. Qed.

Lemma wrap32_id v : u32 v -> wrap32 v = v.
Proof. intros. unfold wrap32. apply Z.mod_small. assumption. Qed.

Lemma wrap32_u32 v : u32 (wrap32 v).
Proof. unfold u32, wrap32. apply Z.mod_pos_bound. lia. Qed.

Lemma to_int_id v : - 2 ^ 31 <= v < 2 ^ 31 -> to_int v = v.
Proof. intros. unfold to_int. rewrite Z.mod_small by lia. lia. Qed.

Lemma nth_u32 (l : list Z) : forall k, Forall u32 l -> u32 (nth k l 0).
Proof.
  induction l as [|v l IH]; intros [|k] Hl; cbn;
    try (unfold u32; lia); inversion Hl; subst; auto.
Qed.

(** The byte address of data block [v]. *)
Lemma data_block_pos fs v :
  wf_fs fs -> u32 v ->
  wrap64 ((v + global_datablock_0 fs) * KTFS_BLKSZ)
  = (v + global_datablock_0 fs) * KTFS_BLKSZ /\
  (1 + bitmap_block_count (super_blk fs)) * KTFS_BLKSZ
  <= (v + global_datablock_0 fs) * KTFS_BLKSZ.
Proof.
  intros (HB & HI & _) Hv. unfold u32, global_datablock_0, KTFS_BLKSZ in *.
  split; [apply wrap64_id|]; lia.
Qed.

(** The blocks the bitmap gives up when block [idx] of a file is
    installed: the data block, and the indirect or double-indirect
    blocks that block [idx] is the first to need. *)
Definition blocks_for (idx : Z) : Z :=
  if idx <? KTFS_NUM_DIRECT_DATA_BLOCKS then 1
  else if idx <? KTFS_BLKS_PER_INDIRECT + KTFS_NUM_DIRECT_DATA_BLOCKS then
    (if idx =? KTFS_NUM_DIRECT_DATA_BLOCKS then 2 else 1)
  else
    let z := idx - KTFS_NUM_DIRECT_DATA_BLOCKS - KTFS_BLKS_PER_INDIRECT in
    (if (z =? 0) || (z =? KTFS_BLKS_PER_DINDIRECT) then 1 else 0)
    + (if z mod KTFS_BLKS_PER_INDIRECT =? 0 then 1 else 0) + 1.

Lemma blocks_for_pos idx : 1 <= blocks_for idx <= 3.
Proof.
  unfold blocks_for.
  repeat match goal with |- context [if ?c then _ else _] => destruct c end;
    lia.
Qed.

(** The call returned 1, took [k] blocks and left the size alone. *)
Definition added (k : Z) (fio : ktfs_file) (fs : file_setup)
    (r : result (Z * ktfs_file * file_setup)) : Prop :=
  exists fio' fs', r = Ok (1, fio', fs') /\ wf_file fio' /\
    size (file_inode fio') = size (file_inode fio) /\
    dentry_inode fio' = dentry_inode fio /\ evolves k fs fs'.

Lemma added_after a b fio fio1 fs fs1 r :
  evolves a fs fs1 ->
  size (file_inode fio1) = size (file_inode fio) ->
  dentry_inode fio1 = dentry_inode fio ->
  added b fio1 fs1 r -> added (a + b) fio fs r.
Proof.
  intros He Hs Hi (fio' & fs' & -> & Hw & Hs' & Hi' & He').
  exists fio', fs'. split; [reflexivity|]. split; [assumption|].
  split; [congruence|]. split; [congruence|].
  eapply evolves_trans; eassumption.
Qed.

Ltac take_block Hw Hfree n fs1 Hn He :=
  match goal with
  | |- context [with_block ?f ?s ?k] =>
      let Heq := fresh in
      destruct (with_block_ok f s k Hw Hfree) as (n & fs1 & Heq & Hn & He);
      rewrite Heq; clear Heq; cbv beta
  end.

(** A block number is written into a data block. *)
Lemma enter_block_ok fs fs1 fio v off n :
  wf_file fio -> wf_fs fs -> evolves 1 fs fs1 -> u32 v -> 0 <= off ->
  added 1 fio fs
    (Ok (1, fio,
         set_disk fs1
           (wr32 (disk fs1)
              (wrap64 ((v + global_datablock_0 fs) * KTFS_BLKSZ) + off) n))).
Proof.
  intros Hf Hw He Hv Hoff. exists fio, (set_disk fs1 (wr32 (disk fs1)
    (wrap64 ((v + global_datablock_0 fs) * KTFS_BLKSZ) + off) n)).
  split; [reflexivity|]. split; [assumption|]. do 2 (split; [reflexivity|]).
  replace 1 with (1 + 0) at 1 by lia.
  eapply evolves_trans; [eassumption|].
  apply evolves_wr32; [eapply evolves_wf; eassumption|].
  destruct (data_block_pos fs v Hw Hv) as (-> & Hpos).
  destruct He as (-> & _). lia.
Qed.

Lemma enter_indirect_ok fs fio new_idx :
  wf_fs fs -> wf_file fio -> KTFS_NUM_DIRECT_DATA_BLOCKS <= new_idx ->
  0 < free_blocks fs -> added 1 fio fs (enter_indirect new_idx fio fs).
Proof.
  intros Hw Hf Hidx Hfree. unfold enter_indirect. cbv zeta.
  take_block Hw Hfree n fs1 Hn He.
  apply enter_block_ok; try assumption; [apply Hf | lia].
Qed.

Lemma get_u32_ok d pos idx :
  0 <= idx < KTFS_BLKS_PER_INDIRECT ->
  get_u32 d pos idx = Ok (rd32 d (pos + 4 * idx)).
Proof.
  intros Hi. unfold get_u32.
  destruct (Z.leb_spec 0 idx); [|lia].
  destruct (Z.ltb_spec idx KTFS_BLKS_PER_INDIRECT); [reflexivity | lia].
Qed.

Lemma set_u32_ok d pos idx v :
  0 <= idx < KTFS_BLKS_PER_INDIRECT ->
  set_u32 d pos idx v = Ok (wr32 d (pos + 4 * idx) v).
Proof.
  intros Hi. unfold set_u32.
  destruct (Z.leb_spec 0 idx); [|lia].
  destruct (Z.ltb_spec idx KTFS_BLKS_PER_INDIRECT); [reflexivity | lia].
Qed.

(** The tail of the double-indirect branch: the indirect block is
    looked up in the double-indirect block at [dpos] and the new data
    block entered in it. *)
Lemma enter_dindirect_rest_ok fs fs0 k fio v idx off :
  wf_file fio -> wf_fs fs -> evolves k fs fs0 -> u32 v ->
  0 <= idx < KTFS_BLKS_PER_INDIRECT -> 0 <= off ->
  0 < free_blocks fs0 ->
  added (k + 1) fio fs
    (indirectnum <- get_u32 (disk fs0)
                      (wrap64 ((v + global_datablock_0 fs) * KTFS_BLKSZ)) idx ;;
     with_block fio fs0 (fun alloc_block fs1 =>
       Ok (1, fio,
           set_disk fs1
             (wr32 (disk fs1)
                (wrap64 ((indirectnum + global_datablock_0 fs0) * KTFS_BLKSZ)
                 + 4 * off) alloc_block)))).
Proof.
  intros Hf Hw He Hv Hidx Hoff Hfree.
  rewrite get_u32_ok by assumption. cbn [bind].
  pose proof (evolves_wf _ _ _ He) as Hw0.
  take_block Hw0 Hfree n fs1 Hn He1.
  eapply added_after; [exact He | reflexivity | reflexivity |].
  apply enter_block_ok; try assumption; [|lia].
  apply rd32_range, Hw0.
Qed.

Lemma enter_dindirect_ok fs fio z :
  wf_fs fs -> wf_file fio -> 0 <= z < 2 * KTFS_BLKS_PER_DINDIRECT ->
  let k := if z mod KTFS_BLKS_PER_INDIRECT =? 0 then 2 else 1 in
  k <= free_blocks fs -> added k fio fs (enter_dindirect z fio fs).
Proof.
  intros Hw Hf Hz k Hfree. unfold enter_dindirect. cbv zeta.
  set (z' := if z <? KTFS_BLKS_PER_DINDIRECT then z
             else wrap64 (z - KTFS_BLKS_PER_DINDIRECT)).
  set (i := if z <? KTFS_BLKS_PER_DINDIRECT then 0%nat else 1%nat).
  assert (Hz' : 0 <= z' < KTFS_BLKS_PER_DINDIRECT /\
                z' mod KTFS_BLKS_PER_INDIRECT = z mod KTFS_BLKS_PER_INDIRECT).
  { subst z'. unfold KTFS_BLKS_PER_DINDIRECT, KTFS_BLKS_PER_INDIRECT in *.
    destruct (Z.ltb_spec z (128 * 128)); [lia|].
    rewrite wrap64_id by lia. split; [lia|].
    replace z with (z - 128 * 128 + 128 * 128) at 2 by lia.
    rewrite Z_mod_plus_full. reflexivity. }
  destruct Hz' as (Hz' & Hmod).
  assert (Hidx : 0 <= z' / KTFS_BLKS_PER_INDIRECT < KTFS_BLKS_PER_INDIRECT).
  { unfold KTFS_BLKS_PER_DINDIRECT, KTFS_BLKS_PER_INDIRECT in *.
    split; [apply Z.div_pos; lia | apply Z.div_lt_upper_bound; lia]. }
  assert (Hoff : 0 <= z' mod KTFS_BLKS_PER_INDIRECT < KTFS_BLKS_PER_INDIRECT).
  { apply Z.mod_pos_bound. reflexivity. }
  rewrite !to_int_id
    by (unfold KTFS_BLKS_PER_DINDIRECT, KTFS_BLKS_PER_INDIRECT in *; lia).
  pose proof (nth_u32 (dindirect (file_inode fio)) i
                ltac:(apply Hf)) as Hv.
  subst k. rewrite <- Hmod in *.
  destruct (Z.eqb_spec (z' mod KTFS_BLKS_PER_INDIRECT) 0) as [H0 | Hn0].
  - assert (Hfree1 : 0 < free_blocks fs) by lia.
    take_block Hw Hfree1 n fs1 Hn He.
    rewrite set_u32_ok by assumption. cbn [bind].
    assert (He' : evolves 1 fs (set_disk fs1 (wr32 (disk fs1)
              (wrap64 ((nth i (dindirect (file_inode fio)) 0
                        + global_datablock_0 fs) * KTFS_BLKSZ)
               + 4 * (z' / KTFS_BLKS_PER_INDIRECT)) n))).
    { replace 1 with (1 + 0) by lia. eapply evolves_trans; [exact He|].
      apply evolves_wr32; [eapply evolves_wf; exact He|].
      destruct (data_block_pos fs _ Hw Hv) as (-> & Hpos).
      destruct He as (-> & _). lia. }
    cbn [set_disk disk].
    change 2 with (1 + 1).
    match goal with
    | |- added _ _ _ (bind (get_u32 ?d _ _) _) =>
        change d with (disk (set_disk fs1 d))
    end.
    pose proof (enter_dindirect_rest_ok fs _ 1 fio _ _
                  (z' mod KTFS_BLKS_PER_INDIRECT) Hf Hw He' Hv Hidx
                  ltac:(lia)) as Hrest.
    rewrite H0 in *. apply Hrest.
    destruct He' as (_ & _ & ->). lia.
  - change 1 with (0 + 1).
    apply (enter_dindirect_rest_ok fs fs 0 fio); try assumption; try lia.
    apply evolves_refl; assumption.
Qed.

Lemma wf_file_set_block fio i v :
  wf_file fio -> wf_file (set_file_inode fio (set_block (file_inode fio) i v)).
Proof.
  intros (Hi & Hs & Hb & Hind & Hd & Hdr).
  repeat split; cbn; try assumption; try apply Hs; try apply Hind.
  rewrite length_insert. assumption.
Qed.

Lemma wf_file_set_indirect fio v :
  wf_file fio -> wf_file (set_file_inode fio (set_indirect (file_inode fio) v)).
Proof.
  intros (Hi & Hs & Hb & Hind & Hd & Hdr).
  repeat split; cbn; try assumption; try apply Hs; try apply wrap32_u32.
Qed.

Lemma wf_file_set_dindirect fio i v :
  wf_file fio ->
  wf_file (set_file_inode fio (set_dindirect (file_inode fio) i v)).
Proof.
  intros (Hi & Hs & Hb & Hind & Hd & Hdr).
  repeat split; cbn; try assumption; try apply Hs; try apply Hind.
  - rewrite length_insert. assumption.
  - apply Forall_insert; [assumption | apply wrap32_u32].
Qed.

Lemma wf_file_set_size fio s :
  wf_file fio -> u32 s ->
  wf_file (set_file_inode fio (set_size (file_inode fio) s)).
Proof.
  intros (Hi & Hs & Hb & Hind & Hd & Hdr) Hu.
  repeat split; cbn; try assumption; try apply Hu; try apply Hind.
Qed.

(** [add_new_inode_datablk] installs block [old_idx + 1] when the bitmap
    has the blocks for it. *)
Lemma add_new_inode_datablk_ok fs fio old_idx :
  wf_fs fs -> wf_file fio ->
  0 <= old_idx ->
  old_idx + 1 < KTFS_NUM_DIRECT_DATA_BLOCKS + KTFS_BLKS_PER_INDIRECT
                + 2 * KTFS_BLKS_PER_DINDIRECT ->
  blocks_for (old_idx + 1) <= free_blocks fs ->
  added (blocks_for (old_idx + 1)) fio fs (add_new_inode_datablk fio old_idx fs).
Proof.
  intros Hw Hf Hold Hnew. unfold add_new_inode_datablk, blocks_for. cbv zeta.
  assert (Hi : 0 <= dentry_inode fio) by apply Hf.
  rewrite (wrap64_id (old_idx + 1))
    by (unfold KTFS_NUM_DIRECT_DATA_BLOCKS, KTFS_BLKS_PER_INDIRECT,
          KTFS_BLKS_PER_DINDIRECT in *; lia).
  destruct (Z.ltb_spec (old_idx + 1) KTFS_NUM_DIRECT_DATA_BLOCKS) as [Hd | Hd].
  { intros Hfree. assert (Hfree1 : 0 < free_blocks fs) by lia.
    take_block Hw Hfree1 n fs1 Hn He.
    eexists _, _. split; [reflexivity|].
    split; [apply wf_file_set_block; assumption|].
    do 2 (split; [reflexivity|]).
    replace 1 with (1 + 0) by lia. eapply evolves_trans; [exact He|].
    apply evolves_write_inode; [eapply evolves_wf; exact He | exact Hi]. }
  destruct (Z.ltb_spec (old_idx + 1)
              (KTFS_BLKS_PER_INDIRECT + KTFS_NUM_DIRECT_DATA_BLOCKS))
    as [Hind | Hind].
  { destruct (Z.ltb_spec old_idx KTFS_NUM_DIRECT_DATA_BLOCKS) as [Ho | Ho].
    - destruct (Z.eqb_spec (old_idx + 1) KTFS_NUM_DIRECT_DATA_BLOCKS);
        [|lia].
      intros Hfree. assert (Hfree1 : 0 < free_blocks fs) by lia.
      take_block Hw Hfree1 n fs1 Hn He.
      change 2 with (1 + 0 + 1).
      set (fio1 := set_file_inode fio (set_indirect (file_inode fio) n)).
      pose proof (evolves_write_inode fs1 fio1 (evolves_wf _ _ _ He) Hi)
        as He1.
      pose proof (evolves_trans _ _ _ _ _ He He1) as He2.
      apply (added_after _ _ fio fio1 _ _ _ He2); [reflexivity ..|].
      apply enter_indirect_ok;
        [eapply evolves_wf; exact He2
        | apply wf_file_set_indirect; assumption | assumption |].
      destruct He2 as (_ & _ & ->). lia.
    - destruct (Z.eqb_spec (old_idx + 1) KTFS_NUM_DIRECT_DATA_BLOCKS);
        [lia|].
      intros Hfree. apply enter_indirect_ok; try assumption. lia. }
  rewrite (wrap64_id (old_idx + 1 - _ - _))
    by (unfold KTFS_NUM_DIRECT_DATA_BLOCKS, KTFS_BLKS_PER_INDIRECT,
          KTFS_BLKS_PER_DINDIRECT in *; lia).
  set (z := old_idx + 1 - KTFS_NUM_DIRECT_DATA_BLOCKS - KTFS_BLKS_PER_INDIRECT).
  assert (Hz : 0 <= z < 2 * KTFS_BLKS_PER_DINDIRECT) by (subst z; lia).
  assert (Hfirst : forall i,
    1 + (if z mod KTFS_BLKS_PER_INDIRECT =? 0 then 1 else 0) + 1
      <= free_blocks fs ->
    added (1 + (if z mod KTFS_BLKS_PER_INDIRECT =? 0 then 1 else 0) + 1)
      fio fs
      (with_block fio fs (fun alloc_block fs1 =>
         let fio1 :=
           set_file_inode fio (set_dindirect (file_inode fio) i alloc_block) in
         enter_dindirect z fio1 (write_inode_to_disk fio1 fs1)))).
  { intros i Hfree.
    assert (Hfree1 : 0 < free_blocks fs)
      by (destruct (z mod KTFS_BLKS_PER_INDIRECT =? 0); lia).
    take_block Hw Hfree1 n fs1 Hn He. cbv zeta.
    set (fio1 := set_file_inode fio (set_dindirect (file_inode fio) i n)).
    pose proof (evolves_write_inode fs1 fio1 (evolves_wf _ _ _ He) Hi)
      as He1.
    pose proof (evolves_trans _ _ _ _ _ He He1) as He2.
    replace (1 + (if z mod KTFS_BLKS_PER_INDIRECT =? 0 then 1 else 0) + 1)
      with (1 + 0 + (if z mod KTFS_BLKS_PER_INDIRECT =? 0 then 2 else 1))
      by (destruct (z mod KTFS_BLKS_PER_INDIRECT =? 0); lia).
    apply (added_after _ _ fio fio1 _ _ _ He2); [reflexivity ..|].
    apply enter_dindirect_ok;
      [eapply evolves_wf; exact He2
      | apply wf_file_set_dindirect; assumption | assumption |].
    destruct He2 as (_ & _ & ->).
    destruct (z mod KTFS_BLKS_PER_INDIRECT =? 0); lia. }
  destruct (Z.eqb_spec z 0) as [Hz0 | Hz0].
  { cbn [orb]. intros Hfree. apply (Hfirst 0%nat). exact Hfree. }
  destruct (Z.eqb_spec z KTFS_BLKS_PER_DINDIRECT) as [Hz1 | Hz1].
  { cbn [orb]. intros Hfree. apply (Hfirst 1%nat). exact Hfree. }
  cbn [orb]. intros Hfree.
  replace (0 + (if z mod KTFS_BLKS_PER_INDIRECT =? 0 then 1 else 0) + 1)
    with (if z mod KTFS_BLKS_PER_INDIRECT =? 0 then 2 else 1) in *
    by (destruct (z mod KTFS_BLKS_PER_INDIRECT =? 0); lia).
  apply enter_dindirect_ok; assumption.
Qed.

(** *** The loop of the grow branch *)

(** The number of blocks that hold [s] bytes. *)
Definition cdiv (s : Z) : Z := (s + (KTFS_BLKSZ - 1)) / KTFS_BLKSZ.

(** The largest number of blocks of a file: 4 direct, 128 through the
    indirect block, 2 * 128 * 128 through the double-indirect blocks. *)
Definition MAX_BLOCKS : Z :=
  KTFS_NUM_DIRECT_DATA_BLOCKS + KTFS_BLKS_PER_INDIRECT
  + KTFS_NUM_DINDIRECT_BLOCKS * KTFS_BLKS_PER_DINDIRECT.

Ltac blk_arith :=
  unfold cdiv, MAX_BLOCKS, KTFS_NUM_DIRECT_DATA_BLOCKS, KTFS_BLKS_PER_INDIRECT,
    KTFS_NUM_DINDIRECT_BLOCKS, KTFS_BLKS_PER_DINDIRECT, KTFS_BLKSZ, u32 in *;
  Z.div_mod_to_equations; lia.

(** The blocks taken by [n] rounds that install blocks [c], [c + 1], ... *)
Fixpoint blocks_needed (n : nat) (c : Z) : Z :=
  match n with
  | O => 0
  | S n' => blocks_for c + blocks_needed n' (c + 1)
  end.

Lemma round_up_size_cdiv s :
  0 <= s < 2 ^ 32 - KTFS_BLKSZ -> round_up_size s = KTFS_BLKSZ * cdiv s.
Proof.
  intros Hs. unfold round_up_size, wrap32.
  rewrite (Z.mod_small (s + KTFS_BLKSZ)) by blk_arith.
  rewrite (Z.mod_small (s + KTFS_BLKSZ - 1)) by blk_arith.
  rewrite Z.mod_small by blk_arith.
  unfold cdiv. replace (s + KTFS_BLKSZ - 1) with (s + (KTFS_BLKSZ - 1)) by lia.
  lia.
Qed.

(** The call returned 0 with the size at [e], the inode written to its
    place in the inode table, and [k] blocks taken. *)
Definition grown (e k : Z) (fio : ktfs_file) (fs : file_setup)
    (r : result (Z * ktfs_file * file_setup)) : Prop :=
  exists fio' fs', r = Ok (0, fio', fs') /\
    size (file_inode fio') = e /\ wf_file fio' /\
    dentry_inode fio' = dentry_inode fio /\
    read_bytes (disk fs') (inode_addr fs' (dentry_inode fio')) 32
    = inode_bytes (file_inode fio') /\
    evolves k fs fs'.

Lemma set_end_and_write_ok e k fio fs fs0 :
  wf_file fio -> evolves k fs fs0 -> u32 e ->
  grown e k fio fs
    (let '(fio2, fs2) := set_end_and_write fio e fs0 in Ok (0, fio2, fs2)).
Proof.
  intros Hf He Hu. unfold set_end_and_write. cbv zeta.
  rewrite (wrap32_id e Hu).
  set (fio1 := set_file_inode fio (set_size (file_inode fio) e)).
  assert (Hf1 : wf_file fio1) by (apply wf_file_set_size; assumption).
  pose proof (evolves_write_inode fs0 fio1 (evolves_wf _ _ _ He)
                ltac:(apply Hf1)) as He1.
  exists fio1, (write_inode_to_disk fio1 fs0).
  split; [reflexivity|]. split; [reflexivity|]. split; [exact Hf1|].
  split; [reflexivity|]. split.
  - rewrite (evolves_inode_addr _ _ _ _ He1).
    unfold write_inode_to_disk. cbn [set_disk disk].
    rewrite <- (inode_bytes_length (file_inode fio1))
      by (destruct Hf1 as (_ & _ & Hb & _ & Hd & _); assumption).
    apply read_bytes_write_bytes, inode_bytes_ok.
  - replace k with (k + 0) by lia. eapply evolves_trans; eassumption.
Qed.

Lemma grow_exit fuel junk e fio fs :
  e <= size (file_inode fio) ->
  grow fuel junk e fio fs
  = let '(fio2, fs2) := set_end_and_write fio e fs in Ok (0, fio2, fs2).
Proof.
  intros He.
  destruct fuel; cbn [grow];
    (destruct (Z.ltb_spec (size (file_inode fio)) e); [lia|]);
    (destruct (Z.leb_spec e (size (file_inode fio))); [reflexivity | lia]).
Qed.

(** A file system with one bitmap block and one block of inodes on a
    disk of zeros, and a file of no bytes with inode 0. *)
Definition fresh_fs : file_setup :=
  mkSetup (mkSuper 1 1 0) (mkInode 0 [0; 0; 0; 0] 0 [0; 0]) ∅ ∅ 0.

Definition empty_file : ktfs_file :=
  mkFile 0 (mkInode 0 [0; 0; 0; 0] 0 [0; 0]).

Lemma fresh_fs_wf : wf_fs fresh_fs.
Proof.
  split; [cbn; lia|]. split; [cbn; lia|].
  intros a. unfold rd8. cbn. rewrite lookup_empty. cbn. lia.
Defined.

Lemma empty_file_wf : wf_file empty_file.
Proof.
  unfold wf_file, u32. cbn.
  repeat split; try lia; repeat constructor; lia.
Defined.

Example ktfs_cntl_setend_crossing :
  match ktfs_cntl 0 empty_file Io.IOCTL_SETEND (Some (4 * 512 + 1)) fresh_fs with
  | Ok (r, _, fio', fs') =>
      r = 0 /\ size (file_inode fio') = 4 * 512 + 1 /\
      block (file_inode fio') = [7; 6; 5; 4] /\ indirect (file_inode fio') = 3 /\
      rd32 (disk fs') ((3 + global_datablock_0 fs') * KTFS_BLKSZ) = 2 /\
      free_blocks fs' = free_blocks fresh_fs - 6
  | _ => False
  end.
Proof. vm_compute. repeat split. Qed.

(** C1 as stated fails on set-end(0) after a grow.  The file grown to
    600 bytes is not shrunk: the call returns [-EINVAL] and leaves the
    size as it was. *)
Lemma ktfs_cntl_setend_zero_after_grow_fails :
  match ktfs_cntl 0 empty_file Io.IOCTL_SETEND (Some 600) fresh_fs with
  | Ok (r, _, fio', fs') =>
      r = 0 /\ size (file_inode fio') = 600 /\
      match ktfs_cntl 0 fio' Io.IOCTL_SETEND (Some 0) fs' with
      | Ok (r', _, fio'', _) =>
          r' = - EINVAL /\ r' <> 0 /\ size (file_inode fio'') = 600
      | _ => False
      end
  | _ => False
  end.
Proof. vm_compute. repeat split; discriminate. Qed.

End KtfsCntlSpec.

(** ** timer.c: the order of the sleep list *)

Module TimerOrderSpec.
Import Timer.
Import TimerSpec.

(** The sleep list in the order of the wake times. *)
Fixpoint ascending (l : list alarm) : Prop :=
  match l with
  | [] => True
  | a :: r =>
      match r with
      | [] => True
      | b :: _ => twake a <= twake b
      end /\ ascending r
  end.

(** [lo] is at most the wake time of the head, if there is one. *)
Definition head_from (lo : Z) (l : list alarm) : Prop :=
  match l with
  | [] => True
  | h :: _ => lo <= twake h
  end.

Lemma ascending_cons a l :
  ascending (a :: l) <-> head_from (twake a) l /\ ascending l.
Proof. destruct l; cbn; tauto. Qed.

Lemma ascending_all lo l :
  ascending l -> head_from lo l -> Forall (fun a => lo <= twake a) l.
Proof.
  revert lo. induction l as [|a r IH]; intros lo Hasc Hhd; [constructor|].
  apply ascending_cons in Hasc. destruct Hasc as [Hr Hasc].
  cbn in Hhd. constructor; [exact Hhd|].
  apply IH; [exact Hasc|]. destruct r; cbn in *; lia.
Qed.

Lemma insert_behind_ascending al l :
  ascending l ->
  ascending (insert_behind al l) /\
  (forall lo, lo <= twake al -> head_from lo l ->
              head_from lo (insert_behind al l)).
Proof.
  induction l as [|c r IH]; intros Hasc.
  - cbn. split; [tauto|]. intros lo Hlo _. exact Hlo.
  - apply ascending_cons in Hasc. destruct Hasc as [Hhd Hasc].
    destruct (IH Hasc) as [IHa IHh]. cbn [insert_behind].
    destruct (Z.ltb_spec (twake c) (twake al)) as [Hlt | Hge].
    + split.
      * apply ascending_cons. split; [|exact IHa].
        apply IHh; [lia | exact Hhd].
      * intros lo _ Hlo. exact Hlo.
    + split.
      * apply ascending_cons. split; [exact Hge|].
        apply ascending_cons. split; assumption.
      * intros lo Hlo _. exact Hlo.
Qed.

Lemma sleep_insert_ascending al l :
  ascending l -> ascending (sleep_insert al l).
Proof.
  intros Hasc. destruct l as [|h r]; [cbn; tauto|].
  cbn [sleep_insert].
  destruct (Z.ltb_spec (twake al) (twake h)) as [Hlt | Hge].
  - apply ascending_cons. split; [cbn; lia | exact Hasc].
  - apply ascending_cons in Hasc. destruct Hasc as [Hhd Hasc].
    destruct (insert_behind_ascending al r Hasc) as [Ha Hh].
    apply ascending_cons. split; [|exact Ha]. apply Hh; assumption.
Qed.

Lemma insert_behind_perm al l : Permutation (insert_behind al l) (al :: l).
Proof.
  induction l as [|c r IH]; cbn; [reflexivity|].
  destruct (twake c <? twake al); [|reflexivity].
  rewrite IH. apply perm_swap.
Qed.

Lemma sleep_insert_perm al l : Permutation (sleep_insert al l) (al :: l).
Proof.
  destruct l as [|h r]; cbn; [reflexivity|].
  destruct (twake al <? twake h); [reflexivity|].
  rewrite insert_behind_perm. apply perm_swap.
Qed.

(** X1.  [alarm_sleep] keeps the sleep list in the order of the wake
    times.  When the alarm is not already past, the list afterwards holds
    the alarm (with its advanced wake time) and the alarms it held
    before, the timer interrupt is enabled, and the compare register
    holds the wake time of the head, which no alarm on the list is
    earlier than. *)
Theorem alarm_sleep_keeps_order mtime al tcnt st :
  ascending (sleep_list st) ->
  let r := alarm_sleep mtime al tcnt st in
  ascending (sleep_list (snd r)) /\
  (mtime (nreads st) <= advanced (twake al) tcnt ->
   Permutation (sleep_list (snd r)) (fst r :: sleep_list st) /\
   stie (snd r) = true /\
   head_twake (sleep_list (snd r)) 0 = stcmp (snd r) /\
   Forall (fun a => stcmp (snd r) <= twake a) (sleep_list (snd r))).
Proof.
  intros Hasc. cbv zeta.
  unfold alarm_sleep, rdtime, advanced. cbn [fst snd sleep_list nreads].
  set (al' := if UINT64_MAX - twake al <? tcnt then set_twake al UINT64_MAX
              else set_twake al (twake al + tcnt)).
  assert (Htw : twake al' =
                if UINT64_MAX - twake al <? tcnt then UINT64_MAX
                else twake al + tcnt).
  { subst al'. destruct (UINT64_MAX - twake al <? tcnt); reflexivity. }
  rewrite <- Htw.
  destruct (Z.ltb_spec (twake al') (mtime (nreads st))) as [Hpast | Hfut].
  - cbn. split; [exact Hasc | lia].
  - cbn [fst snd sleep_list stie stcmp].
    pose proof (sleep_insert_ascending al' (sleep_list st) Hasc) as Hins.
    split; [exact Hins|]. intros _.
    split; [apply sleep_insert_perm|]. split; [reflexivity|].
    destruct (sleep_insert al' (sleep_list st)) as [|h r] eqn:Hl.
    + pose proof (sleep_insert_perm al' (sleep_list st)) as Hp.
      rewrite Hl in Hp. apply Permutation_nil in Hp. discriminate.
    + cbn [head_twake]. split; [reflexivity|].
      apply ascending_all; [exact Hins | cbn; lia].
Qed.

Lemma alarm_sleep_ascending mtime al tcnt st :
  ascending (sleep_list st) ->
  ascending (sleep_list (snd (alarm_sleep mtime al tcnt st))).
Proof.
  intros Hasc.
  unfold alarm_sleep, rdtime. cbn [fst snd sleep_list nreads].
  match goal with |- context [if ?c then set_twake _ _ else _] =>
    destruct c end;
    match goal with |- context [if ?c then (_, _) else _] =>
      destruct c end; cbn; auto using sleep_insert_ascending.
Qed.

Lemma alarm_sleep_ms_ascending mtime FREQ al ms st :
  ascending (sleep_list st) ->
  ascending (sleep_list (snd (alarm_sleep_ms mtime FREQ al ms st))).
Proof. intros. unfold alarm_sleep_ms. apply alarm_sleep_ascending. assumption. Qed.

Local Opaque alarm_sleep_ms.

(** The loop of the interrupt handler keeps the order. *)
Lemma isr_loop_ascending mtime FREQ now fuel :
  forall st st',
    isr_loop mtime FREQ fuel now st = Some st' ->
    ascending (sleep_list st) -> ascending (sleep_list st').
Proof.
  induction fuel as [|fuel IH]; intros st st' Hrun Hasc;
    destruct st as [l c e i n tr]; cbn in Hrun, Hasc;
    destruct l as [|h rest]; try (injection Hrun as <-; exact Hasc).
  - destruct (twake h <? now); [discriminate|].
    injection Hrun as <-. exact Hasc.
  - destruct (twake h <? now); [|injection Hrun as <-; exact Hasc].
    apply (ascending_cons h rest) in Hasc. destruct Hasc as [_ Hrest].
    destruct (is_interrupter h).
    + eapply IH; [exact Hrun|].
      apply alarm_sleep_ms_ascending. exact Hrest.
    + eapply IH; [exact Hrun|]. exact Hrest.
Qed.

Local Transparent alarm_sleep_ms.

(** X2.  With a clock that does not run backwards and a sleep list in
    the order of the wake times, the timer interrupt handler returns
    with the list still in that order and with no alarm left on it
    whose wake time is before the time the handler read. *)
Theorem handle_timer_interrupt_leaves_none_due mtime FREQ st :
  (forall n m, (n <= m)%nat -> mtime n <= mtime m) ->
  ascending (sleep_list st) ->
  exists st',
    handle_timer_interrupt mtime FREQ st = Some st' /\
    ascending (sleep_list st') /\
    Forall (fun a => mtime (nreads st) <= twake a) (sleep_list st').
Proof.
  intros Hmono Hasc. unfold handle_timer_interrupt, rdtime.
  destruct (isr_loop_spec mtime FREQ (mtime (nreads st))
              (length (sleep_list st))
              (mkTimer (sleep_list st) (stcmp st) (stie st) false
                       (S (nreads st)) (trace st)))
    as (st1 & Hrun & _ & _ & _ & Hhead & _).
  - cbn. apply due_prefix_length.
  - cbn. intros k Hk. apply Hmono. lia.
  - cbn in Hrun |- *. rewrite Hrun.
    pose proof (isr_loop_ascending _ _ _ _ _ _ Hrun Hasc) as Hasc1.
    assert (Hall : Forall (fun a => mtime (nreads st) <= twake a)
                     (sleep_list st1)).
    { apply ascending_all; [exact Hasc1|].
      destruct (sleep_list st1) as [|h t] eqn:Hl; cbn; [exact I|].
      eapply Hhead. reflexivity. }
    destruct (sleep_list st1) as [|h t] eqn:Hl; cbn;
      eexists; (split; [reflexivity|]); cbn; rewrite ?Hl; split; assumption.
Qed.

Lemma busy_timer_ascending : ascending (sleep_list busy_timer).
Proof. cbn. lia. Defined.

Lemma alarm_sleep_keeps_order_witness :
  let r := alarm_sleep ticking_clock (mkAlarm 160 "sleep" 900) 500 busy_timer in
  ascending (sleep_list (snd r)) /\
  (ticking_clock (nreads busy_timer) <= advanced 900 500 ->
   Permutation (sleep_list (snd r)) (fst r :: sleep_list busy_timer) /\
   stie (snd r) = true /\
   head_twake (sleep_list (snd r)) 0 = stcmp (snd r) /\
   Forall (fun a => stcmp (snd r) <= twake a) (sleep_list (snd r))).
Proof.
  apply (alarm_sleep_keeps_order ticking_clock (mkAlarm 160 "sleep" 900) 500
           busy_timer busy_timer_ascending).
Defined.

Lemma handle_timer_interrupt_leaves_none_due_witness :
  exists st',
    handle_timer_interrupt ticking_clock 10000000 busy_timer = Some st' /\
    ascending (sleep_list st') /\
    Forall (fun a => ticking_clock (nreads busy_timer) <= twake a)
           (sleep_list st').
Proof.
  apply (handle_timer_interrupt_leaves_none_due ticking_clock 10000000
           busy_timer).
  - intros n m Hnm. unfold ticking_clock. lia.
  - exact busy_timer_ascending.
Defined.

End TimerOrderSpec.

(** ** io.c: the memory endpoint *)

Module MemioSpec.
Import Memio.

(** A memory endpoint whose block holds at least [size] bytes, with a
    size that fits an [int]. *)
Definition memio_ok (m : memio) : Prop :=
  0 <= msize m <= Z.of_nat (length (mbuf m)) /\ msize m < 2 ^ 31.

Lemma clamp_min m pos n :
  memio_ok m -> 0 <= pos <= msize m -> 0 <= n < 2 ^ 63 ->
  clamp m pos n = Z.min n (msize m - pos).
Proof.
  intros (Hsz & Hint) Hpos Hn. unfold clamp, wrap64, to_int.
  rewrite (Z.mod_small (pos + n)) by lia.
  rewrite (Z.mod_small (msize m - pos)) by lia.
  rewrite (Z.mod_small n) by lia.
  destruct (Z.ltb_spec (msize m) (pos + n)).
  - rewrite Z.mod_small by lia. lia.
  - rewrite Z.mod_small by lia. lia.
Qed.

(** The read at a position up to the end. *)
Lemma memio_readat_clamped_aux m pos bufsz :
  memio_ok m -> 0 <= pos <= msize m -> 0 <= bufsz < 2 ^ 63 ->
  let n := Z.min bufsz (msize m - pos) in
  memio_readat m pos bufsz
  = Ok (n, firstn (Z.to_nat n) (skipn (Z.to_nat pos) (mbuf m))) /\
  length (firstn (Z.to_nat n) (skipn (Z.to_nat pos) (mbuf m)))
  = Z.to_nat n.
Proof.
  intros Hok Hpos Hsz. unfold memio_readat. cbv zeta.
  destruct (Z.ltb_spec (msize m) pos); [lia|].
  rewrite clamp_min by (assumption || lia).
  destruct Hok as (Hlen & Hint).
  destruct (Z.ltb_spec (Z.min bufsz (msize m - pos)) 0); [lia|].
  destruct (Z.ltb_spec (Z.of_nat (length (mbuf m)))
              (pos + Z.min bufsz (msize m - pos))); [lia|].
  cbn [orb]. split; [reflexivity|].
  rewrite length_firstn, length_skipn. lia.
Qed.

(** X3.  A read at a position behind the end of a memory endpoint fails
    with invalid-argument and stores nothing; a read at a position up to
    the end returns the bytes of the block from that position on, as
    many as were asked for but none behind the end (so none at all at
    the end itself). *)
Theorem memio_readat_clamped m pos bufsz :
  memio_ok m -> 0 <= pos -> 0 <= bufsz < 2 ^ 63 ->
  (msize m < pos -> memio_readat m pos bufsz = Ok (- EINVAL, [])) /\
  (pos <= msize m ->
   let n := Z.min bufsz (msize m - pos) in
   memio_readat m pos bufsz
   = Ok (n, firstn (Z.to_nat n) (skipn (Z.to_nat pos) (mbuf m))) /\
   length (firstn (Z.to_nat n) (skipn (Z.to_nat pos) (mbuf m)))
   = Z.to_nat n).
Proof.
  intros Hok Hpos Hsz. unfold memio_readat. split.
  - intros Hbehind. destruct (Z.ltb_spec (msize m) pos); [reflexivity | lia].
  - intros Hin. apply memio_readat_clamped_aux; (assumption || lia).
Qed.

Lemma memio_readat_clamped_witness :
  let m := create_memory_io [10; 20; 30; 40; 50] 4 in
  (msize m < 1 -> memio_readat m 1 8 = Ok (- EINVAL, [])) /\
  (1 <= msize m ->
   let n := Z.min 8 (msize m - 1) in
   memio_readat m 1 8
   = Ok (n, firstn (Z.to_nat n) (skipn (Z.to_nat 1) (mbuf m))) /\
   length (firstn (Z.to_nat n) (skipn (Z.to_nat 1) (mbuf m)))
   = Z.to_nat n).
Proof.
  apply (memio_readat_clamped (create_memory_io [10; 20; 30; 40; 50] 4) 1 8).
  - unfold memio_ok. cbn. lia.
  - lia.
  - lia.
Defined.

(** X4.  What is written to a memory endpoint is what a read at the same
    position returns: a write at a position up to the end stores the
    caller's bytes, as many as fit before the end, leaves the size and
    the bytes around them alone, and a read of the same length at the
    same position returns the same count and those bytes. *)
Theorem memio_write_then_read m pos data :
  memio_ok m -> 0 <= pos <= msize m ->
  Z.of_nat (length data) < 2 ^ 63 ->
  let len := Z.of_nat (length data) in
  let n := Z.min len (msize m - pos) in
  exists m',
    memio_writeat m pos data len = Ok (n, m') /\
    msize m' = msize m /\ length (mbuf m') = length (mbuf m) /\
    memio_readat m' pos len = Ok (n, firstn (Z.to_nat n) data) /\
    firstn (Z.to_nat pos) (mbuf m') = firstn (Z.to_nat pos) (mbuf m) /\
    skipn (Z.to_nat (pos + n)) (mbuf m') = skipn (Z.to_nat (pos + n)) (mbuf m).
Proof.
  intros Hok Hpos Hlong len n.
  assert (Hlen : 0 <= len < 2 ^ 63) by (subst len; lia).
  destruct Hok as (Hsz & Hint).
  unfold memio_writeat.
  destruct (Z.ltb_spec (msize m) pos); [lia|].
  rewrite clamp_min by (unfold memio_ok; (assumption || lia)).
  fold n.
  destruct (Z.ltb_spec n 0); [subst n; lia|].
  destruct (Z.ltb_spec (Z.of_nat (length (mbuf m))) (pos + n)); [subst n; lia|].
  destruct (Z.ltb_spec (Z.of_nat (length data)) n); [subst n len; lia|].
  cbn [orb].
  set (buf' := firstn (Z.to_nat pos) (mbuf m) ++ firstn (Z.to_nat n) data
               ++ skipn (Z.to_nat (pos + n)) (mbuf m)).
  assert (Hl1 : length (firstn (Z.to_nat pos) (mbuf m)) = Z.to_nat pos)
    by (rewrite length_firstn; lia).
  assert (Hl2 : length (firstn (Z.to_nat n) data) = Z.to_nat n)
    by (rewrite length_firstn; subst n len; lia).
  assert (Hlb : length buf' = length (mbuf m)).
  { subst buf'. rewrite !length_app, Hl1, Hl2, length_skipn. subst n. lia. }
  exists (mkMemio buf' (msize m)).
  split; [reflexivity|]. split; [reflexivity|]. split; [exact Hlb|].
  split; [|split].
  - unfold memio_readat. cbn [msize mbuf].
    destruct (Z.ltb_spec (msize m) pos); [lia|].
    rewrite clamp_min
      by (unfold memio_ok; cbn [msize mbuf]; rewrite ?Hlb; (assumption || lia)).
    cbn [msize]. fold n.
    destruct (Z.ltb_spec n 0); [lia|].
    rewrite Hlb.
    destruct (Z.ltb_spec (Z.of_nat (length (mbuf m))) (pos + n)); [lia|].
    cbn [orb]. do 2 f_equal. subst buf'.
    rewrite <- Hl1 at 1. rewrite skipn_app, skipn_all, Nat.sub_diag.
    rewrite skipn_O. cbn [app]. rewrite <- Hl2 at 1.
    rewrite firstn_app, firstn_all, Nat.sub_diag, firstn_O.
    apply app_nil_r.
  - cbn [mbuf]. subst buf'. rewrite <- Hl1 at 1.
    rewrite firstn_app, firstn_all, Nat.sub_diag, firstn_O.
    apply app_nil_r.
  - cbn [mbuf]. subst buf'. rewrite app_assoc.
    replace (Z.to_nat (pos + n))
      with (length (firstn (Z.to_nat pos) (mbuf m)
                    ++ firstn (Z.to_nat n) data)) at 1
      by (rewrite length_app, Hl1, Hl2; lia).
    rewrite skipn_app, skipn_all, Nat.sub_diag. reflexivity.
Qed.

Definition small_block : memio := create_memory_io [10; 20; 30; 40; 50] 4.

Lemma small_block_ok : memio_ok small_block.
Proof. unfold memio_ok. cbn. lia. Defined.

Lemma memio_write_then_read_witness :
  let len := Z.of_nat (length [7; 8; 9]) in
  let n := Z.min len (msize small_block - 2) in
  exists m',
    memio_writeat small_block 2 [7; 8; 9] len = Ok (n, m') /\
    msize m' = msize small_block /\
    length (mbuf m') = length (mbuf small_block) /\
    memio_readat m' 2 len = Ok (n, firstn (Z.to_nat n) [7; 8; 9]) /\
    firstn (Z.to_nat 2) (mbuf m') = firstn (Z.to_nat 2) (mbuf small_block) /\
    skipn (Z.to_nat (2 + n)) (mbuf m')
    = skipn (Z.to_nat (2 + n)) (mbuf small_block).
Proof.
  apply (memio_write_then_read small_block 2 [7; 8; 9] small_block_ok).
  - cbn. lia.
  - cbn. lia.
Defined.

(** On [small_block] the write of three bytes at 2 stores two: the end
    is at 4, and the byte behind it stays. *)
Example memio_write_small :
  memio_writeat small_block 2 [7; 8; 9] 3
  = Ok (2, mkMemio [10; 20; 7; 8; 50] 4).
Proof. vm_compute. reflexivity. Qed.

(** X5.  Set-end on a memory endpoint only shrinks it: an end below the
    size becomes the size, and a read behind the new end then fails
    while a read up to it is cut there; an end equal to the size or
    above it is refused with invalid-argument and changes nothing.  A
    null argument is refused before the command is looked at, so the
    block size of a memory endpoint cannot be asked for with
    [ioblksz]. *)
Theorem memio_cntl_setend_shrinks m e :
  memio_ok m -> 0 <= e ->
  (e < msize m ->
   exists m',
     memio_cntl m Io.IOCTL_SETEND (Some e) = (0, Some e, m') /\
     msize m' = e /\ mbuf m' = mbuf m /\
     memio_cntl m' Io.IOCTL_GETEND (Some 0) = (0, Some e, m') /\
     (forall pos bufsz, e < pos ->
        memio_readat m' pos bufsz = Ok (- EINVAL, [])) /\
     (forall pos bufsz, 0 <= pos <= e -> 0 <= bufsz < 2 ^ 63 ->
        exists out, memio_readat m' pos bufsz = Ok (Z.min bufsz (e - pos), out))) /\
  (msize m <= e ->
   memio_cntl m Io.IOCTL_SETEND (Some e) = (- EINVAL, Some e, m)) /\
  (forall cmd, memio_cntl m cmd None = (- EINVAL, None, m)) /\
  ioblksz m = - EINVAL.
Proof.
  intros Hok He. split; [|split; [|split]].
  - intros Hlt. exists (mkMemio (mbuf m) e).
    unfold memio_cntl. destruct (Z.ltb_spec e (msize m)); [|lia].
    split; [reflexivity|]. split; [reflexivity|]. split; [reflexivity|].
    split; [reflexivity|].
    assert (Hok' : memio_ok (mkMemio (mbuf m) e)).
    { destruct Hok as (Hsz & Hint). unfold memio_ok. cbn. lia. }
    split.
    + intros pos bufsz Hpos. unfold memio_readat. cbn [msize].
      destruct (Z.ltb_spec e pos); [reflexivity | lia].
    + intros pos bufsz Hpos Hsz.
      destruct (memio_readat_clamped_aux (mkMemio (mbuf m) e) pos bufsz Hok'
                  ltac:(cbn; lia) Hsz) as [Heq _].
      eexists. exact Heq.
  - intros Hge. unfold memio_cntl.
    destruct (Z.ltb_spec e (msize m)); [lia | reflexivity].
  - intros cmd. reflexivity.
  - reflexivity.
Qed.

Lemma memio_cntl_setend_shrinks_witness :
  (3 < msize small_block ->
   exists m',
     memio_cntl small_block Io.IOCTL_SETEND (Some 3) = (0, Some 3, m') /\
     msize m' = 3 /\ mbuf m' = mbuf small_block /\
     memio_cntl m' Io.IOCTL_GETEND (Some 0) = (0, Some 3, m') /\
     (forall pos bufsz, 3 < pos ->
        memio_readat m' pos bufsz = Ok (- EINVAL, [])) /\
     (forall pos bufsz, 0 <= pos <= 3 -> 0 <= bufsz < 2 ^ 63 ->
        exists out, memio_readat m' pos bufsz = Ok (Z.min bufsz (3 - pos), out))) /\
  (msize small_block <= 3 ->
   memio_cntl small_block Io.IOCTL_SETEND (Some 3)
   = (- EINVAL, Some 3, small_block)) /\
  (forall cmd, memio_cntl small_block cmd None = (- EINVAL, None, small_block)) /\
  ioblksz small_block = - EINVAL.
Proof.
  apply (memio_cntl_setend_shrinks small_block 3 small_block_ok). lia.
Defined.

End MemioSpec.

(** ** io.c: seeking on the seekable adapter *)

Module SeekioCntlSpec.
Import Io.
Import SeekioCntl.

Lemma mask_is_remainder v k :
  0 <= k < 63 -> Z.land v (wrap64 (2 ^ k - 1)) = v mod 2 ^ k.
Proof.
  intros Hk.
  assert (Hp : 0 < 2 ^ k <= 2 ^ 62).
  { split; [apply Z.pow_pos_nonneg; lia|].
    apply Z.pow_le_mono_r; lia. }
  unfold wrap64. rewrite Z.mod_small by lia.
  replace (2 ^ k - 1) with (Z.ones k) by (rewrite Z.ones_equiv; lia).
  apply Z.land_ones. lia.
Qed.

Section Seek.
Context {B : Type} `{Backing B}.

(** X6.  With a block size that is a power of two, [ioseek] on the
    seekable adapter moves the position exactly when the new position
    is a multiple of the block size and not behind the end: then it
    returns 0, the position is the one asked for (get-position returns
    it) and the end and the backing endpoint are untouched; otherwise it
    returns invalid-argument and the adapter stays as it was. *)
Theorem ioseek_aligned_within_end sio k v (b : B) :
  0 <= k < 31 -> blksz sio = 2 ^ k ->
  (v mod blksz sio = 0 -> v <= end_ sio ->
   ioseek sio v b = (0, mkSeekio v (end_ sio) (blksz sio), b) /\
   seekio_cntl (mkSeekio v (end_ sio) (blksz sio)) IOCTL_GETPOS 0 b
   = (0, v, mkSeekio v (end_ sio) (blksz sio), b)) /\
  (v mod blksz sio <> 0 \/ end_ sio < v ->
   ioseek sio v b = (- EINVAL, sio, b)).
Proof.
  intros Hk Hblk. unfold ioseek, seekio_cntl.
  rewrite Hblk, mask_is_remainder by lia. split.
  - intros Hmod Hend. rewrite Hmod. cbn [Z.eqb negb].
    destruct (Z.ltb_spec (end_ sio) v); [lia|]. split; reflexivity.
  - intros Hbad.
    destruct (Z.eqb_spec (v mod 2 ^ k) 0) as [Hz | Hnz]; cbn [negb];
      [|reflexivity].
    destruct (Z.ltb_spec (end_ sio) v); [reflexivity|].
    destruct Hbad; [contradiction | lia].
Qed.

End Seek.

#[local] Instance no_backing : Backing unit :=
  {| bk_readat := None; bk_writeat := None; bk_cntl := None |}.

Lemma ioseek_aligned_within_end_witness :
  let sio := mkSeekio 0 2048 512 in
  (1024 mod blksz sio = 0 -> 1024 <= end_ sio ->
   ioseek sio 1024 tt = (0, mkSeekio 1024 (end_ sio) (blksz sio), tt) /\
   seekio_cntl (mkSeekio 1024 (end_ sio) (blksz sio)) IOCTL_GETPOS 0 tt
   = (0, 1024, mkSeekio 1024 (end_ sio) (blksz sio), tt)) /\
  (1024 mod blksz sio <> 0 \/ end_ sio < 1024 ->
   ioseek sio 1024 tt = (- EINVAL, sio, tt)).
Proof.
  apply (ioseek_aligned_within_end (mkSeekio 0 2048 512) 9 1024 tt).
  - lia.
  - reflexivity.
Defined.

(** A position inside a block and a position behind the end. *)
Example ioseek_refused :
  ioseek (mkSeekio 0 2048 512) 100 tt = (- EINVAL, mkSeekio 0 2048 512, tt) /\
  ioseek (mkSeekio 0 2048 512) 2560 tt = (- EINVAL, mkSeekio 0 2048 512, tt) /\
  ioseek (mkSeekio 0 2048 512) 2048 tt = (0, mkSeekio 2048 2048 512, tt).
Proof. vm_compute. repeat split. Qed.

End SeekioCntlSpec.

(** ** io.c: writing to a pipe *)

Module PipeWriteSpec.
Import Pipe.
Import PipeWrite.
Import PipeSpec.















(** The bytes "hi!" are in the pipe; "ok" is written behind them and a
    read of four bytes returns "hi!o". *)
Example pipe_write_then_read_sample :
  match pipe_write 32 (Some WriteEnd) (Some [111; 107]) 2 sample_pipe with
  | WriteReturns ret p1 _ =>
      ret = 2 /\
      match pipe_read 32 (Some ReadEnd) true 4 p1 with
      | ReadReturns n out p2 _ =>
          n = 4 /\ out = [104; 105; 33; 111] /\ data p2 = 1
      | _ => False
      end
  | _ => False
  end.
Proof. vm_compute. repeat split. Qed.



End PipeWriteSpec.

(** ** io.c: the reference count of an endpoint that wraps no other *)

Module IoRefSpec.
Import Io.

(** [k] calls of [ioaddref] and [n] calls of [ioclose] on the endpoint
    at [p]. *)
Fixpoint addrefs (k : nat) (p : Z) (st : iostate) : outcome iostate :=
  match k with
  | O => Done st
  | S k' =>
      match ioaddref p st with
      | Done st' => addrefs k' p st'
      | r => r
      end
  end.

Fixpoint closes (n : nat) (p : Z) (st : iostate) : outcome iostate :=
  match n with
  | O => Done st
  | S n' =>
      match ioclose 1 p st with
      | Done st' => closes n' p st'
      | r => r
      end
  end.

Lemma addrefs_leaf k p : forall st c a r,
  heap st !! p = Some (mkIo CloseLeaf c a r) ->
  0 <= c -> c + Z.of_nat k < 2 ^ 64 ->
  exists st',
    addrefs k p st = Done st' /\
    heap st' !! p = Some (mkIo CloseLeaf (c + Z.of_nat k) (a + Z.of_nat k) r) /\
    close_calls st' = close_calls st.
Proof.
  induction k as [|k IH]; intros st c a r Hp Hc Hk.
  - exists st. rewrite !Z.add_0_r. auto.
  - cbn [addrefs]. unfold ioaddref. rewrite Hp.
    cbn [intf_close refcnt acquired released].
    edestruct (IH (mkIoState
                 (<[p := mkIo CloseLeaf (wrap64 (c + 1)) (a + 1) r]> (heap st))
                 (close_calls st)))
      as (st' & Hrun & Hp' & Hcalls).
    + cbn. apply lookup_insert_eq.
    + unfold wrap64. apply Z.mod_pos_bound. lia.
    + unfold wrap64. rewrite Z.mod_small; lia.
    + exists st'. split; [exact Hrun|]. split; [|exact Hcalls].
      rewrite Hp'. unfold wrap64. rewrite Z.mod_small by lia.
      do 2 f_equal; lia.
Qed.

Lemma closes_leaf n p : forall st c a r,
  heap st !! p = Some (mkIo CloseLeaf c a r) -> 0 <= c ->
  (Z.of_nat n <= c ->
   exists st',
     closes n p st = Done st' /\
     heap st' !! p
     = Some (mkIo CloseLeaf (c - Z.of_nat n) a (r + Z.of_nat n)) /\
     close_calls st' =
       close_calls st
       ++ (if (0 <? c) && (Z.of_nat n =? c) then [p] else [])) /\
  (c < Z.of_nat n -> closes n p st = AssertFailed).
Proof.
  induction n as [|n IH]; intros st c a r Hp Hc.
  - split; [|lia]. intros _. exists st. cbn [closes].
    change (Z.of_nat 0) with 0. rewrite Z.sub_0_r, Z.add_0_r.
    split; [reflexivity|]. split; [exact Hp|].
    destruct (Z.ltb_spec 0 c); destruct (Z.eqb_spec 0 c); cbn [andb];
      rewrite ?app_nil_r; try reflexivity; lia.
  - cbn [closes ioclose]. rewrite Hp.
    cbn [intf_close refcnt acquired released].
    destruct (Z.eqb_spec c 0) as [Hz | Hnz].
    { split; [lia | reflexivity]. }
    destruct (Z.eqb_spec (c - 1) 0) as [Hlast | Hmore].
    + (* the last reference: the close entry runs *)
      match goal with |- context [closes n p ?s] => set (st1 := s) end.
      destruct (IH st1 (c - 1) a (r + 1)) as [Hle Hgt];
        [cbn; apply lookup_insert_eq | lia |].
      split.
      * intros Hn. assert (n = 0%nat) by lia. subst n.
        exists st1. cbn [closes]. split; [reflexivity|]. split.
        -- cbn. rewrite lookup_insert_eq. do 2 f_equal; lia.
        -- cbn. change (Z.of_nat 1) with 1.
           destruct (Z.ltb_spec 0 c); [|lia].
           destruct (Z.eqb_spec 1 c); [reflexivity | lia].
      * intros Hn. apply Hgt. lia.
    + match goal with |- context [closes n p ?s] => set (st1 := s) end.
      destruct (IH st1 (c - 1) a (r + 1)) as [Hle Hgt];
        [cbn; apply lookup_insert_eq | lia |].
      split.
      * intros Hn. destruct (Hle ltac:(lia)) as (st' & Hrun & Hp' & Hcalls).
        exists st'. split; [exact Hrun|]. split.
        -- rewrite Hp'. do 2 f_equal; lia.
        -- rewrite Hcalls. cbn [close_calls st1]. f_equal.
           destruct (Z.ltb_spec 0 (c - 1)); [|lia].
           destruct (Z.ltb_spec 0 c); [|lia]. cbn [andb].
           destruct (Z.eqb_spec (Z.of_nat n) (c - 1));
             destruct (Z.eqb_spec (Z.of_nat (S n)) c); try lia; reflexivity.
      * intros Hn. apply Hgt. lia.
Qed.

(** X10.  An endpoint that wraps no other endpoint (a device, a file, a
    memory endpoint), set up with [ioinit1] and referenced [k] more
    times with [ioaddref]: its count is [k + 1]; each of the first [k]
    calls of [ioclose] takes one from the count and does not run the
    close entry; call [k + 1] brings the count to zero and runs the
    close entry, once; one more [ioclose] fails the assertion that the
    count is not zero. *)
Theorem leaf_close_runs_at_last_reference p st0 k n :
  Z.of_nat k + 1 < 2 ^ 64 ->
  exists st1,
    addrefs k p (ioinit1 p CloseLeaf st0) = Done st1 /\
    iorefcnt p st1 = Done (Z.of_nat k + 1) /\
    ((n <= k)%nat ->
     exists st2,
       closes n p st1 = Done st2 /\
       iorefcnt p st2 = Done (Z.of_nat k + 1 - Z.of_nat n) /\
       close_calls st2 = close_calls st0) /\
    (n = S k ->
     exists st2,
       closes n p st1 = Done st2 /\
       iorefcnt p st2 = Done 0 /\
       close_calls st2 = close_calls st0 ++ [p]) /\
    ((S k < n)%nat -> closes n p st1 = AssertFailed).
Proof.
  intros Hk.
  destruct (addrefs_leaf k p (ioinit1 p CloseLeaf st0) 1 1 0)
    as (st1 & Hrun & Hp & Hcalls);
    [cbn; apply lookup_insert_eq | lia | lia |].
  cbn [ioinit1 close_calls] in Hcalls.
  exists st1. split; [exact Hrun|].
  split; [unfold iorefcnt; rewrite Hp; cbn; f_equal; lia|].
  destruct (closes_leaf n p st1 _ _ _ Hp ltac:(lia)) as [Hle Hgt].
  split; [|split].
  - intros Hn. destruct (Hle ltac:(lia)) as (st2 & Hrun2 & Hp2 & Hcalls2).
    exists st2. split; [exact Hrun2|].
    split; [unfold iorefcnt; rewrite Hp2; cbn; f_equal; lia|].
    rewrite Hcalls2, Hcalls.
    destruct (Z.eqb_spec (Z.of_nat n) (1 + Z.of_nat k)); [lia|].
    rewrite andb_false_r. apply app_nil_r.
  - intros Hn. destruct (Hle ltac:(lia)) as (st2 & Hrun2 & Hp2 & Hcalls2).
    exists st2. split; [exact Hrun2|].
    split; [unfold iorefcnt; rewrite Hp2; cbn; f_equal; lia|].
    rewrite Hcalls2, Hcalls.
    destruct (Z.ltb_spec 0 (1 + Z.of_nat k)); [|lia].
    destruct (Z.eqb_spec (Z.of_nat n) (1 + Z.of_nat k)); [|lia].
    reflexivity.
  - intros Hn. apply Hgt. lia.
Qed.

Lemma leaf_close_runs_at_last_reference_witness :
  exists st1,
    addrefs 2 4096 (ioinit1 4096 CloseLeaf (mkIoState ∅ [])) = Done st1 /\
    iorefcnt 4096 st1 = Done (Z.of_nat 2 + 1) /\
    ((3 <= 2)%nat ->
     exists st2,
       closes 3 4096 st1 = Done st2 /\
       iorefcnt 4096 st2 = Done (Z.of_nat 2 + 1 - Z.of_nat 3) /\
       close_calls st2 = close_calls (mkIoState ∅ [])) /\
    (3%nat = 3%nat ->
     exists st2,
       closes 3 4096 st1 = Done st2 /\
       iorefcnt 4096 st2 = Done 0 /\
       close_calls st2 = close_calls (mkIoState ∅ []) ++ [4096]) /\
    ((3 < 3)%nat -> closes 3 4096 st1 = AssertFailed).
Proof.
  apply (leaf_close_runs_at_last_reference 4096 (mkIoState ∅ []) 2 3).
  cbn. lia.
Defined.

End IoRefSpec.

(** ** memory.c: the pool of free pages *)

Module PagePoolSpec.
Import Memory.
Import Mspace.

(** The pages on the free list. *)
Definition total (fl : list page_chunk) : Z :=
  fold_right (fun c s => pagecnt c + s) 0 fl.

(** The address behind the last byte of a chunk. *)
Definition chunk_end (c : page_chunk) : Z := addr c + pagecnt c * PAGE_SIZE.

(** The free list in the order of the addresses, no chunk reaching into
    a later one. *)
Fixpoint ordered (fl : list page_chunk) : Prop :=
  match fl with
  | [] => True
  | c :: r => Forall (fun d => chunk_end c <= addr d) r /\ ordered r
  end.

(** Every chunk is at a non-null address within the address space and
    has pages. *)
Definition chunks_ok (fl : list page_chunk) : Prop :=
  Forall (fun c => 0 < addr c /\ 0 < pagecnt c /\ chunk_end c < 2 ^ 64) fl.

(** The chunk [d] has no byte in the [n] pages from [pp] on. *)
Definition outside (pp n : Z) (d : page_chunk) : Prop :=
  chunk_end d <= pp \/ pp + n * PAGE_SIZE <= addr d.

Lemma total_nonneg fl : chunks_ok fl -> 0 <= total fl.
Proof.
  induction 1 as [|c r Hc _ IH]; cbn [total fold_right]; [lia|].
  fold (total r). lia.
Qed.

Lemma count_is_total fl :
  chunks_ok fl -> total fl < 2 ^ 31 -> free_phys_page_count fl = total fl.
Proof.
  intros Hok Hsmall. unfold free_phys_page_count.
  assert (Hgen : forall acc, 0 <= acc -> acc + total fl < 2 ^ 31 ->
            fold_left (fun count c => to_int (count + pagecnt c)) fl acc
            = acc + total fl).
  { clear Hsmall. induction Hok as [|c r Hc Hr IH]; intros acc Hacc Hs;
      cbn [fold_left total fold_right] in *; [lia|].
    pose proof (total_nonneg r Hr).
    fold (total r) in *.
    rewrite IH.
    - unfold to_int. rewrite Z.mod_small by lia. lia.
    - unfold to_int. rewrite Z.mod_small by lia. lia.
    - unfold to_int. rewrite Z.mod_small by lia. lia. }
  rewrite Hgen by lia. pose proof (total_nonneg fl Hok).
  unfold wrap64. rewrite Z.mod_small; lia.
Qed.

(** *** Allocation *)

Lemma take_exact_spec cnt fl : forall pp fl',
  take_exact cnt fl = Some (pp, fl') ->
  exists l1 c l2,
    fl = l1 ++ c :: l2 /\ fl' = l1 ++ l2 /\ addr c = pp /\ pagecnt c = cnt.
Proof.
  induction fl as [|c r IH]; intros pp fl' Hex; cbn in Hex; [discriminate|].
  destruct (Z.eqb_spec (pagecnt c) cnt) as [He | Hne].
  - injection Hex as <- <-. exists [], c, r. auto.
  - destruct (take_exact cnt r) as [[p r']|] eqn:Hr; [|discriminate].
    injection Hex as <- <-.
    destruct (IH p r' eq_refl) as (l1 & d & l2 & -> & -> & Ha & Hp).
    exists (c :: l1), d, l2. auto.
Qed.

Lemma take_exact_missing cnt fl :
  take_exact cnt fl = None -> forall c, In c fl -> pagecnt c <> cnt.
Proof.
  induction fl as [|c r IH]; intros Hex d Hin; cbn in Hex; [destruct Hin|].
  destruct (Z.eqb_spec (pagecnt c) cnt) as [He | Hne]; [discriminate|].
  destruct (take_exact cnt r) as [[p r']|]; [discriminate|].
  destruct Hin as [<- | Hin]; [exact Hne | apply IH; auto].
Qed.

(** What the second loop has found after the chunks [pre]: nothing when
    no chunk has more than [cnt] pages, and otherwise a chunk of more
    than [cnt] pages that no such chunk is smaller than, with its
    place. *)
Definition best (cnt : Z) (pre : list page_chunk)
    (acc : option (nat * page_chunk)) : Prop :=
  match acc with
  | None => forall c, In c pre -> pagecnt c <= cnt
  | Some (i, t) =>
      pre !! i = Some t /\ cnt < pagecnt t /\
      forall c, In c pre -> cnt < pagecnt c -> pagecnt t <= pagecnt c
  end.

Lemma find_target_best cnt l : forall pre acc,
  best cnt pre acc ->
  best cnt (pre ++ l) (find_target cnt l (length pre) acc).
Proof.
  induction l as [|c r IH]; intros pre acc Hbest; cbn [find_target].
  - rewrite app_nil_r. exact Hbest.
  - replace (pre ++ c :: r) with ((pre ++ [c]) ++ r)
      by (rewrite <- app_assoc; reflexivity).
    replace (S (length pre)) with (length (pre ++ [c]))
      by (rewrite length_app; cbn; lia).
    apply IH.
    destruct (Z.ltb_spec cnt (pagecnt c)) as [Hgt | Hle].
    + destruct acc as [[i t]|]; cbn [best] in *.
      * destruct Hbest as (Hi & Ht & Hmin).
        destruct (Z.ltb_spec (pagecnt c) (pagecnt t)) as [Hlt | Hge].
        -- split; [apply list_lookup_middle; reflexivity|].
           split; [exact Hgt|]. intros d Hd Hdc.
           apply in_app_or in Hd. destruct Hd as [Hd | [<- | []]]; [|lia].
           specialize (Hmin d Hd Hdc). lia.
        -- split; [apply lookup_app_l_Some; exact Hi|].
           split; [exact Ht|]. intros d Hd Hdc.
           apply in_app_or in Hd. destruct Hd as [Hd | [<- | []]]; [|lia].
           apply Hmin; assumption.
      * split; [apply list_lookup_middle; reflexivity|].
        split; [exact Hgt|]. intros d Hd Hdc.
        apply in_app_or in Hd. destruct Hd as [Hd | [<- | []]]; [|lia].
        specialize (Hbest d Hd). lia.
    + destruct acc as [[i t]|]; cbn [best] in *.
      * destruct Hbest as (Hi & Ht & Hmin).
        split; [apply lookup_app_l_Some; exact Hi|].
        split; [exact Ht|]. intros d Hd Hdc.
        apply in_app_or in Hd. destruct Hd as [Hd | [<- | []]]; [|lia].
        apply Hmin; assumption.
      * intros d Hd. apply in_app_or in Hd.
        destruct Hd as [Hd | [<- | []]]; [apply Hbest; exact Hd | exact Hle].
Qed.

Lemma total_app l1 l2 : total (l1 ++ l2) = total l1 + total l2.
Proof. induction l1 as [|c r IH]; cbn; [reflexivity|]. fold (total (r ++ l2)) (total r). lia. Qed.

Lemma ordered_app l1 l2 :
  ordered (l1 ++ l2) <->
  ordered l1 /\ ordered l2 /\
  Forall (fun a => Forall (fun b => chunk_end a <= addr b) l2) l1.
Proof.
  induction l1 as [|c r IH]; cbn [app ordered].
  - split; [intros H; repeat split; auto | tauto].
  - rewrite IH, Forall_app, Forall_cons. tauto.
Qed.

(** A chunk in the list, the chunks before it and behind it. *)
Lemma ordered_middle l1 c l2 :
  ordered (l1 ++ c :: l2) ->
  ordered (l1 ++ l2) /\
  Forall (fun d => chunk_end d <= addr c) l1 /\
  Forall (fun d => chunk_end c <= addr d) l2.
Proof.
  rewrite !ordered_app. cbn [ordered]. intros (H1 & (Hc & H2) & H12).
  split; [split; [exact H1|]; split; [exact H2|]|].
  - eapply Forall_impl; [exact H12|]. cbn. intros a Ha.
    apply Forall_cons in Ha. apply Ha.
  - split; [|exact Hc].
    eapply Forall_impl; [exact H12|]. cbn. intros a Ha.
    apply Forall_cons in Ha. apply Ha.
Qed.

Lemma ordered_replace l1 c c' l2 :
  ordered (l1 ++ c :: l2) ->
  addr c <= addr c' -> chunk_end c' <= chunk_end c ->
  ordered (l1 ++ c' :: l2).
Proof.
  rewrite !ordered_app. cbn [ordered]. intros (H1 & (Hc & H2) & H12) Ha He.
  split; [exact H1|]. split.
  - split; [|exact H2]. eapply Forall_impl; [exact Hc|]. cbn. lia.
  - eapply Forall_impl; [exact H12|]. cbn. intros a Hall.
    apply Forall_cons in Hall. destruct Hall as [Hac Hal2].
    apply Forall_cons. split; [lia | exact Hal2].
Qed.

(** [alloc_phys_pages] when a chunk is large enough. *)
Lemma alloc_phys_pages_spec cnt fl :
  0 < cnt -> ordered fl -> chunks_ok fl ->
  (exists c, In c fl /\ cnt <= pagecnt c) ->
  exists pp fl' c,
    alloc_phys_pages cnt fl = Ret (pp, fl') /\
    In c fl /\ addr c = pp /\ cnt <= pagecnt c /\
    (forall d, In d fl -> cnt <= pagecnt d -> pagecnt c <= pagecnt d) /\
    total fl' = total fl - cnt /\
    ordered fl' /\ chunks_ok fl' /\ Forall (outside pp cnt) fl'.
Proof.
  intros Hcnt Hord Hok (c0 & Hin0 & Hge0). unfold alloc_phys_pages.
  destruct (take_exact cnt fl) as [[pp fl']|] eqn:Hex.
  - (* a chunk of exactly [cnt] pages is unlinked *)
    destruct (take_exact_spec _ _ _ _ Hex) as (l1 & c & l2 & -> & -> & Ha & Hp).
    destruct (ordered_middle _ _ _ Hord) as (Hord' & Hbefore & Hbehind).
    exists pp, (l1 ++ l2), c.
    split; [reflexivity|]. split; [apply in_elt|]. split; [exact Ha|].
    split; [lia|]. split; [intros d _ Hd; lia|].
    split; [rewrite !total_app; cbn; fold (total l2); lia|].
    split; [exact Hord'|].
    unfold chunks_ok in *. rewrite Forall_app, Forall_cons in Hok.
    split; [apply Forall_app; tauto|].
    apply Forall_app. split.
    + eapply Forall_impl; [exact Hbefore|]. cbn. intros d Hd. left. lia.
    + eapply Forall_impl; [exact Hbehind|]. cbn. intros d Hd. right.
      unfold chunk_end in Hd. lia.
  - (* the smallest larger chunk is split *)
    pose proof (take_exact_missing _ _ Hex) as Hnone.
    pose proof (find_target_best cnt fl [] None) as Hbest.
    cbn [app length] in Hbest. specialize (Hbest ltac:(intros c [])).
    destruct (find_target cnt fl 0 None) as [[i t]|]; cbn [best] in Hbest.
    2:{ exfalso. specialize (Hbest c0 Hin0). specialize (Hnone c0 Hin0). lia. }
    destruct Hbest as (Hi & Ht & Hmin).
    pose proof (take_drop_middle fl i t Hi) as Hsplit.
    assert (Hlt : (i < length fl)%nat) by (eapply lookup_lt_Some; exact Hi).
    set (l1 := take i fl) in *. set (l2 := drop (S i) fl) in *.
    assert (Hint : In t fl) by (rewrite <- Hsplit; apply in_elt).
    assert (Htok : 0 < addr t /\ 0 < pagecnt t /\ chunk_end t < 2 ^ 64).
    { unfold chunks_ok in Hok. rewrite Forall_forall in Hok.
      apply Hok. apply list_elem_of_In. exact Hint. }
    unfold chunk_end, PAGE_SIZE in Htok.
    set (rest := mkChunk (wrap64 (addr t + cnt * PAGE_SIZE))
                         (wrap64 (pagecnt t - cnt))).
    assert (Hra : addr rest = addr t + cnt * PAGE_SIZE).
    { cbn. unfold wrap64, PAGE_SIZE. rewrite Z.mod_small; lia. }
    assert (Hrp : pagecnt rest = pagecnt t - cnt).
    { cbn. unfold wrap64. rewrite Z.mod_small; lia. }
    exists (addr t), (<[i := rest]> fl), t.
    split; [reflexivity|]. split; [exact Hint|]. split; [reflexivity|].
    split; [lia|].
    split.
    { intros d Hd Hdc. apply Hmin; [exact Hd|].
      specialize (Hnone d Hd). lia. }
    rewrite insert_take_drop by exact Hlt. fold l1 l2.
    rewrite <- Hsplit in Hord, Hok |- *.
    destruct (ordered_middle _ _ _ Hord) as (_ & Hbefore & Hbehind).
    clearbody rest.
    split; [rewrite !total_app; cbn [total fold_right]; fold (total l2);
            rewrite Hrp; lia|].
    split.
    { apply (ordered_replace l1 t rest l2 Hord);
        unfold chunk_end, PAGE_SIZE in *; lia. }
    unfold chunks_ok in *. rewrite Forall_app, Forall_cons in Hok.
    split.
    { apply Forall_app. split; [tauto|]. apply Forall_cons.
      split; [|tauto]. unfold chunk_end, PAGE_SIZE in *. lia. }
    apply Forall_app. split; [|apply Forall_cons; split].
    + eapply Forall_impl; [exact Hbefore|]. cbn. intros d Hd. left. exact Hd.
    + right. unfold PAGE_SIZE in *. lia.
    + eapply Forall_impl; [exact Hbehind|]. cbn. intros d Hd. right.
      unfold chunk_end, PAGE_SIZE in *. lia.
Qed.

(** *** Release *)

Lemma link_behind_perm chunk l : Permutation (link_behind chunk l) (chunk :: l).
Proof.
  induction l as [|c r IH]; cbn; [reflexivity|].
  destruct (addr c <? addr chunk); [|reflexivity].
  rewrite IH. apply perm_swap.
Qed.

Lemma free_phys_pages_list_perm pp cnt fl :
  Permutation (free_phys_pages_list pp cnt fl) (mkChunk pp cnt :: fl).
Proof.
  unfold free_phys_pages_list. destruct fl as [|h r]; [reflexivity|].
  destruct (pp <? addr h); [reflexivity|].
  rewrite link_behind_perm. apply perm_swap.
Qed.

Lemma total_perm l l' : Permutation l l' -> total l = total l'.
Proof.
  unfold total.
  induction 1; cbn [fold_right]; lia.
Qed.

(** Chunks behind a chunk that starts at [pp] or later start behind the
    freed pages. *)
Lemma behind_freed pp cnt c r :
  0 < cnt -> chunks_ok (c :: r) -> ordered (c :: r) ->
  Forall (outside pp cnt) (c :: r) -> pp <= addr c ->
  Forall (fun d => pp + cnt * PAGE_SIZE <= addr d) (c :: r).
Proof.
  intros Hcnt Hok Hord Hout Hge.
  unfold chunks_ok in Hok. rewrite Forall_cons in Hok, Hout.
  destruct Hok as ((Hca & Hcp & _) & Hok), Hout as (Hc & Hout).
  cbn [ordered] in Hord. destruct Hord as (Hbehind & _).
  assert (Hcs : pp + cnt * PAGE_SIZE <= addr c).
  { destruct Hc as [Hc | Hc]; [|exact Hc].
    unfold chunk_end, PAGE_SIZE in *. lia. }
  apply Forall_cons. split; [exact Hcs|].
  eapply Forall_impl; [exact Hbehind|]. cbn. intros d Hd.
  unfold chunk_end, PAGE_SIZE in *. lia.
Qed.

Lemma link_behind_ordered chunk l :
  0 < pagecnt chunk -> chunks_ok l -> ordered l ->
  Forall (outside (addr chunk) (pagecnt chunk)) l ->
  ordered (link_behind chunk l).
Proof.
  intros Hcnt. induction l as [|c r IH]; intros Hok Hord Hout.
  - cbn. auto.
  - cbn [link_behind].
    destruct (Z.ltb_spec (addr c) (addr chunk)) as [Hlt | Hge].
    + pose proof Hok as Hok'. pose proof Hout as Hout'.
      unfold chunks_ok in Hok. rewrite Forall_cons in Hok, Hout.
      destruct Hok as ((Hca & Hcp & _) & Hok), Hout as (Hc & Hout).
      cbn [ordered] in Hord |- *. destruct Hord as (Hbehind & Hord).
      split; [|apply IH; assumption].
      rewrite link_behind_perm. apply Forall_cons. split; [|exact Hbehind].
      destruct Hc as [Hc | Hc]; [exact Hc|].
      unfold PAGE_SIZE in *. lia.
    + cbn [ordered]. split; [|exact Hord].
      change (chunk_end chunk) with (addr chunk + pagecnt chunk * PAGE_SIZE).
      apply behind_freed; assumption.
Qed.

(** [free_phys_pages] on the free list, for pages that are not free. *)
Lemma free_phys_pages_list_ordered pp cnt fl :
  0 < cnt -> chunks_ok fl -> ordered fl -> Forall (outside pp cnt) fl ->
  ordered (free_phys_pages_list pp cnt fl).
Proof.
  intros Hcnt Hok Hord Hout. unfold free_phys_pages_list.
  destruct fl as [|h r]; [cbn; auto|].
  destruct (Z.ltb_spec pp (addr h)) as [Hlt | Hge].
  - cbn [ordered]. split; [|exact Hord].
    change (chunk_end (mkChunk pp cnt)) with (pp + cnt * PAGE_SIZE).
    apply behind_freed; try assumption. lia.
  - pose proof Hok as Hok'. pose proof Hout as Hout'.
    unfold chunks_ok in Hok. rewrite Forall_cons in Hok, Hout.
    destruct Hok as ((Hca & Hcp & _) & Hok), Hout as (Hc & Hout).
    cbn [ordered] in Hord |- *. destruct Hord as (Hbehind & Hord).
    split; [|apply link_behind_ordered; assumption].
    rewrite link_behind_perm. apply Forall_cons. split; [|exact Hbehind].
    cbn [addr]. destruct Hc as [Hc | Hc]; [exact Hc|].
    unfold PAGE_SIZE in *. lia.
Qed.

(** X11.  When a chunk of at least [cnt] pages is free,
    [alloc_phys_pages(cnt)] returns the address of a free chunk that no
    adequate chunk is smaller than (a chunk of exactly [cnt] pages
    before any larger one).  The pages handed out are no longer part of
    any chunk on the free list, the list is still in address order
    without overlaps, and the number of free pages
    [free_phys_page_count] reports has gone down by exactly [cnt]. *)
Theorem alloc_phys_pages_best_fit cnt fl :
  0 < cnt -> ordered fl -> chunks_ok fl -> total fl < 2 ^ 31 ->
  (exists c, In c fl /\ cnt <= pagecnt c) ->
  exists pp fl' c,
    alloc_phys_pages cnt fl = Ret (pp, fl') /\
    In c fl /\ addr c = pp /\ cnt <= pagecnt c /\
    (forall d, In d fl -> cnt <= pagecnt d -> pagecnt c <= pagecnt d) /\
    Forall (outside pp cnt) fl' /\
    ordered fl' /\ chunks_ok fl' /\
    free_phys_page_count fl' = free_phys_page_count fl - cnt.
Proof.
  intros Hcnt Hord Hok Hsmall Hsome.
  destruct (alloc_phys_pages_spec cnt fl Hcnt Hord Hok Hsome)
    as (pp & fl' & c & Hrun & Hin & Ha & Hge & Hmin & Htot & Hord' & Hok'
        & Hout).
  exists pp, fl', c. repeat (split; [assumption|]).
  rewrite !count_is_total by (assumption || lia). exact Htot.
Qed.

(** X12.  [free_phys_pages(pp, cnt)] does nothing for a null pointer or
    a count of zero.  Otherwise, for pages that are not free already, it
    links one chunk of [cnt] pages at [pp] into the free list at its
    place in address order: the list afterwards holds that chunk and the
    chunks it held before, in address order without overlaps (adjacent
    chunks are not merged), and [free_phys_page_count] has gone up by
    [cnt]. *)
Theorem free_phys_pages_in_order pp cnt st :
  let fl := free_chunk_list st in
  (pp = 0 \/ cnt = 0 -> free_phys_pages pp cnt st = st) /\
  (0 < pp -> 0 < cnt -> pp + cnt * PAGE_SIZE < 2 ^ 64 ->
   ordered fl -> chunks_ok fl -> total fl + cnt < 2 ^ 31 ->
   Forall (outside pp cnt) fl ->
   let fl' := free_chunk_list (free_phys_pages pp cnt st) in
   Permutation fl' (mkChunk pp cnt :: fl) /\
   ordered fl' /\ chunks_ok fl' /\
   free_phys_page_count fl' = free_phys_page_count fl + cnt).
Proof.
  cbv zeta. split.
  - unfold free_phys_pages. intros [-> | ->]; [reflexivity|].
    destruct (pp =? 0); reflexivity.
  - intros Hpp Hcnt Hend Hord Hok Hsmall Hout. unfold free_phys_pages.
    destruct (Z.eqb_spec pp 0); [lia|]. destruct (Z.eqb_spec cnt 0); [lia|].
    cbn [free_chunk_list memset_page].
    pose proof (free_phys_pages_list_perm pp cnt (free_chunk_list st)) as Hp.
    assert (Hok' : chunks_ok (free_phys_pages_list pp cnt (free_chunk_list st))).
    { unfold chunks_ok. rewrite Hp. apply Forall_cons. split; [|exact Hok].
      unfold chunk_end. cbn. lia. }
    split; [exact Hp|].
    split; [apply free_phys_pages_list_ordered; assumption|].
    split; [exact Hok'|].
    pose proof (total_perm _ _ Hp) as Htot. cbn [total fold_right] in Htot.
    fold (total (free_chunk_list st)) in Htot. cbn [pagecnt] in Htot.
    rewrite !count_is_total by (assumption || lia). lia.
Qed.

(** X13.  Pages handed out by [alloc_phys_pages(cnt)] and given back
    with [free_phys_pages] bring the number of free pages back to what
    it was, with the free list in address order again. *)
Theorem alloc_then_free_restores_count cnt st :
  let fl := free_chunk_list st in
  0 < cnt -> ordered fl -> chunks_ok fl -> total fl < 2 ^ 31 ->
  (exists c, In c fl /\ cnt <= pagecnt c) ->
  exists pp fl',
    alloc_phys_pages cnt fl = Ret (pp, fl') /\
    let st' := free_phys_pages pp cnt (mkMstate fl' (satp st) (mem st)) in
    free_phys_page_count (free_chunk_list st') = free_phys_page_count fl /\
    ordered (free_chunk_list st') /\
    Permutation (free_chunk_list st') (mkChunk pp cnt :: fl').
Proof.
  cbv zeta. intros Hcnt Hord Hok Hsmall Hsome.
  destruct (alloc_phys_pages_spec cnt _ Hcnt Hord Hok Hsome)
    as (pp & fl' & c & Hrun & Hin & Ha & Hge & Hmin & Htot & Hord' & Hok'
        & Hout).
  exists pp, fl'. split; [exact Hrun|].
  assert (Hc : 0 < addr c /\ 0 < pagecnt c /\ chunk_end c < 2 ^ 64).
  { unfold chunks_ok in Hok. rewrite Forall_forall in Hok.
    apply Hok. apply list_elem_of_In. exact Hin. }
  unfold free_phys_pages.
  destruct (Z.eqb_spec pp 0); [lia|]. destruct (Z.eqb_spec cnt 0); [lia|].
  cbn [free_chunk_list memset_page].
  pose proof (free_phys_pages_list_perm pp cnt fl') as Hp.
  assert (Hok2 : chunks_ok (free_phys_pages_list pp cnt fl')).
  { unfold chunks_ok. rewrite Hp. apply Forall_cons. split; [|exact Hok'].
    unfold chunk_end, PAGE_SIZE in *. cbn. lia. }
  pose proof (total_perm _ _ Hp) as Htot2. cbn [total fold_right] in Htot2.
  fold (total fl') in Htot2. cbn [pagecnt] in Htot2.
  split; [|split; [apply free_phys_pages_list_ordered; assumption | exact Hp]].
  rewrite !count_is_total by (assumption || lia). lia.
Qed.

(** A pool of two chunks, of 8 pages and of 5. *)
Definition two_chunks : list page_chunk :=
  [mkChunk 2148532224 8; mkChunk 2149580800 5].

Lemma two_chunks_ordered : ordered two_chunks.
Proof. cbn. repeat constructor. unfold chunk_end, PAGE_SIZE. cbn. lia. Defined.

Lemma two_chunks_ok : chunks_ok two_chunks.
Proof.
  unfold chunks_ok, two_chunks, chunk_end, PAGE_SIZE.
  repeat constructor; cbn; lia.
Defined.

Lemma two_chunks_has_two : exists c, In c two_chunks /\ 2 <= pagecnt c.
Proof. exists (mkChunk 2148532224 8). cbn. split; [auto | lia]. Defined.

Lemma alloc_phys_pages_best_fit_witness :
  exists pp fl' c,
    alloc_phys_pages 2 two_chunks = Ret (pp, fl') /\
    In c two_chunks /\ addr c = pp /\ 2 <= pagecnt c /\
    (forall d, In d two_chunks -> 2 <= pagecnt d -> pagecnt c <= pagecnt d) /\
    Forall (outside pp 2) fl' /\
    ordered fl' /\ chunks_ok fl' /\
    free_phys_page_count fl' = free_phys_page_count two_chunks - 2.
Proof.
  apply (alloc_phys_pages_best_fit 2 two_chunks).
  - lia.
  - exact two_chunks_ordered.
  - exact two_chunks_ok.
  - cbn. lia.
  - exact two_chunks_has_two.
Defined.

Lemma free_phys_pages_in_order_witness :
  let st := mkMstate two_chunks 0 ∅ in
  let fl' := free_chunk_list (free_phys_pages 2149564416 4 st) in
  Permutation fl' (mkChunk 2149564416 4 :: two_chunks) /\
  ordered fl' /\ chunks_ok fl' /\
  free_phys_page_count fl' = free_phys_page_count two_chunks + 4.
Proof.
  apply (proj2 (free_phys_pages_in_order 2149564416 4
                  (mkMstate two_chunks 0 ∅))).
  - lia.
  - lia.
  - unfold PAGE_SIZE. cbn. lia.
  - exact two_chunks_ordered.
  - exact two_chunks_ok.
  - cbn. lia.
  - unfold two_chunks, outside, chunk_end, PAGE_SIZE.
    repeat constructor; cbn; lia.
Defined.

Lemma alloc_then_free_restores_count_witness :
  let st := mkMstate two_chunks 0 ∅ in
  exists pp fl',
    alloc_phys_pages 2 two_chunks = Ret (pp, fl') /\
    let st' := free_phys_pages pp 2 (mkMstate fl' (satp st) (mem st)) in
    free_phys_page_count (free_chunk_list st')
    = free_phys_page_count two_chunks /\
    ordered (free_chunk_list st') /\
    Permutation (free_chunk_list st') (mkChunk pp 2 :: fl').
Proof.
  apply (alloc_then_free_restores_count 2 (mkMstate two_chunks 0 ∅)).
  - lia.
  - exact two_chunks_ordered.
  - exact two_chunks_ok.
  - cbn. lia.
  - exact two_chunks_has_two.
Defined.

End PagePoolSpec.

(** ** memory.c: addresses and memory-space tags *)

Module MspaceSpec.
Import Memory Mspace.

(** X14.  [wellformed] accepts exactly the addresses whose bits 63 to 38
    are all zero or all one: those below 2^38 and the top 2^38 addresses
    of the 64-bit range. *)
Theorem wellformed_iff vma :
  0 <= vma < 2 ^ 64 ->
  wellformed vma = true <-> vma < 2 ^ 38 \/ 2 ^ 64 - 2 ^ 38 <= vma.
Proof.
  intros Hv. unfold wellformed, to_long. cbv zeta.
  rewrite Z.shiftr_div_pow2 by lia. rewrite orb_true_iff, !Z.eqb_eq.
  destruct (Z_lt_le_dec vma (2 ^ 63)) as [Hlo | Hhi].
  - replace ((vma + 2 ^ 63) mod 2 ^ 64 - 2 ^ 63) with vma
      by (rewrite Z.mod_small; lia).
    pose proof (Z.div_pos vma (2 ^ 38) ltac:(lia) ltac:(lia)) as Hq.
    split.
    + intros [Hz | Hm]; [|lia]. left.
      apply Z.div_small_iff in Hz; lia.
    + intros [Hl | Hh]; [|lia]. left. apply Z.div_small. lia.
  - replace ((vma + 2 ^ 63) mod 2 ^ 64 - 2 ^ 63) with (vma - 2 ^ 64).
    2:{ replace (vma + 2 ^ 63) with (vma - 2 ^ 63 + 1 * 2 ^ 64) by lia.
        rewrite Z.mod_add by lia. rewrite Z.mod_small; lia. }
    assert (Hneg : (vma - 2 ^ 64) / 2 ^ 38 < 0)
      by (apply Z.div_lt_upper_bound; lia).
    split.
    + intros [Hz | Hm]; [lia|]. right.
      assert (Hq : (vma - 2 ^ 64) / 2 ^ 38 = -1) by lia.
      pose proof (Z.mul_div_le (vma - 2 ^ 64) (2 ^ 38) ltac:(lia)) as Hle.
      rewrite Hq in Hle. lia.
    + intros [Hl | Hh]; [lia|]. right.
      assert (Hq : -1 <= (vma - 2 ^ 64) / 2 ^ 38)
        by (apply Z.div_le_lower_bound; lia).
      lia.
Qed.

Lemma wellformed_iff_witness :
  wellformed (2 ^ 64 - 4096) = true
  <-> 2 ^ 64 - 4096 < 2 ^ 38 \/ 2 ^ 64 - 2 ^ 38 <= 2 ^ 64 - 4096.
Proof. apply (wellformed_iff (2 ^ 64 - 4096)). lia. Defined.

Lemma low_bits_lor a b p :
  0 <= p < 2 ^ 44 -> a mod 2 ^ 44 = 0 -> b mod 2 ^ 44 = 0 ->
  Z.lor (Z.lor a b) p mod 2 ^ 44 = p.
Proof.
  intros Hp Ha Hb.
  rewrite <- !Z.land_ones in * by lia.
  rewrite !Z.land_lor_distr_l, Ha, Hb. cbn [Z.lor].
  rewrite Z.land_ones by lia. apply Z.mod_small. lia.
Qed.

(** X15.  The tag [ptab_to_mtag] builds for a root table gives the table
    back through [mtag_to_ptab], whatever the address-space id, when the
    table is page aligned and its address has at most 56 bits. *)
Theorem mtag_roundtrip ptab asid :
  0 <= ptab < 2 ^ 56 -> ptab mod PAGE_SIZE = 0 ->
  mtag_to_ptab (ptab_to_mtag ptab asid) = ptab.
Proof.
  intros Hp Hal. unfold mtag_to_ptab, ptab_to_mtag, pagenum, PAGE_ORDER.
  set (a := wrap64 (Z.shiftl PAGING_MODE 60)).
  set (b := wrap64 (Z.shiftl (wrap32 asid) 44)).
  rewrite (Z.shiftr_div_pow2 ptab) by lia.
  set (p := ptab / 2 ^ 12).
  assert (Hpp : 0 <= p < 2 ^ 44).
  { subst p. split; [apply Z.div_pos; lia|].
    apply Z.div_lt_upper_bound; lia. }
  assert (Ha : a mod 2 ^ 44 = 0) by reflexivity.
  assert (Hb : b mod 2 ^ 44 = 0).
  { subst b. unfold wrap64. rewrite Z.shiftl_mul_pow2 by lia.
    replace (2 ^ 64) with (2 ^ 44 * 2 ^ 20) by reflexivity.
    rewrite Z.mul_comm, Z.mul_mod_distr_l by lia.
    rewrite Z.mul_comm, Z.mod_mul by lia. reflexivity. }
  pose proof (low_bits_lor a b p Hpp Ha Hb) as Hlow.
  set (m := Z.lor (Z.lor a b) p) in *.
  unfold wrap64. rewrite Z.shiftl_mul_pow2, Z.shiftr_div_pow2 by lia.
  replace (2 ^ 64) with (2 ^ 44 * 2 ^ 20) by reflexivity.
  rewrite Z.mul_mod_distr_r by lia. rewrite Hlow.
  replace (2 ^ 20) with (2 ^ 12 * 2 ^ 8) by reflexivity.
  rewrite Z.mul_assoc, Z.div_mul by lia.
  subst p. unfold PAGE_SIZE in Hal.
  change (2 ^ 12) with 4096. 
  pose proof (Z.div_mod ptab 4096 ltac:(lia)). lia.
Qed.

Lemma mtag_roundtrip_witness :
  mtag_to_ptab (ptab_to_mtag 2148536320 7) = 2148536320.
Proof.
  apply (mtag_roundtrip 2148536320 7); [lia | reflexivity].
Defined.

End MspaceSpec.

(** ** memory.c: page tables *)

Module PageTableSpec.
Import Memory Mspace PagePoolSpec.

(** *** Entries in memory *)

Lemma load_store_eq a e st : load_pte (store_pte a e st) a = e.
Proof. unfold load_pte, store_pte. cbn. rewrite lookup_insert_eq. reflexivity. Qed.

Lemma load_store_ne a b e st :
  a <> b -> load_pte (store_pte a e st) b = load_pte st b.
Proof.
  intros Hne. unfold load_pte, store_pte. cbn.
  rewrite lookup_insert_ne by exact Hne. reflexivity.
Qed.

Lemma clear_entries_out n : forall a m k,
  k < a \/ a + 8 * Z.of_nat n <= k -> clear_entries n a m !! k = m !! k.
Proof.
  induction n as [|n IH]; intros a m k Hk; cbn [clear_entries]; [reflexivity|].
  rewrite IH by lia. apply lookup_delete_ne. lia.
Qed.

Lemma clear_entries_in n : forall a m i,
  0 <= i < Z.of_nat n -> clear_entries n a m !! (a + 8 * i) = None.
Proof.
  induction n as [|n IH]; intros a m i Hi; [lia|]. cbn [clear_entries].
  destruct (Z.eq_dec i 0) as [-> | Hne].
  - rewrite clear_entries_out by lia.
    replace (a + 8 * 0) with a by lia. apply lookup_delete_eq.
  - replace (a + 8 * i) with (a + 8 + 8 * (i - 1)) by lia.
    apply IH. lia.
Qed.

Lemma load_memset_out pp b st :
  b < pp \/ pp + PAGE_SIZE <= b ->
  load_pte (memset_page pp st) b = load_pte st b.
Proof.
  intros Hb. unfold load_pte, memset_page. cbn [mem].
  rewrite clear_entries_out; [reflexivity|].
  unfold PAGE_SIZE, PTE_CNT in *. lia.
Qed.

Lemma load_memset_in pp i st :
  0 <= i < PTE_CNT -> load_pte (memset_page pp st) (entry pp i) = null_pte.
Proof.
  intros Hi. unfold load_pte, memset_page, entry. cbn [mem].
  rewrite clear_entries_in; [reflexivity|].
  unfold PTE_CNT in *. lia.
Qed.

(** *** Table addresses *)

(** Two pages with no byte in common. *)
Definition apart (p q : Z) : Prop := p + PAGE_SIZE <= q \/ q + PAGE_SIZE <= p.

Lemma aligned_apart p q :
  p mod PAGE_SIZE = 0 -> q mod PAGE_SIZE = 0 -> p <> q -> apart p q.
Proof.
  unfold apart, PAGE_SIZE. intros Hp Hq Hne.
  pose proof (Z.div_mod p 4096 ltac:(lia)).
  pose proof (Z.div_mod q 4096 ltac:(lia)). lia.
Qed.

Lemma entry_apart p q i j :
  apart p q -> 0 <= i < PTE_CNT -> 0 <= j < PTE_CNT ->
  entry p i <> entry q j /\ (entry q j < p \/ p + PAGE_SIZE <= entry q j).
Proof. unfold apart, entry, PAGE_SIZE, PTE_CNT. lia. Qed.

Lemma pageptr_aligned n : pageptr n mod PAGE_SIZE = 0.
Proof.
  unfold pageptr, wrap64, PAGE_ORDER, PAGE_SIZE.
  rewrite Z.shiftl_mul_pow2 by lia.
  replace (2 ^ 64) with (2 ^ 52 * 2 ^ 12) by reflexivity.
  rewrite Z.mul_mod_distr_r by lia.
  change (2 ^ 12) with 4096. apply Z.mod_mul. lia.
Qed.

Lemma ptab_aligned m : mtag_to_ptab m mod PAGE_SIZE = 0.
Proof.
  unfold mtag_to_ptab, wrap64, PAGE_SIZE.
  rewrite Z.shiftl_mul_pow2, Z.shiftr_div_pow2 by lia.
  replace (2 ^ 64) with (2 ^ 44 * 2 ^ 20) by reflexivity.
  rewrite Z.mul_mod_distr_r by lia.
  replace (2 ^ 20) with (2 ^ 12 * 2 ^ 8) by reflexivity.
  rewrite Z.mul_assoc, Z.div_mul by lia.
  change (2 ^ 12) with 4096. apply Z.mod_mul. lia.
Qed.

Lemma pageptr_pagenum p :
  0 <= p < 2 ^ 56 -> p mod PAGE_SIZE = 0 ->
  pageptr (pagenum p mod 2 ^ 44) = p.
Proof.
  intros Hp Hal. unfold pageptr, pagenum, wrap64, PAGE_ORDER, PAGE_SIZE in *.
  rewrite Z.shiftr_div_pow2, Z.shiftl_mul_pow2 by lia.
  change (2 ^ 12) with 4096.
  assert (Hq : 0 <= p / 4096 < 2 ^ 44).
  { split; [apply Z.div_pos; lia | apply Z.div_lt_upper_bound; lia]. }
  pose proof (Z.div_mod p 4096 ltac:(lia)).
  rewrite (Z.mod_small (p / 4096)) by lia.
  rewrite Z.mod_small; lia.
Qed.

Lemma vpn_round vma : VPN (ROUND_DOWN vma PAGE_SIZE) = VPN vma.
Proof. unfold VPN, ROUND_DOWN, PAGE_SIZE. apply Z.div_mul. lia. Qed.

Lemma vpn2_range vma : 0 <= VPN2 vma < PTE_CNT.
Proof. unfold VPN2, PTE_CNT. apply Z.mod_pos_bound. lia. Qed.

Lemma vpn1_range vma : 0 <= VPN1 vma < PTE_CNT.
Proof. unfold VPN1, PTE_CNT. apply Z.mod_pos_bound. lia. Qed.

Lemma vpn0_range vma : 0 <= VPN0 vma < PTE_CNT.
Proof. unfold VPN0, PTE_CNT. apply Z.mod_pos_bound. lia. Qed.

Lemma to_long_cases x :
  0 <= x < 2 ^ 64 ->
  to_long x = if x <? 2 ^ 63 then x else x - 2 ^ 64.
Proof.
  intros Hx. unfold to_long. destruct (Z.ltb_spec x (2 ^ 63)).
  - rewrite Z.mod_small; lia.
  - replace (x + 2 ^ 63) with (x - 2 ^ 63 + 1 * 2 ^ 64) by lia.
    rewrite Z.mod_add by lia. rewrite Z.mod_small; lia.
Qed.

Lemma wellformed_round vma :
  0 <= vma < 2 ^ 64 ->
  wellformed (ROUND_DOWN vma PAGE_SIZE) = wellformed vma.
Proof.
  intros Hv.
  pose proof (Z.div_mod vma 4096 ltac:(lia)) as Hdm.
  pose proof (Z.mod_pos_bound vma 4096 ltac:(lia)) as Hmb.
  assert (Ev : ROUND_DOWN vma PAGE_SIZE = 4096 * (vma / 4096))
    by (unfold ROUND_DOWN, PAGE_SIZE; lia).
  set (v := ROUND_DOWN vma PAGE_SIZE) in *. set (k := vma / 4096) in *.
  assert (Hq : to_long v / 4096 = to_long vma / 4096).
  { rewrite !to_long_cases by lia.
    destruct (Z.ltb_spec v (2 ^ 63)), (Z.ltb_spec vma (2 ^ 63)); try lia.
    - rewrite Ev, Z.mul_comm, Z.div_mul by lia. reflexivity.
    - replace (v - 2 ^ 64) with (v + - 2 ^ 52 * 4096) by lia.
      replace (vma - 2 ^ 64) with (vma + - 2 ^ 52 * 4096) by lia.
      rewrite !Z.div_add by lia.
      rewrite Ev, Z.mul_comm, Z.div_mul by lia. reflexivity. }
  unfold wellformed. cbv zeta. rewrite !Z.shiftr_div_pow2 by lia.
  change (2 ^ 38) with (4096 * 2 ^ 26).
  rewrite <- !Z.div_div by lia. rewrite Hq. reflexivity.
Qed.

Lemma valid_bit x :
  Z.testbit x 0 = true -> negb (Z.land (x mod 2 ^ 8) PTE_V =? 0) = true.
Proof.
  intros Hx. destruct (Z.eqb_spec (Z.land (x mod 2 ^ 8) PTE_V) 0) as [E|];
    [|reflexivity].
  exfalso. assert (Hb : Z.testbit (Z.land (x mod 2 ^ 8) PTE_V) 0 = true).
  { rewrite Z.land_spec, Z.mod_pow2_bits_low, Hx by lia. reflexivity. }
  rewrite E in Hb. discriminate.
Qed.

Lemma ptab_pte_valid t g : PTE_VALID (ptab_pte t g) = true.
Proof.
  unfold PTE_VALID, ptab_pte. cbn [flags]. apply valid_bit.
  rewrite Z.lor_spec. apply orb_true_r.
Qed.

Lemma leaf_pte_valid pp f : PTE_VALID (leaf_pte pp f) = true.
Proof.
  unfold PTE_VALID, leaf_pte. cbn [flags]. apply valid_bit.
  rewrite Z.lor_spec. apply orb_true_r.
Qed.

(** *** Fresh pages for tables *)

(** The free list [alloc_phys_pages] leaves: a chunk is unlinked, or its
    first [cnt] pages are cut off. *)
Lemma alloc_phys_pages_shape cnt fl pp fl' :
  0 < cnt -> chunks_ok fl -> alloc_phys_pages cnt fl = Ret (pp, fl') ->
  exists l1 c l2,
    fl = l1 ++ c :: l2 /\ addr c = pp /\ cnt <= pagecnt c /\
    (fl' = l1 ++ l2 \/
     (cnt < pagecnt c /\
      fl' = l1 ++ mkChunk (addr c + cnt * PAGE_SIZE) (pagecnt c - cnt) :: l2)).
Proof.
  intros Hcnt Hok Hrun. unfold alloc_phys_pages in Hrun.
  destruct (take_exact cnt fl) as [[p r]|] eqn:Hex.
  - injection Hrun as <- <-.
    destruct (take_exact_spec _ _ _ _ Hex) as (l1 & c & l2 & -> & -> & Ha & Hp).
    exists l1, c, l2. split; [reflexivity|]. split; [exact Ha|].
    split; [lia|]. left. reflexivity.
  - pose proof (find_target_best cnt fl [] None) as Hbest.
    cbn [app length] in Hbest. specialize (Hbest ltac:(intros c [])).
    destruct (find_target cnt fl 0 None) as [[i t]|]; cbn [best] in Hbest;
      [|discriminate].
    injection Hrun as <- <-. destruct Hbest as (Hi & Ht & _).
    pose proof (take_drop_middle fl i t Hi) as Hsplit.
    assert (Hlt : (i < length fl)%nat) by (eapply lookup_lt_Some; exact Hi).
    assert (Htok : 0 < addr t /\ 0 < pagecnt t /\ chunk_end t < 2 ^ 64).
    { unfold chunks_ok in Hok. rewrite Forall_forall in Hok.
      apply Hok. apply list_elem_of_In. rewrite <- Hsplit. apply in_elt. }
    unfold chunk_end, PAGE_SIZE in Htok.
    exists (take i fl), t, (drop (S i) fl).
    split; [symmetry; exact Hsplit|]. split; [reflexivity|].
    split; [lia|]. right. split; [exact Ht|].
    rewrite insert_take_drop by exact Hlt.
    unfold wrap64, PAGE_SIZE. rewrite !Z.mod_small by lia. reflexivity.
Qed.

(** The free list as [map_page] needs it: in address order, of chunks
    that start on a page boundary and end within the 56 bits of a
    physical address. *)
Definition pool_ok (fl : list page_chunk) : Prop :=
  ordered fl /\ chunks_ok fl /\
  Forall (fun c => addr c mod PAGE_SIZE = 0 /\ chunk_end c <= 2 ^ 56) fl.

(** The page [q] is not free. *)
Definition in_use (q : Z) (fl : list page_chunk) : Prop :=
  Forall (outside q 1) fl.

Lemma alloc_page_fresh fl pp fl' :
  pool_ok fl -> alloc_phys_pages 1 fl = Ret (pp, fl') ->
  pool_ok fl' /\ 0 < pp < 2 ^ 56 /\ pp mod PAGE_SIZE = 0 /\
  in_use pp fl' /\
  forall q, in_use q fl -> apart q pp /\ in_use q fl'.
Proof.
  intros (Hord & Hok & Hal) Hrun.
  destruct (alloc_phys_pages_shape 1 fl pp fl' ltac:(lia) Hok Hrun)
    as (l1 & c & l2 & Hfl & Ha & Hge & Hshape).
  assert (Hin : In c fl) by (rewrite Hfl; apply in_elt).
  destruct (alloc_phys_pages_spec 1 fl ltac:(lia) Hord Hok
              (ex_intro _ c (conj Hin Hge)))
    as (pp' & fl'' & c' & Hrun' & _ & _ & _ & _ & _ & Hord' & Hok' & Hout').
  rewrite Hrun in Hrun'. injection Hrun' as <- <-.
  assert (Hc : (0 < addr c /\ 0 < pagecnt c /\ chunk_end c < 2 ^ 64)
               /\ addr c mod PAGE_SIZE = 0 /\ chunk_end c <= 2 ^ 56).
  { unfold chunks_ok in Hok. rewrite Forall_forall in Hok, Hal.
    split; [apply Hok | apply Hal]; apply list_elem_of_In; exact Hin. }
  destruct Hc as ((Hc1 & Hc2 & Hc3) & Hc4 & Hc5).
  subst fl. rewrite Forall_app, Forall_cons in Hal.
  destruct Hal as (Hal1 & _ & Hal2).
  split; [split; [exact Hord'|]; split; [exact Hok'|]|].
  { destruct Hshape as [-> | (Hlt & ->)].
    - apply Forall_app. split; assumption.
    - apply Forall_app. split; [assumption|].
      apply Forall_cons. split; [|assumption].
      unfold chunk_end, PAGE_SIZE in *. cbn [addr pagecnt].
      split; [|lia].
      rewrite Z.mod_add by lia. exact Hc4. }
  split; [unfold chunk_end, PAGE_SIZE in *; lia|].
  split; [rewrite <- Ha; exact Hc4|].
  split; [exact Hout'|].
  intros q Hq. unfold in_use in *. rewrite Forall_app, Forall_cons in Hq.
  destruct Hq as (Hq1 & Hqc & Hq2). split.
  - unfold apart, outside, chunk_end, PAGE_SIZE in *. lia.
  - destruct Hshape as [-> | (Hlt & ->)].
    + apply Forall_app. split; assumption.
    + apply Forall_app. split; [assumption|].
      apply Forall_cons. split; [|assumption].
      unfold outside, chunk_end, PAGE_SIZE in *. cbn [addr pagecnt]. lia.
Qed.

(** One level of [map_page] when the entry is not valid: the entry
    points to a page taken from the pool and zeroed, and nothing else
    outside that page has changed. *)
Lemma subtable_fresh pt idx st t st1 :
  pool_ok (free_chunk_list st) -> 0 <= idx < PTE_CNT ->
  in_use pt (free_chunk_list st) ->
  PTE_VALID (load_pte st (entry pt idx)) = false ->
  subtable pt idx st = Ret (t, st1) ->
  satp st1 = satp st /\ pool_ok (free_chunk_list st1) /\
  0 < t /\ t mod PAGE_SIZE = 0 /\
  load_pte st1 (entry pt idx) = ptab_pte t 0 /\
  pageptr (ppn (ptab_pte t 0)) = t /\
  in_use t (free_chunk_list st1) /\
  (forall q, in_use q (free_chunk_list st) ->
             apart q t /\ in_use q (free_chunk_list st1)) /\
  (forall i, 0 <= i < PTE_CNT -> load_pte st1 (entry t i) = null_pte) /\
  (forall b, b < t \/ t + PAGE_SIZE <= b -> b <> entry pt idx ->
             load_pte st1 b = load_pte st b).
Proof.
  intros Hpool Hidx Hpt Hinv Hrun. unfold subtable in Hrun.
  rewrite Hinv in Hrun. unfold alloc_phys_page in Hrun.
  destruct (alloc_phys_pages 1 (free_chunk_list st)) as [[pp1 fl1]|] eqn:Ha;
    [|discriminate].
  destruct (alloc_page_fresh _ _ _ Hpool Ha)
    as (Hpool1 & Hpp & Hal & Huse & Hothers).
  rewrite load_store_eq in Hrun. cbn [ppn ptab_pte] in Hrun.
  rewrite pageptr_pagenum in Hrun by (lia || assumption).
  injection Hrun as <- <-.
  destruct (Hothers pt Hpt) as (Hap & _).
  split; [reflexivity|]. split; [exact Hpool1|]. split; [lia|].
  split; [exact Hal|]. split; [apply load_store_eq|].
  split; [cbn [ppn ptab_pte]; apply pageptr_pagenum; lia || assumption|].
  split; [exact Huse|]. split; [exact Hothers|]. split.
  - intros i Hi.
    destruct (entry_apart pt pp1 idx i Hap Hidx Hi) as (Hne & _).
    rewrite load_store_ne by exact Hne.
    apply load_memset_in. exact Hi.
  - intros b Hb Hne. rewrite load_store_ne by congruence.
    rewrite load_memset_out by exact Hb. reflexivity.
Qed.

(** One level of [map_page] when the entry is valid. *)
Lemma subtable_valid pt idx st :
  PTE_VALID (load_pte st (entry pt idx)) = true ->
  subtable pt idx st = Ret (pageptr (ppn (load_pte st (entry pt idx))), st).
Proof. intros Hv. unfold subtable. rewrite Hv. reflexivity. Qed.

(** *** [map_page] and the walk *)

Lemma apart_sym p q : apart p q -> apart q p.
Proof. unfold apart. tauto. Qed.

(** The tables the walk for [vma] goes through are pages of their own
    that are not free. *)
Definition tables_apart (vma : Z) (st : mstate) : Prop :=
  let v := ROUND_DOWN vma PAGE_SIZE in
  let root := active_space_ptab st in
  let fl := free_chunk_list st in
  let l2 := load_pte st (entry root (VPN2 v)) in
  let pt1 := pageptr (ppn l2) in
  let l1 := load_pte st (entry pt1 (VPN1 v)) in
  let pt0 := pageptr (ppn l1) in
  in_use root fl /\
  (PTE_VALID l2 = true ->
   pt1 <> root /\ in_use pt1 fl /\
   (PTE_VALID l1 = true -> pt0 <> 0 /\ pt0 <> root /\ pt0 <> pt1)).

(** The entries of all three levels for [vma] are valid. *)
Definition mapped (vma : Z) (st : mstate) : bool :=
  let v := ROUND_DOWN vma PAGE_SIZE in
  let l2 := load_pte st (entry (active_space_ptab st) (VPN2 v)) in
  let l1 := load_pte st (entry (pageptr (ppn l2)) (VPN1 v)) in
  PTE_VALID l2 && PTE_VALID l1
  && PTE_VALID (load_pte st (entry (pageptr (ppn l1)) (VPN0 vma))).

(** The last step of [map_page] and the walk afterwards. *)
Lemma walk_after_leaf vma pp f st2 pt1 pt0 :
  0 <= vma < 2 ^ 64 -> wellformed vma = true ->
  let v := ROUND_DOWN vma PAGE_SIZE in
  let root := active_space_ptab st2 in
  let e0 := entry pt0 (VPN0 vma) in
  PTE_VALID (load_pte st2 (entry root (VPN2 v))) = true ->
  pageptr (ppn (load_pte st2 (entry root (VPN2 v)))) = pt1 ->
  PTE_VALID (load_pte st2 (entry pt1 (VPN1 v))) = true ->
  pageptr (ppn (load_pte st2 (entry pt1 (VPN1 v)))) = pt0 ->
  apart pt0 root -> apart pt0 pt1 ->
  let st' := if PTE_VALID (load_pte st2 e0) then st2
             else store_pte e0 (leaf_pte pp f) st2 in
  find_physical_page vma st' = Walked pt0 /\
  PTE_VALID (load_pte st' e0) = true /\
  (PTE_VALID (load_pte st2 e0) = false -> load_pte st' e0 = leaf_pte pp f).
Proof.
  intros Hv Hwf v root e0 V2 P1 V1 P0 Ha0 Ha1 st'.
  assert (Hsame : forall b, b <> e0 -> load_pte st' b = load_pte st2 b).
  { intros b Hb. subst st'.
    destruct (PTE_VALID (load_pte st2 e0)); [reflexivity|].
    apply load_store_ne. congruence. }
  assert (Hsatp : active_space_ptab st' = root).
  { subst st'. destruct (PTE_VALID (load_pte st2 e0)); reflexivity. }
  destruct (entry_apart pt0 root (VPN0 vma) (VPN2 v) Ha0
              (vpn0_range _) (vpn2_range _)) as (N2 & _).
  destruct (entry_apart pt0 pt1 (VPN0 vma) (VPN1 v) Ha1
              (vpn0_range _) (vpn1_range _)) as (N1 & _).
  fold e0 in N2, N1.
  split.
  - unfold find_physical_page. cbv zeta. fold v.
    unfold v at 1. rewrite wellformed_round, Hwf by exact Hv. cbn [negb].
    rewrite Hsatp. rewrite (Hsame (entry root (VPN2 v))) by congruence.
    rewrite V2, P1. rewrite (Hsame (entry pt1 (VPN1 v))) by congruence.
    rewrite V1, P0. reflexivity.
  - subst st'. destruct (PTE_VALID (load_pte st2 e0)) eqn:V0.
    + split; [exact V0 | discriminate].
    + rewrite load_store_eq. split; [apply leaf_pte_valid | reflexivity].
Qed.

(** X16.  After [map_page(vma, pp, flags)] on a well-formed address the
    walk of [find_physical_page] ends in the level-0 table of [vma], and
    the entry for [vma] there is valid: the mapping that was there
    before (the call then changes nothing and [pp] is not installed), or
    else the leaf for [pp] with the flags given.  The tables on the way
    are found again also when [map_page] had to take one or two of them
    from the page pool.  This is for a free list in address order and
    tables that are pages of their own and not free. *)
Theorem map_page_then_find vma pp f st v st' :
  0 <= vma < 2 ^ 64 -> wellformed vma = true ->
  pool_ok (free_chunk_list st) -> tables_apart vma st ->
  map_page vma pp f st = Ret (v, st') ->
  v = ROUND_DOWN vma PAGE_SIZE /\
  (mapped vma st = true -> st' = st) /\
  exists pt0,
    find_physical_page vma st' = Walked pt0 /\ pt0 <> 0 /\
    PTE_VALID (load_pte st' (entry pt0 (VPN0 vma))) = true /\
    (mapped vma st = false ->
     load_pte st' (entry pt0 (VPN0 vma)) = leaf_pte pp f).
Proof.
  intros Hv Hwf Hpool Hapart Hrun.
  unfold map_page in Hrun. rewrite Hwf in Hrun. cbn [negb] in Hrun.
  cbv zeta in Hrun. unfold map_page_tables in Hrun.
  unfold tables_apart in Hapart. cbv zeta in Hapart.
  unfold mapped. cbv zeta.
  assert (E0 : VPN0 (ROUND_DOWN vma PAGE_SIZE) = VPN0 vma)
    by (unfold VPN0; rewrite vpn_round; reflexivity).
  rewrite E0 in Hrun. clear E0.
  set (v0 := ROUND_DOWN vma PAGE_SIZE) in *.
  set (root := active_space_ptab st) in *.
  destruct Hapart as (Hroot & Hrest).
  assert (Har : root mod PAGE_SIZE = 0) by apply ptab_aligned.
  destruct (PTE_VALID (load_pte st (entry root (VPN2 v0)))) eqn:V2.
  - (* the level-2 entry is valid *)
    rewrite (subtable_valid _ _ _ V2) in Hrun.
    destruct (Hrest eq_refl) as (Hne1 & Huse1 & Hrest0). clear Hrest.
    set (pt1 := pageptr (ppn (load_pte st (entry root (VPN2 v0))))) in *.
    assert (Ha1 : apart root pt1).
    { apply aligned_apart; [exact Har | apply pageptr_aligned | congruence]. }
    destruct (PTE_VALID (load_pte st (entry pt1 (VPN1 v0)))) eqn:V1.
    + (* and so is the level-1 entry *)
      rewrite (subtable_valid _ _ _ V1) in Hrun.
      destruct (Hrest0 eq_refl) as (Hnz & Hne0 & Hne01). clear Hrest0.
      set (pt0 := pageptr (ppn (load_pte st (entry pt1 (VPN1 v0))))) in *.
      assert (Ha0r : apart pt0 root).
      { apply aligned_apart; [apply pageptr_aligned | exact Har | exact Hne0]. }
      assert (Ha01 : apart pt0 pt1).
      { apply aligned_apart; [apply pageptr_aligned .. | exact Hne01]. }
      destruct (walk_after_leaf vma pp f st pt1 pt0 Hv Hwf V2 eq_refl V1
                  eq_refl Ha0r Ha01) as (Hfind & Hvalid & Hleaf).
      cbn [andb].
      destruct (PTE_VALID (load_pte st (entry pt0 (VPN0 vma)))) eqn:V0;
        injection Hrun as <- <-.
      * split; [reflexivity|]. split; [reflexivity|].
        exists pt0. split; [exact Hfind|]. split; [exact Hnz|].
        split; [exact Hvalid | discriminate].
      * split; [reflexivity|]. split; [discriminate|].
        exists pt0. split; [exact Hfind|]. split; [exact Hnz|].
        split; [exact Hvalid | intros _; apply Hleaf; reflexivity].
    + (* the level-0 table is taken from the pool *)
      destruct (subtable pt1 (VPN1 v0) st) as [[pt0 st2]|] eqn:Hs;
        [|discriminate].
      destruct (subtable_fresh _ _ _ _ _ Hpool (vpn1_range _) Huse1 V1 Hs)
        as (Hsatp & Hpool2 & Hpos & Hal0 & Hl1 & Hp0 & Huse0 & Hothers
            & Hzero & Hkeep).
      destruct (Hothers root Hroot) as (Har0 & _).
      destruct (Hothers pt1 Huse1) as (Ha10 & _).
      apply apart_sym in Har0, Ha10.
      destruct (entry_apart pt0 root (VPN0 vma) (VPN2 v0) Har0
                  (vpn0_range _) (vpn2_range _)) as (_ & Hout2).
      destruct (entry_apart root pt1 (VPN2 v0) (VPN1 v0) Ha1
                  (vpn2_range _) (vpn1_range _)) as (N21 & _).
      assert (Hroot2 : active_space_ptab st2 = root)
        by (unfold active_space_ptab; rewrite Hsatp; reflexivity).
      assert (L2 : load_pte st2 (entry root (VPN2 v0))
                   = load_pte st (entry root (VPN2 v0)))
        by (apply Hkeep; [exact Hout2 | exact N21]).
      assert (V2' : PTE_VALID (load_pte st2
                       (entry (active_space_ptab st2) (VPN2 v0))) = true)
        by (rewrite Hroot2, L2; exact V2).
      assert (P1' : pageptr (ppn (load_pte st2
                       (entry (active_space_ptab st2) (VPN2 v0)))) = pt1)
        by (rewrite Hroot2, L2; reflexivity).
      assert (V1' : PTE_VALID (load_pte st2 (entry pt1 (VPN1 v0))) = true)
        by (rewrite Hl1; apply ptab_pte_valid).
      assert (P0' : pageptr (ppn (load_pte st2 (entry pt1 (VPN1 v0)))) = pt0)
        by (rewrite Hl1; exact Hp0).
      rewrite <- Hroot2 in Har0.
      destruct (walk_after_leaf vma pp f st2 pt1 pt0 Hv Hwf V2' P1' V1' P0'
                  Har0 Ha10) as (Hfind & Hvalid & Hleaf).
      assert (V0 : PTE_VALID (load_pte st2 (entry pt0 (VPN0 vma))) = false)
        by (rewrite Hzero by apply vpn0_range; reflexivity).
      rewrite V0 in Hrun, Hfind, Hvalid, Hleaf. injection Hrun as <- <-.
      cbn [andb]. split; [reflexivity|]. split; [discriminate|].
      exists pt0. split; [exact Hfind|]. split; [lia|].
      split; [exact Hvalid | intros _; apply Hleaf; reflexivity].
  - (* both tables are taken from the pool *)
    clear Hrest.
    destruct (subtable root (VPN2 v0) st) as [[pt1 st1]|] eqn:Hs1;
      [|discriminate].
    destruct (subtable_fresh _ _ _ _ _ Hpool (vpn2_range _) Hroot V2 Hs1)
      as (Hsatp1 & Hpool1 & Hpos1 & Hal1 & Hl2 & Hp1 & Huse1 & Hothers1
          & Hzero1 & Hkeep1).
    destruct (Hothers1 root Hroot) as (Har1 & Hroot1).
    assert (V1 : PTE_VALID (load_pte st1 (entry pt1 (VPN1 v0))) = false)
      by (rewrite Hzero1 by apply vpn1_range; reflexivity).
    destruct (subtable pt1 (VPN1 v0) st1) as [[pt0 st2]|] eqn:Hs2;
      [|discriminate].
    destruct (subtable_fresh _ _ _ _ _ Hpool1 (vpn1_range _) Huse1 V1 Hs2)
      as (Hsatp2 & Hpool2 & Hpos0 & Hal0 & Hl1 & Hp0 & Huse0 & Hothers2
          & Hzero2 & Hkeep2).
    destruct (Hothers2 root Hroot1) as (Har0 & _).
    destruct (Hothers2 pt1 Huse1) as (Ha10 & _).
    apply apart_sym in Har0, Ha10.
    destruct (entry_apart pt0 root (VPN0 vma) (VPN2 v0) Har0
                (vpn0_range _) (vpn2_range _)) as (_ & Hout2).
    destruct (entry_apart root pt1 (VPN2 v0) (VPN1 v0) Har1
                (vpn2_range _) (vpn1_range _)) as (N21 & _).
    assert (Hroot2 : active_space_ptab st2 = root)
      by (unfold active_space_ptab; rewrite Hsatp2, Hsatp1; reflexivity).
    assert (L2 : load_pte st2 (entry root (VPN2 v0)) = ptab_pte pt1 0)
      by (rewrite Hkeep2; [exact Hl2 | exact Hout2 | exact N21]).
    assert (V2' : PTE_VALID (load_pte st2
                     (entry (active_space_ptab st2) (VPN2 v0))) = true)
      by (rewrite Hroot2, L2; apply ptab_pte_valid).
    assert (P1' : pageptr (ppn (load_pte st2
                     (entry (active_space_ptab st2) (VPN2 v0)))) = pt1)
      by (rewrite Hroot2, L2; exact Hp1).
    assert (V1' : PTE_VALID (load_pte st2 (entry pt1 (VPN1 v0))) = true)
      by (rewrite Hl1; apply ptab_pte_valid).
    assert (P0' : pageptr (ppn (load_pte st2 (entry pt1 (VPN1 v0)))) = pt0)
      by (rewrite Hl1; exact Hp0).
    rewrite <- Hroot2 in Har0.
    destruct (walk_after_leaf vma pp f st2 pt1 pt0 Hv Hwf V2' P1' V1' P0'
                Har0 Ha10) as (Hfind & Hvalid & Hleaf).
    assert (V0 : PTE_VALID (load_pte st2 (entry pt0 (VPN0 vma))) = false)
      by (rewrite Hzero2 by apply vpn0_range; reflexivity).
    rewrite V0 in Hrun, Hfind, Hvalid, Hleaf. injection Hrun as <- <-.
    cbn [andb]. split; [reflexivity|]. split; [discriminate|].
    exists pt0. split; [exact Hfind|]. split; [lia|].
    split; [exact Hvalid | intros _; apply Hleaf; reflexivity].
Qed.

(** A root table at 0x80200000 with no valid entry and a pool of sixteen
    free pages at 0x80300000. *)
Definition empty_space : mstate :=
  mkMstate [mkChunk 2150629376 16] (8 * 2 ^ 60 + 524800) ∅.

Lemma empty_space_pool : pool_ok (free_chunk_list empty_space).
Proof.
  unfold pool_ok, chunks_ok, chunk_end, PAGE_SIZE. cbn.
  repeat split; repeat constructor; cbn; lia.
Defined.

Lemma empty_space_tables : tables_apart 3221230132 empty_space.
Proof.
  unfold tables_apart. cbv zeta. split.
  - unfold in_use. apply Forall_cons. split; [|apply Forall_nil; exact I].
    right. vm_compute. discriminate.
  - intros Hvalid. vm_compute in Hvalid. discriminate.
Defined.

Lemma map_page_then_find_witness :
  match map_page 3221230132 2151677952 6 empty_space with
  | Ret (v, st') =>
      v = ROUND_DOWN 3221230132 PAGE_SIZE /\
      (mapped 3221230132 empty_space = true -> st' = empty_space) /\
      exists pt0,
        find_physical_page 3221230132 st' = Walked pt0 /\ pt0 <> 0 /\
        PTE_VALID (load_pte st' (entry pt0 (VPN0 3221230132))) = true /\
        (mapped 3221230132 empty_space = false ->
         load_pte st' (entry pt0 (VPN0 3221230132)) = leaf_pte 2151677952 6)
  | NullDeref => False
  end.
Proof.
  destruct (map_page 3221230132 2151677952 6 empty_space) as [[v st']|] eqn:E.
  - apply (map_page_then_find 3221230132 2151677952 6 empty_space v st').
    + lia.
    + reflexivity.
    + exact empty_space_pool.
    + exact empty_space_tables.
    + exact E.
  - vm_compute in E. discriminate.
Defined.

(** On that space the walk fails before the call and finds the page
    after it. *)
Example map_page_sample :
  find_physical_page 3221230132 empty_space = Unset /\
  match map_page 3221230132 2151677952 6 empty_space with
  | Ret (v, st') =>
      v = 3221229568 /\
      find_physical_page 3221230132 st' = Walked 2150633472 /\
      load_pte st' (entry 2150633472 (VPN0 3221230132))
      = mkPte 199 525312 /\
      free_phys_page_count (free_chunk_list st') = 14
  | NullDeref => False
  end.
Proof. vm_compute. repeat split; reflexivity. Qed.

(** *** [set_pte_flags] *)

(** The permission bits [PTE_R | PTE_W | PTE_X | PTE_U | PTE_G] and the
    bits [PTE_V | PTE_A | PTE_D]. *)
Definition RWXUG : Z :=
  Z.lor (Z.lor (Z.lor (Z.lor PTE_R PTE_W) PTE_X) PTE_U) PTE_G.
Definition VAD : Z := Z.lor (Z.lor PTE_V PTE_A) PTE_D.

Lemma flags_replaced x f :
  Z.land f RWXUG = f ->
  let x' := Z.lor (Z.land x (Z.lnot RWXUG) mod 2 ^ 8) f mod 2 ^ 8 in
  Z.land x' RWXUG = f /\ Z.land x' VAD = Z.land x VAD.
Proof.
  intros Hf. cbv zeta.
  assert (Hbit : forall n, 0 <= n -> Z.testbit f n
                 = Z.testbit f n && Z.testbit RWXUG n)
    by (intros n Hn; rewrite <- Z.land_spec, Hf; reflexivity).
  assert (Hm : forall n, 0 <= n -> Z.testbit RWXUG n = true -> n < 8).
  { intros n Hn Ht. destruct (Z_lt_le_dec n 8) as [|Hge]; [assumption|].
    exfalso. change RWXUG with 62 in Ht.
    rewrite (Z.bits_above_log2 62 n) in Ht; [discriminate | lia |].
    change (Z.log2 62) with 5. lia. }
  assert (Hv : forall n, 0 <= n -> Z.testbit VAD n = true -> n < 8).
  { intros n Hn Ht. destruct (Z_lt_le_dec n 8) as [|Hge]; [assumption|].
    exfalso. change VAD with 193 in Ht.
    rewrite (Z.bits_above_log2 193 n) in Ht; [discriminate | lia |].
    change (Z.log2 193) with 7. lia. }
  assert (Hdis : forall n, 0 <= n ->
            Z.testbit VAD n && Z.testbit RWXUG n = false).
  { intros n Hn. rewrite <- Z.land_spec. change (Z.land VAD RWXUG) with 0.
    apply Z.bits_0. }
  split; apply Z.bits_inj'; intros n Hn; rewrite !Z.land_spec.
  - destruct (Z.testbit RWXUG n) eqn:Hr.
    + pose proof (Hm n Hn Hr).
      rewrite Z.mod_pow2_bits_low, Z.lor_spec by lia.
      rewrite Z.mod_pow2_bits_low, Z.land_spec, Z.lnot_spec, Hr by lia.
      cbn [negb]. rewrite andb_false_r, andb_true_r. reflexivity.
    + rewrite andb_false_r. rewrite (Hbit n Hn), Hr, andb_false_r.
      reflexivity.
  - destruct (Z.testbit VAD n) eqn:Hr.
    + pose proof (Hv n Hn Hr). specialize (Hdis n Hn). rewrite Hr in Hdis.
      cbn [andb] in Hdis.
      rewrite Z.mod_pow2_bits_low, Z.lor_spec by lia.
      rewrite Z.mod_pow2_bits_low, Z.land_spec, Z.lnot_spec, Hdis by lia.
      rewrite (Hbit n Hn), Hdis. cbn [negb].
      rewrite !andb_true_r, andb_false_r, orb_false_r. reflexivity.
    + rewrite !andb_false_r. reflexivity.
Qed.

(** X17.  On a page whose level-0 table the walk finds,
    [set_pte_flags(vma, flags)] replaces the permission bits R, W, X, U
    and G of the entry by [flags]; the frame number and the bits V, A
    and D stay, and so do all other entries and the free list. *)
Theorem set_pte_flags_replaces_permissions vma f st pt0 :
  find_physical_page vma st = Walked pt0 -> pt0 <> 0 ->
  Z.land f RWXUG = f ->
  exists st',
    set_pte_flags vma f st = Some st' /\
    let e := load_pte st (entry pt0 (VPN0 vma)) in
    let e' := load_pte st' (entry pt0 (VPN0 vma)) in
    ppn e' = ppn e /\
    Z.land (flags e') RWXUG = f /\
    Z.land (flags e') VAD = Z.land (flags e) VAD /\
    PTE_VALID e' = PTE_VALID e /\
    (forall b, b <> entry pt0 (VPN0 vma) -> load_pte st' b = load_pte st b) /\
    free_chunk_list st' = free_chunk_list st /\ satp st' = satp st.
Proof.
  intros Hfind Hnz Hf. unfold set_pte_flags. rewrite Hfind.
  destruct (Z.eqb_spec pt0 0) as [|_]; [contradiction|].
  cbv zeta. eexists. split; [reflexivity|].
  rewrite load_store_eq. cbn [ppn flags].
  destruct (flags_replaced (flags (load_pte st (entry pt0 (VPN0 vma)))) f Hf)
    as (Hperm & Hkeep).
  fold RWXUG.
  split; [reflexivity|]. split; [exact Hperm|]. split; [exact Hkeep|].
  split.
  - unfold PTE_VALID. cbn [flags].
    assert (Hbit : forall x, Z.land x PTE_V = Z.land (Z.land x VAD) PTE_V).
    { intros x. rewrite <- Z.land_assoc. reflexivity. }
    rewrite Hbit, Hkeep, <- Hbit. reflexivity.
  - split; [|split; reflexivity].
    intros b Hb. apply load_store_ne. congruence.
Qed.

(** The first user page mapped read, write and user to the frame at
    0x80400000, through tables at 0x80201000 and 0x80202000. *)
Definition one_page_space : mstate :=
  mkMstate [mkChunk 2150629376 16] (8 * 2 ^ 60 + 524800)
    (<[entry 2149580800 3 := ptab_pte 2149584896 0]>
       (<[entry 2149584896 0 := ptab_pte 2149588992 0]>
          (<[entry 2149588992 0 := leaf_pte 2151677952 22]> ∅))).

Lemma set_pte_flags_replaces_permissions_witness :
  exists st',
    set_pte_flags 3221225472 18 one_page_space = Some st' /\
    let e := load_pte one_page_space (entry 2149588992 (VPN0 3221225472)) in
    let e' := load_pte st' (entry 2149588992 (VPN0 3221225472)) in
    ppn e' = ppn e /\
    Z.land (flags e') RWXUG = 18 /\
    Z.land (flags e') VAD = Z.land (flags e) VAD /\
    PTE_VALID e' = PTE_VALID e /\
    (forall b, b <> entry 2149588992 (VPN0 3221225472) ->
               load_pte st' b = load_pte one_page_space b) /\
    free_chunk_list st' = free_chunk_list one_page_space /\
    satp st' = satp one_page_space.
Proof.
  apply (set_pte_flags_replaces_permissions 3221225472 18 one_page_space
           2149588992).
  - vm_compute. reflexivity.
  - discriminate.
  - reflexivity.
Defined.

End PageTableSpec.

(** ** ktfs.c: the block bitmap *)

Module KtfsBitmapSpec.
Import Ktfs KtfsCntlSpec.

(** Bit [n] of the bitmap: data block [n] is taken. *)
Definition taken (fs : file_setup) (n : Z) : bool :=
  Z.testbit (rd8 (disk fs) (KTFS_BLKSZ + n / 8)) (n mod 8).

Lemma first_clear_bit_above v n b :
  first_clear_bit v n = Some b ->
  forall c, b < c < Z.of_nat n -> bit_clear v c = false.
Proof.
  induction n as [|n IH]; cbn [first_clear_bit]; [discriminate|].
  fold (bit_clear v (Z.of_nat n)).
  destruct (bit_clear v (Z.of_nat n)) eqn:Hc.
  - intros [= <-] c Hlt. lia.
  - intros Hf c Hlt. destruct (Z.eq_dec c (Z.of_nat n)) as [-> | Hne];
      [exact Hc | apply IH; [exact Hf | lia]].
Qed.

Lemma first_clear_bit_full v n :
  first_clear_bit v n = None ->
  forall c, 0 <= c < Z.of_nat n -> bit_clear v c = false.
Proof.
  induction n as [|n IH]; cbn [first_clear_bit]; [intros _ c Hc; lia|].
  fold (bit_clear v (Z.of_nat n)).
  destruct (bit_clear v (Z.of_nat n)) eqn:Hc; [discriminate|].
  intros Hf c Hlt. destruct (Z.eq_dec c (Z.of_nat n)) as [-> | Hne];
    [exact Hc | apply IH; [exact Hf | lia]].
Qed.

Lemma scan_bytes_full d base n : forall byte,
  scan_bytes d base n byte = None ->
  forall y c, byte <= y < byte + Z.of_nat n -> 0 <= c < 8 ->
    bit_clear (rd8 d (base + y)) c = false.
Proof.
  induction n as [|n IH]; intros byte; cbn [scan_bytes]; [intros; lia|].
  destruct (first_clear_bit (rd8 d (base + byte)) 8) eqn:Hf; [discriminate|].
  intros Hs y c Hy Hc. destruct (Z.eq_dec y byte) as [-> | Hne].
  - apply (first_clear_bit_full _ _ Hf). cbn. lia.
  - apply (IH _ Hs); lia.
Qed.

Lemma scan_bytes_before d base n : forall byte y bit,
  scan_bytes d base n byte = Some (y, bit) ->
  (forall y' c, byte <= y' < y -> 0 <= c < 8 ->
     bit_clear (rd8 d (base + y')) c = false) /\
  (forall c, bit < c < 8 -> bit_clear (rd8 d (base + y)) c = false).
Proof.
  induction n as [|n IH]; intros byte y bit; cbn [scan_bytes]; [discriminate|].
  destruct (first_clear_bit (rd8 d (base + byte)) 8) eqn:Hf.
  - intros [= <- <-]. split; [intros; lia|].
    intros c Hc. apply (first_clear_bit_above _ _ _ Hf). cbn. lia.
  - intros Hs. destruct (IH _ _ _ Hs) as (Hbefore & Habove).
    split; [|exact Habove]. intros y' c Hy Hc.
    destruct (Z.eq_dec y' byte) as [-> | Hne].
    + apply (first_clear_bit_full _ _ Hf). cbn. lia.
    + apply Hbefore; lia.
Qed.

(** The scan passes only bytes that are full, and bits that are set. *)
Lemma scan_blocks_before d n : forall blk k y bit,
  0 <= blk ->
  scan_blocks d n blk = Some (k, y, bit) ->
  (forall q c, blk * KTFS_BLKSZ <= q < k * KTFS_BLKSZ + y -> 0 <= c < 8 ->
     bit_clear (rd8 d (KTFS_BLKSZ + q)) c = false) /\
  (forall c, bit < c < 8 ->
     bit_clear (rd8 d ((1 + k) * KTFS_BLKSZ + y)) c = false).
Proof.
  induction n as [|n IH]; intros blk k y bit Hblk; cbn [scan_blocks];
    [discriminate|].
  destruct (scan_bytes d ((1 + blk) * KTFS_BLKSZ) (Z.to_nat KTFS_BLKSZ) 0)
    as [[y' bit']|] eqn:Hs.
  - intros [= <- <- <-].
    destruct (scan_bytes_before _ _ _ _ _ _ Hs) as (Hbefore & Habove).
    split; [|exact Habove]. intros q c Hq Hc.
    replace (KTFS_BLKSZ + q)
      with ((1 + blk) * KTFS_BLKSZ + (q - blk * KTFS_BLKSZ)) by lia.
    apply Hbefore; lia.
  - intros Hr. pose proof (scan_blocks_some _ _ _ _ _ _ Hr) as (Hk & Hy & _).
    destruct (IH (blk + 1) _ _ _ ltac:(lia) Hr) as (Hbefore & Habove).
    split; [|exact Habove]. intros q c Hq Hc.
    destruct (Z_lt_le_dec q ((blk + 1) * KTFS_BLKSZ)) as [Hlo | Hhi].
    + replace (KTFS_BLKSZ + q)
        with ((1 + blk) * KTFS_BLKSZ + (q - blk * KTFS_BLKSZ)) by lia.
      apply (scan_bytes_full _ _ _ _ Hs); [blk_lia | exact Hc].
    + apply Hbefore; [lia | exact Hc].
Qed.

Lemma taken_clear fs n :
  0 <= n -> taken fs n = negb (bit_clear (rd8 (disk fs) (KTFS_BLKSZ + n / 8))
                                         (n mod 8)).
Proof.
  intros Hn. unfold taken. rewrite bit_clear_testbit, negb_involutive;
    [reflexivity|].
  apply Z.mod_pos_bound. lia.
Qed.

(** The block number of bit [bit] of byte [y] of bitmap block [k]. *)
Lemma bit_number k y bit :
  0 <= k -> 0 <= y < KTFS_BLKSZ -> 0 <= bit < 8 ->
  forall n, n = k * KTFS_BLKSZ * BYTE_SIZE + (y * BYTE_SIZE + bit) ->
  n / 8 = k * KTFS_BLKSZ + y /\ n mod 8 = bit /\
  KTFS_BLKSZ + n / 8 = (1 + k) * KTFS_BLKSZ + y.
Proof.
  unfold KTFS_BLKSZ, BYTE_SIZE. intros Hk Hy Hb n Hn.
  assert (En : n = bit + (k * 512 + y) * 8) by lia.
  assert (Hdiv : n / 8 = k * 512 + y).
  { rewrite En, Z.div_add by lia. rewrite Z.div_small; lia. }
  assert (Hmod : n mod 8 = bit).
  { rewrite En, Z.mod_add by lia. apply Z.mod_small. lia. }
  rewrite Hdiv. split; [reflexivity|]. split; [exact Hmod | lia].
Qed.

(** A bit other than bit [b] of a byte keeps its value when bit [b] is
    set or cleared. *)
Lemma testbit_set_other v b c :
  0 <= c < 8 -> 0 <= b -> c <> b ->
  Z.testbit (Z.lor v (Z.shiftl 1 b) mod 256) c = Z.testbit v c.
Proof.
  intros Hc Hb Hne. change 256 with (2 ^ 8).
  rewrite Z.mod_pow2_bits_low, Z.lor_spec, Z.shiftl_1_l by lia.
  rewrite Z.pow2_bits_false by lia. apply orb_false_r.
Qed.

Lemma testbit_set_same v b :
  0 <= b < 8 -> Z.testbit (Z.lor v (Z.shiftl 1 b) mod 256) b = true.
Proof.
  intros Hb. change 256 with (2 ^ 8).
  rewrite Z.mod_pow2_bits_low, Z.lor_spec, Z.shiftl_1_l by lia.
  rewrite Z.pow2_bits_true by lia. apply orb_true_r.
Qed.

Lemma testbit_clear_other v b c :
  0 <= c < 8 -> 0 <= b -> c <> b ->
  Z.testbit (Z.land v (Z.lnot (Z.shiftl 1 b)) mod 256) c = Z.testbit v c.
Proof.
  intros Hc Hb Hne. change 256 with (2 ^ 8).
  rewrite Z.mod_pow2_bits_low, Z.land_spec, Z.lnot_spec, Z.shiftl_1_l by lia.
  rewrite Z.pow2_bits_false by lia. apply andb_true_r.
Qed.

Lemma testbit_clear_same v b :
  0 <= b < 8 -> Z.testbit (Z.land v (Z.lnot (Z.shiftl 1 b)) mod 256) b = false.
Proof.
  intros Hb. change 256 with (2 ^ 8).
  rewrite Z.mod_pow2_bits_low, Z.land_spec, Z.lnot_spec, Z.shiftl_1_l by lia.
  rewrite Z.pow2_bits_true by lia. apply andb_false_r.
Qed.

(** Two block numbers with the same byte and the same bit are one. *)
Lemma same_bit n m : n / 8 = m / 8 -> n mod 8 = m mod 8 -> n = m.
Proof.
  intros Hd Hm. rewrite (Z.div_mod n 8), (Z.div_mod m 8) by lia. lia.
Qed.

(** A write to the byte of bit [n] that leaves the other bits of the
    byte alone leaves every other bit of the bitmap alone. *)
Lemma taken_other fs d' n :
  0 <= n ->
  (forall a, a <> KTFS_BLKSZ + n / 8 -> rd8 d' a = rd8 (disk fs) a) ->
  (forall c, 0 <= c < 8 -> c <> n mod 8 ->
     Z.testbit (rd8 d' (KTFS_BLKSZ + n / 8)) c
     = Z.testbit (rd8 (disk fs) (KTFS_BLKSZ + n / 8)) c) ->
  forall m, 0 <= m -> m <> n -> taken (set_disk fs d') m = taken fs m.
Proof.
  intros Hn Hout Hbits m Hm Hne. unfold taken. cbn [set_disk disk].
  destruct (Z.eq_dec (m / 8) (n / 8)) as [He | Hd].
  - rewrite He. apply Hbits; [apply Z.mod_pos_bound; lia|].
    intros Hmod. apply Hne. apply same_bit; assumption.
  - rewrite Hout by lia. reflexivity.
Qed.

(** What [allocate_open_block] does, on the bytes of the bitmap. *)
Lemma allocate_open_block_shape fs n fs1 :
  wf_fs fs -> allocate_open_block fs = (n, fs1) ->
  (n = NO_BLOCK /\ fs1 = fs /\ free_blocks fs = 0) \/
  (0 <= n < KTFS_BLKSZ * BYTE_SIZE * bitmap_block_count (super_blk fs) /\
   bit_clear (rd8 (disk fs) (KTFS_BLKSZ + n / 8)) (n mod 8) = true /\
   fs1 = set_disk fs
           (wr8 (disk fs) (KTFS_BLKSZ + n / 8)
                (Z.lor (rd8 (disk fs) (KTFS_BLKSZ + n / 8))
                       (Z.shiftl 1 (n mod 8)))) /\
   free_blocks fs1 = free_blocks fs - 1 /\
   (forall q c, 0 <= q < n / 8 -> 0 <= c < 8 ->
      bit_clear (rd8 (disk fs) (KTFS_BLKSZ + q)) c = false) /\
   (forall c, n mod 8 < c < 8 ->
      bit_clear (rd8 (disk fs) (KTFS_BLKSZ + n / 8)) c = false)).
Proof.
  intros (HB & HI & Hd) Hrun. unfold allocate_open_block in Hrun.
  destruct (scan_blocks (disk fs)
              (Z.to_nat (bitmap_block_count (super_blk fs))) 0)
    as [[[blk byte] bit]|] eqn:Hs.
  - right.
    pose proof (scan_blocks_some _ _ _ _ _ _ Hs) as (Hblk & Hbyte & Hbit & Hc).
    rewrite Z2Nat.id in Hblk by lia.
    destruct (scan_blocks_before _ _ 0 _ _ _ ltac:(lia) Hs)
      as (Hbefore & Habove).
    set (n0 := blk * KTFS_BLKSZ * BYTE_SIZE + (byte * BYTE_SIZE + bit)) in *.
    destruct (bit_number blk byte bit ltac:(lia) Hbyte Hbit n0 eq_refl)
      as (Hdiv & Hmod & Haddr).
    assert (Hn0 : 0 <= n0 < 2 ^ 31)
      by (subst n0; unfold KTFS_BLKSZ, BYTE_SIZE in *; lia).
    assert (En : wrap64 (to_int n0) = n0).
    { unfold to_int, wrap64. rewrite (Z.mod_small (_ + 2 ^ 31)) by lia.
      rewrite Z.mod_small by lia. lia. }
    rewrite En in Hrun. injection Hrun as <- <-.
    rewrite <- Haddr in *. rewrite Hmod.
    split; [subst n0; unfold KTFS_BLKSZ, BYTE_SIZE in *; lia|].
    split; [exact Hc|]. split; [reflexivity|].
    split.
    { unfold free_blocks. cbn [set_disk disk super_blk]. rewrite Haddr.
      apply free_in_blocks_set; try assumption.
      - rewrite Z2Nat.id by lia. lia.
      - rewrite <- Haddr. exact Hc. }
    split; [|exact Habove].
    intros q c Hq Hc8. apply Hbefore; [lia | exact Hc8].
  - left. injection Hrun as <- <-.
    apply scan_blocks_none in Hs. auto.
Qed.

(** X18.  [allocate_open_block] returns [-ENODATABLKS] and changes
    nothing when the bitmap has no clear bit.  Otherwise it returns the
    number [n] of a block that was free and is taken afterwards; no
    other bit of the bitmap and no other byte of the disk changes, and
    one block fewer is free.  The block is the first free one in the
    order of the scan: every block of a lower byte of the bitmap was
    taken, and so was every higher bit of the same byte. *)
Theorem allocate_open_block_first_free fs n fs1 :
  wf_fs fs -> allocate_open_block fs = (n, fs1) ->
  (n = NO_BLOCK /\ fs1 = fs /\ free_blocks fs = 0) \/
  (0 <= n < KTFS_BLKSZ * BYTE_SIZE * bitmap_block_count (super_blk fs) /\
   taken fs n = false /\ taken fs1 n = true /\
   (forall m, 0 <= m -> m <> n -> taken fs1 m = taken fs m) /\
   (forall a, a <> KTFS_BLKSZ + n / 8 ->
              rd8 (disk fs1) a = rd8 (disk fs) a) /\
   free_blocks fs1 = free_blocks fs - 1 /\
   (forall m, 0 <= m < 8 * (n / 8) \/ n < m < 8 * (n / 8) + 8 ->
              taken fs m = true)).
Proof.
  intros Hwf Hrun.
  destruct (allocate_open_block_shape fs n fs1 Hwf Hrun)
    as [Hfull | (Hn & Hc & -> & Hcount & Hbefore & Habove)];
    [left; exact Hfull | right].
  assert (Hbit : 0 <= n mod 8 < 8) by (apply Z.mod_pos_bound; lia).
  split; [exact Hn|].
  split; [rewrite taken_clear by lia; rewrite Hc; reflexivity|].
  split.
  { unfold taken. cbn [set_disk disk]. rewrite rd8_wr8_eq.
    apply testbit_set_same. exact Hbit. }
  split.
  { apply taken_other; [lia | |].
    - intros a Ha. apply rd8_wr8_ne. congruence.
    - intros c Hc8 Hcn. rewrite rd8_wr8_eq.
      apply testbit_set_other; lia. }
  split; [intros a Ha; cbn [set_disk disk]; apply rd8_wr8_ne; congruence|].
  split; [exact Hcount|].
  intros m Hm.
  assert (Hm0 : 0 <= m) by (destruct Hm; [lia|]; lia).
  rewrite taken_clear by exact Hm0.
  assert (Hmm : 0 <= m mod 8 < 8) by (apply Z.mod_pos_bound; lia).
  pose proof (Z.div_mod n 8 ltac:(lia)) as Hn8.
  destruct Hm as [Hlow | Hhigh].
  - rewrite Hbefore; [reflexivity | | exact Hmm].
    split; [apply Z.div_pos; lia | apply Z.div_lt_upper_bound; lia].
  - assert (Hmd : m / 8 = n / 8).
    { symmetry. apply (Z.div_unique m 8 (n / 8) (m - 8 * (n / 8))); lia. }
    assert (Hmb : m mod 8 = m - 8 * (n / 8)).
    { symmetry. apply (Z.mod_unique m 8 (n / 8)); lia. }
    rewrite Hmd, Habove; [reflexivity|]. lia.
Qed.

(** A bitmap of one block whose first byte has bits 7 to 4 set. *)
Definition part_used_fs : file_setup :=
  mkSetup (mkSuper 1 1 0) (mkInode 0 [0; 0; 0; 0] 0 [0; 0])
          (<[512 := 240]> ∅) ∅ 0.

Lemma part_used_fs_wf : wf_fs part_used_fs.
Proof.
  split; [cbn; lia|]. split; [cbn; lia|].
  intros a. unfold rd8. cbn [disk part_used_fs].
  destruct (Z.eq_dec a 512) as [-> | Hne].
  - rewrite lookup_insert_eq. cbn. lia.
  - rewrite lookup_insert_ne, lookup_empty by congruence. cbn. lia.
Defined.

Lemma allocate_open_block_first_free_witness :
  let '(n, fs1) := allocate_open_block part_used_fs in
  (n = NO_BLOCK /\ fs1 = part_used_fs /\ free_blocks part_used_fs = 0) \/
  (0 <= n < KTFS_BLKSZ * BYTE_SIZE
            * bitmap_block_count (super_blk part_used_fs) /\
   taken part_used_fs n = false /\ taken fs1 n = true /\
   (forall m, 0 <= m -> m <> n -> taken fs1 m = taken part_used_fs m) /\
   (forall a, a <> KTFS_BLKSZ + n / 8 ->
              rd8 (disk fs1) a = rd8 (disk part_used_fs) a) /\
   free_blocks fs1 = free_blocks part_used_fs - 1 /\
   (forall m, 0 <= m < 8 * (n / 8) \/ n < m < 8 * (n / 8) + 8 ->
              taken part_used_fs m = true)).
Proof.
  destruct (allocate_open_block part_used_fs) as [n fs1] eqn:E.
  apply (allocate_open_block_first_free part_used_fs n fs1).
  - exact part_used_fs_wf.
  - exact E.
Defined.

(** On that bitmap the block handed out is block 3. *)
Example allocate_open_block_sample :
  fst (allocate_open_block part_used_fs) = 3 /\
  rd8 (disk (snd (allocate_open_block part_used_fs))) 512 = 248.
Proof. vm_compute. split; reflexivity. Qed.

(** *** [free_block] *)

(** The byte [free_block] changes, for a block number that is not
    negative. *)
Lemma free_block_byte fs n :
  0 <= n < 2 ^ 31 ->
  free_block n fs =
  set_disk fs
    (wr8 (disk fs) (KTFS_BLKSZ + n / 8)
         (Z.land (rd8 (disk fs) (KTFS_BLKSZ + n / 8))
                 (Z.lnot (Z.shiftl 1 (n mod 8))))).
Proof.
  intros Hn. unfold free_block. cbv zeta.
  unfold KTFS_BLKSZ, BYTE_SIZE. change (512 * 8) with 4096.
  rewrite Z.quot_div_nonneg, Z.rem_mod_nonneg by lia.
  pose proof (Z.div_mod n 4096 ltac:(lia)) as Hq.
  pose proof (Z.mod_pos_bound n 4096 ltac:(lia)) as Hr.
  assert (Hqb : 0 <= n / 4096 < 2 ^ 19).
  { split; [apply Z.div_pos; lia | apply Z.div_lt_upper_bound; lia]. }
  unfold wrap32. rewrite !Z.mod_small by lia.
  assert (Hd : n / 8 = 512 * (n / 4096) + n mod 4096 / 8).
  { rewrite Hq at 1.
    replace (4096 * (n / 4096) + n mod 4096)
      with (n mod 4096 + 512 * (n / 4096) * 8) by lia.
    rewrite Z.div_add by lia. lia. }
  assert (Hm : n mod 4096 mod 8 = n mod 8).
  { rewrite Hq at 2.
    replace (4096 * (n / 4096) + n mod 4096)
      with (n mod 4096 + 512 * (n / 4096) * 8) by lia.
    rewrite Z.mod_add by lia. reflexivity. }
  rewrite Hm.
  replace ((1 + n / 4096) * 512 + n mod 4096 / 8) with (512 + n / 8) by lia.
  reflexivity.
Qed.

(** X19.  [free_block(n)] for a block number that is not negative
    clears bit [n] of the bitmap and nothing else: every other bit and
    every other byte of the disk stay as they are.  The number is not
    checked against the size of the bitmap. *)
Theorem free_block_clears_bit fs n :
  0 <= n < 2 ^ 31 ->
  taken (free_block n fs) n = false /\
  (forall m, 0 <= m -> m <> n -> taken (free_block n fs) m = taken fs m) /\
  (forall a, a <> KTFS_BLKSZ + n / 8 ->
             rd8 (disk (free_block n fs)) a = rd8 (disk fs) a) /\
  super_blk (free_block n fs) = super_blk fs.
Proof.
  intros Hn. rewrite free_block_byte by exact Hn.
  assert (Hb : 0 <= n mod 8 < 8) by (apply Z.mod_pos_bound; lia).
  split.
  { unfold taken. cbn [set_disk disk]. rewrite rd8_wr8_eq.
    apply testbit_clear_same. exact Hb. }
  split.
  { apply taken_other; [lia | |].
    - intros a Ha. apply rd8_wr8_ne. congruence.
    - intros c Hc Hcn. rewrite rd8_wr8_eq.
      apply testbit_clear_other; lia. }
  split; [|reflexivity].
  intros a Ha. cbn [set_disk disk]. apply rd8_wr8_ne. congruence.
Qed.

Lemma free_block_clears_bit_witness :
  taken (free_block 5 part_used_fs) 5 = false /\
  (forall m, 0 <= m -> m <> 5 ->
     taken (free_block 5 part_used_fs) m = taken part_used_fs m) /\
  (forall a, a <> KTFS_BLKSZ + 5 / 8 ->
     rd8 (disk (free_block 5 part_used_fs)) a = rd8 (disk part_used_fs) a) /\
  super_blk (free_block 5 part_used_fs) = super_blk part_used_fs.
Proof. apply (free_block_clears_bit part_used_fs 5). lia. Defined.

(** A byte with bit [b] clear is itself again after the bit is set and
    cleared. *)
Lemma set_then_clear v b :
  0 <= v < 256 -> 0 <= b < 8 -> Z.testbit v b = false ->
  Z.land (Z.lor v (Z.shiftl 1 b) mod 256) (Z.lnot (Z.shiftl 1 b)) mod 256 = v.
Proof.
  intros Hv Hb Hc. apply Z.bits_inj'. intros c Hc0.
  destruct (Z_lt_le_dec c 8) as [Hlt | Hge].
  - destruct (Z.eq_dec c b) as [-> | Hne].
    + rewrite testbit_clear_same by lia. symmetry. exact Hc.
    + rewrite testbit_clear_other, testbit_set_other by lia. reflexivity.
  - change 256 with (2 ^ 8). rewrite Z.mod_pow2_bits_high by lia.
    symmetry. destruct (Z.eq_dec v 0) as [-> | Hnz]; [apply Z.bits_0|].
    apply Z.bits_above_log2; [lia|].
    assert (Z.log2 v < 8) by (apply Z.log2_lt_pow2; lia). lia.
Qed.

(** X20.  A block taken with [allocate_open_block] and given back with
    [free_block] leaves the disk as it was, byte for byte, and as many
    blocks free as before. *)
Theorem allocate_then_free_restores fs n fs1 :
  wf_fs fs -> allocate_open_block fs = (n, fs1) -> n <> NO_BLOCK ->
  (forall a, rd8 (disk (free_block n fs1)) a = rd8 (disk fs) a) /\
  free_blocks (free_block n fs1) = free_blocks fs.
Proof.
  intros Hwf Hrun Hsome.
  destruct (allocate_open_block_shape fs n fs1 Hwf Hrun)
    as [(Hno & _) | (Hn & Hc & -> & _)]; [contradiction|].
  destruct Hwf as (HB & HI & Hd).
  assert (Hn31 : 0 <= n < 2 ^ 31)
    by (unfold KTFS_BLKSZ, BYTE_SIZE in Hn; lia).
  assert (Hbit : 0 <= n mod 8 < 8) by (apply Z.mod_pos_bound; lia).
  rewrite free_block_byte by exact Hn31. cbn [set_disk disk].
  rewrite rd8_wr8_eq.
  assert (Hrd : forall a,
            rd8 (wr8 (wr8 (disk fs) (KTFS_BLKSZ + n / 8)
                          (Z.lor (rd8 (disk fs) (KTFS_BLKSZ + n / 8))
                                 (Z.shiftl 1 (n mod 8))))
                     (KTFS_BLKSZ + n / 8)
                     (Z.land
                        (Z.lor (rd8 (disk fs) (KTFS_BLKSZ + n / 8))
                               (Z.shiftl 1 (n mod 8)) mod 256)
                        (Z.lnot (Z.shiftl 1 (n mod 8))))) a
            = rd8 (disk fs) a).
  { intros a. destruct (Z.eq_dec a (KTFS_BLKSZ + n / 8)) as [-> | Hne].
    - rewrite rd8_wr8_eq. apply set_then_clear; [apply Hd | exact Hbit|].
      rewrite bit_clear_testbit in Hc by lia.
      destruct (Z.testbit _ _); [discriminate | reflexivity].
    - rewrite !rd8_wr8_ne by congruence. reflexivity. }
  split; [exact Hrd|].
  unfold free_blocks. cbn [set_disk disk super_blk].
  apply free_in_blocks_ext. intros x _. apply Hrd.
Qed.

Lemma allocate_then_free_restores_witness :
  let '(n, fs1) := allocate_open_block part_used_fs in
  (forall a, rd8 (disk (free_block n fs1)) a = rd8 (disk part_used_fs) a) /\
  free_blocks (free_block n fs1) = free_blocks part_used_fs.
Proof.
  destruct (allocate_open_block part_used_fs) as [n fs1] eqn:E.
  apply (allocate_then_free_restores part_used_fs n fs1).
  - exact part_used_fs_wf.
  - exact E.
  - vm_compute in E. injection E as <- _. discriminate.
Defined.

(** X21.  Two calls of [allocate_open_block] in a row that both find a
    block return different blocks, and both were free before the first
    call. *)
Theorem allocate_twice_distinct fs n1 fs1 n2 fs2 :
  wf_fs fs ->
  allocate_open_block fs = (n1, fs1) -> n1 <> NO_BLOCK ->
  allocate_open_block fs1 = (n2, fs2) -> n2 <> NO_BLOCK ->
  n1 <> n2 /\ taken fs n1 = false /\ taken fs n2 = false /\
  taken fs2 n1 = true /\ taken fs2 n2 = true /\
  free_blocks fs2 = free_blocks fs - 2.
Proof.
  intros Hwf Hrun1 Hsome1 Hrun2 Hsome2.
  destruct (allocate_open_block_shape fs n1 fs1 Hwf Hrun1)
    as [(Hno & _) | (Hn1 & Hc1 & E1 & Hcount1 & _)]; [contradiction|].
  assert (Hwf1 : wf_fs fs1).
  { destruct Hwf as (HB & HI & Hd). subst fs1.
    split; [exact HB|]. split; [exact HI|]. apply bytes_ok_wr8, Hd. }
  destruct (allocate_open_block_shape fs1 n2 fs2 Hwf1 Hrun2)
    as [(Hno & _) | (Hn2 & Hc2 & E2 & Hcount2 & _)]; [contradiction|].
  assert (Hb1 : 0 <= n1 mod 8 < 8) by (apply Z.mod_pos_bound; lia).
  assert (Hb2 : 0 <= n2 mod 8 < 8) by (apply Z.mod_pos_bound; lia).
  assert (T1 : taken fs1 n1 = true).
  { subst fs1. unfold taken. cbn [set_disk disk]. rewrite rd8_wr8_eq.
    apply testbit_set_same. exact Hb1. }
  assert (F2 : taken fs1 n2 = false)
    by (rewrite taken_clear by lia; rewrite Hc2; reflexivity).
  assert (Hne : n1 <> n2) by (intros ->; congruence).
  assert (Hother1 : forall m, 0 <= m -> m <> n1 -> taken fs1 m = taken fs m).
  { subst fs1. apply taken_other; [lia | |].
    - intros a Ha. apply rd8_wr8_ne. congruence.
    - intros c Hc8 Hcn. rewrite rd8_wr8_eq. apply testbit_set_other; lia. }
  assert (Hother2 : forall m, 0 <= m -> m <> n2 -> taken fs2 m = taken fs1 m).
  { rewrite E2. apply taken_other; [lia | |].
    - intros a Ha. apply rd8_wr8_ne. congruence.
    - intros c Hc8 Hcn. rewrite rd8_wr8_eq. apply testbit_set_other; lia. }
  split; [exact Hne|].
  split; [rewrite taken_clear by lia; rewrite Hc1; reflexivity|].
  split; [rewrite <- Hother1 by (lia || congruence); exact F2|].
  split; [rewrite Hother2 by (lia || congruence); exact T1|].
  split; [|lia].
  rewrite E2. unfold taken. cbn [set_disk disk]. rewrite rd8_wr8_eq.
  apply testbit_set_same. exact Hb2.
Qed.

Lemma allocate_twice_distinct_witness :
  let '(n1, fs1) := allocate_open_block part_used_fs in
  let '(n2, fs2) := allocate_open_block fs1 in
  n1 <> n2 /\ taken part_used_fs n1 = false /\
  taken part_used_fs n2 = false /\
  taken fs2 n1 = true /\ taken fs2 n2 = true /\
  free_blocks fs2 = free_blocks part_used_fs - 2.
Proof.
  destruct (allocate_open_block part_used_fs) as [n1 fs1] eqn:E1.
  destruct (allocate_open_block fs1) as [n2 fs2] eqn:E2.
  apply (allocate_twice_distinct part_used_fs n1 fs1 n2 fs2).
  - exact part_used_fs_wf.
  - exact E1.
  - vm_compute in E1. injection E1 as <- _. discriminate.
  - exact E2.
  - vm_compute in E1. injection E1 as <- <-.
    vm_compute in E2. injection E2 as <- _. discriminate.
Defined.

End KtfsBitmapSpec.

(** ** ktfs.c: reading and writing a file *)

Module KtfsFileSpec.
Import Ktfs KtfsFile KtfsCntlSpec.

(** Byte [k] of the file: the byte at offset [k mod KTFS_BLKSZ] of the
    block [blocknum] gives for index [k / KTFS_BLKSZ]. *)
Definition file_byte (fio : ktfs_file) (fs : file_setup) (k : Z) : Z :=
  match blocknum fio (k / KTFS_BLKSZ) fs with
  | Ok b => rd8 (disk fs) (b * KTFS_BLKSZ + k mod KTFS_BLKSZ)
  | _ => 0
  end.

(** The [n] bytes of the file from byte [k] on. *)
Fixpoint file_bytes (fio : ktfs_file) (fs : file_setup) (k : Z) (n : nat)
    : list Z :=
  match n with
  | O => []
  | S n' => file_byte fio fs k :: file_bytes fio fs (k + 1) n'
  end.

(** Every block of the bytes [lo .. hi - 1] of the file has a block
    number, and one that the [int] arithmetic of the code holds. *)
Definition blocks_mapped (fio : ktfs_file) (fs : file_setup) (lo hi : Z)
    : Prop :=
  forall idx, lo / KTFS_BLKSZ <= idx <= (hi - 1) / KTFS_BLKSZ ->
    exists b, blocknum fio idx fs = Ok b /\ 0 <= b < 2 ^ 22.

Lemma file_bytes_app fio fs a : forall k b,
  file_bytes fio fs k (a + b)
  = file_bytes fio fs k a ++ file_bytes fio fs (k + Z.of_nat a) b.
Proof.
  induction a as [|a IH]; intros k b; cbn [file_bytes Nat.add app].
  - rewrite Z.add_0_r. reflexivity.
  - rewrite IH. do 3 f_equal. lia.
Qed.

Lemma file_bytes_length fio fs n : forall k,
  length (file_bytes fio fs k n) = n.
Proof. induction n as [|n IH]; intros k; cbn; [reflexivity|]. rewrite IH. reflexivity. Qed.

Lemma block_pos_small b : 0 <= b < 2 ^ 22 -> block_pos b = b * KTFS_BLKSZ.
Proof.
  intros Hb. unfold block_pos, KTFS_BLKSZ.
  rewrite to_int_id by lia. apply wrap64_id. lia.
Qed.

(** The bytes of the file within one block are bytes of that block. *)
Lemma file_bytes_block fio fs b n : forall k,
  0 <= k -> blocknum fio (k / KTFS_BLKSZ) fs = Ok b -> 0 <= b < 2 ^ 22 ->
  k mod KTFS_BLKSZ + Z.of_nat n <= KTFS_BLKSZ ->
  file_bytes fio fs k n
  = read_bytes (disk fs) (block_pos b + k mod KTFS_BLKSZ) n.
Proof.
  induction n as [|n IH]; intros k Hk Hb Hr Hfit; cbn [file_bytes read_bytes];
    [reflexivity|].
  rewrite block_pos_small in * by exact Hr.
  unfold file_byte at 1. rewrite Hb. f_equal.
  destruct n as [|n]; [reflexivity|].
  pose proof (Z.div_mod k 512 ltac:(lia)) as Hdm.
  pose proof (Z.mod_pos_bound k 512 ltac:(lia)) as Hmb.
  unfold KTFS_BLKSZ in *.
  assert (Hq : (k + 1) / 512 = k / 512).
  { symmetry. apply (Z.div_unique (k + 1) 512 (k / 512) (k mod 512 + 1)); lia. }
  assert (Hm : (k + 1) mod 512 = k mod 512 + 1).
  { symmetry. apply (Z.mod_unique (k + 1) 512 (k / 512)); lia. }
  rewrite IH.
  - rewrite Hm. f_equal. lia.
  - lia.
  - rewrite Hq. exact Hb.
  - exact Hr.
  - rewrite Hm. lia.
Qed.

(** One round of the loops takes the rest of the block or, in the last
    block, the rest of the range. *)
Lemma round_bytes_min curr end_ :
  0 <= curr < end_ -> end_ < 2 ^ 63 ->
  round_bytes curr end_
  = Z.min (KTFS_BLKSZ - curr mod KTFS_BLKSZ) (end_ - curr).
Proof.
  intros Hc He. unfold round_bytes, KTFS_BLKSZ. cbv zeta.
  pose proof (Z.mod_pos_bound curr 512 ltac:(lia)) as Hmb.
  rewrite (to_int_id (512 - curr mod 512)) by lia.
  rewrite wrap64_id by lia.
  destruct (Z.leb_spec end_ (curr + (512 - curr mod 512))).
  - rewrite to_int_id by lia. lia.
  - lia.
Qed.

(** The blocks the loop still has to go through. *)
Definition blocks_left (curr end_ : Z) : Z :=
  if curr <? end_ then (end_ - 1) / KTFS_BLKSZ - curr / KTFS_BLKSZ + 1 else 0.

Lemma blocks_left_step curr end_ :
  0 <= curr < end_ ->
  let k := Z.min (KTFS_BLKSZ - curr mod KTFS_BLKSZ) (end_ - curr) in
  1 <= k <= KTFS_BLKSZ /\ curr mod KTFS_BLKSZ + k <= KTFS_BLKSZ /\
  blocks_left (curr + k) end_ <= blocks_left curr end_ - 1 /\
  1 <= blocks_left curr end_.
Proof.
  intros Hc. cbv zeta. unfold blocks_left, KTFS_BLKSZ.
  pose proof (Z.div_mod curr 512 ltac:(lia)) as Hdm.
  pose proof (Z.mod_pos_bound curr 512 ltac:(lia)) as Hmb.
  assert (Hle : curr / 512 <= (end_ - 1) / 512)
    by (apply Z.div_le_mono; lia).
  destruct (Z.ltb_spec curr end_); [|lia].
  split; [lia|]. split; [lia|]. split; [|lia].
  destruct (Z.ltb_spec (curr + Z.min (512 - curr mod 512) (end_ - curr)) end_);
    [|lia].
  assert (Ek : Z.min (512 - curr mod 512) (end_ - curr) = 512 - curr mod 512)
    by lia.
  rewrite Ek.
  replace (curr + (512 - curr mod 512)) with ((curr / 512 + 1) * 512) by lia.
  rewrite Z.div_mul by lia. lia.
Qed.

Lemma blocks_mapped_later fio fs lo lo' hi :
  0 <= lo <= lo' -> blocks_mapped fio fs lo hi -> blocks_mapped fio fs lo' hi.
Proof.
  intros Hlo Hm idx Hidx. apply Hm. split; [|lia].
  apply Z.le_trans with (lo' / KTFS_BLKSZ); [|lia].
  apply Z.div_le_mono; unfold KTFS_BLKSZ; lia.
Qed.

(** The loop of [ktfs_readat]. *)
Lemma read_loop_spec fio fs end_ : forall fuel curr bytesread buf,
  0 <= curr <= end_ -> end_ < 2 ^ 63 ->
  0 <= bytesread -> bytesread + (end_ - curr) < 2 ^ 63 ->
  blocks_mapped fio fs curr end_ ->
  blocks_left curr end_ <= Z.of_nat fuel ->
  read_loop fuel fio fs curr end_ bytesread buf
  = Ok (bytesread + (end_ - curr),
        buf ++ file_bytes fio fs curr (Z.to_nat (end_ - curr))).
Proof.
  induction fuel as [|fuel IH]; intros curr bytesread buf Hc He Hb Hsum Hm Hf.
  - assert (Heq : curr = end_).
    { unfold blocks_left in Hf. destruct (Z.ltb_spec curr end_); [|lia].
      destruct (blocks_left_step curr end_ ltac:(lia)) as (_ & _ & _ & H1).
      unfold blocks_left in H1. destruct (Z.ltb_spec curr end_); lia. }
    subst curr. cbn [read_loop]. rewrite Z.ltb_irrefl, Z.sub_diag.
    cbn [Z.to_nat file_bytes]. rewrite app_nil_r, Z.add_0_r. reflexivity.
  - cbn [read_loop]. destruct (Z.ltb_spec curr end_) as [Hlt | Hge].
    2:{ replace (end_ - curr) with 0 by lia. cbn [Z.to_nat file_bytes].
        rewrite app_nil_r, Z.add_0_r. reflexivity. }
    destruct (Hm (curr / KTFS_BLKSZ)) as (b & Hbn & Hbr).
    { split; [lia|]. apply Z.div_le_mono; unfold KTFS_BLKSZ; lia. }
    rewrite Hbn. cbn [bind].
    destruct (Z.eqb_spec b (-1)) as [|_]; [lia|].
    rewrite round_bytes_min by lia.
    destruct (blocks_left_step curr end_ ltac:(lia)) as (Hk & Hfit & Hleft & _).
    cbv zeta in Hk, Hfit, Hleft.
    set (k := Z.min (KTFS_BLKSZ - curr mod KTFS_BLKSZ) (end_ - curr)) in *.
    assert (Hk2 : k <= end_ - curr) by (subst k; lia).
    unfold KTFS_BLKSZ in Hk.
    rewrite wrap64_id by lia.
    rewrite SeekioSpec.to_long_small by lia.
    rewrite IH; try lia.
    + f_equal. f_equal; [lia|]. rewrite <- app_assoc. f_equal.
      rewrite <- (file_bytes_block fio fs b) by (lia || assumption || (rewrite Z2Nat.id by lia; exact Hfit)).
      replace (Z.to_nat (end_ - curr))
        with (Z.to_nat k + Z.to_nat (end_ - (curr + k)))%nat by lia.
      rewrite file_bytes_app, Z2Nat.id by lia. reflexivity.
    + apply (blocks_mapped_later fio fs curr); [lia | exact Hm].
Qed.

(** [ktfs_readat] within the file. *)
Lemma ktfs_readat_in_range fio pos len fs :
  u32 (size (file_inode fio)) -> 0 <= pos < 2 ^ 62 -> 0 < len < 2 ^ 62 ->
  pos < size (file_inode fio) ->
  blocks_mapped fio fs pos (pos + Z.min len (size (file_inode fio) - pos)) ->
  ktfs_readat true fio pos false len fs
  = Ok (Z.min len (size (file_inode fio) - pos),
        file_bytes fio fs pos
          (Z.to_nat (Z.min len (size (file_inode fio) - pos)))).
Proof.
  intros Hsz Hpos Hlen Hin Hm. unfold u32 in Hsz.
  unfold ktfs_readat. cbn [negb].
  destruct (Z.ltb_spec len 0) as [|_]; [lia|].
  destruct (Z.eqb_spec len 0) as [|_]; [lia|].
  destruct (Z.eqb_spec (size (file_inode fio)) 0) as [|_]; [lia|].
  destruct (Z.leb_spec (size (file_inode fio)) pos) as [|_]; [lia|].
  rewrite (wrap64_id (pos + len)) by lia.
  set (n := Z.min len (size (file_inode fio) - pos)) in *.
  assert (En : (if size (file_inode fio) <? pos + len
                then to_long (size (file_inode fio) - pos) else len) = n).
  { destruct (Z.ltb_spec (size (file_inode fio)) (pos + len)).
    - rewrite SeekioSpec.to_long_small by lia. subst n. lia.
    - subst n. lia. }
  rewrite En. assert (Hn : 0 < n < 2 ^ 62) by (subst n; lia).
  rewrite wrap64_id by lia.
  rewrite read_loop_spec; try lia.
  - cbn [app]. do 3 f_equal; lia.
  - exact Hm.
  - unfold blocks_left, KTFS_BLKSZ.
    destruct (Z.ltb_spec pos (pos + n)); [|lia].
    pose proof (Z.div_mod pos 512 ltac:(lia)).
    pose proof (Z.mod_pos_bound pos 512 ltac:(lia)).
    pose proof (Z.div_mod n 512 ltac:(lia)).
    pose proof (Z.mod_pos_bound n 512 ltac:(lia)).
    assert (0 <= n / 512) by (apply Z.div_pos; lia).
    assert ((pos + n - 1) / 512 < pos / 512 + n / 512 + 2)
      by (apply Z.div_lt_upper_bound; lia).
    lia.
Qed.

(** X22.  [ktfs_readat] on an open file, with a buffer and a positive
    [len]: an empty file gives 0; a position at or behind the end of a
    file that is not empty gives [-EINVAL], not 0; and otherwise the
    call stores the bytes of the file from [pos] on, as many as [len]
    asks for but none behind the end of the file, and returns their
    number. *)
Theorem ktfs_readat_spec fio pos len fs :
  u32 (size (file_inode fio)) -> 0 <= pos < 2 ^ 62 -> 0 < len < 2 ^ 62 ->
  let sz := size (file_inode fio) in
  (sz = 0 -> ktfs_readat true fio pos false len fs = Ok (0, [])) /\
  (0 < sz <= pos ->
   ktfs_readat true fio pos false len fs = Ok (- EINVAL, [])) /\
  (pos < sz ->
   let n := Z.min len (sz - pos) in
   blocks_mapped fio fs pos (pos + n) ->
   ktfs_readat true fio pos false len fs
   = Ok (n, file_bytes fio fs pos (Z.to_nat n))).
Proof.
  intros Hsz Hpos Hlen. cbv zeta.
  split; [|split].
  - intros Hz. unfold ktfs_readat. cbn [negb]. rewrite Hz.
    destruct (Z.ltb_spec len 0) as [|_]; [lia|].
    destruct (Z.eqb_spec len 0) as [|_]; [lia | reflexivity].
  - intros Hbehind. unfold ktfs_readat. cbn [negb].
    destruct (Z.ltb_spec len 0) as [|_]; [lia|].
    destruct (Z.eqb_spec len 0) as [|_]; [lia|].
    destruct (Z.eqb_spec (size (file_inode fio)) 0) as [|_]; [lia|].
    destruct (Z.leb_spec (size (file_inode fio)) pos); [reflexivity | lia].
  - intros Hin Hm. apply ktfs_readat_in_range; assumption.
Qed.

(** *** [ktfs_writeat] *)

(** The address on the disk of byte [k] of the file. *)
Definition file_addr (fio : ktfs_file) (fs : file_setup) (k : Z) : Z :=
  match blocknum fio (k / KTFS_BLKSZ) fs with
  | Ok b => b * KTFS_BLKSZ + k mod KTFS_BLKSZ
  | _ => 0
  end.

(** The block indices of the bytes [lo .. hi - 1] of a file. *)
Definition in_range (lo hi idx : Z) : Prop :=
  lo / KTFS_BLKSZ <= idx <= (hi - 1) / KTFS_BLKSZ.

(** The address [a] lies in a data block of the bytes [lo .. hi - 1]. *)
Definition in_data (fio : ktfs_file) (fs : file_setup) (lo hi a : Z) : Prop :=
  exists idx b, in_range lo hi idx /\ blocknum fio idx fs = Ok b /\
    b * KTFS_BLKSZ <= a < b * KTFS_BLKSZ + KTFS_BLKSZ.

(** The blocks of the bytes [lo .. hi - 1] are blocks of their own, and
    none of them holds a block number that [blocknum] reads for that
    range (none is an indirect block of the range). *)
Definition data_blocks_apart (fio : ktfs_file) (fs : file_setup) (lo hi : Z)
    : Prop :=
  (forall i j b, in_range lo hi i -> in_range lo hi j ->
     blocknum fio i fs = Ok b -> blocknum fio j fs = Ok b -> i = j) /\
  (forall d',
     (forall a, ~ in_data fio fs lo hi a -> rd8 d' a = rd8 (disk fs) a) ->
     forall idx, in_range lo hi idx ->
       blocknum fio idx (set_disk fs d') = blocknum fio idx fs).

Definition byte (v : Z) : Prop := 0 <= v < 256.

Lemma in_range_of lo hi p : 0 <= lo <= p -> p < hi -> in_range lo hi (p / KTFS_BLKSZ).
Proof.
  intros Hlo Hhi. unfold in_range, KTFS_BLKSZ.
  split; apply Z.div_le_mono; lia.
Qed.

Lemma file_addr_same_block fio fs b c i :
  0 <= c -> blocknum fio (c / KTFS_BLKSZ) fs = Ok b ->
  0 <= i -> c mod KTFS_BLKSZ + i < KTFS_BLKSZ ->
  file_addr fio fs (c + i) = b * KTFS_BLKSZ + c mod KTFS_BLKSZ + i.
Proof.
  unfold file_addr, KTFS_BLKSZ. intros Hc Hb Hi Hfit.
  pose proof (Z.div_mod c 512 ltac:(lia)) as Hdm.
  pose proof (Z.mod_pos_bound c 512 ltac:(lia)) as Hmb.
  assert (Hq : (c + i) / 512 = c / 512).
  { symmetry. apply (Z.div_unique (c + i) 512 (c / 512) (c mod 512 + i)); lia. }
  assert (Hm : (c + i) mod 512 = c mod 512 + i).
  { symmetry. apply (Z.mod_unique (c + i) 512 (c / 512)); lia. }
  rewrite Hq, Hb, Hm. lia.
Qed.

Lemma file_addr_in_data fio fs lo hi p :
  0 <= lo <= p -> p < hi -> blocks_mapped fio fs lo hi ->
  in_data fio fs lo hi (file_addr fio fs p).
Proof.
  intros Hlo Hhi Hm.
  pose proof (in_range_of lo hi p Hlo Hhi) as Hin.
  destruct (Hm _ Hin) as (b & Hb & Hbr).
  exists (p / KTFS_BLKSZ), b. split; [exact Hin|]. split; [exact Hb|].
  unfold file_addr. rewrite Hb.
  pose proof (Z.mod_pos_bound p KTFS_BLKSZ ltac:(unfold KTFS_BLKSZ; lia)).
  lia.
Qed.

Lemma file_addr_inj fio fs lo hi p p' :
  0 <= lo -> blocks_mapped fio fs lo hi -> data_blocks_apart fio fs lo hi ->
  lo <= p < hi -> lo <= p' < hi ->
  file_addr fio fs p = file_addr fio fs p' -> p = p'.
Proof.
  intros Hlo Hm (Hinj & _) Hp Hp' He.
  pose proof (in_range_of lo hi p ltac:(lia) ltac:(lia)) as Hin.
  pose proof (in_range_of lo hi p' ltac:(lia) ltac:(lia)) as Hin'.
  destruct (Hm _ Hin) as (b & Hb & Hbr).
  destruct (Hm _ Hin') as (b' & Hb' & Hbr').
  unfold file_addr in He. rewrite Hb, Hb' in He.
  unfold KTFS_BLKSZ in *.
  pose proof (Z.mod_pos_bound p 512 ltac:(lia)).
  pose proof (Z.mod_pos_bound p' 512 ltac:(lia)).
  assert (Ebb : b = b') by lia. subst b'.
  pose proof (Hinj _ _ _ Hin Hin' Hb Hb') as Eq.
  rewrite (Z.div_mod p 512), (Z.div_mod p' 512) by lia. lia.
Qed.

Lemma rd8_write_bytes_in l : forall d a i,
  Forall byte l -> 0 <= i < Z.of_nat (length l) ->
  rd8 (write_bytes d a l) (a + i) = nth (Z.to_nat i) l 0.
Proof.
  induction l as [|v l IH]; intros d a i Hl Hi; cbn [length] in Hi; [lia|].
  inversion Hl as [|? ? Hv Hl']; subst. cbn [write_bytes].
  destruct (Z.eq_dec i 0) as [-> | Hne].
  - rewrite Z.add_0_r, rd8_write_bytes_out by lia.
    rewrite rd8_wr8_eq. unfold byte in Hv. rewrite Z.mod_small by lia.
    reflexivity.
  - replace (a + i) with (a + 1 + (i - 1)) by lia.
    rewrite IH by (assumption || lia).
    replace (Z.to_nat i) with (S (Z.to_nat (i - 1))) by lia. reflexivity.
Qed.

Lemma set_disk_again fs0 fs d :
  fs = set_disk fs0 (disk fs) -> set_disk fs d = set_disk fs0 (disk (set_disk fs d)).
Proof. intros ->. reflexivity. Qed.

(** The loop of [ktfs_writeat]: the bytes of the buffer are in their
    places in the file, and nothing else on the disk has changed. *)
Lemma write_loop_spec fio fs0 buf lo hi :
  0 <= lo -> hi < 2 ^ 63 -> Forall byte buf ->
  blocks_mapped fio fs0 lo hi -> data_blocks_apart fio fs0 lo hi ->
  forall fuel curr bw fs,
    lo <= curr <= hi -> 0 <= bw ->
    bw + (hi - curr) <= Z.of_nat (length buf) -> bw + (hi - curr) < 2 ^ 63 ->
    fs = set_disk fs0 (disk fs) ->
    (forall a, ~ in_data fio fs0 lo hi a -> rd8 (disk fs) a = rd8 (disk fs0) a) ->
    blocks_left curr hi <= Z.of_nat fuel ->
    exists fs',
      write_loop fuel fio buf curr hi bw fs = Ok (bw + (hi - curr), fs') /\
      fs' = set_disk fs0 (disk fs') /\
      (forall p, curr <= p < hi ->
         rd8 (disk fs') (file_addr fio fs0 p)
         = nth (Z.to_nat (bw + (p - curr))) buf 0) /\
      (forall a, (forall p, curr <= p < hi -> a <> file_addr fio fs0 p) ->
         rd8 (disk fs') a = rd8 (disk fs) a).
Proof.
  intros Hlo Hhi Hbuf Hm Hapart.
  induction fuel as [|fuel IH];
    intros curr bw fs Hc Hbw Hlen Hsum Hfs Hagree Hf.
  - assert (Heq : curr = hi).
    { unfold blocks_left in Hf. destruct (Z.ltb_spec curr hi); [|lia].
      destruct (blocks_left_step curr hi ltac:(lia)) as (_ & _ & _ & H1).
      unfold blocks_left in H1. destruct (Z.ltb_spec curr hi); lia. }
    subst curr. cbn [write_loop]. rewrite Z.ltb_irrefl.
    exists fs. split; [do 2 f_equal; lia|]. split; [exact Hfs|].
    split; [intros p Hp; lia | reflexivity].
  - cbn [write_loop]. destruct (Z.ltb_spec curr hi) as [Hlt | Hge].
    2:{ exists fs. split; [do 2 f_equal; lia|]. split; [exact Hfs|].
        split; [intros p Hp; lia | reflexivity]. }
    pose proof (in_range_of lo hi curr ltac:(lia) Hlt) as Hin0.
    destruct (Hm _ Hin0) as (b & Hb0 & Hbr).
    assert (Hbfs : blocknum fio (curr / KTFS_BLKSZ) fs = Ok b).
    { rewrite Hfs. rewrite (proj2 Hapart (disk fs) Hagree _ Hin0). exact Hb0. }
    rewrite Hbfs. cbn [bind].
    destruct (Z.eqb_spec b (-1)) as [|_]; [lia|].
    rewrite round_bytes_min by lia.
    destruct (blocks_left_step curr hi ltac:(lia)) as (Hk & Hfit & Hleft & _).
    cbv zeta in Hk, Hfit, Hleft.
    set (k := Z.min (KTFS_BLKSZ - curr mod KTFS_BLKSZ) (hi - curr)) in *.
    assert (Hk2 : k <= hi - curr) by (subst k; lia).
    set (src := firstn (Z.to_nat k) (skipn (Z.to_nat bw) buf)).
    assert (Hsl : length src = Z.to_nat k).
    { subst src. apply length_take_le. rewrite length_drop. lia. }
    assert (Hsb : Forall byte src)
      by (subst src; apply Forall_take, Forall_drop, Hbuf).
    rewrite Hsl, Nat.ltb_irrefl.
    unfold KTFS_BLKSZ in Hk. rewrite wrap64_id by lia.
    rewrite SeekioSpec.to_long_small by lia.
    rewrite block_pos_small by exact Hbr.
    set (w := b * KTFS_BLKSZ + curr mod KTFS_BLKSZ).
    assert (Haddr : forall i, 0 <= i < k -> file_addr fio fs0 (curr + i) = w + i).
    { intros i Hi. subst w. apply file_addr_same_block; try lia.
      exact Hb0. }
    assert (Hwin : forall a, w <= a < w + k -> in_data fio fs0 lo hi a).
    { intros a Ha. rewrite <- (Z.add_simpl_l w a) at 1.
      replace (w + a - w) with (w + (a - w)) by lia.
      rewrite <- Haddr by lia.
      apply file_addr_in_data; [lia | lia | exact Hm]. }
    set (fs1 := set_disk fs (write_bytes (disk fs) w src)).
    destruct (IH (curr + k) (bw + k) fs1) as (fs' & Hrun & Hfs' & HA & HB);
      try lia.
    { subst fs1. apply set_disk_again. exact Hfs. }
    { intros a Ha. subst fs1. cbn [set_disk disk].
      rewrite rd8_write_bytes_out; [apply Hagree; exact Ha|].
      rewrite Hsl.
      destruct (Z_lt_le_dec a w); [left; lia|].
      destruct (Z_lt_le_dec a (w + k)); [|right; lia].
      exfalso. apply Ha, Hwin. lia. }
    exists fs'. split; [rewrite Hrun; do 2 f_equal; lia|].
    split; [exact Hfs'|]. split.
    + intros p Hp. destruct (Z_lt_le_dec p (curr + k)) as [Hin | Hbehind].
      * rewrite HB.
        -- subst fs1. cbn [set_disk disk].
           replace p with (curr + (p - curr)) at 1 by lia.
           rewrite Haddr by lia.
           rewrite rd8_write_bytes_in by (assumption || lia).
           subst src. rewrite nth_firstn.
           destruct (Nat.ltb_spec (Z.to_nat (p - curr)) (Z.to_nat k)); [|lia].
           rewrite nth_skipn. f_equal. lia.
        -- intros p' Hp' He.
           apply (file_addr_inj fio fs0 lo hi) in He; try assumption; lia.
      * rewrite HA by lia. f_equal. lia.
    + intros a Ha. rewrite HB by (intros p Hp; apply Ha; lia).
      subst fs1. cbn [set_disk disk].
      apply rd8_write_bytes_out. rewrite Hsl.
      destruct (Z_lt_le_dec a w); [left; lia|].
      destruct (Z_lt_le_dec a (w + k)); [|right; lia].
      exfalso. apply (Ha (curr + (a - w))); [lia|].
      rewrite Haddr by lia. lia.
Qed.

Lemma file_bytes_buffer fio fs (l : list Z) n : forall k m,
  (m + n <= length l)%nat ->
  (forall i, 0 <= i < Z.of_nat n ->
     file_byte fio fs (k + i) = nth (m + Z.to_nat i) l 0) ->
  file_bytes fio fs k n = firstn n (skipn m l).
Proof.
  induction n as [|n IH]; intros k m Hlen Hget; cbn [file_bytes];
    [reflexivity|].
  assert (Hm : (m < length l)%nat) by lia.
  destruct (lookup_lt_is_Some_2 l m Hm) as (x & Hx).
  rewrite (drop_S l x m Hx). cbn [firstn]. f_equal.
  - specialize (Hget 0 ltac:(lia)). rewrite Z.add_0_r in Hget.
    rewrite Hget. cbn [Z.to_nat]. rewrite Nat.add_0_r.
    rewrite nth_lookup, Hx. reflexivity.
  - apply IH; [lia|]. intros i Hi.
    replace (k + 1 + i) with (k + (i + 1)) by lia.
    rewrite Hget by lia. f_equal. lia.
Qed.

(** X23.  [ktfs_writeat] on an open file copies the first [n] bytes of
    the buffer to the file from [pos] on, where [n] is [len] cut down
    to the end of the file (the file is never grown), and returns [n];
    [ktfs_readat] with the same [pos] and [len] then returns those [n]
    bytes.  No byte of the disk other than the [n] bytes of the file
    changes.  This is for a file whose data blocks in the range are
    distinct and are not index blocks of the range. *)
Theorem ktfs_writeat_then_readat fio pos buf len fs :
  u32 (size (file_inode fio)) -> 0 <= pos < size (file_inode fio) ->
  0 < len < 2 ^ 62 -> len <= Z.of_nat (length buf) -> Forall byte buf ->
  let n := Z.min len (size (file_inode fio) - pos) in
  blocks_mapped fio fs pos (pos + n) ->
  data_blocks_apart fio fs pos (pos + n) ->
  exists fs',
    ktfs_writeat true fio pos (Some buf) len fs = Ok (n, fs') /\
    ktfs_readat true fio pos false len fs'
    = Ok (n, firstn (Z.to_nat n) buf) /\
    (forall a, (forall p, pos <= p < pos + n -> a <> file_addr fio fs p) ->
       rd8 (disk fs') a = rd8 (disk fs) a).
Proof.
  intros Hsz Hpos Hlen Hfits Hbuf n Hm Hapart. unfold u32 in Hsz.
  assert (Hn : 0 < n < 2 ^ 62) by (subst n; lia).
  assert (Hnl : n <= len) by (subst n; lia).
  assert (Hfs : fs = set_disk fs (disk fs)) by (destruct fs; reflexivity).
  assert (Hfuel : blocks_left pos (pos + n)
                  <= Z.of_nat (Z.to_nat (n / KTFS_BLKSZ) + 2)).
  { unfold blocks_left, KTFS_BLKSZ.
    destruct (Z.ltb_spec pos (pos + n)); [|lia].
    pose proof (Z.div_mod pos 512 ltac:(lia)).
    pose proof (Z.mod_pos_bound pos 512 ltac:(lia)).
    pose proof (Z.div_mod n 512 ltac:(lia)).
    pose proof (Z.mod_pos_bound n 512 ltac:(lia)).
    assert (0 <= n / 512) by (apply Z.div_pos; lia).
    assert ((pos + n - 1) / 512 < pos / 512 + n / 512 + 2)
      by (apply Z.div_lt_upper_bound; lia).
    lia. }
  destruct (write_loop_spec fio fs buf pos (pos + n) ltac:(lia) ltac:(lia)
              Hbuf Hm Hapart (Z.to_nat (n / KTFS_BLKSZ) + 2) pos 0 fs
              ltac:(lia) ltac:(lia) ltac:(lia) ltac:(lia) Hfs
              ltac:(reflexivity) Hfuel)
    as (fs' & Hrun & Hfs' & HA & HB).
  assert (Hagree : forall a, ~ in_data fio fs pos (pos + n) a ->
            rd8 (disk fs') a = rd8 (disk fs) a).
  { intros a Ha. apply HB. intros p Hp He. apply Ha. rewrite He.
    apply file_addr_in_data; [lia | lia | exact Hm]. }
  assert (Hsame : forall idx, in_range pos (pos + n) idx ->
            blocknum fio idx fs' = blocknum fio idx fs).
  { intros idx Hidx. rewrite Hfs'.
    apply (proj2 Hapart (disk fs') Hagree idx Hidx). }
  exists fs'. split; [|split].
  - unfold ktfs_writeat. cbn [negb].
    destruct (Z.ltb_spec len 0) as [|_]; [lia|].
    destruct (Z.eqb_spec len 0) as [|_]; [lia|].
    destruct (Z.leb_spec (size (file_inode fio)) pos) as [|_]; [lia|].
    rewrite (wrap64_id (pos + len)) by lia.
    assert (En : (if size (file_inode fio) <? pos + len
                  then to_long (size (file_inode fio) - pos) else len) = n).
    { destruct (Z.ltb_spec (size (file_inode fio)) (pos + len)).
      - rewrite SeekioSpec.to_long_small by lia. subst n. lia.
      - subst n. lia. }
    rewrite En, wrap64_id by lia. rewrite Hrun. do 2 f_equal. lia.
  - rewrite ktfs_readat_in_range; try (assumption || lia).
    + fold n. f_equal. f_equal.
      rewrite (file_bytes_buffer fio fs' buf (Z.to_nat n) pos 0%nat);
        [reflexivity | lia |].
      intros i Hi. rewrite Z2Nat.id in Hi by lia.
      pose proof (in_range_of pos (pos + n) (pos + i) ltac:(lia) ltac:(lia))
        as Hin.
      destruct (Hm _ Hin) as (b & Hb & Hbr).
      unfold file_byte. rewrite (Hsame _ Hin), Hb.
      specialize (HA (pos + i) ltac:(lia)).
      unfold file_addr in HA. rewrite Hb in HA. rewrite HA.
      f_equal. lia.
    + fold n. intros idx Hidx. rewrite (Hsame idx Hidx). apply Hm, Hidx.
  - exact HB.
Qed.

(** *** Files of direct blocks *)

(** The bytes below [4 * KTFS_BLKSZ] are in the direct blocks, whose
    numbers are in the inode. *)
Lemma direct_blocknum fio fs idx :
  0 <= idx < KTFS_NUM_DIRECT_DATA_BLOCKS ->
  blocknum fio idx fs
  = Ok (to_int (nth (Z.to_nat idx) (block (file_inode fio)) 0
                + global_datablock_0 fs)).
Proof.
  intros Hidx. unfold blocknum, inodeidxblocknum. cbv zeta.
  destruct (Z.ltb_spec idx KTFS_NUM_DIRECT_DATA_BLOCKS); [reflexivity | lia].
Qed.

Lemma direct_in_range lo hi idx :
  0 <= lo -> hi <= KTFS_NUM_DIRECT_DATA_BLOCKS * KTFS_BLKSZ ->
  in_range lo hi idx -> 0 <= idx < KTFS_NUM_DIRECT_DATA_BLOCKS.
Proof.
  unfold in_range, KTFS_NUM_DIRECT_DATA_BLOCKS, KTFS_BLKSZ.
  intros Hlo Hhi (H1 & H2).
  assert (0 <= lo / 512) by (apply Z.div_pos; lia).
  assert ((hi - 1) / 512 < 4) by (apply Z.div_lt_upper_bound; lia).
  lia.
Qed.

Lemma direct_blocks_mapped fio fs lo hi :
  0 <= lo -> hi <= KTFS_NUM_DIRECT_DATA_BLOCKS * KTFS_BLKSZ ->
  (forall i, (i < 4)%nat ->
     0 <= nth i (block (file_inode fio)) 0 + global_datablock_0 fs < 2 ^ 22) ->
  blocks_mapped fio fs lo hi.
Proof.
  intros Hlo Hhi Hnum idx Hidx.
  pose proof (direct_in_range lo hi idx Hlo Hhi Hidx) as Hd.
  rewrite direct_blocknum by exact Hd.
  unfold KTFS_NUM_DIRECT_DATA_BLOCKS in Hd.
  specialize (Hnum (Z.to_nat idx) ltac:(lia)).
  eexists. split; [reflexivity|]. rewrite to_int_id; lia.
Qed.

Lemma direct_blocks_apart fio fs lo hi :
  0 <= lo -> hi <= KTFS_NUM_DIRECT_DATA_BLOCKS * KTFS_BLKSZ ->
  (forall i, (i < 4)%nat ->
     0 <= nth i (block (file_inode fio)) 0 + global_datablock_0 fs < 2 ^ 22) ->
  (forall i j, in_range lo hi i -> in_range lo hi j -> i <> j ->
     nth (Z.to_nat i) (block (file_inode fio)) 0
     <> nth (Z.to_nat j) (block (file_inode fio)) 0) ->
  data_blocks_apart fio fs lo hi.
Proof.
  intros Hlo Hhi Hnum Hdist. split.
  - intros i j b Hi Hj Hbi Hbj.
    pose proof (direct_in_range lo hi i Hlo Hhi Hi) as Hdi.
    pose proof (direct_in_range lo hi j Hlo Hhi Hj) as Hdj.
    rewrite direct_blocknum in Hbi, Hbj by assumption.
    unfold KTFS_NUM_DIRECT_DATA_BLOCKS in Hdi, Hdj.
    pose proof (Hnum (Z.to_nat i) ltac:(lia)).
    pose proof (Hnum (Z.to_nat j) ltac:(lia)).
    rewrite to_int_id in Hbi, Hbj by lia.
    destruct (Z.eq_dec i j) as [|Hne]; [assumption|].
    exfalso. apply (Hdist i j Hi Hj Hne).
    injection Hbi as Hbi. injection Hbj as Hbj. lia.
  - intros d' _ idx Hidx.
    pose proof (direct_in_range lo hi idx Hlo Hhi Hidx) as Hd.
    rewrite !direct_blocknum by exact Hd. reflexivity.
Qed.

(** A file of 700 bytes in the data blocks 5 and 9, on a disk of zeros
    with one bitmap block and one block of inodes. *)
Definition two_block_file : ktfs_file :=
  mkFile 1 (mkInode 700 [5; 9; 0; 0] 0 [0; 0]).

Definition plain_fs : file_setup :=
  mkSetup (mkSuper 1 1 0) (mkInode 0 [0; 0; 0; 0] 0 [0; 0]) ∅ ∅ 0.

(** A hundred bytes to write. *)
Definition hundred : list Z := map (fun i => Z.of_nat i + 1) (seq 0 100).

Lemma two_block_numbers i :
  (i < 4)%nat ->
  0 <= nth i (block (file_inode two_block_file)) 0
       + global_datablock_0 plain_fs < 2 ^ 22.
Proof.
  intros Hi. do 4 (destruct i as [|i]; [vm_compute; split; congruence|]). lia.
Defined.

Lemma two_block_range idx : in_range 500 600 idx -> idx = 0 \/ idx = 1.
Proof.
  unfold in_range. change (500 / KTFS_BLKSZ) with 0.
  change ((600 - 1) / KTFS_BLKSZ) with 1. lia.
Defined.

Lemma two_block_mapped : blocks_mapped two_block_file plain_fs 500 600.
Proof.
  apply direct_blocks_mapped;
    [lia | vm_compute; congruence | exact two_block_numbers].
Defined.

Lemma two_block_apart : data_blocks_apart two_block_file plain_fs 500 600.
Proof.
  apply direct_blocks_apart;
    [lia | vm_compute; congruence | exact two_block_numbers |].
  intros i j Hi Hj Hne.
  destruct (two_block_range i Hi) as [-> | ->],
           (two_block_range j Hj) as [-> | ->];
    try (exfalso; apply Hne; reflexivity); vm_compute; congruence.
Defined.

Lemma hundred_bytes : Forall byte hundred.
Proof.
  unfold hundred. apply Forall_forall. intros v Hv.
  apply list_elem_of_In, in_map_iff in Hv. destruct Hv as (i & <- & Hi).
  apply in_seq in Hi. unfold byte. lia.
Defined.

Lemma ktfs_readat_spec_witness :
  ktfs_readat true two_block_file 500 false 100 plain_fs
  = Ok (100, file_bytes two_block_file plain_fs 500 100).
Proof.
  apply (proj2 (proj2 (ktfs_readat_spec two_block_file 500 100 plain_fs
                         ltac:(cbn; unfold u32; lia) ltac:(lia) ltac:(lia)))).
  - cbn. lia.
  - exact two_block_mapped.
Defined.

Lemma ktfs_writeat_then_readat_witness :
  exists fs',
    ktfs_writeat true two_block_file 500 (Some hundred) 100 plain_fs
    = Ok (100, fs') /\
    ktfs_readat true two_block_file 500 false 100 fs' = Ok (100, hundred) /\
    (forall a, (forall p, 500 <= p < 600 ->
                  a <> file_addr two_block_file plain_fs p) ->
       rd8 (disk fs') a = rd8 (disk plain_fs) a).
Proof.
  apply (ktfs_writeat_then_readat two_block_file 500 hundred 100 plain_fs).
  - cbn. unfold u32. lia.
  - cbn. lia.
  - lia.
  - cbn. lia.
  - exact hundred_bytes.
  - exact two_block_mapped.
  - exact two_block_apart.
Defined.

(** The write above ends in the second block of the file; a read of the
    whole file returns the zeros around the bytes written. *)
Example ktfs_writeat_sample :
  match ktfs_writeat true two_block_file 500 (Some hundred) 100 plain_fs with
  | Ok (r, fs') =>
      r = 100 /\
      rd8 (disk fs') (8 * 512 + 500) = 1 /\
      rd8 (disk fs') (12 * 512) = 13 /\
      rd8 (disk fs') (12 * 512 + 87) = 100 /\
      rd8 (disk fs') (12 * 512 + 88) = 0 /\
      ktfs_writeat true two_block_file 650 (Some hundred) 100 fs'
      = Ok (50, set_disk fs'
                  (write_bytes (disk fs') (12 * 512 + 138) (firstn 50 hundred)))
  | _ => False
  end.
Proof. vm_compute. repeat split; reflexivity. Qed.

End KtfsFileSpec.

(** ** ktfs.c: the search of [ktfs_delete] *)

Module KtfsSearchSpec.
Import Ktfs.

(** The address of slot [j] of the directory block
    [root_dir_inode.block[i]]. *)
Definition slot_addr (fs : file_setup) (i j : Z) : Z :=
  wrap64 ((nth (Z.to_nat i) (block (root_dir_inode fs)) 0
           + global_datablock_0 fs) * KTFS_BLKSZ)
  + j * KTFS_DENSZ.

(** [strncmp(name, dir[j].name, FILENAME_SIZE) == 0] for that slot. *)
Definition slot_matches (fs : file_setup) (name : list Z) (i j : Z) : bool :=
  strncmp_eq (Z.to_nat FILENAME_SIZE) name
             (dentry_name (disk fs) (slot_addr fs i j)).

Lemma find_in_block_none d name pos n : forall j,
  find_in_block d name pos n j = None <->
  forall k, j <= k < j + Z.of_nat n ->
    strncmp_eq (Z.to_nat FILENAME_SIZE) name
               (dentry_name d (pos + k * KTFS_DENSZ)) = false.
Proof.
  induction n as [|n IH]; intros j; cbn [find_in_block].
  - split; [intros _ k Hk; lia | reflexivity].
  - destruct (strncmp_eq (Z.to_nat FILENAME_SIZE) name
                (dentry_name d (pos + j * KTFS_DENSZ))) eqn:Hj.
    + split; [discriminate|]. intros Hall.
      rewrite Hall in Hj by lia. discriminate.
    + rewrite IH. split.
      * intros Hall k Hk. destruct (Z.eq_dec k j) as [-> | Hne];
          [exact Hj | apply Hall; lia].
      * intros Hall k Hk. apply Hall. lia.
Qed.

Lemma find_entry_none fs name n : forall i found,
  0 <= i -> i + Z.of_nat n <= KTFS_NUM_DIRECT_DATA_BLOCKS ->
  exists r, find_entry fs name n i found = Ok r /\
    (r = None <->
     found = None /\
     forall k j, i <= k < i + Z.of_nat n -> 0 <= j < DIR_SIZE ->
       slot_matches fs name k j = false).
Proof.
  induction n as [|n IH]; intros i found Hi Hn; cbn [find_entry].
  - exists found. split; [reflexivity|]. split.
    + intros ->. split; [reflexivity | intros k j Hk; lia].
    + intros (-> & _). reflexivity.
  - unfold dir_block_pos.
    destruct (Z.leb_spec 0 i); [|lia].
    destruct (Z.ltb_spec i KTFS_NUM_DIRECT_DATA_BLOCKS); [|lia].
    cbn [andb bind].
    set (pos := wrap64 ((nth (Z.to_nat i) (block (root_dir_inode fs)) 0
                         + global_datablock_0 fs) * KTFS_BLKSZ)).
    destruct (find_in_block (disk fs) name pos (Z.to_nat DIR_SIZE) 0)
      as [j0|] eqn:Hf.
    + destruct (IH (i + 1) (Some (i, j0, pos + j0 * KTFS_DENSZ))
                  ltac:(lia) ltac:(lia)) as (r & Hr & Hiff).
      exists r. split; [exact Hr|]. split.
      * intros Hnone. apply Hiff in Hnone. destruct Hnone as (Hx & _).
        discriminate.
      * intros (_ & Hall). exfalso.
        assert (Hnone : find_in_block (disk fs) name pos (Z.to_nat DIR_SIZE) 0
                        = None).
        { apply find_in_block_none. intros k Hk.
          apply (Hall i k); [lia|]. 
          change (Z.of_nat (Z.to_nat DIR_SIZE)) with DIR_SIZE in Hk. lia. }
        congruence.
    + destruct (IH (i + 1) found ltac:(lia) ltac:(lia)) as (r & Hr & Hiff).
      exists r. split; [exact Hr|]. rewrite Hiff.
      pose proof (proj1 (find_in_block_none _ _ _ _ _) Hf) as Hblk.
      change (Z.of_nat (Z.to_nat DIR_SIZE)) with DIR_SIZE in Hblk.
      split.
      * intros (Hfound & Hall). split; [exact Hfound|].
        intros k j Hk Hj. destruct (Z.eq_dec k i) as [-> | Hne].
        -- apply Hblk. lia.
        -- apply Hall; lia.
      * intros (Hfound & Hall). split; [exact Hfound|].
        intros k j Hk Hj. apply Hall; lia.
Qed.

Lemma zero_not_enoent (a b : file_setup) : Ok (0, a) <> Ok (- ENOENT, b).
Proof. intros H. injection H as H _. discriminate H. Qed.

(** A call that goes on with [k] does not return what [k] never
    returns, faults apart. *)
Lemma bind_never {A : Type} (x : result A) (k : A -> result (Z * file_setup))
    (v : Z * file_setup) :
  (forall a, k a <> Ok v) -> bind x k <> Ok v.
Proof. intros Hk. destruct x as [a| |]; cbn [bind]; [apply Hk | discriminate ..]. Qed.

(** Once the entry is found, [ktfs_delete] does not return [-ENOENT]. *)
Lemma ktfs_delete_found name fs found :
  find_entry fs name (Z.to_nat KTFS_NUM_DIRECT_DATA_BLOCKS) 0 None
  = Ok (Some found) ->
  ktfs_delete (Some name) fs <> Ok (- ENOENT, fs).
Proof.
  intros Hr. unfold ktfs_delete. rewrite Hr. cbn [bind].
  destruct found as [[blkidx dentryidx] entry].
  apply bind_never. intros fs1. cbv beta zeta.
  apply bind_never. intros fs4. cbv beta zeta.
  match goal with
  | |- (if ?c then _ else _) <> _ => destruct c
  end; [discriminate | apply zero_not_enoent].
Qed.

(** X24.  [ktfs_delete(name)] returns [-ENOENT], with the file system
    unchanged, exactly when the name is in none of the 64 slots of the
    four direct blocks of the root directory.  All slots are compared,
    whatever the size of the directory: a slot behind the last entry
    that holds the name is found as well. *)
Theorem ktfs_delete_enoent_iff name fs :
  ktfs_delete (Some name) fs = Ok (- ENOENT, fs) <->
  forall i j, 0 <= i < KTFS_NUM_DIRECT_DATA_BLOCKS -> 0 <= j < DIR_SIZE ->
    slot_matches fs name i j = false.
Proof.
  assert (Hfour : 0 + Z.of_nat (Z.to_nat KTFS_NUM_DIRECT_DATA_BLOCKS)
                  <= KTFS_NUM_DIRECT_DATA_BLOCKS) by (vm_compute; congruence).
  destruct (find_entry_none fs name (Z.to_nat KTFS_NUM_DIRECT_DATA_BLOCKS) 0
              None ltac:(lia) Hfour) as (r & Hr & Hfwd & Hback).
  change (0 + Z.of_nat (Z.to_nat KTFS_NUM_DIRECT_DATA_BLOCKS))
    with KTFS_NUM_DIRECT_DATA_BLOCKS in Hfwd, Hback.
  destruct r as [found|].
  - split.
    + intros Hrun. exfalso.
      exact (ktfs_delete_found name fs found Hr Hrun).
    + intros Hall. exfalso.
      specialize (Hback (conj eq_refl Hall)). discriminate Hback.
  - split.
    + intros _. destruct (Hfwd eq_refl) as (_ & Hall). exact Hall.
    + intros _. unfold ktfs_delete. rewrite Hr. reflexivity.
Qed.

End KtfsSearchSpec.

(** ** ktfs.c: a block added to a file *)

Module KtfsGrowSpec.
Import Ktfs KtfsFile KtfsCntlSpec KtfsBitmapSpec.

Lemma rd32_wr32 d a v : 0 <= v < 2 ^ 32 -> rd32 (wr32 d a v) a = v.
Proof.
  intros Hv. unfold rd32, wr32.
  rewrite rd8_wr8_ne, rd8_wr8_ne, rd8_wr8_ne, rd8_wr8_eq by lia.
  rewrite rd8_wr8_ne, rd8_wr8_ne, rd8_wr8_eq by lia.
  rewrite rd8_wr8_ne, rd8_wr8_eq by lia.
  rewrite rd8_wr8_eq.
  change (2 ^ 8) with 256. change (2 ^ 16) with (256 * 256).
  change (2 ^ 24) with (256 * 256 * 256).
  rewrite <- !Z.div_div by lia.
  pose proof (Z.div_mod v 256 ltac:(lia)) as E0.
  pose proof (Z.mod_pos_bound v 256 ltac:(lia)) as B0.
  set (q1 := v / 256) in *.
  pose proof (Z.div_mod q1 256 ltac:(lia)) as E1.
  pose proof (Z.mod_pos_bound q1 256 ltac:(lia)) as B1.
  set (q2 := q1 / 256) in *.
  pose proof (Z.div_mod q2 256 ltac:(lia)) as E2.
  pose proof (Z.mod_pos_bound q2 256 ltac:(lia)) as B2.
  set (q3 := q2 / 256) in *.
  assert (Hq3 : 0 <= q3 < 256) by lia.
  rewrite (Z.mod_small q3) by lia. lia.
Qed.

Lemma rd32_ext d d' a :
  (forall x, a <= x <= a + 3 -> rd8 d' x = rd8 d x) -> rd32 d' a = rd32 d a.
Proof. intros H. unfold rd32. rewrite !H by lia. reflexivity. Qed.

(** [with_block] when the call it is part of returns 1. *)
Lemma with_block_one fio fs k fio' fs' :
  with_block fio fs k = Ok (1, fio', fs') ->
  exists n fs1, allocate_open_block fs = (n, fs1) /\ n <> NO_BLOCK /\
    k n fs1 = Ok (1, fio', fs').
Proof.
  unfold with_block. destruct (allocate_open_block fs) as [n fs1].
  destruct (Z.eqb_spec n NO_BLOCK) as [|Hne]; [discriminate|].
  intros Hk. exists n, fs1. auto.
Qed.

(** A successful allocation, as the callers see it. *)
Lemma allocate_open_block_run fs n fs1 :
  wf_fs fs -> allocate_open_block fs = (n, fs1) -> n <> NO_BLOCK ->
  0 <= n < KTFS_BLKSZ * BYTE_SIZE * bitmap_block_count (super_blk fs) /\
  taken fs n = false /\ taken fs1 n = true /\
  (forall m, 0 <= m -> m <> n -> taken fs1 m = taken fs m) /\
  wf_fs fs1 /\ super_blk fs1 = super_blk fs /\
  (forall a, (1 + bitmap_block_count (super_blk fs)) * KTFS_BLKSZ <= a ->
     rd8 (disk fs1) a = rd8 (disk fs) a).
Proof.
  intros Hwf Hrun Hsome.
  destruct (allocate_open_block_shape fs n fs1 Hwf Hrun)
    as [(Hno & _) | (Hn & Hc & -> & _)]; [contradiction|].
  destruct Hwf as (HB & HI & Hd).
  assert (Hbit : 0 <= n mod 8 < 8) by (apply Z.mod_pos_bound; lia).
  split; [exact Hn|].
  split; [rewrite taken_clear by lia; rewrite Hc; reflexivity|].
  split.
  { unfold taken. cbn [set_disk disk]. rewrite rd8_wr8_eq.
    apply testbit_set_same. exact Hbit. }
  split.
  { apply taken_other; [lia | |].
    - intros a Ha. apply rd8_wr8_ne. congruence.
    - intros c Hc8 Hcn. rewrite rd8_wr8_eq. apply testbit_set_other; lia. }
  split; [split; [exact HB|]; split; [exact HI | apply bytes_ok_wr8, Hd]|].
  split; [reflexivity|].
  intros a Ha. cbn [set_disk disk]. apply rd8_wr8_ne.
  unfold KTFS_BLKSZ, BYTE_SIZE in *.
  assert (n / 8 < 512 * bitmap_block_count (super_blk fs))
    by (apply Z.div_lt_upper_bound; lia).
  lia.
Qed.

(** The write of the inode leaves the bitmap alone. *)
Lemma write_inode_keeps_bitmap fio fs m :
  0 <= dentry_inode fio ->
  0 <= m < KTFS_BLKSZ * BYTE_SIZE * bitmap_block_count (super_blk fs) ->
  taken (write_inode_to_disk fio fs) m = taken fs m.
Proof.
  intros Hi Hm. unfold taken, write_inode_to_disk. cbn [set_disk disk].
  rewrite rd8_write_bytes_out; [reflexivity|]. left.
  pose proof (inode_addr_above fs (dentry_inode fio) Hi) as Habove.
  unfold KTFS_BLKSZ, BYTE_SIZE in *.
  assert (m / 8 < 512 * bitmap_block_count (super_blk fs))
    by (apply Z.div_lt_upper_bound; lia).
  lia.
Qed.

(** The block number of an index in the indirect block. *)
Lemma indirect_blocknum fio fs idx :
  KTFS_NUM_DIRECT_DATA_BLOCKS <= idx
  < KTFS_BLKS_PER_INDIRECT + KTFS_NUM_DIRECT_DATA_BLOCKS ->
  blocknum fio idx fs
  = Ok (to_int
          (to_int (rd32 (disk fs)
                     (wrap64 ((indirect (file_inode fio)
                               + global_datablock_0 fs) * KTFS_BLKSZ)
                      + 4 * (idx - KTFS_NUM_DIRECT_DATA_BLOCKS)))
           + global_datablock_0 fs)).
Proof.
  intros Hidx. unfold blocknum, inodeidxblocknum. cbv zeta.
  destruct (Z.ltb_spec idx KTFS_NUM_DIRECT_DATA_BLOCKS); [lia|].
  destruct (Z.ltb_spec idx
              (KTFS_BLKS_PER_INDIRECT + KTFS_NUM_DIRECT_DATA_BLOCKS)); [|lia].
  rewrite get_u32_ok by lia. reflexivity.
Qed.

(** The end of the indirect branch: the new index leads to a block that
    was free, the other indices of the indirect block lead where they
    led. *)
Lemma enter_indirect_reach fio fs new_idx fio' fs' :
  wf_fs fs -> u32 (indirect (file_inode fio)) ->
  KTFS_NUM_DIRECT_DATA_BLOCKS <= new_idx
  < KTFS_BLKS_PER_INDIRECT + KTFS_NUM_DIRECT_DATA_BLOCKS ->
  enter_indirect new_idx fio fs = Ok (1, fio', fs') ->
  fio' = fio /\ super_blk fs' = super_blk fs /\
  exists b,
    0 <= b < KTFS_BLKSZ * BYTE_SIZE * bitmap_block_count (super_blk fs) /\
    taken fs b = false /\
    blocknum fio new_idx fs' = Ok (to_int (b + global_datablock_0 fs)) /\
    (forall idx, KTFS_NUM_DIRECT_DATA_BLOCKS <= idx
                 < KTFS_BLKS_PER_INDIRECT + KTFS_NUM_DIRECT_DATA_BLOCKS ->
       idx <> new_idx -> blocknum fio idx fs' = blocknum fio idx fs).
Proof.
  intros Hwf Hind Hidx Hrun. unfold enter_indirect in Hrun. cbv zeta in Hrun.
  apply with_block_one in Hrun. destruct Hrun as (n & fs1 & Ha & Hne & Hk).
  injection Hk as <- <-.
  destruct (allocate_open_block_run fs n fs1 Hwf Ha Hne)
    as (Hn & Hfree & _ & _ & Hwf1 & Hsb & Hkeep).
  assert (Hg : global_datablock_0 fs1 = global_datablock_0 fs)
    by (unfold global_datablock_0; rewrite Hsb; reflexivity).
  destruct Hwf as (HB & HI & Hd). unfold u32 in Hind.
  set (ipos := wrap64 ((indirect (file_inode fio) + global_datablock_0 fs)
                       * KTFS_BLKSZ)) in *.
  assert (Hipos : (1 + bitmap_block_count (super_blk fs)) * KTFS_BLKSZ <= ipos).
  { subst ipos. unfold global_datablock_0, KTFS_BLKSZ in *.
    rewrite wrap64_id by lia. lia. }
  split; [reflexivity|]. split; [exact Hsb|].
  exists n. split; [exact Hn|]. split; [exact Hfree|].
  assert (Hg' : forall d, global_datablock_0 (set_disk fs1 d)
                          = global_datablock_0 fs).
  { intros d. unfold global_datablock_0. cbn [set_disk super_blk].
    rewrite Hsb. reflexivity. }
  unfold KTFS_NUM_DIRECT_DATA_BLOCKS, KTFS_BLKS_PER_INDIRECT in *.
  split.
  - rewrite indirect_blocknum
      by (unfold KTFS_NUM_DIRECT_DATA_BLOCKS, KTFS_BLKS_PER_INDIRECT; lia).
    rewrite Hg'. cbn [set_disk disk]. fold ipos.
    unfold KTFS_NUM_DIRECT_DATA_BLOCKS.
    rewrite rd32_wr32 by (unfold KTFS_BLKSZ, BYTE_SIZE in Hn; lia).
    rewrite (to_int_id n) by (unfold KTFS_BLKSZ, BYTE_SIZE in Hn; lia).
    reflexivity.
  - intros idx Hi Hneq.
    rewrite !indirect_blocknum
      by (unfold KTFS_NUM_DIRECT_DATA_BLOCKS, KTFS_BLKS_PER_INDIRECT; lia).
    rewrite Hg'. cbn [set_disk disk]. fold ipos.
    unfold KTFS_NUM_DIRECT_DATA_BLOCKS.
    do 4 f_equal. apply rd32_ext. intros x Hx.
    rewrite rd8_wr32_out by lia. apply Hkeep. lia.
Qed.

(** X25.  When [add_new_inode_datablk(fio, old_idx)] returns 1 for a
    new index below 132 (a direct block or an entry of the indirect
    block), [blocknum] finds a block for the new index [old_idx + 1],
    and it is a block that was free in the bitmap before the call; the
    indices up to [old_idx] lead to the blocks they led to before. *)
Theorem add_new_inode_datablk_reachable fio old_idx fs fio' fs' :
  wf_fs fs -> wf_file fio -> 0 <= old_idx ->
  old_idx + 1 < KTFS_NUM_DIRECT_DATA_BLOCKS + KTFS_BLKS_PER_INDIRECT ->
  add_new_inode_datablk fio old_idx fs = Ok (1, fio', fs') ->
  exists b,
    0 <= b < KTFS_BLKSZ * BYTE_SIZE * bitmap_block_count (super_blk fs) /\
    taken fs b = false /\
    blocknum fio' (old_idx + 1) fs' = Ok (to_int (b + global_datablock_0 fs)) /\
    forall idx, 0 <= idx <= old_idx ->
      blocknum fio' idx fs' = blocknum fio idx fs.
Proof.
  intros Hwf Hfile Hold Hnew Hrun.
  destruct Hfile as (Hino & Hsize & Hlen & Hind & Hdl & Hdu).
  unfold add_new_inode_datablk in Hrun. cbv zeta in Hrun.
  unfold KTFS_NUM_DIRECT_DATA_BLOCKS, KTFS_BLKS_PER_INDIRECT in Hnew.
  rewrite (wrap64_id (old_idx + 1)) in Hrun by lia.
  destruct (Z.ltb_spec (old_idx + 1) KTFS_NUM_DIRECT_DATA_BLOCKS)
    as [Hdirect | Hindirect].
  - (* a direct block *)
    apply with_block_one in Hrun. destruct Hrun as (n & fs1 & Ha & Hne & Hk).
    injection Hk as <- <-.
    destruct (allocate_open_block_run fs n fs1 Hwf Ha Hne)
      as (Hn & Hfree & _ & _ & Hwf1 & Hsb & _).
    assert (Hg : forall fio0, global_datablock_0 (write_inode_to_disk fio0 fs1)
                              = global_datablock_0 fs).
    { intros fio0. unfold global_datablock_0, write_inode_to_disk.
      cbn [set_disk super_blk]. rewrite Hsb. reflexivity. }
    unfold KTFS_NUM_DIRECT_DATA_BLOCKS in Hdirect.
    exists n. split; [exact Hn|]. split; [exact Hfree|]. split.
    + rewrite KtfsFileSpec.direct_blocknum
        by (unfold KTFS_NUM_DIRECT_DATA_BLOCKS; lia).
      rewrite Hg. cbn [set_file_inode file_inode set_block block].
      rewrite nth_lookup, list_lookup_insert_eq by lia. cbn [default].
      rewrite wrap32_id
        by (unfold u32, KTFS_BLKSZ, BYTE_SIZE in *; destruct Hwf; lia).
      reflexivity.
    + intros idx Hidx.
      rewrite !KtfsFileSpec.direct_blocknum
        by (unfold KTFS_NUM_DIRECT_DATA_BLOCKS; lia).
      rewrite Hg. cbn [set_file_inode file_inode set_block block].
      rewrite !nth_lookup, list_lookup_insert_ne by lia. reflexivity.
  - (* an entry of the indirect block *)
    destruct (Z.ltb_spec (old_idx + 1)
                (KTFS_BLKS_PER_INDIRECT + KTFS_NUM_DIRECT_DATA_BLOCKS))
      as [_ | Hbig];
      [|unfold KTFS_BLKS_PER_INDIRECT, KTFS_NUM_DIRECT_DATA_BLOCKS in Hbig; lia].
    destruct (Z.ltb_spec old_idx KTFS_NUM_DIRECT_DATA_BLOCKS) as [Hfirst | Hlater].
    + (* the indirect block is allocated first *)
      apply with_block_one in Hrun. destruct Hrun as (a1 & fs1 & Ha & Hne & Hk).
      destruct (allocate_open_block_run fs a1 fs1 Hwf Ha Hne)
        as (Hn1 & Hfree1 & Htaken1 & Hother1 & Hwf1 & Hsb1 & _).
      set (fio1 := set_file_inode fio (set_indirect (file_inode fio) a1)) in *.
      set (fsw := write_inode_to_disk fio1 fs1) in *.
      assert (Hwfw : wf_fs fsw).
      { apply (evolves_wf 0 fs1). apply evolves_write_inode; assumption. }
      assert (Hsbw : super_blk fsw = super_blk fs) by exact Hsb1.
      assert (Hrange : KTFS_NUM_DIRECT_DATA_BLOCKS <= old_idx + 1
                       < KTFS_BLKS_PER_INDIRECT + KTFS_NUM_DIRECT_DATA_BLOCKS)
        by (unfold KTFS_NUM_DIRECT_DATA_BLOCKS, KTFS_BLKS_PER_INDIRECT in *;
            lia).
      destruct (enter_indirect_reach fio1 fsw (old_idx + 1) fio' fs' Hwfw
                  (wrap32_u32 a1) Hrange Hk)
        as (-> & Hsb' & b & Hb & Hbfree & Hreach & _).
      rewrite Hsbw in Hb.
      assert (Hgw : global_datablock_0 fsw = global_datablock_0 fs)
        by (unfold global_datablock_0; rewrite Hsbw; reflexivity).
      assert (Hg' : global_datablock_0 fs' = global_datablock_0 fs)
        by (unfold global_datablock_0; rewrite Hsb', Hsbw; reflexivity).
      exists b. split; [exact Hb|]. split.
      { subst fsw. rewrite write_inode_keeps_bitmap in Hbfree
          by (rewrite ?Hsb1; assumption || lia).
        rewrite <- Hother1; [exact Hbfree | lia |].
        intros ->. congruence. }
      split; [rewrite Hreach, Hgw; reflexivity|].
      intros idx Hidx.
      rewrite !KtfsFileSpec.direct_blocknum by lia.
      rewrite Hg'. reflexivity.
    + (* the indirect block is there *)
      assert (Hrange : KTFS_NUM_DIRECT_DATA_BLOCKS <= old_idx + 1
                       < KTFS_BLKS_PER_INDIRECT + KTFS_NUM_DIRECT_DATA_BLOCKS)
        by (unfold KTFS_NUM_DIRECT_DATA_BLOCKS, KTFS_BLKS_PER_INDIRECT in *;
            lia).
      destruct (enter_indirect_reach fio fs (old_idx + 1) fio' fs' Hwf Hind
                  Hrange Hrun)
        as (-> & Hsb' & b & Hb & Hbfree & Hreach & Hkeep).
      assert (Hg' : global_datablock_0 fs' = global_datablock_0 fs)
        by (unfold global_datablock_0; rewrite Hsb'; reflexivity).
      exists b. split; [exact Hb|]. split; [exact Hbfree|].
      split; [exact Hreach|].
      intros idx Hidx.
      destruct (Z_lt_le_dec idx KTFS_NUM_DIRECT_DATA_BLOCKS) as [Hd | Hi].
      * rewrite !KtfsFileSpec.direct_blocknum by lia.
        rewrite Hg'. reflexivity.
      * apply Hkeep; [|lia].
        unfold KTFS_NUM_DIRECT_DATA_BLOCKS, KTFS_BLKS_PER_INDIRECT in *. lia.
Qed.

(** A file of four blocks, the direct blocks full. *)
Definition four_block_file : ktfs_file :=
  mkFile 1 (mkInode 2048 [7; 6; 5; 4] 0 [0; 0]).

Lemma four_block_file_wf : wf_file four_block_file.
Proof.
  unfold wf_file, u32. cbn.
  repeat split; try lia; repeat constructor; lia.
Defined.

Lemma add_new_inode_datablk_reachable_witness :
  match add_new_inode_datablk four_block_file 3 part_used_fs with
  | Ok (r, fio', fs') =>
      r = 1 /\
      exists b,
        0 <= b < KTFS_BLKSZ * BYTE_SIZE
                 * bitmap_block_count (super_blk part_used_fs) /\
        taken part_used_fs b = false /\
        blocknum fio' (3 + 1) fs'
        = Ok (to_int (b + global_datablock_0 part_used_fs)) /\
        forall idx, 0 <= idx <= 3 ->
          blocknum fio' idx fs' = blocknum four_block_file idx part_used_fs
  | _ => False
  end.
Proof.
  destruct (add_new_inode_datablk four_block_file 3 part_used_fs)
    as [[[r fio'] fs']| |] eqn:E.
  - pose proof E as E'. vm_compute in E'. injection E' as Hr _ _. subst r.
    split; [reflexivity|].
    apply (add_new_inode_datablk_reachable four_block_file 3 part_used_fs
             fio' fs').
    + exact part_used_fs_wf.
    + exact four_block_file_wf.
    + lia.
    + vm_compute. reflexivity.
    + exact E.
  - vm_compute in E. discriminate E.
  - vm_compute in E. discriminate E.
Defined.

(** The file above gets its fifth block: block 3 becomes the indirect
    block and block 2 the data block. *)
Example add_new_inode_datablk_sample :
  match add_new_inode_datablk four_block_file 3 part_used_fs with
  | Ok (r, fio', fs') =>
      r = 1 /\ indirect (file_inode fio') = 3 /\
      blocknum fio' 4 fs' = Ok (2 + 3) /\
      rd8 (disk fs') 512 = 252
  | _ => False
  end.
Proof. vm_compute. repeat split; reflexivity. Qed.

End KtfsGrowSpec.

(** ** ktfs.c: the set-end command and the blocks of the grown file *)

Module KtfsSetendSpec.
Import Ktfs KtfsCntlSpec KtfsBitmapSpec KtfsGrowSpec.

(** *** The blocks of a file as the code stores them *)

(** The number of blocks the bitmap has a bit for. *)
Definition NB (fs : file_setup) : Z :=
  KTFS_BLKSZ * BYTE_SIZE * bitmap_block_count (super_blk fs).

(** The byte address of entry [off] of the data block [X] read as a
    block of block numbers. *)
Definition cell (fs : file_setup) (X off : Z) : Z :=
  (X + global_datablock_0 fs) * KTFS_BLKSZ + 4 * off.

(** The blocks of block numbers of a file: the indirect block, the
    double-indirect block [k], and the indirect block that entry [m]
    of the double-indirect block [k] names. *)
Inductive role :=
| RI
| RD (k : nat)
| RJ (k : nat) (m : Z).

Definition valid (ro : role) : Prop :=
  match ro with
  | RI => True
  | RD k => (k < 2)%nat
  | RJ k m => (k < 2)%nat /\ 0 <= m < KTFS_BLKS_PER_INDIRECT
  end.

(** The first index of the file that needs the block, and the number of
    indices it serves. *)
Definition start (ro : role) : Z :=
  match ro with
  | RI => KTFS_NUM_DIRECT_DATA_BLOCKS
  | RD k =>
      KTFS_NUM_DIRECT_DATA_BLOCKS + KTFS_BLKS_PER_INDIRECT
      + Z.of_nat k * KTFS_BLKS_PER_DINDIRECT
  | RJ k m =>
      KTFS_NUM_DIRECT_DATA_BLOCKS + KTFS_BLKS_PER_INDIRECT
      + Z.of_nat k * KTFS_BLKS_PER_DINDIRECT + m * KTFS_BLKS_PER_INDIRECT
  end.

Definition span (ro : role) : Z :=
  match ro with
  | RI => KTFS_BLKS_PER_INDIRECT
  | RD _ => KTFS_BLKS_PER_DINDIRECT
  | RJ _ _ => KTFS_BLKS_PER_INDIRECT
  end.

(** The number of the block in that role, as the inode and the disk
    give it. *)
Definition blk_of (fs : file_setup) (ino : ktfs_inode) (ro : role) : Z :=
  match ro with
  | RI => indirect ino
  | RD k => nth k (dindirect ino) 0
  | RJ k m => rd32 (disk fs) (cell fs (nth k (dindirect ino) 0) m)
  end.

(** Where index [idx] behind the direct blocks has its entry: the
    double-indirect block, the entry of it and the entry of the
    indirect block named there. *)
Definition kof (idx : Z) : nat :=
  if idx - KTFS_NUM_DIRECT_DATA_BLOCKS - KTFS_BLKS_PER_INDIRECT
     <? KTFS_BLKS_PER_DINDIRECT then 0%nat else 1%nat.

Definition zof (idx : Z) : Z :=
  idx - KTFS_NUM_DIRECT_DATA_BLOCKS - KTFS_BLKS_PER_INDIRECT
  - Z.of_nat (kof idx) * KTFS_BLKS_PER_DINDIRECT.

Definition role_of (idx : Z) : role :=
  if idx <? KTFS_NUM_DIRECT_DATA_BLOCKS + KTFS_BLKS_PER_INDIRECT then RI
  else RJ (kof idx) (zof idx / KTFS_BLKS_PER_INDIRECT).

Definition off_of (idx : Z) : Z :=
  if idx <? KTFS_NUM_DIRECT_DATA_BLOCKS + KTFS_BLKS_PER_INDIRECT
  then idx - KTFS_NUM_DIRECT_DATA_BLOCKS
  else zof idx mod KTFS_BLKS_PER_INDIRECT.

(** The block number stored for index [idx] of the file. *)
Definition entry_of (fs : file_setup) (ino : ktfs_inode) (idx : Z) : Z :=
  if idx <? KTFS_NUM_DIRECT_DATA_BLOCKS then nth (Z.to_nat idx) (block ino) 0
  else rd32 (disk fs) (cell fs (blk_of fs ino (role_of idx)) (off_of idx)).

Ltac consts :=
  unfold NB, cell, MAX_BLOCKS, INODES_PER_BLK, KTFS_NUM_DIRECT_DATA_BLOCKS,
    KTFS_BLKS_PER_INDIRECT, KTFS_NUM_DINDIRECT_BLOCKS,
    KTFS_BLKS_PER_DINDIRECT, KTFS_BLKSZ, BYTE_SIZE, KTFS_INOSZ, u32 in *.

Lemma kof_cases idx :
  (kof idx = 0%nat /\
   idx - KTFS_NUM_DIRECT_DATA_BLOCKS - KTFS_BLKS_PER_INDIRECT
   < KTFS_BLKS_PER_DINDIRECT) \/
  (kof idx = 1%nat /\
   KTFS_BLKS_PER_DINDIRECT
   <= idx - KTFS_NUM_DIRECT_DATA_BLOCKS - KTFS_BLKS_PER_INDIRECT).
Proof.
  unfold kof.
  destruct (Z.ltb_spec
              (idx - KTFS_NUM_DIRECT_DATA_BLOCKS - KTFS_BLKS_PER_INDIRECT)
              KTFS_BLKS_PER_DINDIRECT); auto.
Qed.

(** The place of an index behind the indirect block. *)
Lemma zof_range idx :
  KTFS_NUM_DIRECT_DATA_BLOCKS + KTFS_BLKS_PER_INDIRECT <= idx < MAX_BLOCKS ->
  (kof idx < 2)%nat /\
  0 <= zof idx / KTFS_BLKS_PER_INDIRECT < KTFS_BLKS_PER_INDIRECT /\
  0 <= zof idx mod KTFS_BLKS_PER_INDIRECT < KTFS_BLKS_PER_INDIRECT /\
  idx = start (RJ (kof idx) (zof idx / KTFS_BLKS_PER_INDIRECT))
        + zof idx mod KTFS_BLKS_PER_INDIRECT.
Proof.
  intros Hidx. unfold zof, start.
  destruct (kof_cases idx) as [(-> & Hk) | (-> & Hk)]; consts;
    (split; [lia|]); Z.div_mod_to_equations; lia.
Qed.

Lemma role_of_valid idx :
  KTFS_NUM_DIRECT_DATA_BLOCKS <= idx < MAX_BLOCKS ->
  valid (role_of idx) /\
  0 <= off_of idx < KTFS_BLKS_PER_INDIRECT /\
  idx = start (role_of idx) + off_of idx.
Proof.
  intros Hidx. unfold role_of, off_of.
  destruct (Z.ltb_spec idx
              (KTFS_NUM_DIRECT_DATA_BLOCKS + KTFS_BLKS_PER_INDIRECT)) as [Hi | Hd].
  - cbn [valid start]. consts. lia.
  - destruct (zof_range idx ltac:(lia)) as (Hk & Hm & Hr & Hs).
    cbn [valid]. auto.
Qed.

(** Two indices with the same place are one. *)
Lemma place_inj i j :
  KTFS_NUM_DIRECT_DATA_BLOCKS <= i < MAX_BLOCKS ->
  KTFS_NUM_DIRECT_DATA_BLOCKS <= j < MAX_BLOCKS ->
  role_of i = role_of j -> off_of i = off_of j -> i = j.
Proof.
  intros Hi Hj Hr Ho.
  destruct (role_of_valid i Hi) as (_ & _ & Ei).
  destruct (role_of_valid j Hj) as (_ & _ & Ej).
  rewrite Ei, Ej, Hr, Ho. reflexivity.
Qed.

(** A role other than that of an index starts or ends elsewhere. *)
Lemma role_of_start ro idx :
  valid ro -> KTFS_NUM_DIRECT_DATA_BLOCKS <= idx < MAX_BLOCKS ->
  (match ro with RD _ => False | _ => True end) ->
  start ro <= idx < start ro + span ro -> role_of idx = ro.
Proof.
  intros Hv Hidx Hkind Hin. unfold role_of.
  destruct (Z.ltb_spec idx
              (KTFS_NUM_DIRECT_DATA_BLOCKS + KTFS_BLKS_PER_INDIRECT)) as [Hi | Hd].
  - destruct ro as [|k|k m]; [reflexivity | contradiction |].
    cbn [start span valid] in *. consts. lia.
  - destruct ro as [|k|k m]; [|contradiction|].
    + cbn [start span] in *. consts. lia.
    + cbn [start span valid] in *.
      destruct (zof_range idx ltac:(lia)) as (Hk & Hm & Hr & Hs).
      cbn [start] in Hs.
      assert (k = kof idx).
      { destruct (kof_cases idx) as [(E & Hz) | (E & Hz)]; rewrite E in *;
          consts; lia. }
      subst k. f_equal. consts. lia.
Qed.

(** [inodeidxblocknum] reads the entry. *)
Lemma inodeidxblocknum_entry fs ino idx :
  wf_fs fs -> u32 (indirect ino) -> Forall u32 (dindirect ino) ->
  0 <= idx < MAX_BLOCKS -> 0 <= entry_of fs ino idx < 2 ^ 31 ->
  inodeidxblocknum fs ino idx
  = Ok (to_int (entry_of fs ino idx + global_datablock_0 fs)).
Proof.
  intros Hw Hind Hdind Hidx. unfold inodeidxblocknum, entry_of. cbv zeta.
  destruct (Z.ltb_spec idx KTFS_NUM_DIRECT_DATA_BLOCKS) as [Hd | Hd];
    [reflexivity|].
  unfold role_of, off_of.
  destruct (Z.ltb_spec idx
              (KTFS_BLKS_PER_INDIRECT + KTFS_NUM_DIRECT_DATA_BLOCKS)) as [Hi | Hi];
    destruct (Z.ltb_spec idx
                (KTFS_NUM_DIRECT_DATA_BLOCKS + KTFS_BLKS_PER_INDIRECT));
    try lia.
  - intros He. cbn [blk_of] in *.
    destruct (data_block_pos fs (indirect ino) Hw Hind) as (-> & _).
    rewrite get_u32_ok by (consts; lia). cbn [bind].
    unfold cell in *. rewrite (to_int_id (rd32 _ _)) by lia. reflexivity.
  - intros He. cbn [blk_of] in *.
    destruct (zof_range idx ltac:(lia)) as (Hk & Hm & Hr & _).
    assert (Ez : wrap64 (idx - KTFS_NUM_DIRECT_DATA_BLOCKS
                         - KTFS_BLKS_PER_INDIRECT)
                 = idx - KTFS_NUM_DIRECT_DATA_BLOCKS - KTFS_BLKS_PER_INDIRECT)
      by (apply wrap64_id; consts; lia).
    rewrite Ez.
    assert (Ek : (if idx - KTFS_NUM_DIRECT_DATA_BLOCKS - KTFS_BLKS_PER_INDIRECT
                     <? KTFS_BLKS_PER_DINDIRECT then 0%nat else 1%nat)
                 = kof idx) by reflexivity.
    assert (Ez' : (if idx - KTFS_NUM_DIRECT_DATA_BLOCKS - KTFS_BLKS_PER_INDIRECT
                      <? KTFS_BLKS_PER_DINDIRECT
                   then idx - KTFS_NUM_DIRECT_DATA_BLOCKS - KTFS_BLKS_PER_INDIRECT
                   else wrap64 (idx - KTFS_NUM_DIRECT_DATA_BLOCKS
                                - KTFS_BLKS_PER_INDIRECT
                                - KTFS_BLKS_PER_DINDIRECT))
                  = zof idx).
    { unfold zof.
      destruct (kof_cases idx) as [(-> & Hz) | (-> & Hz)];
        destruct (Z.ltb_spec
                    (idx - KTFS_NUM_DIRECT_DATA_BLOCKS - KTFS_BLKS_PER_INDIRECT)
                    KTFS_BLKS_PER_DINDIRECT); try lia.
      rewrite wrap64_id by (consts; lia). lia. }
    rewrite Ek, Ez'.
    rewrite !to_int_id by (consts; lia).
    pose proof (nth_u32 (dindirect ino) (kof idx) Hdind) as Hdk.
    destruct (data_block_pos fs _ Hw Hdk) as (-> & _).
    rewrite get_u32_ok by lia. cbn [bind].
    assert (Hj : u32 (rd32 (disk fs)
                        ((nth (kof idx) (dindirect ino) 0
                          + global_datablock_0 fs) * KTFS_BLKSZ
                         + 4 * (zof idx / KTFS_BLKS_PER_INDIRECT))))
      by (apply rd32_range, Hw).
    destruct (data_block_pos fs _ Hw Hj) as (-> & _).
    rewrite get_u32_ok by lia. cbn [bind].
    unfold cell in *. rewrite (to_int_id (rd32 _ _)) by lia. reflexivity.
Qed.

(** *** Writes and the entries they leave alone *)

Lemma rd32_wr32_apart d a v b :
  b + 3 < a \/ a + 3 < b -> rd32 (wr32 d a v) b = rd32 d b.
Proof.
  intros Hab. apply rd32_ext. intros x Hx. apply rd8_wr32_out. lia.
Qed.

(** Two entries of blocks of block numbers do not overlap. *)
Lemma cell_apart fs X off Y off' :
  0 <= off < KTFS_BLKS_PER_INDIRECT -> 0 <= off' < KTFS_BLKS_PER_INDIRECT ->
  X <> Y \/ off <> off' ->
  cell fs Y off' + 3 < cell fs X off \/ cell fs X off + 3 < cell fs Y off'.
Proof. intros Ho Ho' Hne. consts. lia. Qed.

Lemma cell_above fs X off :
  0 <= X -> 0 <= off -> global_datablock_0 fs * KTFS_BLKSZ <= cell fs X off.
Proof. intros HX Ho. consts. lia. Qed.

Lemma gdb_above fs :
  wf_fs fs ->
  (1 + bitmap_block_count (super_blk fs)) * KTFS_BLKSZ
  <= global_datablock_0 fs * KTFS_BLKSZ.
Proof. intros (HB & HI & _). unfold global_datablock_0. consts. lia. Qed.

Lemma NB_small fs : wf_fs fs -> NB fs < 2 ^ 31.
Proof. intros (HB & _). consts. lia. Qed.

(** The bitmap lies below the data blocks. *)
Lemma taken_below fs d' m :
  0 <= m < NB fs ->
  (forall a, a < (1 + bitmap_block_count (super_blk fs)) * KTFS_BLKSZ ->
     rd8 d' a = rd8 (disk fs) a) ->
  taken (set_disk fs d') m = taken fs m.
Proof.
  intros Hm Hd. unfold taken. cbn [set_disk disk]. rewrite Hd; [reflexivity|].
  consts. assert (m / 8 < 512 * bitmap_block_count (super_blk fs))
    by (apply Z.div_lt_upper_bound; lia).
  lia.
Qed.

(** The entries depend on the bytes of the data blocks only. *)
Lemma reads_above fs fs' ino :
  super_blk fs' = super_blk fs -> bytes_ok (disk fs) ->
  u32 (indirect ino) -> Forall u32 (dindirect ino) ->
  (forall a, global_datablock_0 fs * KTFS_BLKSZ <= a ->
     rd8 (disk fs') a = rd8 (disk fs) a) ->
  (forall ro, valid ro -> blk_of fs' ino ro = blk_of fs ino ro) /\
  (forall idx, 0 <= idx < MAX_BLOCKS ->
     entry_of fs' ino idx = entry_of fs ino idx).
Proof.
  intros Hsb Hb Hind Hdind Hsame.
  assert (Hg : global_datablock_0 fs' = global_datablock_0 fs)
    by (unfold global_datablock_0; rewrite Hsb; reflexivity).
  assert (Hcell : forall X off, cell fs' X off = cell fs X off)
    by (intros; unfold cell; rewrite Hg; reflexivity).
  assert (Hrd : forall X off, 0 <= X -> 0 <= off ->
            rd32 (disk fs') (cell fs X off) = rd32 (disk fs) (cell fs X off)).
  { intros X off HX Ho. apply rd32_ext. intros x Hx. apply Hsame.
    pose proof (cell_above fs X off HX Ho). lia. }
  assert (Hblk : forall ro, valid ro -> blk_of fs' ino ro = blk_of fs ino ro).
  { intros [|k|k m] Hv; cbn [blk_of]; [reflexivity ..|].
    rewrite Hcell. apply Hrd; [|apply Hv].
    apply (nth_u32 (dindirect ino) k Hdind). }
  split; [exact Hblk|].
  intros idx Hidx. unfold entry_of.
  destruct (Z.ltb_spec idx KTFS_NUM_DIRECT_DATA_BLOCKS) as [|Hd];
    [reflexivity|].
  destruct (role_of_valid idx ltac:(lia)) as (Hv & Ho & _).
  rewrite Hcell, (Hblk _ Hv). apply Hrd; [|lia].
  destruct (role_of idx) as [|k|k m]; cbn [blk_of].
  - apply Hind.
  - apply (nth_u32 (dindirect ino) k Hdind).
  - apply rd32_range. exact Hb.
Qed.

(** *** The file while it grows *)

Section Grow.

(** The file system before the call and the number of blocks the file
    had then. *)
Variable fs0 : file_setup.
Variable c0 : Z.

(** The file and the file system at a point of the call: [P] tells the
    blocks of block numbers that are in use, [D] the indices installed
    since the call began.  The blocks in use are blocks of the bitmap,
    taken there and different from each other; the entries of the new
    indices lead through them to blocks that were free before the call,
    are taken now and are different from each other and from the blocks
    of block numbers. *)
Record inv (P : role -> Prop) (D : Z -> Prop) (fio : ktfs_file)
    (fs : file_setup) : Prop := mkInv {
  inv_wf : wf_fs fs;
  inv_file : wf_file fio;
  inv_sb : super_blk fs = super_blk fs0;
  inv_table :
    dentry_inode fio < INODES_PER_BLK * inode_block_count (super_blk fs0);
  inv_mono :
    forall m, 0 <= m < NB fs0 -> taken fs0 m = true -> taken fs m = true;
  inv_index :
    forall ro, P ro ->
      valid ro /\ 0 <= blk_of fs (file_inode fio) ro < NB fs0 /\
      taken fs (blk_of fs (file_inode fio) ro) = true;
  inv_new :
    forall ro, P ro -> c0 <= start ro ->
      taken fs0 (blk_of fs (file_inode fio) ro) = false;
  inv_apart :
    forall r1 r2, P r1 -> P r2 ->
      blk_of fs (file_inode fio) r1 = blk_of fs (file_inode fio) r2 ->
      r1 = r2;
  inv_closed : forall k m, P (RJ k m) -> P (RD k);
  inv_data :
    forall idx, D idx ->
      0 <= idx < MAX_BLOCKS /\
      (KTFS_NUM_DIRECT_DATA_BLOCKS <= idx -> P (role_of idx)) /\
      0 <= entry_of fs (file_inode fio) idx < NB fs0 /\
      taken fs0 (entry_of fs (file_inode fio) idx) = false /\
      taken fs (entry_of fs (file_inode fio) idx) = true;
  inv_inj :
    forall i j, D i -> D j ->
      entry_of fs (file_inode fio) i = entry_of fs (file_inode fio) j ->
      i = j;
  inv_data_index :
    forall idx ro, D idx -> P ro ->
      entry_of fs (file_inode fio) idx <> blk_of fs (file_inode fio) ro
}.

(** A block that has been taken from the bitmap during the call and has
    no place in the file yet. *)
Definition unused (P : role -> Prop) (D : Z -> Prop) (fio : ktfs_file)
    (fs : file_setup) (n : Z) : Prop :=
  0 <= n < NB fs0 /\ taken fs0 n = false /\ taken fs n = true /\
  (forall ro, P ro -> blk_of fs (file_inode fio) ro <> n) /\
  (forall idx, D idx -> entry_of fs (file_inode fio) idx <> n).

Lemma inv_ext P D P' D' fio fs :
  (forall ro, P' ro <-> P ro) -> (forall idx, D' idx <-> D idx) ->
  inv P D fio fs -> inv P' D' fio fs.
Proof.
  intros HP HD [Hwf Hfile Hsb Htab Hmono Hidx Hnew Hapart Hclosed Hdata Hinj
                Hdi].
  constructor; try assumption.
  - intros ro Hro. apply Hidx, HP, Hro.
  - intros ro Hro. apply Hnew, HP, Hro.
  - intros r1 r2 H1 H2. apply Hapart; apply HP; assumption.
  - intros k m Hj. apply HP, (Hclosed k m), HP, Hj.
  - intros idx Hd. destruct (Hdata idx (proj1 (HD idx) Hd))
      as (Hr & Hp & Hrest).
    split; [exact Hr|]. split; [|exact Hrest].
    intros Hge. apply HP, Hp, Hge.
  - intros i j Hi Hj. apply Hinj; apply HD; assumption.
  - intros idx ro Hd Hro. apply Hdi; [apply HD | apply HP]; assumption.
Qed.

(** A step that changes no entry. *)
Lemma inv_kept P D fio fs fio' fs' :
  inv P D fio fs ->
  wf_fs fs' -> wf_file fio' -> super_blk fs' = super_blk fs ->
  dentry_inode fio' = dentry_inode fio ->
  (forall m, 0 <= m < NB fs0 -> taken fs m = true -> taken fs' m = true) ->
  (forall ro, P ro ->
     blk_of fs' (file_inode fio') ro = blk_of fs (file_inode fio) ro) ->
  (forall idx, D idx ->
     entry_of fs' (file_inode fio') idx = entry_of fs (file_inode fio) idx) ->
  inv P D fio' fs'.
Proof.
  intros [Hwf Hfile Hsb Htab Hmono Hidx Hnew Hapart Hclosed Hdata Hinj Hdi]
         Hwf' Hfile' Hsb' Hdent Htaken Hblk Hent.
  constructor; try assumption.
  - congruence.
  - rewrite Hdent. exact Htab.
  - intros m Hm Ht. apply Htaken, Hmono; assumption.
  - intros ro Hro. rewrite (Hblk ro Hro).
    destruct (Hidx ro Hro) as (Hv & Hr & Ht).
    split; [exact Hv|]. split; [exact Hr|]. apply Htaken; assumption.
  - intros ro Hro Hs. rewrite (Hblk ro Hro). apply Hnew; assumption.
  - intros r1 r2 H1 H2. rewrite (Hblk r1 H1), (Hblk r2 H2).
    apply Hapart; assumption.
  - intros idx Hd. rewrite (Hent idx Hd).
    destruct (Hdata idx Hd) as (Hr & Hp & Hb & Hf & Ht).
    repeat (split; [assumption|]). apply Htaken; assumption.
  - intros i j Hi Hj. rewrite (Hent i Hi), (Hent j Hj). apply Hinj; assumption.
  - intros idx ro Hd Hro. rewrite (Hent idx Hd), (Hblk ro Hro).
    apply Hdi; assumption.
Qed.

Lemma unused_kept P D fio fs fio' fs' n :
  unused P D fio fs n ->
  (forall m, 0 <= m < NB fs0 -> taken fs m = true -> taken fs' m = true) ->
  (forall ro, P ro ->
     blk_of fs' (file_inode fio') ro = blk_of fs (file_inode fio) ro) ->
  (forall idx, D idx ->
     entry_of fs' (file_inode fio') idx = entry_of fs (file_inode fio) idx) ->
  unused P D fio' fs' n.
Proof.
  intros (Hn & Hf & Ht & Hro & Hidx) Htaken Hblk Hent.
  split; [exact Hn|]. split; [exact Hf|]. split; [apply Htaken; assumption|].
  split.
  - intros ro Hp. rewrite (Hblk ro Hp). apply Hro, Hp.
  - intros idx Hd. rewrite (Hent idx Hd). apply Hidx, Hd.
Qed.

(** A step that puts the unused block [n] in the role [ro]. *)
Lemma inv_add_role P D fio fs fio' fs' ro n :
  inv P D fio fs -> unused P D fio fs n ->
  valid ro -> c0 <= start ro ->
  match ro with RJ k _ => P (RD k) | _ => True end ->
  wf_fs fs' -> wf_file fio' -> super_blk fs' = super_blk fs ->
  dentry_inode fio' = dentry_inode fio ->
  (forall m, 0 <= m < NB fs0 -> taken fs m = true -> taken fs' m = true) ->
  (forall ro', P ro' ->
     blk_of fs' (file_inode fio') ro' = blk_of fs (file_inode fio) ro') ->
  (forall idx, D idx ->
     entry_of fs' (file_inode fio') idx = entry_of fs (file_inode fio) idx) ->
  blk_of fs' (file_inode fio') ro = n ->
  inv (fun x => P x \/ x = ro) D fio' fs'.
Proof.
  intros [Hwf Hfile Hsb Htab Hmono Hidx Hnew Hapart Hclosed Hdata Hinj Hdi]
         (Hn & Hf & Ht & Hro & Hnidx) Hv Hstart Hparent
         Hwf' Hfile' Hsb' Hdent Htaken Hblk Hent Hmine.
  constructor; try assumption.
  - congruence.
  - rewrite Hdent. exact Htab.
  - intros m Hm Htm. apply Htaken, Hmono; assumption.
  - intros r [Hr | ->].
    + rewrite (Hblk r Hr). destruct (Hidx r Hr) as (Hv' & Hr' & Ht').
      split; [exact Hv'|]. split; [exact Hr'|]. apply Htaken; assumption.
    + rewrite Hmine. split; [exact Hv|]. split; [exact Hn|].
      apply Htaken; assumption.
  - intros r [Hr | ->] Hs.
    + rewrite (Hblk r Hr). apply Hnew; assumption.
    + rewrite Hmine. exact Hf.
  - intros r1 r2 [H1 | ->] [H2 | ->]; rewrite ?(Hblk r1), ?(Hblk r2), ?Hmine
      by assumption.
    + apply Hapart; assumption.
    + intros E. exfalso. exact (Hro r1 H1 E).
    + intros E. exfalso. symmetry in E. exact (Hro r2 H2 E).
    + reflexivity.
  - intros k m [Hj | <-].
    + left. apply (Hclosed k m Hj).
    + left. exact Hparent.
  - intros idx Hd. rewrite (Hent idx Hd).
    destruct (Hdata idx Hd) as (Hr & Hp & Hb & Hf' & Ht').
    split; [exact Hr|]. split; [intros Hge; left; apply Hp, Hge|].
    split; [exact Hb|]. split; [exact Hf'|]. apply Htaken; assumption.
  - intros i j Hi Hj. rewrite (Hent i Hi), (Hent j Hj). apply Hinj; assumption.
  - intros idx r Hd [Hr | ->]; rewrite (Hent idx Hd).
    + rewrite (Hblk r Hr). apply Hdi; assumption.
    + rewrite Hmine. apply Hnidx, Hd.
Qed.

(** A step that makes the unused block [n] the block of index [idx]. *)
Lemma inv_add_data P D fio fs fio' fs' idx n :
  inv P D fio fs -> unused P D fio fs n ->
  0 <= idx < MAX_BLOCKS ->
  (KTFS_NUM_DIRECT_DATA_BLOCKS <= idx -> P (role_of idx)) ->
  wf_fs fs' -> wf_file fio' -> super_blk fs' = super_blk fs ->
  dentry_inode fio' = dentry_inode fio ->
  (forall m, 0 <= m < NB fs0 -> taken fs m = true -> taken fs' m = true) ->
  (forall ro, P ro ->
     blk_of fs' (file_inode fio') ro = blk_of fs (file_inode fio) ro) ->
  (forall i, D i ->
     entry_of fs' (file_inode fio') i = entry_of fs (file_inode fio) i) ->
  entry_of fs' (file_inode fio') idx = n ->
  inv P (fun i => D i \/ i = idx) fio' fs'.
Proof.
  intros [Hwf Hfile Hsb Htab Hmono Hidx Hnew Hapart Hclosed Hdata Hinj Hdi]
         (Hn & Hf & Ht & Hro & Hnidx) Hrange Hrole
         Hwf' Hfile' Hsb' Hdent Htaken Hblk Hent Hmine.
  constructor; try assumption.
  - congruence.
  - rewrite Hdent. exact Htab.
  - intros m Hm Htm. apply Htaken, Hmono; assumption.
  - intros r Hr. rewrite (Hblk r Hr). destruct (Hidx r Hr) as (Hv' & Hr' & Ht').
    split; [exact Hv'|]. split; [exact Hr'|]. apply Htaken; assumption.
  - intros r Hr Hs. rewrite (Hblk r Hr). apply Hnew; assumption.
  - intros r1 r2 H1 H2. rewrite (Hblk r1 H1), (Hblk r2 H2).
    apply Hapart; assumption.
  - intros i [Hd | ->].
    + rewrite (Hent i Hd). destruct (Hdata i Hd) as (Hr & Hp & Hb & Hf' & Ht').
      repeat (split; [assumption|]). apply Htaken; assumption.
    + rewrite Hmine. split; [exact Hrange|]. split; [exact Hrole|].
      split; [exact Hn|]. split; [exact Hf|]. apply Htaken; assumption.
  - intros i j [Hi | ->] [Hj | ->]; rewrite ?(Hent i), ?(Hent j), ?Hmine
      by assumption.
    + apply Hinj; assumption.
    + intros E. exfalso. exact (Hnidx i Hi E).
    + intros E. exfalso. symmetry in E. exact (Hnidx j Hj E).
    + reflexivity.
  - intros i r [Hd | ->] Hr; rewrite (Hblk r Hr).
    + rewrite (Hent i Hd). apply Hdi; assumption.
    + rewrite Hmine. intros E. symmetry in E. exact (Hro r Hr E).
Qed.

(** *** The steps of the code *)

Lemma inv_g P D fio fs :
  inv P D fio fs ->
  global_datablock_0 fs = global_datablock_0 fs0 /\ NB fs = NB fs0.
Proof.
  intros Hinv. unfold global_datablock_0, NB. rewrite (inv_sb _ _ _ _ Hinv).
  auto.
Qed.

Lemma inv_fields P D fio fs :
  inv P D fio fs ->
  u32 (indirect (file_inode fio)) /\ Forall u32 (dindirect (file_inode fio)) /\
  length (block (file_inode fio)) = 4%nat /\
  length (dindirect (file_inode fio)) = 2%nat /\ 0 <= dentry_inode fio.
Proof.
  intros Hinv. destruct (inv_file _ _ _ _ Hinv) as (H0 & _ & Hb & Hi & Hl & Hd).
  auto.
Qed.

(** The block in a role is a block of the volume. *)
Lemma inv_blk_range P D fio fs ro :
  inv P D fio fs -> P ro -> u32 (blk_of fs (file_inode fio) ro).
Proof.
  intros Hinv Hro. destruct (inv_index _ _ _ _ Hinv ro Hro) as (_ & Hr & _).
  pose proof (NB_small fs (inv_wf _ _ _ _ Hinv)) as Hs.
  destruct (inv_g _ _ _ _ Hinv) as (_ & HN). unfold u32. lia.
Qed.

(** [allocate_open_block] hands out a block that has no place in the
    file. *)
Lemma step_alloc P D fio fs n fs1 :
  inv P D fio fs -> allocate_open_block fs = (n, fs1) -> n <> NO_BLOCK ->
  inv P D fio fs1 /\ unused P D fio fs1 n.
Proof.
  intros Hinv Ha Hne.
  pose proof (inv_wf _ _ _ _ Hinv) as Hwf.
  destruct (allocate_open_block_run fs n fs1 Hwf Ha Hne)
    as (Hn & Hfree & Htaken & Hother & Hwf1 & Hsb & Hkeep).
  destruct (inv_g _ _ _ _ Hinv) as (Hg & HN).
  destruct (inv_fields _ _ _ _ Hinv) as (Hind & Hdind & _).
  fold (NB fs) in Hn. rewrite HN in Hn.
  destruct (reads_above fs fs1 (file_inode fio) Hsb ltac:(apply Hwf) Hind Hdind)
    as (Hblk & Hent).
  { intros a Ha'. apply Hkeep. pose proof (gdb_above fs Hwf). lia. }
  assert (Hmono : forall m, 0 <= m < NB fs0 -> taken fs m = true ->
            taken fs1 m = true).
  { intros m Hm Ht. destruct (Z.eq_dec m n) as [-> | Hmn]; [exact Htaken|].
    rewrite Hother by lia. exact Ht. }
  assert (Hblk' : forall ro, P ro ->
            blk_of fs1 (file_inode fio) ro = blk_of fs (file_inode fio) ro).
  { intros ro Hro. apply Hblk. apply (inv_index _ _ _ _ Hinv ro Hro). }
  assert (Hent' : forall idx, D idx ->
            entry_of fs1 (file_inode fio) idx
            = entry_of fs (file_inode fio) idx).
  { intros idx Hd. apply Hent. apply (inv_data _ _ _ _ Hinv idx Hd). }
  split.
  - apply (inv_kept P D fio fs); try assumption; try reflexivity.
    apply (inv_file _ _ _ _ Hinv).
  - split; [exact Hn|]. split; [|split; [exact Htaken|split]].
    + destruct (taken fs0 n) eqn:E; [|reflexivity].
      rewrite (inv_mono _ _ _ _ Hinv n Hn E) in Hfree. discriminate.
    + intros ro Hro E. rewrite (Hblk' ro Hro) in E.
      destruct (inv_index _ _ _ _ Hinv ro Hro) as (_ & _ & Ht).
      rewrite E, Hfree in Ht. discriminate.
    + intros idx Hd E. rewrite (Hent' idx Hd) in E.
      destruct (inv_data _ _ _ _ Hinv idx Hd) as (_ & _ & _ & _ & Ht).
      rewrite E, Hfree in Ht. discriminate.
Qed.

(** The inode table lies below the data blocks. *)
Lemma inode_below fs dent :
  0 <= dent < INODES_PER_BLK * inode_block_count (super_blk fs) ->
  inode_addr fs dent + 32 <= global_datablock_0 fs * KTFS_BLKSZ.
Proof.
  intros Hd. unfold inode_addr, global_datablock_0. consts.
  change (512 / 32) with 16 in *. Z.div_mod_to_equations. lia.
Qed.

(** [write_inode_to_disk] changes no entry and no bit of the bitmap. *)
Lemma write_inode_frame P D fio fs :
  inv P D fio fs ->
  wf_fs (write_inode_to_disk fio fs) /\
  (forall m, 0 <= m < NB fs0 ->
     taken (write_inode_to_disk fio fs) m = taken fs m) /\
  (forall ro, valid ro ->
     blk_of (write_inode_to_disk fio fs) (file_inode fio) ro
     = blk_of fs (file_inode fio) ro) /\
  (forall idx, 0 <= idx < MAX_BLOCKS ->
     entry_of (write_inode_to_disk fio fs) (file_inode fio) idx
     = entry_of fs (file_inode fio) idx).
Proof.
  intros Hinv.
  pose proof (inv_wf _ _ _ _ Hinv) as Hwf.
  destruct (inv_g _ _ _ _ Hinv) as (Hg & HN).
  destruct (inv_fields _ _ _ _ Hinv) as (Hind & Hdind & Hbl & Hdl & Hdent).
  pose proof (inv_table _ _ _ _ Hinv) as Htab.
  rewrite <- (inv_sb _ _ _ _ Hinv) in Htab.
  split; [apply (evolves_wf 0 fs), evolves_write_inode; assumption|].
  split.
  { intros m Hm. apply write_inode_keeps_bitmap; [exact Hdent|].
    fold (NB fs). rewrite HN. exact Hm. }
  apply reads_above; [reflexivity | apply Hwf | assumption ..|].
  intros a Ha. unfold write_inode_to_disk. cbn [set_disk disk].
  apply rd8_write_bytes_out. right.
  rewrite inode_bytes_length by assumption.
  pose proof (inode_below fs (dentry_inode fio) ltac:(lia)). lia.
Qed.

Lemma step_write_inode P D fio fs :
  inv P D fio fs -> inv P D fio (write_inode_to_disk fio fs).
Proof.
  intros Hinv.
  destruct (write_inode_frame P D fio fs Hinv) as (Hwf' & Ht & Hblk & Hent).
  apply (inv_kept P D fio fs); try assumption; try reflexivity.
  - apply (inv_file _ _ _ _ Hinv).
  - intros m Hm E. rewrite Ht; assumption.
  - intros ro Hro. apply Hblk, (inv_index _ _ _ _ Hinv ro Hro).
  - intros idx Hd. apply Hent, (inv_data _ _ _ _ Hinv idx Hd).
Qed.

(** The size plays no part in where the blocks are. *)
Lemma step_set_size P D fio fs s :
  inv P D fio fs -> u32 s ->
  inv P D (set_file_inode fio (set_size (file_inode fio) s)) fs.
Proof.
  intros Hinv Hs.
  apply (inv_kept P D fio fs); try assumption; try reflexivity.
  - apply (inv_wf _ _ _ _ Hinv).
  - apply wf_file_set_size; [apply (inv_file _ _ _ _ Hinv) | exact Hs].
  - auto.
Qed.

(** A direct block is set in the inode. *)
Lemma step_set_block P D fio fs idx n :
  inv P D fio fs -> unused P D fio fs n ->
  0 <= idx < KTFS_NUM_DIRECT_DATA_BLOCKS -> ~ D idx ->
  inv P (fun i => D i \/ i = idx)
      (set_file_inode fio (set_block (file_inode fio) (Z.to_nat idx) n)) fs.
Proof.
  intros Hinv Hun Hidx Hnew.
  destruct (inv_fields _ _ _ _ Hinv) as (Hind & Hdind & Hbl & Hdl & Hdent).
  pose proof (NB_small fs (inv_wf _ _ _ _ Hinv)) as Hsmall.
  destruct (inv_g _ _ _ _ Hinv) as (_ & HN).
  set (fio' := set_file_inode fio
                 (set_block (file_inode fio) (Z.to_nat idx) n)).
  assert (Hn : wrap32 n = n).
  { apply wrap32_id. destruct Hun as (Hn & _). unfold u32. lia. }
  assert (Hrange : 0 <= idx < MAX_BLOCKS) by (consts; lia).
  assert (Hrole : KTFS_NUM_DIRECT_DATA_BLOCKS <= idx -> P (role_of idx))
    by lia.
  assert (Hfile : wf_file fio')
    by apply wf_file_set_block, (inv_file _ _ _ _ Hinv).
  assert (Hblk : forall ro, P ro ->
            blk_of fs (file_inode fio') ro = blk_of fs (file_inode fio) ro).
  { intros [|k|k m] _; reflexivity. }
  assert (Hent : forall i, D i ->
            entry_of fs (file_inode fio') i
            = entry_of fs (file_inode fio) i).
  { intros i Hd. unfold entry_of.
    destruct (Z.ltb_spec i KTFS_NUM_DIRECT_DATA_BLOCKS) as [Hi | Hi].
    - destruct (inv_data _ _ _ _ Hinv i Hd) as (Hr & _).
      subst fio'. cbn [set_file_inode file_inode set_block block].
      rewrite !nth_lookup, list_lookup_insert_ne; [reflexivity|].
      intros E. apply Hnew. replace idx with i by lia. exact Hd.
    - rewrite (Hblk (role_of i));
        [reflexivity | apply (inv_data _ _ _ _ Hinv i Hd); exact Hi]. }
  assert (Hmine : entry_of fs (file_inode fio') idx = n).
  { unfold entry_of.
    destruct (Z.ltb_spec idx KTFS_NUM_DIRECT_DATA_BLOCKS); [|lia].
    subst fio'. cbn [set_file_inode file_inode set_block block].
    rewrite nth_lookup, list_lookup_insert_eq by (consts; lia).
    cbn [default]. exact Hn. }
  exact (inv_add_data P D fio fs fio' fs idx n Hinv Hun Hrange Hrole
           (inv_wf _ _ _ _ Hinv) Hfile eq_refl eq_refl
           (fun m _ E => E) Hblk Hent Hmine).
Qed.

(** The indirect block is set in the inode. *)
Lemma step_set_indirect P D fio fs n :
  inv P D fio fs -> unused P D fio fs n ->
  c0 <= KTFS_NUM_DIRECT_DATA_BLOCKS -> ~ P RI ->
  inv (fun x => P x \/ x = RI) D
      (set_file_inode fio (set_indirect (file_inode fio) n)) fs.
Proof.
  intros Hinv Hun Hc Hnew.
  pose proof (NB_small fs (inv_wf _ _ _ _ Hinv)) as Hsmall.
  destruct (inv_g _ _ _ _ Hinv) as (_ & HN).
  set (fio' := set_file_inode fio (set_indirect (file_inode fio) n)).
  assert (Hn : wrap32 n = n).
  { apply wrap32_id. destruct Hun as (Hn & _). unfold u32. lia. }
  assert (Hfile : wf_file fio')
    by apply wf_file_set_indirect, (inv_file _ _ _ _ Hinv).
  assert (Hblk : forall ro, P ro ->
            blk_of fs (file_inode fio') ro = blk_of fs (file_inode fio) ro).
  { intros [|k|k m] Hro; [contradiction | reflexivity ..]. }
  assert (Hent : forall i, D i ->
            entry_of fs (file_inode fio') i
            = entry_of fs (file_inode fio) i).
  { intros i Hd. unfold entry_of.
    destruct (Z.ltb_spec i KTFS_NUM_DIRECT_DATA_BLOCKS) as [Hi | Hi];
      [reflexivity|].
    rewrite (Hblk (role_of i));
      [reflexivity | apply (inv_data _ _ _ _ Hinv i Hd); exact Hi]. }
  exact (inv_add_role P D fio fs fio' fs RI n Hinv Hun I Hc I
           (inv_wf _ _ _ _ Hinv) Hfile eq_refl eq_refl
           (fun m _ E => E) Hblk Hent Hn).
Qed.

(** A double-indirect block is set in the inode. *)
Lemma step_set_dindirect P D fio fs k n :
  inv P D fio fs -> unused P D fio fs n ->
  (k < 2)%nat -> c0 <= start (RD k) -> ~ P (RD k) ->
  inv (fun x => P x \/ x = RD k) D
      (set_file_inode fio (set_dindirect (file_inode fio) k n)) fs.
Proof.
  intros Hinv Hun Hk Hc Hnew.
  destruct (inv_fields _ _ _ _ Hinv) as (Hind & Hdind & Hbl & Hdl & Hdent).
  pose proof (NB_small fs (inv_wf _ _ _ _ Hinv)) as Hsmall.
  destruct (inv_g _ _ _ _ Hinv) as (_ & HN).
  set (fio' := set_file_inode fio (set_dindirect (file_inode fio) k n)).
  assert (Hn : wrap32 n = n).
  { apply wrap32_id. destruct Hun as (Hn & _). unfold u32. lia. }
  assert (Hfile : wf_file fio')
    by apply wf_file_set_dindirect, (inv_file _ _ _ _ Hinv).
  assert (Hnth : forall k', k' <> k ->
            nth k' (<[k := wrap32 n]> (dindirect (file_inode fio))) 0
            = nth k' (dindirect (file_inode fio)) 0).
  { intros k' Hk'. rewrite !nth_lookup, list_lookup_insert_ne by congruence.
    reflexivity. }
  assert (Hblk : forall ro, P ro ->
            blk_of fs (file_inode fio') ro = blk_of fs (file_inode fio) ro).
  { intros [|k'|k' m] Hro; subst fio';
      cbn [blk_of set_file_inode file_inode set_dindirect dindirect].
    - reflexivity.
    - apply Hnth. intros ->. contradiction.
    - rewrite Hnth; [reflexivity|]. intros ->.
      apply Hnew, (inv_closed _ _ _ _ Hinv k m Hro). }
  assert (Hent : forall i, D i ->
            entry_of fs (file_inode fio') i
            = entry_of fs (file_inode fio) i).
  { intros i Hd. unfold entry_of.
    destruct (Z.ltb_spec i KTFS_NUM_DIRECT_DATA_BLOCKS) as [Hi | Hi];
      [reflexivity|].
    rewrite (Hblk (role_of i));
      [reflexivity | apply (inv_data _ _ _ _ Hinv i Hd); exact Hi]. }
  assert (Hmine : blk_of fs (file_inode fio') (RD k) = n).
  { subst fio'. cbn [blk_of set_file_inode file_inode set_dindirect dindirect].
    rewrite nth_lookup, list_lookup_insert_eq by lia. exact Hn. }
  exact (inv_add_role P D fio fs fio' fs (RD k) n Hinv Hun Hk Hc I
           (inv_wf _ _ _ _ Hinv) Hfile eq_refl eq_refl
           (fun m _ E => E) Hblk Hent Hmine).
Qed.

(** A write of a block number into entry [off] of block [X]. *)
Lemma write_cell_frame fs X off n :
  wf_fs fs -> 0 <= X -> 0 <= off < KTFS_BLKS_PER_INDIRECT ->
  let fs' := set_disk fs (wr32 (disk fs) (cell fs X off) n) in
  wf_fs fs' /\
  (forall m, 0 <= m < NB fs -> taken fs' m = taken fs m) /\
  (forall Y off', 0 <= off' < KTFS_BLKS_PER_INDIRECT ->
     Y <> X \/ off' <> off ->
     rd32 (disk fs') (cell fs' Y off') = rd32 (disk fs) (cell fs Y off')) /\
  (0 <= n < 2 ^ 32 -> rd32 (disk fs') (cell fs' X off) = n).
Proof.
  intros Hwf HX Hoff fs'. subst fs'.
  pose proof (gdb_above fs Hwf) as Hg.
  pose proof (cell_above fs X off HX ltac:(lia)) as Hc.
  split; [|split; [|split]].
  - destruct Hwf as (HB & HI & Hb). split; [exact HB|]. split; [exact HI|].
    apply bytes_ok_wr32, Hb.
  - intros m Hm. apply taken_below; [exact Hm|].
    intros a Ha. apply rd8_wr32_out. lia.
  - intros Y off' Ho' Hne. cbn [set_disk disk].
    change (cell (set_disk fs _) Y off') with (cell fs Y off').
    apply rd32_wr32_apart.
    destruct (cell_apart fs X off Y off' ltac:(lia) Ho'
                ltac:(destruct Hne; [left; congruence | right; congruence]));
      lia.
  - intros Hn. cbn [set_disk disk].
    change (cell (set_disk fs _) X off) with (cell fs X off).
    apply rd32_wr32. exact Hn.
Qed.

(** The two writes of the code into blocks of block numbers leave the
    entries of the file alone that they are not meant for. *)
Lemma write_cell_reads P D fio fs ro off n :
  inv P D fio fs -> P ro -> 0 <= off < KTFS_BLKS_PER_INDIRECT ->
  let X := blk_of fs (file_inode fio) ro in
  let fs' := set_disk fs (wr32 (disk fs) (cell fs X off) n) in
  (forall k m, P (RJ k m) -> RD k = ro -> m <> off) ->
  (forall i, D i -> KTFS_NUM_DIRECT_DATA_BLOCKS <= i -> role_of i = ro ->
     off_of i <> off) ->
  (forall ro', P ro' ->
     blk_of fs' (file_inode fio) ro' = blk_of fs (file_inode fio) ro') /\
  (forall i, D i ->
     entry_of fs' (file_inode fio) i = entry_of fs (file_inode fio) i).
Proof.
  intros Hinv Hro Hoff X fs' Hindex Hdata.
  pose proof (inv_wf _ _ _ _ Hinv) as Hwf.
  assert (HX : 0 <= X) by apply (inv_blk_range P D fio fs ro Hinv Hro).
  destruct (write_cell_frame fs X off n Hwf HX Hoff) as (_ & _ & Hrd & _).
  fold fs' in Hrd.
  assert (Hblk : forall ro', P ro' ->
            blk_of fs' (file_inode fio) ro' = blk_of fs (file_inode fio) ro').
  { intros [|k|k m] Hro'; cbn [blk_of]; [reflexivity ..|].
    destruct (inv_index _ _ _ _ Hinv _ Hro') as ((_ & Hm) & _).
    apply Hrd; [exact Hm|].
    pose proof (inv_closed _ _ _ _ Hinv k m Hro') as Hdk.
    destruct (Z.eq_dec (nth k (dindirect (file_inode fio)) 0) X) as [E | E];
      [|left; exact E].
    right. apply (Hindex k m Hro').
    apply (inv_apart _ _ _ _ Hinv (RD k) ro Hdk Hro). exact E. }
  split; [exact Hblk|].
  intros i Hd. unfold entry_of.
  destruct (Z.ltb_spec i KTFS_NUM_DIRECT_DATA_BLOCKS) as [Hi | Hi];
    [reflexivity|].
  destruct (inv_data _ _ _ _ Hinv i Hd) as (Hr & Hp & _).
  specialize (Hp Hi). rewrite (Hblk _ Hp).
  destruct (role_of_valid i ltac:(lia)) as (_ & Ho & _).
  apply Hrd; [exact Ho|].
  destruct (Z.eq_dec (blk_of fs (file_inode fio) (role_of i)) X) as [E | E];
    [|left; exact E].
  right. apply (Hdata i Hd Hi).
  apply (inv_apart _ _ _ _ Hinv (role_of i) ro Hp Hro). exact E.
Qed.

(** An indirect block is entered in a double-indirect block. *)
Lemma step_write_index P D fio fs k m n :
  inv P D fio fs -> unused P D fio fs n ->
  valid (RJ k m) -> c0 <= start (RJ k m) -> P (RD k) -> ~ P (RJ k m) ->
  inv (fun x => P x \/ x = RJ k m) D fio
      (set_disk fs
         (wr32 (disk fs) (cell fs (nth k (dindirect (file_inode fio)) 0) m)
               n)).
Proof.
  intros Hinv Hun Hv Hc Hdk Hnew.
  pose proof (inv_wf _ _ _ _ Hinv) as Hwf.
  pose proof (NB_small fs Hwf) as Hsmall.
  destruct (inv_g _ _ _ _ Hinv) as (_ & HN).
  assert (HX : 0 <= nth k (dindirect (file_inode fio)) 0)
    by apply (inv_blk_range P D fio fs (RD k) Hinv Hdk).
  pose proof Hv as (Hk & Hm).
  destruct (write_cell_frame fs _ m n Hwf HX Hm) as (Hwf' & Ht & _ & Hmine).
  destruct (write_cell_reads P D fio fs (RD k) m n Hinv Hdk Hm)
    as (Hblk & Hent).
  { intros k' m' Hj [= ->] ->. contradiction. }
  { intros i Hd Hi E. exfalso. unfold role_of in E.
    destruct (i <? _); discriminate. }
  cbn [blk_of] in Hblk, Hent.
  refine (inv_add_role P D fio fs fio _ (RJ k m) n Hinv Hun Hv Hc Hdk
            Hwf' (inv_file _ _ _ _ Hinv) eq_refl eq_refl _ Hblk Hent _).
  - intros m' Hm' E. rewrite Ht by (rewrite HN; exact Hm'). exact E.
  - cbn [blk_of]. apply Hmine. destruct Hun as (Hn & _). lia.
Qed.

(** A data block is entered in an indirect block. *)
Lemma step_write_data P D fio fs idx n :
  inv P D fio fs -> unused P D fio fs n ->
  KTFS_NUM_DIRECT_DATA_BLOCKS <= idx < MAX_BLOCKS ->
  P (role_of idx) -> ~ D idx ->
  inv P (fun i => D i \/ i = idx) fio
      (set_disk fs
         (wr32 (disk fs)
               (cell fs (blk_of fs (file_inode fio) (role_of idx))
                     (off_of idx)) n)).
Proof.
  intros Hinv Hun Hidx Hro Hnew.
  pose proof (inv_wf _ _ _ _ Hinv) as Hwf.
  pose proof (NB_small fs Hwf) as Hsmall.
  destruct (inv_g _ _ _ _ Hinv) as (_ & HN).
  destruct (role_of_valid idx Hidx) as (Hv & Hoff & _).
  assert (HX : 0 <= blk_of fs (file_inode fio) (role_of idx))
    by apply (inv_blk_range P D fio fs _ Hinv Hro).
  destruct (write_cell_frame fs _ (off_of idx) n Hwf HX Hoff)
    as (Hwf' & Ht & _ & Hmine).
  destruct (write_cell_reads P D fio fs (role_of idx) (off_of idx) n Hinv Hro
              Hoff) as (Hblk & Hent).
  { intros k' m' Hj E. exfalso. unfold role_of in E.
    destruct (idx <? _); discriminate. }
  { intros i Hd Hi E Eo. apply Hnew.
    destruct (inv_data _ _ _ _ Hinv i Hd) as (Hr & _).
    rewrite <- (place_inj i idx ltac:(lia) Hidx E Eo). exact Hd. }
  assert (Hrange : 0 <= idx < MAX_BLOCKS) by (consts; lia).
  refine (inv_add_data P D fio fs fio _ idx n Hinv Hun Hrange
            (fun _ => Hro) Hwf' (inv_file _ _ _ _ Hinv) eq_refl eq_refl
            _ Hblk Hent _).
  - intros m' Hm' E. rewrite Ht by (rewrite HN; exact Hm'). exact E.
  - unfold entry_of.
    destruct (Z.ltb_spec idx KTFS_NUM_DIRECT_DATA_BLOCKS); [lia|].
    rewrite (Hblk _ Hro). apply Hmine. destruct Hun as (Hn & _). lia.
Qed.

(** A block that waits for its place stays unused while the inode is
    written. *)
Lemma unused_write_inode P D fio fs n :
  inv P D fio fs -> unused P D fio fs n ->
  unused P D fio (write_inode_to_disk fio fs) n.
Proof.
  intros Hinv Hun.
  destruct (write_inode_frame P D fio fs Hinv) as (_ & Ht & Hblk & Hent).
  apply (unused_kept P D fio fs); [exact Hun | | |].
  - intros m Hm E. rewrite Ht; assumption.
  - intros ro Hro. apply Hblk, (inv_index _ _ _ _ Hinv ro Hro).
  - intros idx Hd. apply Hent, (inv_data _ _ _ _ Hinv idx Hd).
Qed.

(** *** One more block *)

(** The address the code computes for an entry. *)
Lemma pos_cell fs fs' X off :
  wf_fs fs -> u32 X -> super_blk fs' = super_blk fs ->
  wrap64 ((X + global_datablock_0 fs) * KTFS_BLKSZ) + 4 * off = cell fs' X off.
Proof.
  intros Hwf HX Hsb. destruct (data_block_pos fs X Hwf HX) as (-> & _).
  unfold cell, global_datablock_0. rewrite Hsb. reflexivity.
Qed.

(** The offset the code computes inside a double-indirect block. *)
Lemma zof_model idx :
  KTFS_NUM_DIRECT_DATA_BLOCKS + KTFS_BLKS_PER_INDIRECT <= idx < MAX_BLOCKS ->
  (if idx - KTFS_NUM_DIRECT_DATA_BLOCKS - KTFS_BLKS_PER_INDIRECT
      <? KTFS_BLKS_PER_DINDIRECT
   then idx - KTFS_NUM_DIRECT_DATA_BLOCKS - KTFS_BLKS_PER_INDIRECT
   else wrap64 (idx - KTFS_NUM_DIRECT_DATA_BLOCKS - KTFS_BLKS_PER_INDIRECT
                - KTFS_BLKS_PER_DINDIRECT))
  = zof idx.
Proof.
  intros Hidx. unfold zof.
  destruct (kof_cases idx) as [(-> & Hz) | (-> & Hz)];
    destruct (Z.ltb_spec
                (idx - KTFS_NUM_DIRECT_DATA_BLOCKS - KTFS_BLKS_PER_INDIRECT)
                KTFS_BLKS_PER_DINDIRECT); try lia.
  rewrite wrap64_id by (consts; lia). lia.
Qed.

(** The end of the indirect branch enters a block for the index. *)
Lemma enter_indirect_inv P D fio fs idx fio' fs' :
  inv P D fio fs ->
  KTFS_NUM_DIRECT_DATA_BLOCKS <= idx
  < KTFS_NUM_DIRECT_DATA_BLOCKS + KTFS_BLKS_PER_INDIRECT ->
  P RI -> ~ D idx ->
  enter_indirect idx fio fs = Ok (1, fio', fs') ->
  inv P (fun i => D i \/ i = idx) fio' fs'.
Proof.
  intros Hinv Hidx Hri Hnew Hrun. unfold enter_indirect in Hrun.
  cbv zeta in Hrun. apply with_block_one in Hrun.
  destruct Hrun as (n & fs1 & Ha & Hne & Hk). injection Hk as <- <-.
  destruct (step_alloc P D fio fs n fs1 Hinv Ha Hne) as (Hinv1 & Hun1).
  assert (Hrange : KTFS_NUM_DIRECT_DATA_BLOCKS <= idx < MAX_BLOCKS)
    by (consts; lia).
  assert (Hrole : role_of idx = RI).
  { unfold role_of.
    destruct (Z.ltb_spec idx
                (KTFS_NUM_DIRECT_DATA_BLOCKS + KTFS_BLKS_PER_INDIRECT));
      [reflexivity | lia]. }
  assert (Hoff : off_of idx = idx - KTFS_NUM_DIRECT_DATA_BLOCKS).
  { unfold off_of.
    destruct (Z.ltb_spec idx
                (KTFS_NUM_DIRECT_DATA_BLOCKS + KTFS_BLKS_PER_INDIRECT));
      [reflexivity | lia]. }
  pose proof (step_write_data P D fio fs1 idx n Hinv1 Hun1 Hrange
                ltac:(rewrite Hrole; exact Hri) Hnew) as Hstep.
  rewrite Hrole, Hoff in Hstep. cbn [blk_of] in Hstep.
  rewrite (pos_cell fs fs1 (indirect (file_inode fio)) _
             (inv_wf _ _ _ _ Hinv)
             (proj1 (inv_fields _ _ _ _ Hinv))).
  - exact Hstep.
  - rewrite (inv_sb _ _ _ _ Hinv1), (inv_sb _ _ _ _ Hinv). reflexivity.
Qed.

(** The end of the double-indirect branch enters a block for the index,
    and before that an indirect block for the first index of 128. *)
Lemma enter_dindirect_inv P D fio fs idx fio' fs' :
  inv P D fio fs ->
  KTFS_NUM_DIRECT_DATA_BLOCKS + KTFS_BLKS_PER_INDIRECT <= idx < MAX_BLOCKS ->
  c0 <= idx ->
  P (RD (kof idx)) -> ~ D idx ->
  (off_of idx = 0 -> ~ P (role_of idx)) ->
  (off_of idx <> 0 -> P (role_of idx)) ->
  enter_dindirect
    (idx - KTFS_NUM_DIRECT_DATA_BLOCKS - KTFS_BLKS_PER_INDIRECT) fio fs
  = Ok (1, fio', fs') ->
  inv (fun x => P x \/ (off_of idx = 0 /\ x = role_of idx))
      (fun i => D i \/ i = idx) fio' fs'.
Proof.
  intros Hinv Hidx Hc Hdk Hnew Hfirst Hlater Hrun.
  unfold enter_dindirect in Hrun. cbv zeta in Hrun.
  rewrite (zof_model idx Hidx) in Hrun.
  change (if idx - KTFS_NUM_DIRECT_DATA_BLOCKS - KTFS_BLKS_PER_INDIRECT
             <? KTFS_BLKS_PER_DINDIRECT then 0%nat else 1%nat)
    with (kof idx) in Hrun.
  destruct (zof_range idx Hidx) as (Hk & Hm & Hr & Hs).
  rewrite !to_int_id in Hrun by (consts; lia).
  assert (Hrange : KTFS_NUM_DIRECT_DATA_BLOCKS <= idx < MAX_BLOCKS)
    by (consts; lia).
  assert (Hrole : role_of idx
                  = RJ (kof idx) (zof idx / KTFS_BLKS_PER_INDIRECT)).
  { unfold role_of.
    destruct (Z.ltb_spec idx
                (KTFS_NUM_DIRECT_DATA_BLOCKS + KTFS_BLKS_PER_INDIRECT));
      [lia | reflexivity]. }
  assert (Hoff : off_of idx = zof idx mod KTFS_BLKS_PER_INDIRECT).
  { unfold off_of.
    destruct (Z.ltb_spec idx
                (KTFS_NUM_DIRECT_DATA_BLOCKS + KTFS_BLKS_PER_INDIRECT));
      [lia | reflexivity]. }
  rewrite Hrole, Hoff in *.
  set (k := kof idx) in *. set (m := zof idx / KTFS_BLKS_PER_INDIRECT) in *.
  set (r := zof idx mod KTFS_BLKS_PER_INDIRECT) in *.
  (* the part from the look-up of the indirect block on *)
  assert (Hrest : forall Q fsa,
            inv Q D fio fsa -> super_blk fsa = super_blk fs ->
            Q (RJ k m) ->
            (indirectnum <- get_u32 (disk fsa)
                 (wrap64 ((nth k (dindirect (file_inode fio)) 0
                           + global_datablock_0 fs) * KTFS_BLKSZ)) m ;;
             with_block fio fsa (fun alloc_block fs1 =>
               Ok (1, fio,
                   set_disk fs1
                     (wr32 (disk fs1)
                        (wrap64 ((indirectnum + global_datablock_0 fsa)
                                 * KTFS_BLKSZ) + 4 * r) alloc_block))))
            = Ok (1, fio', fs') ->
            inv Q (fun i => D i \/ i = idx) fio' fs').
  { intros Q fsa Hinva Hsba Hq Hruna.
    rewrite get_u32_ok in Hruna by exact Hm. cbn [bind] in Hruna.
    apply with_block_one in Hruna.
    destruct Hruna as (n & fs1 & Ha & Hne & Hka). injection Hka as <- <-.
    destruct (step_alloc Q D fio fsa n fs1 Hinva Ha Hne) as (Hinv1 & Hun1).
    pose proof (step_write_data Q D fio fs1 idx n Hinv1 Hun1 Hrange
                  ltac:(rewrite Hrole; exact Hq) Hnew) as Hstep.
    rewrite Hrole, Hoff in Hstep. cbn [blk_of] in Hstep. fold k m r in Hstep.
    assert (Hsb1 : super_blk fs1 = super_blk fsa)
      by (rewrite (inv_sb _ _ _ _ Hinv1), (inv_sb _ _ _ _ Hinva);
          reflexivity).
    assert (Hdku : u32 (nth k (dindirect (file_inode fio)) 0))
      by (apply nth_u32, (inv_fields _ _ _ _ Hinva)).
    rewrite (pos_cell fs fsa _ m (inv_wf _ _ _ _ Hinv) Hdku Hsba).
    assert (Hsame : rd32 (disk fs1)
                      (cell fs1 (nth k (dindirect (file_inode fio)) 0) m)
                    = rd32 (disk fsa)
                        (cell fsa (nth k (dindirect (file_inode fio)) 0) m)).
    { destruct (inv_index _ _ _ _ Hinva _ Hq) as (_ & Hb & _).
      destruct (inv_index _ _ _ _ Hinv1 _ Hq) as (_ & Hb1 & _).
      cbn [blk_of] in Hb, Hb1.
      pose proof (inv_wf _ _ _ _ Hinva) as Hwfa.
      destruct (allocate_open_block_run fsa n fs1 Hwfa Ha Hne)
        as (_ & _ & _ & _ & _ & _ & Hkeep).
      unfold cell, global_datablock_0. rewrite Hsb1.
      apply rd32_ext. intros x Hx. apply Hkeep.
      pose proof (gdb_above fsa Hwfa) as Hg.
      unfold global_datablock_0 in Hg. unfold u32 in Hdku. consts. lia. }
    rewrite Hsame in Hstep.
    rewrite (pos_cell fsa fs1 _ r (inv_wf _ _ _ _ Hinva)
               ltac:(apply rd32_range, (inv_wf _ _ _ _ Hinva)) Hsb1).
    exact Hstep. }
  destruct (Z.eqb_spec r 0) as [Hr0 | Hr0].
  - (* the indirect block is allocated first *)
    apply with_block_one in Hrun.
    destruct Hrun as (n & fs1 & Ha & Hne & Hka).
    rewrite set_u32_ok in Hka by exact Hm. cbn [bind] in Hka.
    destruct (step_alloc P D fio fs n fs1 Hinv Ha Hne) as (Hinv1 & Hun1).
    assert (Hsb1 : super_blk fs1 = super_blk fs)
      by (rewrite (inv_sb _ _ _ _ Hinv1), (inv_sb _ _ _ _ Hinv);
          reflexivity).
    assert (Hdku : u32 (nth k (dindirect (file_inode fio)) 0))
      by (apply nth_u32, (inv_fields _ _ _ _ Hinv)).
    rewrite (pos_cell fs fs1 _ m (inv_wf _ _ _ _ Hinv) Hdku Hsb1) in Hka.
    pose proof (step_write_index P D fio fs1 k m n Hinv1 Hun1
                  (conj Hk Hm) ltac:(cbn [start] in *; lia) Hdk
                  (Hfirst Hr0)) as Hstep.
    eapply inv_ext; [| |apply (Hrest _ _ Hstep Hsb1 (or_intror eq_refl))].
    + intros ro. split; [intros [Hp | (_ & ->)] | intros [Hp | ->]]; auto.
    + reflexivity.
    + exact Hka.
  - eapply inv_ext; [| |apply (Hrest _ _ Hinv eq_refl (Hlater Hr0) Hrun)].
    + intros ro. split; [intros [Hp | (E & _)] | intros Hp]; auto.
      contradiction.
    + reflexivity.
Qed.

(** The blocks of block numbers in use when the file has [c] blocks,
    those that an index from [c0] on has or will have its entry in; and
    the indices installed since the call began. *)
Definition active (c : Z) (ro : role) : Prop :=
  valid ro /\ start ro < c /\ c0 < start ro + span ro.

Definition added_since (c : Z) (idx : Z) : Prop := c0 <= idx < c.

Lemma span_pos ro : 0 < span ro.
Proof. destruct ro; cbn; consts; lia. Qed.

Lemma active_next c ro :
  c0 <= c -> active (c + 1) ro <-> active c ro \/ (valid ro /\ start ro = c).
Proof.
  intros Hc. unfold active. pose proof (span_pos ro). split.
  - intros (Hv & Hs & Hr). destruct (Z.eq_dec (start ro) c); [right | left];
      repeat split; auto; lia.
  - intros [(Hv & Hs & Hr) | (Hv & Hs)]; repeat split; auto; lia.
Qed.

Lemma added_next c idx :
  c0 <= c -> added_since (c + 1) idx <-> added_since c idx \/ idx = c.
Proof. intros Hc. unfold added_since. lia. Qed.

(** The blocks of block numbers that index [c] is the first to need. *)
Lemma starts_low c ro :
  0 <= c < KTFS_NUM_DIRECT_DATA_BLOCKS + KTFS_BLKS_PER_INDIRECT ->
  valid ro /\ start ro = c <-> c = KTFS_NUM_DIRECT_DATA_BLOCKS /\ ro = RI.
Proof.
  intros Hc. split.
  - intros (Hv & Hs). destruct ro as [|k|k m]; cbn [start valid] in *;
      [auto | consts; lia | consts; lia].
  - intros (-> & ->). split; [exact I | reflexivity].
Qed.

Lemma starts_high c ro :
  KTFS_NUM_DIRECT_DATA_BLOCKS + KTFS_BLKS_PER_INDIRECT <= c < MAX_BLOCKS ->
  valid ro /\ start ro = c <->
  (zof c = 0 /\ ro = RD (kof c)) \/ (off_of c = 0 /\ ro = role_of c).
Proof.
  intros Hc.
  assert (Hrange : KTFS_NUM_DIRECT_DATA_BLOCKS <= c < MAX_BLOCKS)
    by (consts; lia).
  destruct (role_of_valid c Hrange) as (Hvr & Hor & Hsr).
  destruct (zof_range c Hc) as (Hk & Hm & Hr & Hs).
  split.
  - intros (Hv & Hst). destruct ro as [|k|k m].
    + cbn [start] in Hst. consts. lia.
    + left. cbn [start valid] in *.
      assert (k = kof c).
      { destruct (kof_cases c) as [(E & Hz) | (E & Hz)]; rewrite E;
          consts; lia. }
      subst k. split; [unfold zof; lia | reflexivity].
    + right.
      assert (E : role_of c = RJ k m).
      { apply role_of_start; [exact Hv | exact Hrange | exact I |].
        cbn [span]. consts. lia. }
      split; [|symmetry; exact E]. rewrite E in Hsr. lia.
  - intros [(Hz & ->) | (Ho & ->)].
    + split; [exact Hk|]. cbn [start]. unfold zof in Hz. lia.
    + split; [exact Hvr | lia].
Qed.

(** [add_new_inode_datablk] for block [c] of a file of [c] blocks. *)
Lemma add_block_inv c fio fs fio' fs' :
  inv (active c) (added_since c) fio fs ->
  c0 <= c -> 1 <= c < MAX_BLOCKS ->
  add_new_inode_datablk fio (c - 1) fs = Ok (1, fio', fs') ->
  inv (active (c + 1)) (added_since (c + 1)) fio' fs'.
Proof.
  intros Hinv Hc0 Hc Hrun.
  assert (Hnew : ~ added_since c c) by (unfold added_since; lia).
  assert (HD : forall idx,
            added_since (c + 1) idx <-> added_since c idx \/ idx = c)
    by (intros idx; apply added_next, Hc0).
  unfold add_new_inode_datablk in Hrun. cbv zeta in Hrun.
  replace (c - 1 + 1) with c in Hrun by lia.
  rewrite (wrap64_id c) in Hrun by (consts; lia).
  destruct (Z.ltb_spec c KTFS_NUM_DIRECT_DATA_BLOCKS) as [Hdirect | Hdirect].
  { (* a direct block *)
    apply with_block_one in Hrun.
    destruct Hrun as (n & fs1 & Ha & Hne & Hk). injection Hk as <- <-.
    destruct (step_alloc _ _ fio fs n fs1 Hinv Ha Hne) as (Hinv1 & Hun1).
    pose proof (step_set_block _ _ fio fs1 c n Hinv1 Hun1 ltac:(lia) Hnew)
      as Hinv2.
    apply step_write_inode in Hinv2.
    eapply inv_ext; [| |exact Hinv2]; [|exact HD].
    intros ro. rewrite (active_next c ro Hc0), starts_low by (consts; lia).
    split; [intros [Hp | (E & _)]; [exact Hp | lia] | auto]. }
  destruct (Z.ltb_spec c (KTFS_BLKS_PER_INDIRECT + KTFS_NUM_DIRECT_DATA_BLOCKS))
    as [Hind | Hind].
  { (* an entry of the indirect block *)
    assert (HP : forall ro,
              active (c + 1) ro <->
              active c ro \/ (c = KTFS_NUM_DIRECT_DATA_BLOCKS /\ ro = RI)).
    { intros ro. rewrite (active_next c ro Hc0), starts_low by (consts; lia).
      reflexivity. }
    destruct (Z.ltb_spec (c - 1) KTFS_NUM_DIRECT_DATA_BLOCKS) as [Hfirst | Hlater].
    - (* the indirect block is allocated first *)
      assert (Ec : c = KTFS_NUM_DIRECT_DATA_BLOCKS) by lia.
      apply with_block_one in Hrun.
      destruct Hrun as (n & fs1 & Ha & Hne & Hk).
      destruct (step_alloc _ _ fio fs n fs1 Hinv Ha Hne) as (Hinv1 & Hun1).
      assert (Hnot : ~ active c RI)
        by (unfold active; cbn [start]; lia).
      pose proof (step_set_indirect _ _ fio fs1 n Hinv1 Hun1 ltac:(lia) Hnot)
        as Hinv2.
      apply step_write_inode in Hinv2.
      pose proof (enter_indirect_inv _ _ _ _ c fio' fs' Hinv2 ltac:(lia)
                    (or_intror eq_refl) Hnew Hk) as Hinv3.
      eapply inv_ext; [| |exact Hinv3]; [|exact HD].
      intros ro. rewrite HP.
      split; [intros [Hp | (_ & ->)] | intros [Hp | ->]]; auto.
    - assert (Hri : active c RI).
      { unfold active. cbn [valid start span]. consts. lia. }
      pose proof (enter_indirect_inv _ _ _ _ c fio' fs' Hinv ltac:(lia)
                    Hri Hnew Hrun) as Hinv3.
      eapply inv_ext; [| |exact Hinv3]; [|exact HD].
      intros ro. rewrite HP.
      split; [intros [Hp | (E & _)]; [exact Hp | lia] | auto]. }
  (* an entry of an indirect block under a double-indirect block *)
  assert (Hhigh : KTFS_NUM_DIRECT_DATA_BLOCKS + KTFS_BLKS_PER_INDIRECT
                  <= c < MAX_BLOCKS) by lia.
  assert (Hrange : KTFS_NUM_DIRECT_DATA_BLOCKS <= c < MAX_BLOCKS)
    by (consts; lia).
  destruct (role_of_valid c Hrange) as (Hvr & Hor & Hsr).
  destruct (zof_range c Hhigh) as (Hk & Hm & Hr & Hs).
  rewrite (wrap64_id (c - _ - _)) in Hrun by (consts; lia).
  assert (HP : forall ro,
            active (c + 1) ro <->
            active c ro \/
            ((zof c = 0 /\ ro = RD (kof c)) \/
             (off_of c = 0 /\ ro = role_of c))).
  { intros ro. rewrite (active_next c ro Hc0), (starts_high c ro Hhigh).
    reflexivity. }
  assert (Hfirst : forall Q : role -> Prop,
            (forall ro, Q ro -> active c ro \/ ro = RD (kof c)) ->
            off_of c = 0 -> ~ Q (role_of c)).
  { intros Q HQ Ho Hq. destruct (HQ _ Hq) as [(_ & Hlt & _) | E].
    - lia.
    - unfold role_of in E. destruct (c <? _); discriminate. }
  assert (Hlater : off_of c <> 0 -> active c (role_of c)).
  { intros Ho. split; [exact Hvr|]. split; [lia|].
    destruct (role_of c); cbn [span]; consts; lia. }
  assert (Hfresh : forall k,
            k = kof c -> zof c = 0 ->
            with_block fio fs (fun alloc_block fs1 =>
              let fio1 :=
                set_file_inode fio
                  (set_dindirect (file_inode fio) k alloc_block) in
              enter_dindirect
                (c - KTFS_NUM_DIRECT_DATA_BLOCKS - KTFS_BLKS_PER_INDIRECT)
                fio1 (write_inode_to_disk fio1 fs1))
            = Ok (1, fio', fs') ->
            inv (active (c + 1)) (added_since (c + 1)) fio' fs').
  { intros k -> Hz Hrun'. apply with_block_one in Hrun'.
    destruct Hrun' as (n & fs1 & Ha & Hne & Hk'). cbv zeta in Hk'.
    destruct (step_alloc _ _ fio fs n fs1 Hinv Ha Hne) as (Hinv1 & Hun1).
    assert (Hst : start (RD (kof c)) = c)
      by (cbn [start]; unfold zof in Hz; lia).
    assert (Hnot : ~ active c (RD (kof c)))
      by (unfold active; rewrite Hst; lia).
    pose proof (step_set_dindirect _ _ fio fs1 (kof c) n Hinv1 Hun1 Hk
                  ltac:(lia) Hnot) as Hinv2.
    apply step_write_inode in Hinv2.
    pose proof (enter_dindirect_inv _ _ _ _ c fio' fs' Hinv2 Hhigh Hc0
                  (or_intror eq_refl) Hnew
                  (Hfirst _ (fun ro H => H))
                  (fun Ho => or_introl (Hlater Ho)) Hk') as Hinv3.
    eapply inv_ext; [| |exact Hinv3]; [|exact HD].
    intros ro. rewrite HP. split.
    - intros [Hp | [(_ & ->) | Hn]]; auto.
    - intros [[Hp | ->] | Hn]; auto. }
  destruct (Z.eqb_spec (c - KTFS_NUM_DIRECT_DATA_BLOCKS - KTFS_BLKS_PER_INDIRECT)
              0) as [Hz0 | Hz0].
  { assert (E : kof c = 0%nat) by (unfold kof; rewrite Hz0; reflexivity).
    apply (Hfresh 0%nat); [symmetry; exact E | |exact Hrun].
    unfold zof. rewrite E. lia. }
  destruct (Z.eqb_spec (c - KTFS_NUM_DIRECT_DATA_BLOCKS - KTFS_BLKS_PER_INDIRECT)
              KTFS_BLKS_PER_DINDIRECT) as [Hz1 | Hz1].
  { assert (E : kof c = 1%nat) by (unfold kof; rewrite Hz1; reflexivity).
    apply (Hfresh 1%nat); [symmetry; exact E | |exact Hrun].
    unfold zof. rewrite E. lia. }
  assert (Hznz : zof c <> 0).
  { unfold zof. destruct (kof_cases c) as [(-> & Hz) | (-> & Hz)]; lia. }
  assert (Hzr : 0 <= zof c < KTFS_BLKS_PER_DINDIRECT).
  { unfold zof. destruct (kof_cases c) as [(-> & Hz) | (-> & Hz)];
      consts; lia. }
  assert (Hdk : active c (RD (kof c))).
  { split; [exact Hk|]. cbn [start span]. unfold zof in Hzr, Hznz. lia. }
  pose proof (enter_dindirect_inv _ _ _ _ c fio' fs' Hinv Hhigh Hc0 Hdk Hnew
                (Hfirst _ (fun ro H => or_introl H)) Hlater Hrun) as Hinv3.
  eapply inv_ext; [| |exact Hinv3]; [|exact HD].
  intros ro. rewrite HP. split.
  - intros [Hp | [(E & _) | Hn]]; auto. contradiction.
  - intros [Hp | Hn]; auto.
Qed.

(** *** The loop of the grow branch *)

(** One round of the loop that allocates. *)
Lemma grow_round_inv fuel junk e fio fs :
  let s := size (file_inode fio) in
  inv (active (cdiv s)) (added_since (cdiv s)) fio fs ->
  c0 <= cdiv s ->
  s < e -> KTFS_BLKSZ * cdiv s <= e -> e / KTFS_BLKSZ < MAX_BLOCKS ->
  (s = 0 -> junk <> - ENODATABLKS) ->
  blocks_for (cdiv s) <= free_blocks fs ->
  exists fio3 fs2,
    grow (S fuel) junk e fio fs = grow fuel junk e fio3 fs2 /\
    size (file_inode fio3) = KTFS_BLKSZ * (cdiv s + 1) /\
    evolves (blocks_for (cdiv s)) fs fs2 /\
    inv (active (cdiv s + 1)) (added_since (cdiv s + 1)) fio3 fs2.
Proof.
  intros s Hinv Hc0 Hlt Hr He Hjunk Hfree.
  pose proof (inv_wf _ _ _ _ Hinv) as Hw.
  pose proof (inv_file _ _ _ _ Hinv) as Hf.
  assert (Hs : u32 s) by apply Hf.
  assert (Hc : 0 <= cdiv s < MAX_BLOCKS) by (clear Hfree; blk_arith).
  cbn [grow]. fold s.
  destruct (Z.ltb_spec s e); [|lia].
  rewrite round_up_size_cdiv by (clear Hfree; blk_arith).
  set (fio1 := set_file_inode fio
                 (set_size (file_inode fio) (KTFS_BLKSZ * cdiv s))).
  change (size (file_inode fio1)) with (KTFS_BLKSZ * cdiv s).
  destruct (Z.ltb_spec e (KTFS_BLKSZ * cdiv s)); [lia|].
  assert (Hu1 : u32 (KTFS_BLKSZ * cdiv s)) by (clear Hfree; blk_arith).
  assert (Hf1 : wf_file fio1) by (apply (wf_file_set_size fio _ Hf Hu1)).
  pose proof (step_set_size _ _ fio fs _ Hinv Hu1) as Hinv1. fold fio1 in Hinv1.
  destruct (Z.eqb_spec (KTFS_BLKSZ * cdiv s) 0) as [Hz | Hnz].
  - assert (Hcz : cdiv s = 0) by (unfold KTFS_BLKSZ in Hz; lia).
    assert (Hs0 : s = 0) by (clear Hfree; blk_arith).
    assert (Hfree1 : 0 < free_blocks fs)
      by (rewrite Hcz in Hfree; cbn in Hfree; lia).
    destruct (allocate_open_block_ok fs Hw Hfree1)
      as (n & fs1 & Ha & Hn & Hev).
    assert (Hne : n <> NO_BLOCK).
    { assert (Hno : NO_BLOCK = 2 ^ 64 - 15) by reflexivity. lia. }
    unfold with_block. rewrite Ha.
    destruct (Z.eqb_spec n NO_BLOCK) as [|_]; [contradiction|].
    cbn [bind].
    destruct (Z.eqb_spec junk (- ENODATABLKS)) as [Hj | _];
      [exfalso; exact (Hjunk Hs0 Hj)|].
    rewrite Hcz in Hinv1, Hc0 |- *.
    destruct (step_alloc _ _ fio1 fs n fs1 Hinv1 Ha Hne) as (Hinv2 & Hun2).
    assert (Hnew : ~ added_since 0 0) by (unfold added_since; lia).
    pose proof (step_set_block _ _ fio1 fs1 0 n Hinv2 Hun2
                  ltac:(consts; lia) Hnew) as Hinv3.
    apply step_write_inode in Hinv3.
    change (Z.to_nat 0) with 0%nat in Hinv3.
    eexists _, _. split; [reflexivity|].
    split; [|split].
    + cbn [set_file_inode set_size set_block file_inode size].
      subst fio1. cbn [set_file_inode set_size set_block file_inode size].
      rewrite Hcz. reflexivity.
    + change (blocks_for 0) with (1 + 0).
      eapply evolves_trans; [exact Hev|].
      apply evolves_write_inode; [eapply evolves_wf; exact Hev | apply Hf].
    + apply step_set_size; [|apply wrap32_u32].
      eapply inv_ext; [| |exact Hinv3].
      * intros ro. rewrite (active_next 0 ro Hc0).
        rewrite starts_low by (consts; lia).
        split; [intros [Hp | (E & _)]; [exact Hp | discriminate E] | auto].
      * intros idx. apply (added_next 0 idx Hc0).
  - assert (Hold : wrap32 (KTFS_BLKSZ * cdiv s - 1) / KTFS_BLKSZ = cdiv s - 1).
    { rewrite wrap32_id by (clear Hfree; blk_arith). clear Hfree. blk_arith. }
    rewrite Hold.
    destruct (add_new_inode_datablk_ok fs fio1 (cdiv s - 1) Hw Hf1)
      as (fio2 & fs2 & Heq & Hf2 & Hs2 & Hi2 & Hev).
    + clear Hfree. blk_arith.
    + clear Hfree. blk_arith.
    + replace (cdiv s - 1 + 1) with (cdiv s) by lia. exact Hfree.
    + pose proof (add_block_inv (cdiv s) fio1 fs fio2 fs2 Hinv1 Hc0
                    ltac:(clear Hfree; blk_arith) Heq) as Hinv2.
      rewrite Heq. cbn [bind].
      change (1 =? - ENODATABLKS) with false. cbv iota.
      eexists _, _. split; [reflexivity|].
      split; [|split].
      * cbn [set_file_inode set_size file_inode size]. rewrite Hs2.
        change (size (file_inode fio1)) with (KTFS_BLKSZ * cdiv s).
        rewrite wrap32_id by (clear Hfree; blk_arith).
        clear Hfree. blk_arith.
      * replace (cdiv s - 1 + 1) with (cdiv s) in Hev by lia. exact Hev.
      * apply step_set_size; [exact Hinv2 | apply wrap32_u32].
Qed.

(** The end of the call: the size is set and the inode written. *)
Lemma set_end_inv P D e k fio fs :
  inv P D fio fs -> evolves k fs0 fs -> u32 e ->
  exists fio' fs',
    (let '(fio2, fs2) := set_end_and_write fio e fs in Ok (0, fio2, fs2))
    = Ok (0, fio', fs') /\
    size (file_inode fio') = e /\
    read_bytes (disk fs') (inode_addr fs' (dentry_inode fio')) 32
    = inode_bytes (file_inode fio') /\
    evolves k fs0 fs' /\ inv P D fio' fs'.
Proof.
  intros Hinv Hev Hu.
  destruct (set_end_and_write_ok e k fio fs0 fs (inv_file _ _ _ _ Hinv) Hev Hu)
    as (fio' & fs' & Heq & Hsz & _ & _ & Hrd & Hev').
  exists fio', fs'. split; [exact Heq|]. split; [exact Hsz|].
  split; [exact Hrd|]. split; [exact Hev'|].
  unfold set_end_and_write in Heq. cbv zeta in Heq. injection Heq as <- <-.
  apply step_write_inode, step_set_size; [exact Hinv | apply wrap32_u32].
Qed.

(** The loop, [n] allocating rounds from a size whose last block ends
    before the target. *)
Lemma grow_rounds_inv junk e :
  e / KTFS_BLKSZ < MAX_BLOCKS ->
  forall n fuel fio fs k,
  let c := cdiv (size (file_inode fio)) in
  (n <= fuel)%nat ->
  inv (active c) (added_since c) fio fs -> c0 <= c ->
  evolves k fs0 fs ->
  size (file_inode fio) < e -> KTFS_BLKSZ * c < e ->
  Z.of_nat n = cdiv e - c ->
  (size (file_inode fio) = 0 -> junk <> - ENODATABLKS) ->
  blocks_needed n c <= free_blocks fs ->
  exists fio' fs',
    grow fuel junk e fio fs = Ok (0, fio', fs') /\
    size (file_inode fio') = e /\
    read_bytes (disk fs') (inode_addr fs' (dentry_inode fio')) 32
    = inode_bytes (file_inode fio') /\
    evolves (k + blocks_needed n c) fs0 fs' /\
    inv (active (cdiv e)) (added_since (cdiv e)) fio' fs'.
Proof.
  intros He n. induction n as [|n IH];
    intros fuel fio fs k c Hfuel Hinv Hc0 Hev Hlt Hr Hn Hjunk Hfree.
  { exfalso. subst c. clear - Hn Hr He Hlt. blk_arith. }
  destruct fuel as [|fuel]; [lia|].
  set (s := size (file_inode fio)) in *.
  assert (Hs : u32 s) by apply (inv_file _ _ _ _ Hinv).
  cbn [blocks_needed] in *.
  pose proof (blocks_for_pos c) as Hb.
  assert (Hbn : forall m x, 0 <= blocks_needed m x).
  { induction m as [|m IHm]; intros x; cbn [blocks_needed]; [lia|].
    pose proof (blocks_for_pos x). pose proof (IHm (x + 1)). lia. }
  pose proof (Hbn n (c + 1)) as Hbn1.
  assert (Hfree0 : blocks_for c <= free_blocks fs) by lia.
  destruct (grow_round_inv fuel junk e fio fs Hinv Hc0 Hlt ltac:(fold s; fold c; lia)
              He Hjunk Hfree0)
    as (fio3 & fs2 & -> & Hs3 & Hev3 & Hinv3).
  fold s in Hs3, Hev3, Hinv3. fold c in Hs3, Hev3, Hinv3.
  assert (Hc3 : cdiv (size (file_inode fio3)) = c + 1).
  { rewrite Hs3. clear. blk_arith. }
  pose proof (evolves_trans _ _ _ _ _ Hev Hev3) as Hev'.
  rewrite Z.add_assoc.
  destruct (Z.lt_ge_cases (size (file_inode fio3)) e) as [Hlt3 | Hge3].
  - rewrite <- Hc3. apply IH; rewrite ?Hc3; try assumption.
    + lia.
    + lia.
    + rewrite Hs3 in Hlt3. lia.
    + lia.
    + intros Hz. exfalso. rewrite Hs3 in Hz. subst c. clear - Hz Hs.
      blk_arith.
    + destruct Hev3 as (_ & _ & ->). lia.
  - assert (Hn0 : n = 0%nat /\ cdiv e = c + 1).
    { subst c. clear - Hn Hge3 Hs3 Hs Hr He. rewrite Hs3 in Hge3. blk_arith. }
    destruct Hn0 as (-> & Hce). cbn [blocks_needed]. rewrite grow_exit by lia.
    rewrite Z.add_0_r, Hce.
    apply set_end_inv; [exact Hinv3 | exact Hev'|].
    clear - He Hlt Hs. blk_arith.
Qed.

End Grow.

(** *** The set-end command *)

(** The blocks the bitmap gives up when a file of [s] bytes is grown to
    [e] bytes: those for the blocks from block [cdiv s] up to the one
    that holds byte [e - 1], each with the blocks of block numbers it is
    the first to need; none when [e] is within the last block of the
    file. *)
Definition needed (s e : Z) : Z :=
  blocks_needed (Z.to_nat (cdiv e - cdiv s)) (cdiv s).

(** A block that is free in the bitmap of [fs] and taken in that of
    [fs']. *)
Definition fresh_block (fs fs' : file_setup) (b : Z) : Prop :=
  0 <= b < NB fs /\ taken fs b = false /\ taken fs' b = true.

(** The blocks of block numbers a file has and is not done with: the
    indirect block of a file that ends among its entries, and likewise
    the double-indirect block and the indirect block under it.  They
    are blocks of the bitmap, taken there, and different blocks. *)
Definition index_blocks_ok (fs : file_setup) (fio : ktfs_file) : Prop :=
  let c := cdiv (size (file_inode fio)) in
  (forall ro, active c c ro ->
     0 <= blk_of fs (file_inode fio) ro < NB fs /\
     taken fs (blk_of fs (file_inode fio) ro) = true) /\
  (forall r1 r2, active c c r1 -> active c c r2 ->
     blk_of fs (file_inode fio) r1 = blk_of fs (file_inode fio) r2 ->
     r1 = r2).

Lemma to_int_near x y :
  to_int x = to_int y -> - 2 ^ 32 < x - y < 2 ^ 32 -> x = y.
Proof. unfold to_int. intros E Hxy. Z.div_mod_to_equations. lia. Qed.

(** The file before the call. *)
Lemma inv_start fs fio :
  wf_fs fs -> wf_file fio ->
  dentry_inode fio < INODES_PER_BLK * inode_block_count (super_blk fs) ->
  index_blocks_ok fs fio ->
  let c := cdiv (size (file_inode fio)) in
  inv fs c (active c c) (added_since c c) fio fs.
Proof.
  intros Hwf Hfile Htab (Hidx & Hapart) c. fold c in Hidx, Hapart.
  constructor; try assumption; try reflexivity.
  - auto.
  - intros ro Hro. split; [apply Hro | apply Hidx, Hro].
  - intros ro (_ & Hlt & _) Hge. lia.
  - intros k m ((Hk & Hm) & Hlt & Hrel). cbn [start span] in *.
    split; [exact Hk|]. cbn [start span]. consts. lia.
  - intros idx Hd. unfold added_since in Hd. lia.
  - intros i j Hi. unfold added_since in Hi. lia.
  - intros idx ro Hd. unfold added_since in Hd. lia.
Qed.

(** What the grown file shows of its new blocks. *)
Lemma inv_result fs c0 c1 fio' fs' :
  inv fs c0 (active c0 c1) (added_since c0 c1) fio' fs' ->
  let ino := file_inode fio' in
  let g := global_datablock_0 fs in
  (forall idx, c0 <= idx < c1 ->
     exists b, fresh_block fs fs' b /\
       inodeidxblocknum fs' ino idx = Ok (to_int (b + g))) /\
  (forall ro, valid ro -> c0 <= start ro < c1 ->
     fresh_block fs fs' (blk_of fs' ino ro)) /\
  (forall i j, c0 <= i < c1 -> c0 <= j < c1 ->
     inodeidxblocknum fs' ino i = inodeidxblocknum fs' ino j -> i = j) /\
  (forall r1 r2, valid r1 -> valid r2 ->
     c0 <= start r1 < c1 -> c0 <= start r2 < c1 ->
     blk_of fs' ino r1 = blk_of fs' ino r2 -> r1 = r2) /\
  (forall idx ro, c0 <= idx < c1 -> valid ro -> c0 <= start ro < c1 ->
     inodeidxblocknum fs' ino idx <> Ok (to_int (blk_of fs' ino ro + g))).
Proof.
  intros Hinv ino g. subst ino.
  pose proof (inv_wf _ _ _ _ _ _ Hinv) as Hwf.
  destruct (inv_g _ _ _ _ _ _ Hinv) as (Hg & HN).
  destruct (inv_fields _ _ _ _ _ _ Hinv) as (Hind & Hdind & _).
  pose proof (NB_small fs' Hwf) as Hsmall. rewrite HN in Hsmall.
  assert (Hact : forall ro, valid ro -> c0 <= start ro < c1 ->
            active c0 c1 ro).
  { intros ro Hv Hs. pose proof (span_pos ro). split; [exact Hv|]. lia. }
  assert (Hnum : forall idx, c0 <= idx < c1 ->
            0 <= entry_of fs' (file_inode fio') idx < NB fs /\
            inodeidxblocknum fs' (file_inode fio') idx
            = Ok (to_int (entry_of fs' (file_inode fio') idx + g))).
  { intros idx Hidx.
    destruct (inv_data _ _ _ _ _ _ Hinv idx Hidx) as (Hr & _ & Hb & _).
    split; [exact Hb|]. subst g. rewrite <- Hg.
    apply inodeidxblocknum_entry; try assumption. lia. }
  split; [|split; [|split; [|split]]].
  - intros idx Hidx.
    destruct (inv_data _ _ _ _ _ _ Hinv idx Hidx) as (_ & _ & Hb & Hf & Ht).
    exists (entry_of fs' (file_inode fio') idx).
    split; [split; [exact Hb | split; assumption] | apply Hnum, Hidx].
  - intros ro Hv Hs.
    destruct (inv_index _ _ _ _ _ _ Hinv ro (Hact ro Hv Hs)) as (_ & Hb & Ht).
    split; [exact Hb|]. split; [|exact Ht].
    apply (inv_new _ _ _ _ _ _ Hinv ro (Hact ro Hv Hs)). lia.
  - intros i j Hi Hj E.
    destruct (Hnum i Hi) as (Hbi & Ei). destruct (Hnum j Hj) as (Hbj & Ej).
    rewrite Ei, Ej in E. injection E as E.
    apply (inv_inj _ _ _ _ _ _ Hinv i j Hi Hj).
    apply to_int_near in E; lia.
  - intros r1 r2 Hv1 Hv2 Hs1 Hs2.
    apply (inv_apart _ _ _ _ _ _ Hinv); apply Hact; assumption.
  - intros idx ro Hidx Hv Hs E.
    destruct (Hnum idx Hidx) as (Hbi & Ei). rewrite Ei in E. injection E as E.
    destruct (inv_index _ _ _ _ _ _ Hinv ro (Hact ro Hv Hs)) as (_ & Hb & _).
    apply (inv_data_index _ _ _ _ _ _ Hinv idx ro Hidx (Hact ro Hv Hs)).
    apply to_int_near in E; lia.
Qed.

(** C1, amended.  On a well-formed file system, for a file whose inode
    lies in the inode table, whose blocks of block numbers that are in
    use are taken in the bitmap and different from each other, whose
    target [e] is below the largest file size and with the blocks for it
    free in the bitmap, the set-end command: returns 0 and changes
    nothing when [e] is the size; returns [-EINVAL] and changes nothing
    when [e] is smaller than the size (the file is not shrunk); and when
    [e] is greater, and is not the very end of the last block the file
    has, returns 0, sets the size to [e], leaves the inode written at
    its place in the inode table and takes from the bitmap exactly the
    blocks that are missing.  [inodeidxblocknum] then finds for each
    index from the old number of blocks up to the new one a block that
    was free before the call and is taken after it; each indirect or
    double-indirect block whose first index is among them is such a
    block too, and all these blocks are different blocks. *)
Theorem ktfs_cntl_setend junk fio fs e :
  wf_fs fs -> wf_file fio ->
  dentry_inode fio < INODES_PER_BLK * inode_block_count (super_blk fs) ->
  index_blocks_ok fs fio ->
  e / KTFS_BLKSZ < MAX_BLOCKS ->
  (size (file_inode fio) = 0 -> junk <> - ENODATABLKS) ->
  needed (size (file_inode fio)) e <= free_blocks fs ->
  let s := size (file_inode fio) in
  (e = s ->
   ktfs_cntl junk fio Io.IOCTL_SETEND (Some e) fs = Ok (0, Some e, fio, fs)) /\
  (e < s ->
   ktfs_cntl junk fio Io.IOCTL_SETEND (Some e) fs
   = Ok (- EINVAL, Some e, fio, fs)) /\
  (s < e -> e <> KTFS_BLKSZ * cdiv s ->
   exists fio' fs',
     ktfs_cntl junk fio Io.IOCTL_SETEND (Some e) fs
     = Ok (0, Some e, fio', fs') /\
     size (file_inode fio') = e /\
     read_bytes (disk fs') (inode_addr fs' (dentry_inode fio')) 32
     = inode_bytes (file_inode fio') /\
     super_blk fs' = super_blk fs /\
     free_blocks fs' = free_blocks fs - needed s e /\
     let ino := file_inode fio' in
     let g := global_datablock_0 fs in
     (forall idx, cdiv s <= idx < cdiv e ->
        exists b, fresh_block fs fs' b /\
          inodeidxblocknum fs' ino idx = Ok (to_int (b + g))) /\
     (forall ro, valid ro -> cdiv s <= start ro < cdiv e ->
        fresh_block fs fs' (blk_of fs' ino ro)) /\
     (forall i j, cdiv s <= i < cdiv e -> cdiv s <= j < cdiv e ->
        inodeidxblocknum fs' ino i = inodeidxblocknum fs' ino j -> i = j) /\
     (forall r1 r2, valid r1 -> valid r2 ->
        cdiv s <= start r1 < cdiv e -> cdiv s <= start r2 < cdiv e ->
        blk_of fs' ino r1 = blk_of fs' ino r2 -> r1 = r2) /\
     (forall idx ro, cdiv s <= idx < cdiv e -> valid ro ->
        cdiv s <= start ro < cdiv e ->
        inodeidxblocknum fs' ino idx <> Ok (to_int (blk_of fs' ino ro + g)))).
Proof.
  intros Hw Hf Htab Hidx He Hjunk Hfree s. unfold ktfs_cntl.
  fold s in Hjunk, Hfree |- *.
  assert (Hs : u32 s) by apply Hf.
  split; [|split].
  - intros ->. rewrite Z.eqb_refl. reflexivity.
  - intros Hlt. destruct (Z.eqb_spec e s); [lia|].
    destruct (Z.ltb_spec s e); [lia | reflexivity].
  - intros Hlt Hend. destruct (Z.eqb_spec e s); [lia|].
    destruct (Z.ltb_spec s e); [|lia].
    pose proof (inv_start fs fio Hw Hf Htab Hidx) as Hinv. cbv zeta in Hinv.
    fold s in Hinv.
    assert (Hgrown : exists fio' fs',
              grow (Z.to_nat (e / KTFS_BLKSZ) + 2) junk e fio fs
              = Ok (0, fio', fs') /\
              size (file_inode fio') = e /\
              read_bytes (disk fs') (inode_addr fs' (dentry_inode fio')) 32
              = inode_bytes (file_inode fio') /\
              evolves (needed s e) fs fs' /\
              inv fs (cdiv s) (active (cdiv s) (cdiv e))
                  (added_since (cdiv s) (cdiv e)) fio' fs').
    { unfold needed in *.
      destruct (Z.lt_ge_cases e (KTFS_BLKSZ * cdiv s)) as [Hsame | Hr].
      - (* the target lies within the last block of the file *)
        assert (Hce : cdiv e = cdiv s) by (clear - Hs Hlt Hsame; blk_arith).
        rewrite Hce, Z.sub_diag. cbn [Z.to_nat blocks_needed].
        replace (Z.to_nat (e / KTFS_BLKSZ) + 2)%nat
          with (S (Z.to_nat (e / KTFS_BLKSZ) + 1)) by lia.
        cbn [grow]. fold s.
        destruct (Z.ltb_spec s e); [|lia].
        rewrite round_up_size_cdiv by (clear - Hs Hlt He; blk_arith).
        cbn [set_file_inode set_size file_inode size].
        destruct (Z.ltb_spec e (KTFS_BLKSZ * cdiv s)); [|lia].
        apply (set_end_inv fs (cdiv s)).
        + apply step_set_size; [exact Hinv|]. clear - Hs Hlt He. blk_arith.
        + apply evolves_refl, Hw.
        + clear - Hs Hlt He. blk_arith.
      - assert (Hn : 0 < cdiv e - cdiv s) by (clear - Hs Hlt Hr Hend; blk_arith).
        destruct (grow_rounds_inv fs (cdiv s) junk e He
                    (Z.to_nat (cdiv e - cdiv s))
                    (Z.to_nat (e / KTFS_BLKSZ) + 2)%nat fio fs 0)
          as (fio' & fs' & Hrun & Hsz & Hrd & Hev & Hinv'); fold s;
          try assumption.
        + clear - Hs Hlt He. blk_arith.
        + lia.
        + apply evolves_refl, Hw.
        + lia.
        + lia.
        + exists fio', fs'. auto. }
    destruct Hgrown as (fio' & fs' & -> & Hsz & Hrd & (Hsb & _ & Hfr) & Hinv').
    exists fio', fs'. cbn [bind].
    split; [reflexivity|]. split; [exact Hsz|]. split; [exact Hrd|].
    split; [exact Hsb|]. split; [exact Hfr|].
    apply (inv_result fs (cdiv s) (cdiv e) fio' fs' Hinv').
Qed.

(** A file of five blocks, the last of them entered in the indirect
    block 3, on a volume with one bitmap block and one block of inodes;
    the blocks 2 to 7 are taken. *)
Definition five_block_file : ktfs_file :=
  mkFile 1 (mkInode 2500 [7; 6; 5; 4] 3 [0; 0]).

Definition five_block_fs : file_setup :=
  mkSetup (mkSuper 1 1 0) (mkInode 0 [0; 0; 0; 0] 0 [0; 0])
          (<[3072 := 2]> (<[512 := 252]> ∅)) ∅ 0.

Lemma five_block_fs_wf : wf_fs five_block_fs.
Proof.
  split; [cbn; lia|]. split; [cbn; lia|].
  intros a. unfold rd8. cbn [five_block_fs disk].
  destruct (Z.eq_dec a 3072) as [-> | H1];
    [rewrite lookup_insert_eq; cbn; lia|].
  rewrite lookup_insert_ne by congruence.
  destruct (Z.eq_dec a 512) as [-> | H2];
    [rewrite lookup_insert_eq; cbn; lia|].
  rewrite lookup_insert_ne by congruence.
  rewrite lookup_empty. cbn. lia.
Defined.

Lemma five_block_file_wf : wf_file five_block_file.
Proof.
  unfold wf_file, u32. cbn.
  repeat split; try lia; repeat constructor; lia.
Defined.

Lemma five_block_index_ok : index_blocks_ok five_block_fs five_block_file.
Proof.
  unfold index_blocks_ok. cbv zeta.
  change (cdiv (size (file_inode five_block_file))) with 5.
  assert (Hri : forall ro, active 5 5 ro -> ro = RI).
  { intros [|k|k m] (Hv & Hs & _); [reflexivity | exfalso ..];
      cbn [start valid] in Hs, Hv; consts; lia. }
  split.
  - intros ro Hro. rewrite (Hri ro Hro). vm_compute.
    split; [split; [discriminate | reflexivity] | reflexivity].
  - intros r1 r2 H1 H2 _. rewrite (Hri r1 H1), (Hri r2 H2). reflexivity.
Defined.

Lemma ktfs_cntl_setend_witness :
  let fio := five_block_file in
  let fs := five_block_fs in
  let e := 3500 in
  let s := size (file_inode fio) in
  exists fio' fs',
    ktfs_cntl 0 fio Io.IOCTL_SETEND (Some e) fs = Ok (0, Some e, fio', fs') /\
    size (file_inode fio') = e /\
    read_bytes (disk fs') (inode_addr fs' (dentry_inode fio')) 32
    = inode_bytes (file_inode fio') /\
    super_blk fs' = super_blk fs /\
    free_blocks fs' = free_blocks fs - needed s e /\
    let ino := file_inode fio' in
    let g := global_datablock_0 fs in
    (forall idx, cdiv s <= idx < cdiv e ->
       exists b, fresh_block fs fs' b /\
         inodeidxblocknum fs' ino idx = Ok (to_int (b + g))) /\
    (forall ro, valid ro -> cdiv s <= start ro < cdiv e ->
       fresh_block fs fs' (blk_of fs' ino ro)) /\
    (forall i j, cdiv s <= i < cdiv e -> cdiv s <= j < cdiv e ->
       inodeidxblocknum fs' ino i = inodeidxblocknum fs' ino j -> i = j) /\
    (forall r1 r2, valid r1 -> valid r2 ->
       cdiv s <= start r1 < cdiv e -> cdiv s <= start r2 < cdiv e ->
       blk_of fs' ino r1 = blk_of fs' ino r2 -> r1 = r2) /\
    (forall idx ro, cdiv s <= idx < cdiv e -> valid ro ->
       cdiv s <= start ro < cdiv e ->
       inodeidxblocknum fs' ino idx <> Ok (to_int (blk_of fs' ino ro + g))).
Proof.
  cbv zeta.
  assert (Htab : dentry_inode five_block_file
                 < INODES_PER_BLK * inode_block_count (super_blk five_block_fs))
    by reflexivity.
  assert (He : 3500 / KTFS_BLKSZ < MAX_BLOCKS) by reflexivity.
  assert (Hjunk : size (file_inode five_block_file) = 0 ->
                  0 <> - ENODATABLKS) by (intros _; discriminate).
  assert (Hfree : needed (size (file_inode five_block_file)) 3500
                  <= free_blocks five_block_fs) by (vm_compute; discriminate).
  destruct (ktfs_cntl_setend 0 five_block_file five_block_fs 3500
              five_block_fs_wf five_block_file_wf Htab five_block_index_ok
              He Hjunk Hfree) as (_ & _ & Hgrow).
  apply Hgrow; [cbn; lia | vm_compute; discriminate].
Defined.

(** The file above after the call: the blocks 1 and 0 are the blocks of
    the indices 5 and 6. *)
Example ktfs_cntl_setend_sample :
  match ktfs_cntl 0 five_block_file Io.IOCTL_SETEND (Some 3500)
          five_block_fs with
  | Ok (r, _, fio', fs') =>
      r = 0 /\ size (file_inode fio') = 3500 /\
      indirect (file_inode fio') = 3 /\
      inodeidxblocknum fs' (file_inode fio') 4 = Ok (2 + 3) /\
      inodeidxblocknum fs' (file_inode fio') 5 = Ok (1 + 3) /\
      inodeidxblocknum fs' (file_inode fio') 6 = Ok (0 + 3) /\
      rd8 (disk fs') 512 = 255
  | _ => False
  end.
Proof. vm_compute. repeat split; reflexivity. Qed.

(** Block 4 is the first behind the direct blocks and brings the
    indirect block with it; block 132 is the first behind the indirect
    block and brings a double-indirect block and its first indirect
    block.  A target within the last block of the file takes none. *)
Example needed_crossing :
  needed 0 (4 * 512) = 4 /\ needed 0 (4 * 512 + 1) = 6 /\
  needed (4 * 512 + 1) (132 * 512) = 127 /\
  needed (132 * 512) (132 * 512 + 1) = 3 /\
  needed 100 511 = 0 /\ needed 100 513 = 1.
Proof. vm_compute. repeat split. Qed.

(** A file grown from nothing past the indirect block: block 130 is
    the first double-indirect block, block 129 the indirect block its
    first entry names, and block 128 the block of index 132. *)
Example ktfs_cntl_setend_double_indirect :
  match ktfs_cntl 0 empty_file Io.IOCTL_SETEND (Some (132 * 512 + 1))
          fresh_fs with
  | Ok (r, _, fio', fs') =>
      r = 0 /\
      free_blocks fs' = free_blocks fresh_fs - needed 0 (132 * 512 + 1) /\
      needed 0 (132 * 512 + 1) = 136 /\
      blk_of fs' (file_inode fio') (RD 0) = 130 /\
      blk_of fs' (file_inode fio') (RJ 0 0) = 129 /\
      inodeidxblocknum fs' (file_inode fio') 132 = Ok (128 + 3) /\
      taken fresh_fs 128 = false /\ taken fs' 128 = true
  | _ => False
  end.
Proof. vm_compute. repeat split; reflexivity. Qed.

(** At a target that is the very end of the last block the file has,
    the loop runs one round all the same: before it allocates it tests
    [end < size], not [end <= size].  The file of one block grown from
    100 to 512 bytes gets a block for index 1, which its 512 bytes do
    not reach. *)
Example ktfs_cntl_setend_block_end :
  match ktfs_cntl 0 empty_file Io.IOCTL_SETEND (Some 100) fresh_fs with
  | Ok (_, _, fio1, fs1) =>
      match ktfs_cntl 0 fio1 Io.IOCTL_SETEND (Some 512) fs1 with
      | Ok (r, _, fio2, fs2) =>
          r = 0 /\ size (file_inode fio2) = 512 /\ cdiv 512 = 1 /\
          free_blocks fs2 = free_blocks fs1 - 1 /\
          nth 1 (block (file_inode fio1)) 0 = 0 /\
          nth 1 (block (file_inode fio2)) 0 = 6
      | _ => False
      end
  | _ => False
  end.
Proof. vm_compute. repeat split; reflexivity. Qed.

End KtfsSetendSpec.

(** ** io.c: closing a pipe *)

Module PipeCloseSpec.
Import Pipe PipeWrite.

(** X26.  [ioclose] on an end of a pipe frees the buffer page exactly
    when the call leaves both ends without a reference, and a buffer
    that has been freed is not freed again: every later [ioclose] on
    either end stops at [assert(io->refcnt != 0)].  The bytes and the
    positions of the pipe are not touched. *)
Theorem pipe_buffer_freed_once e p p' freed :
  0 <= readio_refcnt p -> 0 <= writeio_refcnt p ->
  ioclose_end e p = Some (p', freed) ->
  (freed = true <-> readio_refcnt p' = 0 /\ writeio_refcnt p' = 0) /\
  (freed = true -> forall e', ioclose_end e' p' = None) /\
  buf p' = buf p /\ headpos p' = headpos p /\ tailpos p' = tailpos p /\
  data p' = data p.
Proof.
  intros Hr Hw Hrun. unfold ioclose_end in Hrun. cbv zeta in Hrun.
  assert (Hnone : readio_refcnt p' = 0 /\ writeio_refcnt p' = 0 ->
                  forall e', ioclose_end e' p' = None).
  { intros (H1 & H2) e'. unfold ioclose_end. cbv zeta.
    destruct e'; [rewrite H1 | rewrite H2]; reflexivity. }
  destruct e.
  - destruct (Z.eqb_spec (readio_refcnt p) 0) as [|Hne]; [discriminate|].
    destruct (Z.eqb_spec (readio_refcnt p - 1) 0) as [Hlast | Hmore];
      injection Hrun as <- <-; cbn [readio_refcnt writeio_refcnt buf headpos
                                     tailpos data] in *.
    + rewrite (proj2 (Z.eqb_eq _ _) Hlast). cbn [andb].
      destruct (Z.eqb_spec (writeio_refcnt p) 0) as [Hz | Hnz].
      * split; [tauto|]. split; [intros _; apply Hnone; tauto | tauto].
      * split; [split; [discriminate | tauto]|].
        split; [discriminate | tauto].
    + split; [split; [discriminate | tauto]|].
      split; [discriminate | tauto].
  - destruct (Z.eqb_spec (writeio_refcnt p) 0) as [|Hne]; [discriminate|].
    destruct (Z.eqb_spec (writeio_refcnt p - 1) 0) as [Hlast | Hmore];
      injection Hrun as <- <-; cbn [readio_refcnt writeio_refcnt buf headpos
                                     tailpos data] in *.
    + rewrite (proj2 (Z.eqb_eq _ _) Hlast), andb_true_r.
      destruct (Z.eqb_spec (readio_refcnt p) 0) as [Hz | Hnz].
      * split; [tauto|]. split; [intros _; apply Hnone; tauto | tauto].
      * split; [split; [discriminate | tauto]|].
        split; [discriminate | tauto].
    + split; [split; [discriminate | tauto]|].
      split; [discriminate | tauto].
Qed.

Lemma pipe_buffer_freed_once_witness :
  let p := mkPipe [] 0 0 0 0 1 in
  let p' := mkPipe [] 0 0 0 0 0 in
  (true = true <-> readio_refcnt p' = 0 /\ writeio_refcnt p' = 0) /\
  (true = true -> forall e', ioclose_end e' p' = None) /\
  buf p' = buf p /\ headpos p' = headpos p /\ tailpos p' = tailpos p /\
  data p' = data p.
Proof.
  apply (pipe_buffer_freed_once WriteEnd (mkPipe [] 0 0 0 0 1)
           (mkPipe [] 0 0 0 0 0) true); [cbn; lia | cbn; lia | reflexivity].
Defined.

(** A pipe from [create_pipe]: the first close frees nothing, the second
    frees the page, a third stops at the assertion. *)
Example pipe_close_both_ends page :
  match ioclose_end WriteEnd (create_pipe page) with
  | Some (p1, freed1) =>
      freed1 = false /\
      match ioclose_end ReadEnd p1 with
      | Some (p2, freed2) =>
          freed2 = true /\ ioclose_end ReadEnd p2 = None /\
          ioclose_end WriteEnd p2 = None
      | None => False
      end
  | None => False
  end.
Proof. cbn. repeat split; reflexivity. Qed.

End PipeCloseSpec.

(** ** cache.c: the cache over a block store *)

Module CacheSpec.
Import Io Cache.

Lemma first_slot_some test l : forall i j,
  first_slot test l i = Some j ->
  (i <= j)%nat /\
  exists s, l !! (j - i)%nat = Some s /\ test s = true /\
    forall k t, (k < j - i)%nat -> l !! k = Some t -> test t = false.
Proof.
  induction l as [|s r IH]; intros i j; cbn [first_slot]; [discriminate|].
  destruct (test s) eqn:Hs.
  - intros [= <-]. split; [lia|]. exists s. rewrite Nat.sub_diag.
    split; [reflexivity|]. split; [exact Hs | intros k t Hk; lia].
  - intros Hr. destruct (IH _ _ Hr) as (Hle & t & Ht & Htest & Hbefore).
    split; [lia|]. exists t.
    replace (j - i)%nat with (S (j - S i)) by lia.
    split; [exact Ht|]. split; [exact Htest|].
    intros k u Hk Hu. destruct k as [|k]; cbn in Hu.
    + injection Hu as <-. exact Hs.
    + apply (Hbefore k u); [lia | exact Hu].
Qed.

Lemma first_slot_none test l : forall i,
  first_slot test l i = None -> Forall (fun s => test s = false) l.
Proof.
  induction l as [|s r IH]; intros i; cbn [first_slot]; [constructor|].
  destruct (test s) eqn:Hs; [discriminate|].
  intros Hr. constructor; [exact Hs | apply (IH _ Hr)].
Qed.

(** The minimum the loop computes is the rank of a slot. *)
Lemma min_assign_attained l :
  l <> [] -> Exists (fun s => assign_num s = min_assign l) l.
Proof.
  intros Hne. unfold min_assign.
  assert (Hgen : forall r m,
            Exists (fun s => assign_num s = m) l \/ False ->
            (forall s, In s r -> In s l) ->
            Exists (fun s => assign_num s
                             = fold_left (fun m s => if assign_num s <? m
                                                     then assign_num s else m)
                                         r m) l).
  { induction r as [|s r IH]; intros m Hm Hsub; cbn [fold_left].
    - destruct Hm as [Hm | []]. exact Hm.
    - apply IH; [|intros t Ht; apply Hsub; right; exact Ht].
      left. destruct (assign_num s <? m).
      + apply Exists_exists. exists s. split; [|reflexivity].
        apply list_elem_of_In, Hsub. left. reflexivity.
      + destruct Hm as [Hm | []]. exact Hm. }
  apply Hgen; [|auto]. left.
  destruct l as [|s r]; [contradiction|]. cbn [nth].
  apply Exists_cons_hd. reflexivity.
Qed.

Lemma first_slot_exists test l i :
  Exists (fun s => test s = true) l -> first_slot test l i <> None.
Proof.
  intros Hex Hnone. apply first_slot_none in Hnone.
  apply Exists_exists in Hex. destruct Hex as (s & Hin & Hs).
  rewrite Forall_forall in Hnone. rewrite (Hnone s Hin) in Hs. discriminate.
Qed.

Section Store.
Context {B : Type} `{Backing B}.

(** The backing endpoint is a block store: [content b pos] is the block
    at the position [pos], a read of a block returns it and changes
    nothing, a write of a block replaces it and no other block. *)
Variable content : B -> Z -> list Z.

Hypothesis content_length : forall b pos,
  length (content b pos) = Z.to_nat CACHE_BLKSZ.

Hypothesis read_block : forall b pos,
  0 <= pos -> pos mod CACHE_BLKSZ = 0 ->
  ioreadat b pos CACHE_BLKSZ = (CACHE_BLKSZ, content b pos, b).

Hypothesis write_block : forall b pos buf,
  0 <= pos -> pos mod CACHE_BLKSZ = 0 ->
  length buf = Z.to_nat CACHE_BLKSZ ->
  content (snd (iowriteat b pos buf CACHE_BLKSZ)) pos = buf /\
  forall pos', pos' <> pos ->
    content (snd (iowriteat b pos buf CACHE_BLKSZ)) pos' = content b pos'.

(** The buffer of a slot has the size of a block; the slot is empty, or
    it holds the block of its number as the store has it. *)
Definition slot_ok (b : B) (s : slot) : Prop :=
  length (sdata s) = Z.to_nat CACHE_BLKSZ /\
  (block_id s = -1 \/
   (0 <= block_id s < 2 ^ 22 /\
    sdata s = content b (block_id s * CACHE_BLKSZ))).

(** No block is in two slots. *)
Definition ids_apart (l : list slot) : Prop :=
  forall i j s t, l !! i = Some s -> l !! j = Some t ->
    block_id s <> -1 -> block_id s = block_id t -> i = j.

(** The cache agrees with the store. *)
Definition coherent (c : cache) (b : B) : Prop :=
  length (cache_blocks c) = CACHE_BLOCK_AMMOUNT /\
  Forall (slot_ok b) (cache_blocks c) /\
  ids_apart (cache_blocks c).

(** The slot [i] holds the block at [pos] with the bytes [d]. *)
Definition holds (c : cache) (i : nat) (pos : Z) (d : list Z) : Prop :=
  exists s, cache_blocks c !! i = Some s /\
    block_id s = pos / CACHE_BLKSZ /\ sdata s = d.

(** The holder of slot [i] stores the bytes [d] in the buffer. *)
Definition poke (i : nat) (d : list Z) (c : cache) : cache :=
  mkCache
    (match cache_blocks c !! i with
     | Some s => <[i := mkSlot (block_id s) d (assign_num s)]> (cache_blocks c)
     | None => cache_blocks c
     end)
    (lock_owner c) (lock_held c) (lock_count c).

Lemma block_of_pos pos :
  0 <= pos -> pos mod CACHE_BLKSZ = 0 ->
  pos / CACHE_BLKSZ * CACHE_BLKSZ = pos /\ 0 <= pos / CACHE_BLKSZ.
Proof.
  unfold CACHE_BLKSZ. intros Hp Hm.
  pose proof (Z.div_mod pos 512 ltac:(lia)).
  split; [lia | apply Z.div_pos; lia].
Qed.

Lemma acquire_blocks i c :
  cache_blocks (with_owner i (lock_acquire c)) = cache_blocks c /\
  lock_owner (with_owner i (lock_acquire c)) = Z.of_nat i.
Proof. unfold with_owner, lock_acquire. destruct (lock_held c); auto. Qed.

(** The miss path keeps the cache in agreement with the store. *)
Lemma fill_slot_ok c b i pos :
  coherent c b -> 0 <= pos -> pos mod CACHE_BLKSZ = 0 ->
  pos / CACHE_BLKSZ < 2 ^ 22 ->
  (i < CACHE_BLOCK_AMMOUNT)%nat ->
  Forall (fun s => (wrap64 (block_id s) =? pos / CACHE_BLKSZ) = false)
         (cache_blocks c) ->
  exists c',
    fill_slot i pos c b = (0, Some i, c', b) /\
    holds c' i pos (content b pos) /\ coherent c' b /\
    lock_owner c' = Z.of_nat i.
Proof.
  intros (Hlen & Hok & Hapart) Hpos Hal Hsmall Hi Hmiss.
  unfold fill_slot. rewrite read_block by assumption.
  destruct (lookup_lt_is_Some_2 (cache_blocks c) i ltac:(lia)) as (s & Hs).
  rewrite Hs.
  destruct (block_of_pos pos Hpos Hal) as (Hblk & Hq).
  assert (Eid : to_int (pos / CACHE_BLKSZ) = pos / CACHE_BLKSZ).
  { unfold to_int. rewrite Z.mod_small; lia. }
  assert (Hsl : length (sdata s) = Z.to_nat CACHE_BLKSZ).
  { rewrite Forall_forall in Hok.
    apply (Hok s (list_elem_of_lookup_2 _ _ _ Hs)). }
  assert (Edata : content b pos ++ skipn (length (content b pos)) (sdata s)
                  = content b pos).
  { rewrite skipn_all2 by (rewrite content_length; lia). apply app_nil_r. }
  rewrite Eid, Edata.
  set (new := mkSlot (pos / CACHE_BLKSZ) (content b pos) (assign_num s)).
  set (l' := <[i := new]> (cache_blocks c)).
  eexists. split; [reflexivity|].
  destruct (acquire_blocks i (mkCache l' (lock_owner c) (lock_held c)
                                      (lock_count c))) as (Hbl & Hown).
  cbn [cache_blocks] in Hbl.
  assert (Hnew : l' !! i = Some new)
    by (subst l'; apply list_lookup_insert_eq; lia).
  assert (Hmissid : forall j t, cache_blocks c !! j = Some t ->
            block_id t <> pos / CACHE_BLKSZ).
  { intros j t Ht Heq. rewrite Forall_forall in Hmiss.
    pose proof (Hmiss t (list_elem_of_lookup_2 _ _ _ Ht)) as Hf.
    rewrite Heq in Hf. unfold wrap64 in Hf.
    rewrite Z.mod_small in Hf by lia. rewrite Z.eqb_refl in Hf.
    discriminate. }
  split; [|split; [|exact Hown]].
  - exists new. rewrite Hbl. split; [exact Hnew|]. auto.
  - unfold coherent. rewrite Hbl. split; [|split].
    + subst l'. rewrite length_insert. exact Hlen.
    + subst l'. apply Forall_insert; [exact Hok|].
      split; [apply content_length|]. right. cbn [block_id sdata new].
      subst new. cbn [block_id sdata]. rewrite Hblk. split; [lia | reflexivity].
    + intros j k u v Hu Hv Hne Heq.
      destruct (Nat.eq_dec j i) as [-> | Hji],
               (Nat.eq_dec k i) as [-> | Hki]; [reflexivity | | |].
      * exfalso. rewrite Hnew in Hu. injection Hu as <-.
        subst l'. rewrite list_lookup_insert_ne in Hv by congruence.
        apply (Hmissid k v Hv). cbn [block_id new] in Heq. congruence.
      * exfalso. rewrite Hnew in Hv. injection Hv as <-.
        subst l'. rewrite list_lookup_insert_ne in Hu by congruence.
        apply (Hmissid j u Hu). cbn [block_id new] in Heq. congruence.
      * subst l'. rewrite list_lookup_insert_ne in Hu, Hv by congruence.
        apply (Hapart j k u v); assumption.
Qed.

(** [cache_get_block] on a cache that agrees with the store. *)
Lemma cache_get_block_ok c b pos :
  coherent c b -> 0 <= pos -> pos mod CACHE_BLKSZ = 0 ->
  pos / CACHE_BLKSZ < 2 ^ 22 ->
  exists i c',
    cache_get_block c pos b = (0, Some i, c', b) /\
    (i < CACHE_BLOCK_AMMOUNT)%nat /\
    holds c' i pos (content b pos) /\ coherent c' b /\
    lock_owner c' = Z.of_nat i.
Proof.
  intros Hco Hpos Hal Hsmall. pose proof Hco as (Hlen & Hok & Hapart).
  unfold cache_get_block. rewrite Hal. cbn [Z.eqb negb].
  destruct (block_of_pos pos Hpos Hal) as (Hblk & Hq).
  destruct (first_slot _ (cache_blocks c) 0) as [i|] eqn:Hhit.
  - (* the block is in a slot *)
    destruct (first_slot_some _ _ _ _ Hhit) as (_ & s & Hs & Htest & _).
    rewrite Nat.sub_0_r in Hs.
    pose proof (lookup_lt_Some _ _ _ Hs) as Hi.
    destruct (acquire_blocks i c) as (Hbl & Hown).
    exists i, (with_owner i (lock_acquire c)).
    split; [reflexivity|]. split; [lia|].
    rewrite Forall_forall in Hok.
    destruct (Hok s (list_elem_of_lookup_2 _ _ _ Hs))
      as (Hsl & [Hempty | (Hid & Hdata)]).
    { exfalso. rewrite Hempty in Htest. apply Z.eqb_eq in Htest.
      change (wrap64 (-1)) with (2 ^ 64 - 1) in Htest. lia. }
    apply Z.eqb_eq in Htest. unfold wrap64 in Htest.
    rewrite Z.mod_small in Htest by lia.
    split; [|split; [|exact Hown]].
    + exists s. rewrite Hbl. split; [exact Hs|]. split; [exact Htest|].
      rewrite Hdata, Htest, Hblk. reflexivity.
    + unfold coherent. rewrite Hbl. split; [exact Hlen|].
      split; [apply Forall_forall; exact Hok | exact Hapart].
  - pose proof (first_slot_none _ _ _ Hhit) as Hmiss.
    destruct (first_slot (fun s => block_id s =? -1) (cache_blocks c) 0)
      as [i|] eqn:Hfree.
    + (* an empty slot is filled *)
      destruct (first_slot_some _ _ _ _ Hfree) as (_ & s & Hs & _).
      rewrite Nat.sub_0_r in Hs.
      pose proof (lookup_lt_Some _ _ _ Hs) as Hi.
      destruct (fill_slot_ok c b i pos Hco Hpos Hal Hsmall ltac:(lia) Hmiss)
        as (c' & Hrun & Hholds & Hco' & Hown).
      exists i, c'. split; [exact Hrun|]. split; [lia|]. auto.
    + (* a slot of the lowest rank is filled again *)
      assert (Hne : cache_blocks c <> []).
      { intros He. rewrite He in Hlen. discriminate Hlen. }
      pose proof (min_assign_attained _ Hne) as Hmin.
      destruct (first_slot
                  (fun s => assign_num s =? min_assign (cache_blocks c))
                  (cache_blocks c) 0) as [i|] eqn:Hvictim.
      2:{ exfalso. revert Hvictim. apply first_slot_exists.
          eapply Exists_impl; [exact Hmin|]. cbn. intros s ->.
          apply Z.eqb_refl. }
      destruct (first_slot_some _ _ _ _ Hvictim) as (_ & s & Hs & _).
      rewrite Nat.sub_0_r in Hs.
      pose proof (lookup_lt_Some _ _ _ Hs) as Hi.
      destruct (fill_slot_ok c b i pos Hco Hpos Hal Hsmall ltac:(lia) Hmiss)
        as (c' & Hrun & Hholds & Hco' & Hown).
      exists i, c'. split; [exact Hrun|]. split; [lia|]. auto.
Qed.

(** What [slot_ok] and [ids_apart] look at: the number and the bytes. *)
Definition key (s : slot) : Z * list Z := (block_id s, sdata s).

Lemma lookup_key (l l' : list slot) k t :
  key <$> l' = key <$> l -> l' !! k = Some t ->
  exists s, l !! k = Some s /\ block_id s = block_id t /\ sdata s = sdata t.
Proof.
  intros E Ht.
  assert (Hk : (key <$> l) !! k = Some (key t))
    by (rewrite <- E, list_lookup_fmap, Ht; reflexivity).
  rewrite list_lookup_fmap in Hk.
  destruct (l !! k) as [s|]; cbn in Hk; [|discriminate].
  injection Hk as Hid Hdata. eauto.
Qed.

Lemma coherent_keys c c' b :
  key <$> cache_blocks c' = key <$> cache_blocks c ->
  coherent c b -> coherent c' b.
Proof.
  intros E (Hlen & Hok & Hapart). split; [|split].
  - apply (f_equal length) in E. rewrite !length_fmap in E. congruence.
  - apply Forall_lookup. intros k t Ht.
    destruct (lookup_key _ _ _ _ E Ht) as (s & Hs & Hid & Hdata).
    rewrite Forall_lookup in Hok. specialize (Hok k s Hs).
    unfold slot_ok in *. rewrite <- Hid, <- Hdata. exact Hok.
  - intros j k u v Hu Hv Hne Heq.
    destruct (lookup_key _ _ _ _ E Hu) as (s & Hs & Hids & _).
    destruct (lookup_key _ _ _ _ E Hv) as (t & Ht & Hidt & _).
    apply (Hapart j k s t); congruence.
Qed.

Lemma renumber_keys i l : key <$> renumber i l = key <$> l.
Proof.
  unfold renumber.
  set (mine := assign_num _). set (n := fold_left _ _ _).
  assert (Hset : forall l0 : list slot,
            key <$> match l0 !! i with
                    | Some s => <[i := mkSlot (block_id s) (sdata s) n]> l0
                    | None => l0
                    end = key <$> l0).
  { intros l0. destruct (l0 !! i) as [s|] eqn:Hs; [|reflexivity].
    rewrite list_fmap_insert. apply list_insert_id.
    rewrite list_lookup_fmap, Hs. reflexivity. }
  destruct (mine =? n); [reflexivity|].
  destruct (mine =? 0); [apply Hset|].
  rewrite Hset, <- list_fmap_compose. apply list_fmap_ext.
  intros k s _. cbn. destruct (1 <? assign_num s); reflexivity.
Qed.

(** [cache_release_block] of a slot writes the buffer if asked to, keeps
    every slot's number and bytes and gives the lock back. *)
Lemma cache_release_block_ok c b i s dirty :
  cache_blocks c !! i = Some s ->
  exists c',
    cache_release_block c (Some i) dirty b =
      Some (c', if dirty
                then snd (iowriteat b
                            (wrap64 (to_int (block_id s * CACHE_BLKSZ)))
                            (sdata s) CACHE_BLKSZ)
                else b) /\
    key <$> cache_blocks c' = key <$> cache_blocks c /\
    lock_owner c' = -1.
Proof.
  intros Hs. unfold cache_release_block. rewrite Hs.
  eexists. split; [reflexivity|]. cbn [cache_blocks lock_owner].
  split; [|reflexivity].
  unfold lock_release. cbn [lock_count cache_blocks].
  destruct (lock_count c =? 0); cbn [cache_blocks]; apply renumber_keys.
Qed.

Lemma pos_as_int pos :
  0 <= pos -> pos mod CACHE_BLKSZ = 0 -> pos / CACHE_BLKSZ < 2 ^ 22 ->
  wrap64 (to_int (pos / CACHE_BLKSZ * CACHE_BLKSZ)) = pos.
Proof.
  intros Hpos Hal Hsmall. destruct (block_of_pos pos Hpos Hal) as (-> & Hq).
  assert (pos < 2 ^ 31).
  { pose proof (Z.div_mod pos CACHE_BLKSZ ltac:(discriminate)) as E.
    unfold CACHE_BLKSZ in *. lia. }
  unfold to_int, wrap64. rewrite (Z.mod_small (pos + 2 ^ 31)) by lia.
  rewrite Z.mod_small; lia.
Qed.

(** After the holder of slot [i] has stored [d] in the buffer and the
    block has been written, cache and store agree again. *)
Lemma poke_written_coherent c b i pos d s :
  coherent c b -> cache_blocks c !! i = Some s ->
  block_id s = pos / CACHE_BLKSZ ->
  0 <= pos -> pos mod CACHE_BLKSZ = 0 -> pos / CACHE_BLKSZ < 2 ^ 22 ->
  length d = Z.to_nat CACHE_BLKSZ ->
  coherent (poke i d c) (snd (iowriteat b pos d CACHE_BLKSZ)).
Proof.
  intros (Hlen & Hok & Hapart) Hs Hid Hpos Hal Hsmall Hd.
  destruct (write_block b pos d Hpos Hal Hd) as (Hsame & Hother).
  destruct (block_of_pos pos Hpos Hal) as (Hblk & Hq).
  pose proof (lookup_lt_Some _ _ _ Hs) as Hi.
  unfold coherent, poke. cbn [cache_blocks]. rewrite Hs.
  split; [|split].
  - rewrite length_insert. exact Hlen.
  - apply Forall_lookup. intros k t Ht.
    destruct (Nat.eq_dec k i) as [-> | Hki].
    + rewrite list_lookup_insert_eq in Ht by lia. injection Ht as <-.
      split; [exact Hd|]. right. cbn [block_id sdata].
      rewrite Hid, Hblk, Hsame. split; [lia | reflexivity].
    + rewrite list_lookup_insert_ne in Ht by congruence.
      rewrite Forall_lookup in Hok.
      destruct (Hok k t Ht) as (Hl & [Hempty | (Hrange & Hdata)]).
      * split; [exact Hl|]. left. exact Hempty.
      * split; [exact Hl|]. right. split; [exact Hrange|].
        rewrite Hother; [exact Hdata|].
        intros Heq. apply Hki. apply (Hapart k i t s Ht Hs); [lia|].
        unfold CACHE_BLKSZ in *. lia.
  - intros j k u v Hu Hv Hne Heq.
    assert (Hsame_id : forall k0 t, <[i := mkSlot (block_id s) d (assign_num s)]>
                          (cache_blocks c) !! k0 = Some t ->
              exists t0, cache_blocks c !! k0 = Some t0 /\
                         block_id t0 = block_id t).
    { intros k0 t Ht. destruct (Nat.eq_dec k0 i) as [-> | Hki].
      - rewrite list_lookup_insert_eq in Ht by lia. injection Ht as <-.
        exists s. auto.
      - rewrite list_lookup_insert_ne in Ht by congruence. eauto. }
    destruct (Hsame_id j u Hu) as (u0 & Hu0 & Eu).
    destruct (Hsame_id k v Hv) as (v0 & Hv0 & Ev).
    apply (Hapart j k u0 v0); congruence.
Qed.

Lemma create_cache_coherent b : coherent create_cache b.
Proof.
  unfold coherent, create_cache. cbn [cache_blocks]. split; [|split].
  - apply repeat_length.
  - apply Forall_forall. intros s Hin%list_elem_of_In.
    apply repeat_spec in Hin. subst s. split; [|left; reflexivity].
    cbn [sdata]. apply repeat_length.
  - intros i j s t Hs _ Hne _. exfalso. apply Hne.
    apply list_elem_of_lookup_2, list_elem_of_In, repeat_spec in Hs.
    subst s. reflexivity.
Qed.

(** X27. On a cache that agrees with the block store, [cache_get_block]
    of a block-aligned position returns 0 and a slot that holds the
    store's block at that position, with the store untouched; releasing
    that slot clean leaves the store as it was, gives the lock back and
    the cache still agrees with the store. *)
Theorem cache_get_block_returns_block c b pos :
  coherent c b -> 0 <= pos -> pos mod CACHE_BLKSZ = 0 ->
  pos / CACHE_BLKSZ < 2 ^ 22 ->
  exists i c1,
    cache_get_block c pos b = (0, Some i, c1, b) /\
    holds c1 i pos (content b pos) /\
    exists c2,
      cache_release_block c1 (Some i) false b = Some (c2, b) /\
      coherent c2 b /\ lock_owner c2 = -1.
Proof.
  intros Hco Hpos Hal Hsmall.
  destruct (cache_get_block_ok c b pos Hco Hpos Hal Hsmall)
    as (i & c1 & Hget & Hi & Hholds & Hco1 & Hown).
  exists i, c1. split; [exact Hget|]. split; [exact Hholds|].
  destruct Hholds as (s & Hs & _).
  destruct (cache_release_block_ok c1 b i s false Hs)
    as (c2 & Hrel & Hkeys & Hfree).
  exists c2. split; [exact Hrel|]. split; [|exact Hfree].
  exact (coherent_keys _ _ _ Hkeys Hco1).
Qed.

(** X28. Write-through: when the holder of the slot returned by
    [cache_get_block] stores a block's worth of bytes in the buffer and
    releases the slot dirty, the store has these bytes at the position
    and every other block as before, the cache agrees with the new
    store, and the next [cache_get_block] of the position returns a slot
    with these bytes. *)
Theorem cache_release_dirty_writes_through c b pos d :
  coherent c b -> 0 <= pos -> pos mod CACHE_BLKSZ = 0 ->
  pos / CACHE_BLKSZ < 2 ^ 22 ->
  length d = Z.to_nat CACHE_BLKSZ ->
  exists i c1,
    cache_get_block c pos b = (0, Some i, c1, b) /\
    exists c2 b2,
      cache_release_block (poke i d c1) (Some i) true b = Some (c2, b2) /\
      content b2 pos = d /\
      (forall pos', pos' <> pos -> content b2 pos' = content b pos') /\
      coherent c2 b2 /\
      exists j c3,
        cache_get_block c2 pos b2 = (0, Some j, c3, b2) /\
        holds c3 j pos d.
Proof.
  intros Hco Hpos Hal Hsmall Hd.
  destruct (cache_get_block_ok c b pos Hco Hpos Hal Hsmall)
    as (i & c1 & Hget & Hi & (s & Hs & Hid & Hdata) & Hco1 & Hown).
  exists i, c1. split; [exact Hget|].
  pose proof (lookup_lt_Some _ _ _ Hs) as Hlt.
  assert (Hpoked : cache_blocks (poke i d c1) !! i
                   = Some (mkSlot (block_id s) d (assign_num s))).
  { unfold poke. cbn [cache_blocks]. rewrite Hs.
    apply list_lookup_insert_eq. lia. }
  destruct (cache_release_block_ok (poke i d c1) b i _ true Hpoked)
    as (c2 & Hrel & Hkeys & Hfree).
  cbn [block_id sdata] in Hrel.
  rewrite Hid, (pos_as_int pos Hpos Hal Hsmall) in Hrel.
  destruct (write_block b pos d Hpos Hal Hd) as (Hsame & Hother).
  pose proof (poke_written_coherent c1 b i pos d s Hco1 Hs Hid Hpos Hal
                Hsmall Hd) as Hco2.
  apply (coherent_keys _ c2 _ Hkeys) in Hco2.
  eexists c2, _. split; [exact Hrel|]. split; [exact Hsame|].
  split; [exact Hother|]. split; [exact Hco2|].
  destruct (cache_get_block_ok c2 _ pos Hco2 Hpos Hal Hsmall)
    as (j & c3 & Hget2 & _ & Hholds & _).
  exists j, c3. split; [exact Hget2|]. rewrite Hsame in Hholds.
  exact Hholds.
Qed.

(** X30. [cache_flush] writes the held block back: after
    [cache_get_block] and the holder's stores into the buffer,
    [cache_flush] returns 0, the store has the new bytes at the
    position and every other block as before, no slot is held and the
    cache agrees with the store; a second [cache_flush] changes
    nothing. *)
Theorem cache_flush_writes_held_block c b pos d :
  coherent c b -> 0 <= pos -> pos mod CACHE_BLKSZ = 0 ->
  pos / CACHE_BLKSZ < 2 ^ 22 ->
  length d = Z.to_nat CACHE_BLKSZ ->
  exists i c1,
    cache_get_block c pos b = (0, Some i, c1, b) /\
    exists c2 b2,
      cache_flush (poke i d c1) b = Some (0, c2, b2) /\
      content b2 pos = d /\
      (forall pos', pos' <> pos -> content b2 pos' = content b pos') /\
      coherent c2 b2 /\ lock_owner c2 = -1 /\
      cache_flush c2 b2 = Some (0, c2, b2).
Proof.
  intros Hco Hpos Hal Hsmall Hd.
  destruct (cache_get_block_ok c b pos Hco Hpos Hal Hsmall)
    as (i & c1 & Hget & Hi & (s & Hs & Hid & Hdata) & Hco1 & Hown).
  exists i, c1. split; [exact Hget|].
  pose proof (lookup_lt_Some _ _ _ Hs) as Hlt.
  assert (Hpoked : cache_blocks (poke i d c1) !! i
                   = Some (mkSlot (block_id s) d (assign_num s))).
  { unfold poke. cbn [cache_blocks]. rewrite Hs.
    apply list_lookup_insert_eq. lia. }
  destruct (cache_release_block_ok (poke i d c1) b i _ true Hpoked)
    as (c2 & Hrel & Hkeys & Hfree).
  cbn [block_id sdata] in Hrel.
  rewrite Hid, (pos_as_int pos Hpos Hal Hsmall) in Hrel.
  destruct (write_block b pos d Hpos Hal Hd) as (Hsame & Hother).
  pose proof (poke_written_coherent c1 b i pos d s Hco1 Hs Hid Hpos Hal
                Hsmall Hd) as Hco2.
  apply (coherent_keys _ c2 _ Hkeys) in Hco2.
  eexists c2, _. split; [|split; [exact Hsame|split; [exact Hother|]]].
  - unfold cache_flush.
    change (lock_owner (poke i d c1)) with (lock_owner c1). rewrite Hown.
    unfold CACHE_BLOCK_AMMOUNT in Hi.
    replace (Z.of_nat i =? -1) with false by (symmetry; apply Z.eqb_neq; lia).
    replace (0 <=? Z.of_nat i) with true by (symmetry; apply Z.leb_le; lia).
    replace (Z.of_nat i <? Z.of_nat CACHE_BLOCK_AMMOUNT) with true
      by (symmetry; apply Z.ltb_lt; unfold CACHE_BLOCK_AMMOUNT; lia).
    cbn [andb]. rewrite Nat2Z.id, Hrel. reflexivity.
  - split; [exact Hco2|]. split; [exact Hfree|].
    unfold cache_flush. rewrite Hfree. reflexivity.
Qed.

End Store.

(** ** The ranks of the slots *)

(** The number of slots whose rank is not 0. *)
Definition nonzero (l : list slot) : Z :=
  fold_right (fun s n => if assign_num s =? 0 then n else n + 1) 0 l.

Definition rank_bit (s : slot) : Z := if assign_num s =? 0 then 0 else 1.

(** The ranks are between 0 and the number of ranked slots, and at most
    one slot has the highest rank there can be. *)
Definition ranked (l : list slot) : Prop :=
  (forall k s, l !! k = Some s -> 0 <= assign_num s <= nonzero l) /\
  (forall j k s t, l !! j = Some s -> l !! k = Some t ->
     assign_num s = nonzero l -> assign_num t = nonzero l ->
     nonzero l <> 0 -> j = k).

Lemma nonzero_cons s r :
  nonzero (s :: r) = if assign_num s =? 0 then nonzero r else nonzero r + 1.
Proof. reflexivity. Qed.

Lemma nonzero_range l : 0 <= nonzero l <= Z.of_nat (length l).
Proof.
  induction l as [|s r IH]; [cbn; lia|].
  rewrite nonzero_cons. cbn [length]. destruct (assign_num s =? 0); lia.
Qed.

Lemma small_int v : 0 <= v < 2 ^ 31 -> to_int v = v.
Proof. intros Hv. unfold to_int. rewrite Z.mod_small; lia. Qed.

(** The loop that counts [num_released_blocks]. *)
Lemma count_loop l : forall init,
  0 <= init -> init + Z.of_nat (length l) < 2 ^ 31 ->
  fold_left (fun n s => if assign_num s =? 0 then n else to_int (n + 1)) l init
  = init + nonzero l.
Proof.
  induction l as [|s r IH]; intros init H0 Hb; [cbn; lia|].
  rewrite nonzero_cons. cbn [fold_left length] in *.
  destruct (assign_num s =? 0).
  - apply IH; lia.
  - rewrite small_int by lia. rewrite IH by lia. lia.
Qed.

Lemma nonzero_insert l : forall i s t,
  l !! i = Some s ->
  nonzero (<[i := t]> l) = nonzero l - rank_bit s + rank_bit t.
Proof.
  induction l as [|a r IH]; intros [|i] s t Hs; cbn in Hs; try discriminate.
  - injection Hs as ->. change (<[0%nat := t]> (s :: r)) with (t :: r).
    rewrite !nonzero_cons. unfold rank_bit.
    destruct (assign_num s =? 0), (assign_num t =? 0); lia.
  - change (<[S i := t]> (a :: r)) with (a :: <[i := t]> r).
    rewrite !nonzero_cons, (IH i s t Hs).
    destruct (assign_num a =? 0); lia.
Qed.

Lemma nonzero_map f l :
  (forall s, In s l -> rank_bit (f s) = rank_bit s) ->
  nonzero (map f l) = nonzero l.
Proof.
  induction l as [|a r IH]; intros Hf; [reflexivity|].
  cbn [map]. rewrite !nonzero_cons.
  rewrite IH by (intros s Hs; apply Hf; right; exact Hs).
  pose proof (Hf a (or_introl eq_refl)) as Ha. unfold rank_bit in Ha.
  destruct (assign_num (f a) =? 0), (assign_num a =? 0); lia.
Qed.

(** A slot of the highest rank is strictly above every other slot. *)
Lemma top_above l i t :
  ranked l -> l !! i = Some t -> assign_num t = nonzero l ->
  assign_num t <> 0 ->
  forall k u, k <> i -> l !! k = Some u -> assign_num u < assign_num t.
Proof.
  intros (Hrange & Huniq) Ht Htop Hnz k u Hki Hu.
  pose proof (Hrange k u Hu) as Hr.
  destruct (Z.eq_dec (assign_num u) (nonzero l)) as [Heq | Hne]; [|lia].
  exfalso. apply Hki. apply (Huniq k i u t); congruence.
Qed.

(** The renumbering keeps the ranks in order and puts the slot just
    released on top. *)
Lemma renumber_top i l s :
  ranked l -> Z.of_nat (length l) + 1 < 2 ^ 31 -> l !! i = Some s ->
  ranked (renumber i l) /\
  exists t, renumber i l !! i = Some t /\
    assign_num t = nonzero (renumber i l) /\ assign_num t <> 0.
Proof.
  intros Hranked Hlen Hs. pose proof Hranked as (Hrange & Huniq).
  pose proof (nonzero_range l) as HN.
  pose proof (Hrange i s Hs) as Hmine.
  pose proof (lookup_lt_Some _ _ _ Hs) as Hi.
  unfold renumber. rewrite (nth_lookup_Some _ _ _ _ Hs).
  rewrite count_loop by (destruct (assign_num s =? 0); lia).
  destruct (assign_num s =? (if assign_num s =? 0 then 1 else 0) + nonzero l)
    eqn:Hsame.
  - (* already on top *)
    apply Z.eqb_eq in Hsame.
    destruct (assign_num s =? 0) eqn:Hz;
      [apply Z.eqb_eq in Hz; lia | apply Z.eqb_neq in Hz].
    split; [exact Hranked|]. exists s. split; [exact Hs|]. split; [lia | exact Hz].
  - apply Z.eqb_neq in Hsame.
    destruct (assign_num s =? 0) eqn:Hz.
    + (* first release of the slot *)
      apply Z.eqb_eq in Hz. rewrite Hs.
      set (new := mkSlot (block_id s) (sdata s) (1 + nonzero l)).
      assert (HN' : nonzero (<[i := new]> l) = 1 + nonzero l).
      { rewrite (nonzero_insert l i s new Hs). unfold rank_bit.
        cbn [assign_num new]. rewrite (proj2 (Z.eqb_eq _ _) Hz).
        destruct (1 + nonzero l =? 0) eqn:E; [apply Z.eqb_eq in E|]; lia. }
      assert (Hlook : forall k t, <[i := new]> l !! k = Some t ->
                (k = i /\ t = new) \/
                (k <> i /\ l !! k = Some t)).
      { intros k t Ht. destruct (Nat.eq_dec k i) as [-> | Hki].
        - rewrite list_lookup_insert_eq in Ht by lia. left. split; congruence.
        - rewrite list_lookup_insert_ne in Ht by congruence. right. auto. }
      split; [split|].
      * intros k t Ht. rewrite HN'.
        destruct (Hlook k t Ht) as [(_ & ->) | (_ & Hold)].
        -- cbn [assign_num new]. lia.
        -- pose proof (Hrange k t Hold). lia.
      * intros j k u v Hu Hv Eu Ev _. rewrite HN' in Eu, Ev.
        destruct (Hlook j u Hu) as [(-> & _) | (_ & Hold)];
          [|pose proof (Hrange j u Hold); lia].
        destruct (Hlook k v Hv) as [(-> & _) | (_ & Hold)];
          [reflexivity | pose proof (Hrange k v Hold); lia].
      * exists new. split; [apply list_lookup_insert_eq; lia|].
        rewrite HN'. cbn [assign_num new]. lia.
    + (* the slots above the lowest rank move down by one *)
      apply Z.eqb_neq in Hz.
      set (dec := fun s0 : slot =>
                    if 1 <? assign_num s0
                    then mkSlot (block_id s0) (sdata s0)
                                (to_int (assign_num s0 - 1))
                    else s0).
      assert (Hdec : forall u, 0 <= assign_num u <= nonzero l ->
                (assign_num (dec u) = assign_num u - 1 /\ 1 < assign_num u) \/
                (assign_num (dec u) = assign_num u /\ assign_num u <= 1)).
      { intros u Hu. unfold dec. destruct (1 <? assign_num u) eqn:E.
        - apply Z.ltb_lt in E. left. cbn [assign_num].
          rewrite small_int by lia. lia.
        - apply Z.ltb_ge in E. right. lia. }
      assert (Hmap : nonzero (map dec l) = nonzero l).
      { apply nonzero_map. intros u Hu.
        apply list_elem_of_In, list_elem_of_lookup_1 in Hu.
        destruct Hu as (k & Hk). pose proof (Hrange k u Hk) as Hr.
        unfold rank_bit.
        destruct (Hdec u Hr) as [(E & Hgt) | (E & _)]; rewrite E;
          [|reflexivity].
        destruct (assign_num u - 1 =? 0) eqn:E1;
          [apply Z.eqb_eq in E1; lia|].
        destruct (assign_num u =? 0) eqn:E2;
          [apply Z.eqb_eq in E2; lia | reflexivity]. }
      assert (Hsd : map dec l !! i = Some (dec s))
        by (change (map dec l) with (dec <$> l);
            rewrite list_lookup_fmap, Hs; reflexivity).
      rewrite Hsd.
      set (new := mkSlot (block_id (dec s)) (sdata (dec s)) (0 + nonzero l)).
      assert (HN' : nonzero (<[i := new]> (map dec l)) = nonzero l).
      { rewrite (nonzero_insert _ i (dec s) new Hsd), Hmap. unfold rank_bit.
        cbn [assign_num new].
        destruct (Hdec s Hmine) as [(E & Hgt) | (E & _)]; rewrite E.
        - destruct (assign_num s - 1 =? 0) eqn:E1;
            [apply Z.eqb_eq in E1; lia|].
          destruct (0 + nonzero l =? 0) eqn:E2;
            [apply Z.eqb_eq in E2; lia | lia].
        - destruct (assign_num s =? 0) eqn:E1;
            [apply Z.eqb_eq in E1; lia|].
          destruct (0 + nonzero l =? 0) eqn:E2;
            [apply Z.eqb_eq in E2; lia | lia]. }
      assert (Hlook : forall k t, <[i := new]> (map dec l) !! k = Some t ->
                (k = i /\ t = new) \/
                (k <> i /\ assign_num t < nonzero l /\ 0 <= assign_num t)).
      { intros k t Ht. destruct (Nat.eq_dec k i) as [-> | Hki].
        - rewrite list_lookup_insert_eq in Ht
            by (rewrite length_map; lia).
          left. split; congruence.
        - rewrite list_lookup_insert_ne in Ht by congruence. right.
          split; [exact Hki|].
          change (map dec l) with (dec <$> l) in Ht.
          rewrite list_lookup_fmap in Ht.
          destruct (l !! k) as [u|] eqn:Hu; cbn in Ht; [|discriminate].
          injection Ht as <-. pose proof (Hrange k u Hu) as Hr.
          destruct (Hdec u Hr) as [(E & Hgt) | (E & Hle)]; rewrite E; lia. }
      split; [split|].
      * intros k t Ht. rewrite HN'.
        destruct (Hlook k t Ht) as [(_ & ->) | (_ & Hlt & Hge)];
          [cbn [assign_num new]|]; lia.
      * intros j k u v Hu Hv Eu Ev _. rewrite HN' in Eu, Ev.
        destruct (Hlook j u Hu) as [(-> & _) | (_ & Hlt & _)]; [|lia].
        destruct (Hlook k v Hv) as [(-> & _) | (_ & Hlt & _)];
          [reflexivity | lia].
      * exists new. split;
          [apply list_lookup_insert_eq; rewrite length_map; lia|].
        rewrite HN'. cbn [assign_num new]. lia.
Qed.

(** The minimum the loop computes is below every rank. *)
Lemma min_assign_le l s : In s l -> min_assign l <= assign_num s.
Proof.
  unfold min_assign.
  assert (Hgen : forall r m,
            fold_left (fun m s => if assign_num s <? m
                                  then assign_num s else m) r m <= m /\
            forall t, In t r ->
              fold_left (fun m s => if assign_num s <? m
                                    then assign_num s else m) r m
              <= assign_num t).
  { induction r as [|a r IH]; intros m; cbn [fold_left].
    - split; [lia | intros t []].
    - destruct (IH (if assign_num a <? m then assign_num a else m))
        as (Hle & Hall).
      destruct (assign_num a <? m) eqn:E;
        [apply Z.ltb_lt in E | apply Z.ltb_ge in E].
      + split; [lia|]. intros t [<- | Ht]; [lia | apply Hall, Ht].
      + split; [lia|]. intros t [<- | Ht]; [lia | apply Hall, Ht]. }
  intros Hin. apply Hgen, Hin.
Qed.

(** Giving a slot another block keeps the ranks. *)
Lemma ranked_insert_same l j s t :
  l !! j = Some s -> assign_num t = assign_num s ->
  ranked l -> ranked (<[j := t]> l).
Proof.
  intros Hs Ha (Hrange & Huniq).
  pose proof (lookup_lt_Some _ _ _ Hs) as Hj.
  assert (HN : nonzero (<[j := t]> l) = nonzero l).
  { rewrite (nonzero_insert l j s t Hs). unfold rank_bit. rewrite Ha. lia. }
  assert (Hlook : forall k u, <[j := t]> l !! k = Some u ->
            exists u0, l !! k = Some u0 /\ assign_num u0 = assign_num u).
  { intros k u Hu. destruct (Nat.eq_dec k j) as [-> | Hkj].
    - rewrite list_lookup_insert_eq in Hu by lia. injection Hu as <-.
      exists s. auto.
    - rewrite list_lookup_insert_ne in Hu by congruence. eauto. }
  split.
  - intros k u Hu. rewrite HN. destruct (Hlook k u Hu) as (u0 & Hu0 & <-).
    apply (Hrange k u0 Hu0).
  - intros k1 k2 u v Hu Hv Eu Ev Hnz. rewrite HN in Eu, Ev, Hnz.
    destruct (Hlook k1 u Hu) as (u0 & Hu0 & Eu0).
    destruct (Hlook k2 v Hv) as (v0 & Hv0 & Ev0).
    apply (Huniq k1 k2 u0 v0); congruence.
Qed.

Lemma create_cache_ranked : ranked (cache_blocks create_cache).
Proof.
  assert (Hzero : forall k s, cache_blocks create_cache !! k = Some s ->
            assign_num s = 0).
  { intros k s Hs.
    apply list_elem_of_lookup_2, list_elem_of_In, repeat_spec in Hs.
    subst s. reflexivity. }
  pose proof (nonzero_range (cache_blocks create_cache)).
  split.
  - intros k s Hs. rewrite (Hzero k s Hs). lia.
  - intros j k s t Hs _ Es _ Hnz. rewrite (Hzero j s Hs) in Es. congruence.
Qed.

Section Eviction.
Context {B : Type} `{Backing B}.

Lemma fill_slot_ranked i pos c (b : B) s :
  cache_blocks c !! i = Some s -> ranked (cache_blocks c) ->
  exists c' b',
    fill_slot i pos c b = (0, Some i, c', b') /\ ranked (cache_blocks c').
Proof.
  intros Hs Hr. unfold fill_slot.
  destruct (ioreadat b pos CACHE_BLKSZ) as ((r & bytes) & b').
  rewrite Hs. eexists _, b'. split; [reflexivity|].
  unfold with_owner, lock_acquire. cbn [lock_held cache_blocks].
  destruct (lock_held c); cbn [cache_blocks];
    apply (ranked_insert_same _ i s); auto.
Qed.

(** X29. The slot released last is not the one the next miss evicts:
    when every slot holds a block and none holds the block asked for,
    [cache_get_block] after [cache_release_block] of slot [i] fills a
    slot other than [i], one of the lowest rank; both calls keep the
    ranks between 0 and the number of ranked slots with at most one
    slot on top. *)
Theorem released_slot_not_evicted c (b : B) i s dirty pos :
  ranked (cache_blocks c) ->
  length (cache_blocks c) = CACHE_BLOCK_AMMOUNT ->
  cache_blocks c !! i = Some s ->
  pos mod CACHE_BLKSZ = 0 ->
  Forall (fun t => block_id t <> -1 /\
                   wrap64 (block_id t) <> pos / CACHE_BLKSZ)
         (cache_blocks c) ->
  exists c1 b1,
    cache_release_block c (Some i) dirty b = Some (c1, b1) /\
    ranked (cache_blocks c1) /\
    exists j u c2 b2,
      cache_get_block c1 pos b1 = (0, Some j, c2, b2) /\
      j <> i /\
      cache_blocks c1 !! j = Some u /\
      (forall k t, cache_blocks c1 !! k = Some t ->
         assign_num u <= assign_num t) /\
      ranked (cache_blocks c2).
Proof.
  intros Hranked Hlen Hs Hal Hfull.
  destruct (cache_release_block_ok c b i s dirty Hs)
    as (c1 & Hrel & Hkeys & _).
  assert (Hblocks : cache_blocks c1 = renumber i (cache_blocks c)).
  { unfold cache_release_block in Hrel. rewrite Hs in Hrel.
    injection Hrel as <-. unfold lock_release. cbn [lock_count cache_blocks].
    destruct (lock_count c =? 0); reflexivity. }
  destruct (renumber_top i (cache_blocks c) s Hranked
              ltac:(rewrite Hlen; unfold CACHE_BLOCK_AMMOUNT; lia) Hs)
    as (Hranked1 & top & Htop & Htopn & Htopnz).
  rewrite <- Hblocks in Hranked1, Htop, Htopn.
  eexists c1, _. split; [exact Hrel|]. split; [exact Hranked1|].
  assert (Hlen1 : length (cache_blocks c1) = CACHE_BLOCK_AMMOUNT).
  { apply (f_equal length) in Hkeys. rewrite !length_fmap in Hkeys.
    congruence. }
  assert (Hfull1 : forall k t, cache_blocks c1 !! k = Some t ->
            block_id t <> -1 /\ wrap64 (block_id t) <> pos / CACHE_BLKSZ).
  { intros k t Ht.
    destruct (lookup_key _ _ _ _ Hkeys Ht) as (t0 & Ht0 & Hid & _).
    rewrite Forall_lookup in Hfull. rewrite <- Hid. apply (Hfull k t0 Ht0). }
  unfold cache_get_block. rewrite Hal. cbn [Z.eqb negb].
  destruct (first_slot (fun s0 => wrap64 (block_id s0) =? pos / CACHE_BLKSZ)
              (cache_blocks c1) 0) as [j|] eqn:Hhit.
  { exfalso. destruct (first_slot_some _ _ _ _ Hhit) as (_ & t & Ht & E & _).
    apply Z.eqb_eq in E. destruct (Hfull1 _ t Ht) as (_ & Hmiss).
    apply Hmiss. exact E. }
  destruct (first_slot (fun s0 => block_id s0 =? -1) (cache_blocks c1) 0)
    as [j|] eqn:Hfree.
  { exfalso. destruct (first_slot_some _ _ _ _ Hfree) as (_ & t & Ht & E & _).
    apply Z.eqb_eq in E. destruct (Hfull1 _ t Ht) as (Hused & _).
    apply Hused. exact E. }
  assert (Hne : cache_blocks c1 <> []).
  { intros He. rewrite He in Hlen1. discriminate Hlen1. }
  destruct (first_slot
              (fun s0 => assign_num s0 =? min_assign (cache_blocks c1))
              (cache_blocks c1) 0) as [j|] eqn:Hvictim.
  2:{ exfalso. revert Hvictim. apply first_slot_exists.
      eapply Exists_impl; [exact (min_assign_attained _ Hne)|].
      cbn. intros t ->. apply Z.eqb_refl. }
  destruct (first_slot_some _ _ _ _ Hvictim) as (_ & u & Hu & E & _).
  rewrite Nat.sub_0_r in Hu. apply Z.eqb_eq in E.
  destruct (fill_slot_ranked j pos c1
              (if dirty
               then snd (iowriteat b
                           (wrap64 (to_int (block_id s * CACHE_BLKSZ)))
                           (sdata s) CACHE_BLKSZ)
               else b) u Hu Hranked1) as (c2 & b2 & Hfill & Hranked2).
  exists j, u, c2, b2. split; [exact Hfill|].
  assert (Hleast : forall k t, cache_blocks c1 !! k = Some t ->
            assign_num u <= assign_num t).
  { intros k t Ht. rewrite E. apply min_assign_le.
    apply list_elem_of_In. apply (list_elem_of_lookup_2 _ k). exact Ht. }
  split; [|split; [exact Hu|split; [exact Hleast | exact Hranked2]]].
  (* another slot lies strictly below the one just released *)
  intros ->.
  assert (Hother : exists k v, k <> i /\ cache_blocks c1 !! k = Some v).
  { destruct (Nat.eq_dec i 0%nat) as [-> | Hi0].
    - destruct (lookup_lt_is_Some_2 (cache_blocks c1) 1%nat
                  ltac:(rewrite Hlen1; unfold CACHE_BLOCK_AMMOUNT; lia)) as (v & Hv).
      exists 1%nat, v. split; [lia | exact Hv].
    - destruct (lookup_lt_is_Some_2 (cache_blocks c1) 0%nat
                  ltac:(rewrite Hlen1; unfold CACHE_BLOCK_AMMOUNT; lia)) as (v & Hv).
      exists 0%nat, v. split; [lia | exact Hv]. }
  destruct Hother as (k & v & Hki & Hv).
  assert (u = top) by congruence. subst u.
  pose proof (top_above _ i top Hranked1 Htop Htopn Htopnz k v Hki Hv).
  pose proof (Hleast k v Hv). lia.
Qed.

End Eviction.

(** A block store to run the cache on: a block per position, absent
    ones read as zeros. *)
Definition store := Z -> list Z.

Definition block (b : store) (pos : Z) : list Z :=
  take (Z.to_nat CACHE_BLKSZ) (b pos ++ repeat 0 (Z.to_nat CACHE_BLKSZ)).

#[local] Instance store_backing : Backing store := {
  bk_readat := Some (fun b pos n => (n, take (Z.to_nat n) (block b pos), b));
  bk_writeat := Some (fun b pos buf n =>
    (n, fun p => if p =? pos then take (Z.to_nat n) buf else b p));
  bk_cntl := None
}.

Lemma block_length b pos : length (block b pos) = Z.to_nat CACHE_BLKSZ.
Proof.
  unfold block. rewrite length_take, length_app, repeat_length. lia.
Qed.

Lemma store_read b pos :
  0 <= pos -> pos mod CACHE_BLKSZ = 0 ->
  ioreadat b pos CACHE_BLKSZ = (CACHE_BLKSZ, block b pos, b).
Proof.
  intros _ _. unfold ioreadat. cbn.
  rewrite take_ge by (rewrite block_length; reflexivity). reflexivity.
Qed.

Lemma store_write (b : store) pos buf :
  0 <= pos -> pos mod CACHE_BLKSZ = 0 ->
  length buf = Z.to_nat CACHE_BLKSZ ->
  block (snd (iowriteat b pos buf CACHE_BLKSZ)) pos = buf /\
  forall pos', pos' <> pos ->
    block (snd (iowriteat b pos buf CACHE_BLKSZ)) pos' = block b pos'.
Proof.
  intros _ _ Hlen. unfold iowriteat, block. cbn [bk_writeat store_backing].
  change (CACHE_BLKSZ <? 0) with false. cbn [snd]. split.
  - rewrite Z.eqb_refl. rewrite (take_ge buf) by lia.
    rewrite take_app_le by lia. apply take_ge. lia.
  - intros pos' Hne. apply Z.eqb_neq in Hne. rewrite Hne. reflexivity.
Qed.

Lemma cache_get_block_returns_block_witness :
  exists i c1,
    cache_get_block create_cache 1024 (fun _ => []) = (0, Some i, c1, fun _ => []) /\
    holds c1 i 1024 (block (fun _ => []) 1024) /\
    exists c2,
      cache_release_block c1 (Some i) false (fun _ => [])
        = Some (c2, fun _ => []) /\
      coherent block c2 (fun _ => []) /\ lock_owner c2 = -1.
Proof.
  apply (cache_get_block_returns_block block block_length store_read
           create_cache (fun _ => []) 1024).
  - apply create_cache_coherent.
  - lia.
  - reflexivity.
  - vm_compute. reflexivity.
Defined.

Lemma cache_release_dirty_writes_through_witness :
  exists i c1,
    cache_get_block create_cache 1024 (fun _ => []) = (0, Some i, c1, fun _ => []) /\
    exists c2 b2,
      cache_release_block (poke i (repeat 7 512) c1) (Some i) true
        (fun _ => []) = Some (c2, b2) /\
      block b2 1024 = repeat 7 512 /\
      (forall pos', pos' <> 1024 -> block b2 pos' = block (fun _ => []) pos') /\
      coherent block c2 b2 /\
      exists j c3,
        cache_get_block c2 1024 b2 = (0, Some j, c3, b2) /\
        holds c3 j 1024 (repeat 7 512).
Proof.
  apply (cache_release_dirty_writes_through block block_length store_read
           store_write create_cache (fun _ => []) 1024 (repeat 7 512)).
  - apply create_cache_coherent.
  - lia.
  - reflexivity.
  - vm_compute. reflexivity.
  - apply repeat_length.
Defined.

(** Every slot holds a block and none has been released yet. *)
Definition full_cache : cache :=
  mkCache
    (map (fun k => mkSlot (Z.of_nat k) (repeat 0 (Z.to_nat CACHE_BLKSZ)) 0)
         (seq 0 CACHE_BLOCK_AMMOUNT))
    (-1) false 0.

Lemma full_cache_slot k s :
  cache_blocks full_cache !! k = Some s ->
  (k < CACHE_BLOCK_AMMOUNT)%nat /\ block_id s = Z.of_nat k /\
  assign_num s = 0.
Proof.
  unfold full_cache. cbn [cache_blocks]. intros Hs.
  change (map ?f ?l) with (f <$> l) in Hs. rewrite list_lookup_fmap in Hs.
  destruct (seq 0 CACHE_BLOCK_AMMOUNT !! k) as [n|] eqn:Hn; cbn in Hs;
    [|discriminate].
  injection Hs as <-. apply lookup_seq in Hn. destruct Hn as (-> & Hk).
  cbn [block_id assign_num]. auto.
Qed.

Lemma full_cache_ranked : ranked (cache_blocks full_cache).
Proof.
  pose proof (nonzero_range (cache_blocks full_cache)).
  split.
  - intros k s Hs. destruct (full_cache_slot k s Hs) as (_ & _ & ->). lia.
  - intros j k s t Hs _ Es _ Hnz.
    destruct (full_cache_slot j s Hs) as (_ & _ & Ez). congruence.
Qed.

Lemma released_slot_not_evicted_witness :
  exists c1 b1,
    cache_release_block full_cache (Some 5%nat) false (fun _ : Z => @nil Z)
      = Some (c1, b1) /\
    ranked (cache_blocks c1) /\
    exists j u c2 b2,
      cache_get_block c1 51200 b1 = (0, Some j, c2, b2) /\
      j <> 5%nat /\
      cache_blocks c1 !! j = Some u /\
      (forall k t, cache_blocks c1 !! k = Some t ->
         assign_num u <= assign_num t) /\
      ranked (cache_blocks c2).
Proof.
  apply (released_slot_not_evicted full_cache (fun _ : Z => @nil Z) 5
           (mkSlot 5 (repeat 0 (Z.to_nat CACHE_BLKSZ)) 0) false 51200).
  - apply full_cache_ranked.
  - reflexivity.
  - reflexivity.
  - reflexivity.
  - apply Forall_lookup. intros k s Hs.
    destruct (full_cache_slot k s Hs) as (Hk & -> & _).
    unfold CACHE_BLOCK_AMMOUNT in Hk. unfold wrap64.
    rewrite Z.mod_small by lia.
    change (51200 / CACHE_BLKSZ) with 100. lia.
Defined.

Lemma cache_flush_writes_held_block_witness :
  exists i c1,
    cache_get_block create_cache 2048 (fun _ => []) = (0, Some i, c1, fun _ => []) /\
    exists c2 b2,
      cache_flush (poke i (repeat 9 512) c1) (fun _ => []) = Some (0, c2, b2) /\
      block b2 2048 = repeat 9 512 /\
      (forall pos', pos' <> 2048 -> block b2 pos' = block (fun _ => []) pos') /\
      coherent block c2 b2 /\ lock_owner c2 = -1 /\
      cache_flush c2 b2 = Some (0, c2, b2).
Proof.
  apply (cache_flush_writes_held_block block block_length store_read
           store_write create_cache (fun _ => []) 2048 (repeat 9 512)).
  - apply create_cache_coherent.
  - lia.
  - reflexivity.
  - vm_compute. reflexivity.
  - apply repeat_length.
Defined.

(** After the release of slot 5 of the full cache, a miss takes slot 0. *)
Example full_cache_sample :
  match cache_release_block full_cache (Some 5%nat) false
          (fun _ : Z => @nil Z) with
  | Some (c1, b1) => snd (fst (fst (cache_get_block c1 51200 b1)))
  | None => None
  end = Some 0%nat.
Proof. vm_compute. reflexivity. Qed.

End CacheSpec.
